(** * KnightSprint++ : the deterministic game engine, embedded and verified

    A shallow embedding of [docs/state.js] (seeded generator, board
    utilities, state factory, move resolution, evaluation), of the strategy
    layer of [ai.js] and of the loop of [game.js] that submits the intents
    of the computer players, followed by the properties proved about them.

    Conventions of the embedding.
    - JavaScript numbers that the engine uses as integers (coordinates, ids,
      scores, sizes, cell markers) are [Z]; 32-bit coercions are written out.
    - An array read out of range yields [undefined]; reading a property of
      [undefined] raises a [TypeError].  Fallible code returns [outcome].
    - Objects mutated through aliases (the player objects reachable from both
      [s.players] and the filtered [alive] array, the shared [visited] grid)
      live in an explicit store and are addressed by index.
    - [Map] and [Set] are stdpp's [gmap] and [gset]. *)

From Stdlib Require Import ZArith QArith Qround PrimFloat Uint63 Ascii.
From stdpp Require Import gmap strings list pretty.

Local Open Scope Z_scope.

(* ===================================================================== *)
(** * Outcomes of fallible code                                            *)
(* ===================================================================== *)

(** [TypeError] is the exception JavaScript raises on [undefined[k]].
    [OutOfModel] marks an array write that would leave the dense-array
    representation used here (an assignment past the end of a row, which in
    JavaScript grows the row, or at a negative index, which adds a property);
    the engine in [state.js] is shown never to reach it. *)
Inductive outcome (A : Type) : Type :=
  | Ok (a : A)
  | TypeError
  | OutOfModel.
Arguments Ok {A} a.
Arguments TypeError {A}.
Arguments OutOfModel {A}.

Global Instance outcome_ret : MRet outcome := fun _ a => Ok a.
Global Instance outcome_bind : MBind outcome := fun _ _ k m =>
  match m with
  | Ok a => k a
  | TypeError => TypeError
  | OutOfModel => OutOfModel
  end.

(** A monadic left fold: the shape of every [for (... of ...)] loop whose
    body may raise. *)
Fixpoint ofoldl {A B} (f : A -> B -> outcome A) (a : A) (l : list B) : outcome A :=
  match l with
  | [] => Ok a
  | b :: l' => a' ← f a b; ofoldl f a' l'
  end.

(* ===================================================================== *)
(** * 32-bit integer coercions and the seeded generator (state.js 47-55)   *)
(* ===================================================================== *)

Module Rng.

Definition two32 : Z := 4294967296.

(** ECMAScript [ToInt32] and [ToUint32] on an integer. *)
Definition toInt32 (z : Z) : Z := (z + 2147483648) mod two32 - 2147483648.
Definition toUint32 (z : Z) : Z := z mod two32.

(** [a | b], [a ^ b], [a << n], [a >>> n]. *)
Definition js_or (a b : Z) : Z := Z.lor (toInt32 a) (toInt32 b).
Definition js_xor (a b : Z) : Z := Z.lxor (toInt32 a) (toInt32 b).
Definition js_shl (a n : Z) : Z := toInt32 (Z.shiftl (toInt32 a) (n mod 32)).
Definition js_ushr (a n : Z) : Z := Z.shiftr (toUint32 a) (n mod 32).

(** [let x = (seed | 0) || 1;] : the state captured by the closure. *)
Definition makeRng (seed : Z) : Z :=
  let s := js_or seed 0 in
  if s =? 0 then 1 else s.

(** The three assignments of the closure body. *)
Definition advance (x : Z) : Z :=
  let x1 := js_xor x (js_shl x 13) in
  let x2 := js_xor x1 (js_ushr x1 17) in
  js_xor x2 (js_shl x2 5).

(** One call of the closure: the returned number and the new captured
    state.  [(x >>> 0) / 4294967296] divides an integer below 2^32 by a
    power of two, which is exact in binary64, so the quotient is kept as an
    exact (unreduced) rational. *)
Definition call (x : Z) : Q * Z :=
  let x' := advance x in
  (Qmake (js_ushr x' 0) 4294967296, x').

(** The outputs of the first [n] calls on a generator in state [x]. *)
Fixpoint outputs (n : nat) (x : Z) : list Q :=
  match n with
  | O => []
  | S n' => let '(v, x') := call x in v :: outputs n' x'
  end.

(** The textbook xorshift32 on an unsigned 32-bit word, written from the
    description "left 13, unsigned right 17, left 5 over 32-bit state". *)
Definition xorshift32 (u : Z) : Z :=
  let u1 := Z.lxor u (Z.shiftl u 13 mod two32) in
  let u2 := Z.lxor u1 (Z.shiftr u1 17) in
  Z.lxor u2 (Z.shiftl u2 5 mod two32).

(** The unsigned seed word: the seed modulo 2^32, zero replaced by one. *)
Definition seed_word (seed : Z) : Z :=
  if seed mod two32 =? 0 then 1 else seed mod two32.

(** The [k]-th word of the textbook generator started on [u]. *)
Fixpoint word_at (k : nat) (u : Z) : Z :=
  match k with
  | O => xorshift32 u
  | S k' => word_at k' (xorshift32 u)
  end.

End Rng.

(* ===================================================================== *)
(** * Constants and board utilities (state.js 11-85)                       *)
(* ===================================================================== *)

Module CELL.
Definition EMPTY : Z := 0.
Definition BLOCKED : Z := 1.
Definition OBSTACLE : Z := 2.
End CELL.

Inductive Phase := SETUP | SELECT | RESOLVE | ANIMATE | EVAL | GAMEOVER.
Inductive Status := ALIVE | ELIMINATED | WINNER.

Global Instance Phase_eq_dec : EqDecision Phase.
Proof. solve_decision. Defined.
Global Instance Status_eq_dec : EqDecision Status.
Proof. solve_decision. Defined.

Definition KNIGHT_MOVES : list (Z * Z) :=
  [(-2,-1); (-2,1); (-1,-2); (-1,2); (1,-2); (1,2); (2,-1); (2,1)].

Definition inBounds (r c size : Z) : bool :=
  (0 <=? r) && (r <? size) && (0 <=? c) && (c <? size).

(** [`${r},${c}`] : the decimal rendering of both integers around a comma. *)
Definition cellKey (r c : Z) : string := pretty r +:+ "," +:+ pretty c.

(** The grid: an array of rows of numbers. *)
Abbreviation Grid := (list (list Z)).

(** [a[i]] on an array: the element, or [undefined] ([None]). *)
Definition js_index {A} (a : list A) (i : Z) : option A :=
  if 0 <=? i then a !! Z.to_nat i else None.

(** [visited[r][c]] : raises when [visited[r]] is [undefined]. *)
Definition grid_get (g : Grid) (r c : Z) : outcome (option Z) :=
  match js_index g r with
  | None => TypeError
  | Some row => Ok (js_index row c)
  end.

(** [visited[r][c] = v]. *)
Definition grid_set (g : Grid) (r c : Z) (v : Z) : outcome Grid :=
  match js_index g r with
  | None => TypeError
  | Some row =>
      match js_index row c with
      | None => OutOfModel
      | Some _ => Ok (<[Z.to_nat r := <[Z.to_nat c := v]> row]> g)
      end
  end.

(** Body of the loop of [getLegalMoves]: the guard short-circuits, so the
    grid is read only at in-bounds candidates. *)
Definition legal_step (r c size : Z) (visited : Grid)
    (moves : list (Z * Z)) (off : Z * Z) : outcome (list (Z * Z)) :=
  let nr := r + off.1 in
  let nc := c + off.2 in
  if inBounds nr nc size then
    v ← grid_get visited nr nc;
    if decide (v = Some CELL.EMPTY) then Ok (moves ++ [(nr, nc)])
    else Ok moves
  else Ok moves.

Definition getLegalMoves (r c size : Z) (visited : Grid) : outcome (list (Z * Z)) :=
  ofoldl (legal_step r c size visited) [] KNIGHT_MOVES.

Definition countMobility (r c size : Z) (visited : Grid) : outcome Z :=
  moves ← getLegalMoves r c size visited; Ok (Z.of_nat (length moves)).

Definition isOccupied (v : Z) : bool := negb (v =? CELL.EMPTY).

Definition makeGrid (size : Z) : Grid :=
  replicate (Z.to_nat size) (replicate (Z.to_nat size) CELL.EMPTY).

(** What a guarded read [visited[r] && visited[r][c]] would see: the cell,
    or [None] when either index is out of range. *)
Definition cell (g : Grid) (r c : Z) : option Z :=
  rw ← js_index g r; js_index rw c.

(** The legal destinations as the board rules word them: the knight offsets
    from [(r, c)], in enumeration order, that are in bounds and EMPTY. *)
Definition legal_dests (r c size : Z) (g : Grid) : list (Z * Z) :=
  filter (fun d => inBounds d.1 d.2 size = true ∧ cell g d.1 d.2 = Some CELL.EMPTY)
         ((fun o => (r + o.1, c + o.2)) <$> KNIGHT_MOVES).

(** Every row index below [size] exists in the grid. *)
Definition rows_cover (size : Z) (g : Grid) : Prop :=
  size <= Z.of_nat (length g).

(* ===================================================================== *)
(** * Game state (state.js 96-222)                                         *)
(* ===================================================================== *)

(** The colour palettes are presentation data; only their index is kept. *)
Definition PLAYER_PALETTES : list Z := [0; 1; 2; 3].

Record PlayerState := mkPlayer {
  pid : Z;                      (* the [id] field *)
  isHuman : bool;
  status : Status;
  row : Z;
  col : Z;
  score : Z;
  palette : option Z;
  aiStrategy : option string;
}.

Record Ruleset := mkRuleset {
  timerSeconds : Z;
  obstacleCount : Z;
  fogOfWar : bool;
  shrinkBoard : bool;
}.

(** The [ruleset] argument of [initState]: every key is optional. *)
Record RulesetArg := mkRulesetArg {
  arg_timerSeconds : option Z;
  arg_obstacleCount : option Z;
  arg_fogOfWar : option bool;
  arg_shrinkBoard : option bool;
}.

Record MoveRecord := mkMoveRecord {
  mv_pid : Z;
  mv_from : Z * Z;
  mv_to : Z * Z;
}.

Record TurnRecord := mkTurnRecord {
  tr_turn : Z;
  tr_moves : list MoveRecord;
}.

Inductive Event :=
  | EvMove (p : Z) (from to : Z * Z)
  | EvCollision (square : Z * Z)          (* [players] is always [[]] *)
  | EvBlocked (p : Z) (square : Z * Z)
  | EvElimination (p : Z) (sc : Z)
  | EvWinner (p : Z).

Global Instance Event_eq_dec : EqDecision Event.
Proof. solve_decision. Defined.

(** [rng] is the captured word of the generator closure.  The closure is
    shared by every clone of a state; as the engine keeps one current state,
    the word travels with it. *)
Record GameState := mkState {
  boardSize : Z;
  seed : Z;
  turn : Z;
  phase : Phase;
  players : list PlayerState;
  visited : Grid;
  obstacles : list (Z * Z);
  pendingMoves : gmap Z (Z * Z);
  ruleset : Ruleset;
  rng : Z;
  history : list TurnRecord;
}.

Definition set_phase (ph : Phase) (s : GameState) : GameState :=
  mkState (boardSize s) (seed s) (turn s) ph (players s) (visited s)
          (obstacles s) (pendingMoves s) (ruleset s) (rng s) (history s).

Definition set_players (ps : list PlayerState) (s : GameState) : GameState :=
  mkState (boardSize s) (seed s) (turn s) (phase s) ps (visited s)
          (obstacles s) (pendingMoves s) (ruleset s) (rng s) (history s).

Definition set_status (st : Status) (p : PlayerState) : PlayerState :=
  mkPlayer (pid p) (isHuman p) st (row p) (col p) (score p) (palette p) (aiStrategy p).

(** [cloneState]: fresh copies of the player objects, of the rows, of the
    map, of the obstacle pairs and of the history array. *)
Definition cloneState (state : GameState) : GameState :=
  {| boardSize := boardSize state;
     seed := seed state;
     turn := turn state;
     phase := phase state;
     players := (fun p => p) <$> players state;
     visited := (fun rw => rw) <$> visited state;
     pendingMoves := pendingMoves state;
     ruleset := ruleset state;
     rng := rng state;
     obstacles := (fun o => o) <$> obstacles state;
     history := history state |}.

(** [a.slice(0, n)]. *)
Definition js_slice0 {A} (a : list A) (n : Z) : list A :=
  let len := Z.of_nat (length a) in
  let stop := if n <? 0 then Z.max (len + n) 0 else Z.min n len in
  take (Z.to_nat stop) a.

Definition start_corners (size : Z) : list (Z * Z) :=
  let pad := size / 5 in
  [ (pad, pad);
    (size - 1 - pad, size - 1 - pad);
    (pad, size - 1 - pad);
    (size - 1 - pad, pad) ].

Definition defaultStartPositions (n size : Z) : list (Z * Z) :=
  js_slice0 (start_corners size) n.

(** [Math.floor(rng() * size)].  The product of a 32-bit fraction and an
    integer size below 2^21 is exact in binary64, so the floor is the
    integer quotient. *)
Definition draw_index (x size : Z) : Z * Z :=
  let '(v, x') := Rng.call x in
  (Qfloor (v * inject_Z size)%Q, x').

(** The protected keys: the start cells and every knight offset from them. *)
Definition protected_keys (startPositions : list (Z * Z)) : gset string :=
  foldl (fun occ '(r, c) =>
           foldl (fun occ' '(dr, dc) => occ' ∪ {[ cellKey (r + dr) (c + dc) ]})
                 occ KNIGHT_MOVES)
        (list_to_set ((fun '(r, c) => cellKey r c) <$> startPositions))
        startPositions.

(** The [while] loop of [placeObstacles]; [budget] is [2000 - attempts]. *)
Fixpoint place_loop (budget : nat) (size count : Z)
    (obs : list (Z * Z)) (occupied : gset string) (x : Z)
    : list (Z * Z) * Z :=
  match budget with
  | O => (obs, x)
  | S budget' =>
      if Z.of_nat (length obs) <? count then
        let '(r, x1) := draw_index x size in
        let '(c, x2) := draw_index x1 size in
        let k := cellKey r c in
        if decide (k ∈ occupied)
        then place_loop budget' size count obs occupied x2
        else place_loop budget' size count (obs ++ [(r, c)]) (occupied ∪ {[ k ]}) x2
      else (obs, x)
  end.

Definition placeObstacles (size x : Z) (startPositions : list (Z * Z)) (count : Z)
    : list (Z * Z) * Z :=
  place_loop 2000 size count [] (protected_keys startPositions) x.

Record Config := mkConfig {
  cfg_boardSize : Z;
  cfg_seed : Z;
  cfg_playerCount : Z;
  cfg_cpuCount : Z;
  cfg_ruleset : RulesetArg;
}.

Definition no_rules : RulesetArg := mkRulesetArg None None None None.

(** [initState()] with every argument defaulted. *)
Definition default_config : Config := mkConfig 8 42 2 1 no_rules.

Definition merge_rules (a : RulesetArg) : Ruleset :=
  {| timerSeconds := default 0 (arg_timerSeconds a);
     obstacleCount := default 0 (arg_obstacleCount a);
     fogOfWar := default false (arg_fogOfWar a);
     shrinkBoard := default false (arg_shrinkBoard a) |}.

(** The integers [0, 1, ..., n-1] a counting [for] loop visits. *)
Definition upto (n : Z) : list Z := Z.of_nat <$> seq 0 (Z.to_nat n).

Definition new_player (humanCount : Z) (i : Z) (start : Z * Z) : PlayerState :=
  {| pid := i;
     isHuman := i <? humanCount;
     status := ALIVE;
     row := start.1;
     col := start.2;
     score := 1;
     palette := js_index PLAYER_PALETTES i;
     aiStrategy :=
       if i =? 0 then None
       else if i mod 2 =? 1 then Some "mobility" else Some "aggressor" |}.

(** Body of the loop that builds the player list: [starts[i][0]] raises
    when [starts[i]] is [undefined]. *)
Definition push_player (humanCount : Z) (starts : list (Z * Z))
    (ps : list PlayerState) (i : Z) : outcome (list PlayerState) :=
  match js_index starts i with
  | None => TypeError
  | Some start => Ok (ps ++ [new_player humanCount i start])
  end.

Definition initState (cfg : Config) : outcome GameState :=
  let x0 := Rng.makeRng (cfg_seed cfg) in
  let size := cfg_boardSize cfg in
  let rules := merge_rules (cfg_ruleset cfg) in
  let humanCount := Z.max 1 (cfg_playerCount cfg - cfg_cpuCount cfg) in
  let starts := defaultStartPositions (cfg_playerCount cfg) size in
  ps ← ofoldl (push_player humanCount starts) [] (upto (cfg_playerCount cfg));
  v1 ← ofoldl (fun v p => grid_set v (row p) (col p) CELL.BLOCKED)
              (makeGrid size) ps;
  let '(obstacleList, x1) := placeObstacles size x0 starts (obstacleCount rules) in
  v2 ← ofoldl (fun v '(r, c) => grid_set v r c CELL.OBSTACLE) v1 obstacleList;
  Ok {| boardSize := size;
        seed := cfg_seed cfg;
        turn := 0;
        phase := SELECT;
        players := ps;
        visited := v2;
        obstacles := obstacleList;
        pendingMoves := ∅;
        ruleset := rules;
        rng := x1;
        history := [] |}.

(* ===================================================================== *)
(** * Move submission and resolution (state.js 230-301)                    *)
(* ===================================================================== *)

Definition submitMove (state : GameState) (playerId r c : Z) : GameState :=
  let s := cloneState state in
  mkState (boardSize s) (seed s) (turn s) (phase s) (players s) (visited s)
          (obstacles s) (<[playerId := (r, c)]> (pendingMoves s))
          (ruleset s) (rng s) (history s).

(** [s.players.filter(p => p.status === ALIVE)]: the filtered array holds
    the very objects of [s.players], so it is a list of references (indices)
    into the player store. *)
Definition alive_refs (ps : list PlayerState) : list nat :=
  filter (fun i => status <$> ps !! i = Some ALIVE) (seq 0 (length ps)).

(** First loop: [intended], the pending moves of the living players. *)
Definition collect_intended (ps : list PlayerState) (pending : gmap Z (Z * Z))
    (alive : list nat) : gmap Z (Z * Z) :=
  foldl (fun intended i =>
           match ps !! i with
           | Some p =>
               match pending !! pid p with
               | Some move => <[pid p := move]> intended
               | None => intended
               end
           | None => intended
           end)
        ∅ alive.

(** Second loop: [destCount], one increment per entry of [intended].  The
    counts do not depend on the order in which the entries are visited. *)
Definition bump_dest (dest : Z * Z) (destCount : gmap string Z) : gmap string Z :=
  let k := cellKey dest.1 dest.2 in
  <[k := default 0 (destCount !! k) + 1]> destCount.

Definition count_dests (intended : gmap Z (Z * Z)) : gmap string Z :=
  map_fold (fun _ dest destCount => bump_dest dest destCount) ∅ intended.

(** The part of the cloned state that the third loop mutates, with the
    event list and the move list of the turn record. *)
Record Resolving := mkResolving {
  rs_players : list PlayerState;
  rs_visited : Grid;
  rs_events : list Event;
  rs_moves : list MoveRecord;
}.

Definition move_player (nr nc : Z) (p : PlayerState) : PlayerState :=
  mkPlayer (pid p) (isHuman p) (status p) nr nc (score p + 1) (palette p) (aiStrategy p).

(** Body of the third loop for the player object referenced by [i]. *)
Definition resolve_player (intended : gmap Z (Z * Z)) (destCount : gmap string Z)
    (s : Resolving) (i : nat) : outcome Resolving :=
  match rs_players s !! i with
  | None => Ok s
  | Some p =>
      match intended !! pid p with
      | None => Ok s
      | Some (nr, nc) =>
          let k := cellKey nr nc in
          if decide (1 < default 0 (destCount !! k)) then
            Ok (mkResolving (rs_players s) (rs_visited s)
                            (rs_events s ++ [EvCollision (nr, nc)]) (rs_moves s))
          else
            v ← grid_get (rs_visited s) nr nc;
            if decide (v ≠ Some CELL.EMPTY) then
              Ok (mkResolving (rs_players s) (rs_visited s)
                              (rs_events s ++ [EvBlocked (pid p) (nr, nc)]) (rs_moves s))
            else
              let from := (row p, col p) in
              visited' ← grid_set (rs_visited s) nr nc CELL.BLOCKED;
              Ok (mkResolving (<[i := move_player nr nc p]> (rs_players s))
                              visited'
                              (rs_events s ++ [EvMove (pid p) from (nr, nc)])
                              (rs_moves s ++ [mkMoveRecord (pid p) from (nr, nc)]))
      end
  end.

Definition resolveTurn (state : GameState) : outcome (GameState * list Event) :=
  let s := cloneState state in
  let alive := alive_refs (players s) in
  let intended := collect_intended (players s) (pendingMoves s) alive in
  let destCount := count_dests intended in
  r ← ofoldl (resolve_player intended destCount)
             (mkResolving (players s) (visited s) [] []) alive;
  Ok ({| boardSize := boardSize s;
         seed := seed s;
         turn := turn s + 1;
         phase := EVAL;
         players := rs_players r;
         visited := rs_visited r;
         obstacles := obstacles s;
         pendingMoves := ∅;
         ruleset := ruleset s;
         rng := rng s;
         history := history s ++ [mkTurnRecord (turn s) (rs_moves r)] |},
      rs_events r).

(* ===================================================================== *)
(** * Evaluation (state.js 306-342)                                        *)
(* ===================================================================== *)

(** Body of the elimination loop for the player object referenced by [i]. *)
Definition eliminate_player (size : Z) (g : Grid)
    (acc : list PlayerState * list Event) (i : nat)
    : outcome (list PlayerState * list Event) :=
  match acc.1 !! i with
  | None => Ok acc
  | Some p =>
      moves ← getLegalMoves (row p) (col p) size g;
      if decide (length moves = 0%nat) then
        Ok (<[i := set_status ELIMINATED p]> acc.1,
            acc.2 ++ [EvElimination (pid p) (score p)])
      else Ok acc
  end.

(** [Math.max(...scores)]; [None] is the [-Infinity] of an empty list. *)
Definition max_score (ps : list PlayerState) : option Z :=
  foldl (fun m p => Some (match m with
                          | None => score p
                          | Some a => Z.max a (score p)
                          end))
        None ps.

(** Body of the loop that crowns every top scorer. *)
Definition crown_player (maxScore : option Z)
    (acc : list PlayerState * list Event) (i : nat)
    : list PlayerState * list Event :=
  match acc.1 !! i with
  | None => acc
  | Some p =>
      if decide (Some (score p) = maxScore) then
        (<[i := set_status WINNER p]> acc.1, acc.2 ++ [EvWinner (pid p)])
      else acc
  end.

Definition evaluateState (state : GameState) : outcome (GameState * list Event) :=
  let s := cloneState state in
  let alive := alive_refs (players s) in
  '(ps1, ev1) ← ofoldl (eliminate_player (boardSize s) (visited s))
                       (players s, []) alive;
  let stillAlive := alive_refs ps1 in
  if decide (length stillAlive ≤ 1)%nat then
    let '(ps2, ev2) :=
      match stillAlive with
      | [i] =>
          match ps1 !! i with
          | Some p => (<[i := set_status WINNER p]> ps1, ev1 ++ [EvWinner (pid p)])
          | None => (ps1, ev1)
          end
      | _ =>
          foldl (crown_player (max_score ps1)) (ps1, ev1) (seq 0 (length ps1))
      end in
    Ok (set_phase GAMEOVER (set_players ps2 s), ev2)
  else
    Ok (set_phase SELECT (set_players ps1 s), ev1).

(** One round as the orchestrator plays it: the submissions of the round,
    then [resolveTurn], then [evaluateState]. *)
Definition submit_all (s : GameState) (intents : list (Z * Z * Z)) : GameState :=
  foldl (fun s '(playerId, r, c) => submitMove s playerId r c) s intents.

Definition play_round (s : GameState) (intents : list (Z * Z * Z))
    : outcome (GameState * list Event) :=
  '(s1, ev1) ← resolveTurn (submit_all s intents);
  '(s2, ev2) ← evaluateState s1;
  Ok (s2, ev1 ++ ev2).

(* ===================================================================== *)
(** * Strategy layer (ai.js)                                               *)
(* ===================================================================== *)

(** A strategy receives the live [state] object: it reads and writes
    [state.visited] in place and advances the shared generator.  Such code
    is a state transformer over the game state that may raise. *)
Definition AI (A : Type) : Type := GameState -> outcome (A * GameState).

Definition ai_ret {A} (a : A) : AI A := fun s => Ok (a, s).

Definition ai_bind {A B} (m : AI A) (k : A -> AI B) : AI B :=
  fun s => match m s with
           | Ok (a, s') => k a s'
           | TypeError => TypeError
           | OutOfModel => OutOfModel
           end.

Notation "x <~ m ; k" := (ai_bind m (fun x => k))
  (at level 20, m at level 100, k at level 200, right associativity,
   format "x  <~  m ;  '/' k").

Fixpoint ai_foldl {A B} (f : A -> B -> AI A) (a : A) (l : list B) : AI A :=
  match l with
  | [] => ai_ret a
  | b :: l' => a' <~ f a b ; ai_foldl f a' l'
  end.

Definition set_visited (g : Grid) (s : GameState) : GameState :=
  mkState (boardSize s) (seed s) (turn s) (phase s) (players s) g
          (obstacles s) (pendingMoves s) (ruleset s) (rng s) (history s).

Definition set_rng (x : Z) (s : GameState) : GameState :=
  mkState (boardSize s) (seed s) (turn s) (phase s) (players s) (visited s)
          (obstacles s) (pendingMoves s) (ruleset s) x (history s).

(** [state.visited[r][c]] *)
Definition ai_read (r c : Z) : AI (option Z) :=
  fun s => v ← grid_get (visited s) r c; Ok (v, s).

(** [state.visited[r][c] = v], where [v] may be [undefined] (a saved cell
    that was read out of range). *)
Definition ai_write (r c : Z) (v : option Z) : AI unit :=
  fun s =>
    match v with
    | Some n => g ← grid_set (visited s) r c n; Ok (tt, set_visited g s)
    | None =>
        match js_index (visited s) r with
        | None => TypeError
        | Some _ => OutOfModel
        end
    end.

(** [countMobility(r, c, state.boardSize, state.visited)] *)
Definition ai_mobility (r c : Z) : AI Z :=
  fun s => n ← countMobility r c (boardSize s) (visited s); Ok (n, s).

(** [state.rng()] *)
Definition ai_rng : AI Q :=
  fun s => let '(v, x') := Rng.call (rng s) in Ok (v, set_rng x' s).

(** [state.rng() > 0.5] *)
Definition over_half (v : Q) : bool :=
  match (1 # 2 ?= v)%Q with Lt => true | _ => false end.

Definition scoreMobility (r c : Z) : AI Z :=
  orig <~ ai_read r c ;
  _ <~ ai_write r c (Some 1) ;
  mobility <~ ai_mobility r c ;
  _ <~ ai_write r c orig ;
  ai_ret mobility.

Definition getOpponents (state : GameState) (playerId : Z) : list PlayerState :=
  filter (fun p => pid p ≠ playerId ∧ status p = ALIVE) (players state).

(** [best || moves[0]] *)
Definition best_or_first (best : option (Z * Z)) (moves : list (Z * Z))
    : option (Z * Z) :=
  match best with
  | Some b => Some b
  | None => head moves
  end.

Abbreviation Strategy := (PlayerState -> list (Z * Z) -> AI (option (Z * Z))).

(** ** mobility *)
Definition mobility_step (acc : option (Z * Z) * Z) (m : Z * Z)
    : AI (option (Z * Z) * Z) :=
  let '(best, bestScore) := acc in
  let '(r, c) := m in
  mob <~ scoreMobility r c ;
  if decide (bestScore < mob) then ai_ret (Some (r, c), mob)
  else if decide (mob = bestScore) then
    v <~ ai_rng ;
    if over_half v then ai_ret (Some (r, c), bestScore) else ai_ret acc
  else ai_ret acc.

Definition mobility : Strategy := fun player moves =>
  acc <~ ai_foldl mobility_step (None, -1) moves ;
  ai_ret (best_or_first acc.1 moves).

(** ** aggressor *)

(** The inner loop over the opponents: the sum of [8 - before]. *)
Definition opponents_reduction (opponents : list PlayerState) : AI Z :=
  ai_foldl (fun reduction opp =>
              before <~ ai_mobility (row opp) (col opp) ;
              ai_ret (reduction + (8 - before)))
           0 opponents.

(** [bestScore] starts at [-Infinity], rendered as [None]. *)
Definition aggressor_step (opponents : list PlayerState)
    (acc : option (Z * Z) * option Z) (m : Z * Z)
    : AI (option (Z * Z) * option Z) :=
  let '(best, bestScore) := acc in
  let '(r, c) := m in
  orig <~ ai_read r c ;
  _ <~ ai_write r c (Some 1) ;
  reduction <~ opponents_reduction opponents ;
  ownMob <~ ai_mobility r c ;
  let combined := reduction * 2 + ownMob in
  _ <~ ai_write r c orig ;
  match bestScore with
  | None => ai_ret (Some (r, c), Some combined)
  | Some b =>
      if decide (b < combined) then ai_ret (Some (r, c), Some combined)
      else if decide (combined = b) then
        v <~ ai_rng ;
        if over_half v then ai_ret (Some (r, c), Some combined) else ai_ret acc
      else ai_ret acc
  end.

Definition aggressor : Strategy := fun player moves =>
  fun state =>
    let opponents := getOpponents state (pid player) in
    match opponents with
    | [] => mobility player moves state
    | _ =>
        (acc <~ ai_foldl (aggressor_step opponents) (None, None) moves ;
         ai_ret (best_or_first acc.1 moves)) state
    end.

(** ** balanced *)

(** A JavaScript number holding an integer ([exact up to 2^53]). *)
Definition Z2f (z : Z) : float :=
  if z <? 0 then PrimFloat.opp (PrimFloat.of_uint63 (Uint63.of_Z (- z)))
  else PrimFloat.of_uint63 (Uint63.of_Z z).

(** The number returned by the generator, as the binary64 quotient. *)
Definition Q2f (v : Q) : float :=
  PrimFloat.div (Z2f (Qnum v)) (Z2f (Z.pos (Qden v))).

(** [state.visited.flat().filter(v => v !== 0).length] *)
Definition occupied_cells (g : Grid) : Z :=
  Z.of_nat (length (filter (fun v => v ≠ 0) (concat g))).

Definition balanced_step (opponents : list PlayerState) (mobWeight aggressWeight : float)
    (acc : option (Z * Z) * float) (m : Z * Z)
    : AI (option (Z * Z) * float) :=
  let '(best, bestScore) := acc in
  let '(r, c) := m in
  orig <~ ai_read r c ;
  _ <~ ai_write r c (Some 1) ;
  own <~ ai_mobility r c ;
  let mob := PrimFloat.mul (Z2f own) mobWeight in
  aggress <~ ai_foldl (fun aggress opp =>
                         before <~ ai_mobility (row opp) (col opp) ;
                         ai_ret (PrimFloat.add aggress
                                   (PrimFloat.mul (Z2f (8 - before)) aggressWeight)))
                      (Z2f 0) opponents ;
  v <~ ai_rng ;
  let sc := PrimFloat.add (PrimFloat.add mob aggress)
                          (PrimFloat.mul (Q2f v) 0x1.999999999999ap-3%float) in
  _ <~ ai_write r c orig ;
  if PrimFloat.ltb bestScore sc then ai_ret (Some (r, c), sc) else ai_ret acc.

Definition balanced : Strategy := fun player moves =>
  fun state =>
    let total := PrimFloat.mul (Z2f (boardSize state)) (Z2f (boardSize state)) in
    let occupied := occupied_cells (visited state) in
    let density := PrimFloat.div (Z2f occupied) total in
    let aggressWeight := PrimFloat.mul density (Z2f 2) in
    let mobWeight :=
      PrimFloat.sub (Z2f 1) (PrimFloat.mul density 0.5%float) in
    let opponents := getOpponents state (pid player) in
    (acc <~ ai_foldl (balanced_step opponents mobWeight aggressWeight)
                     (None, PrimFloat.neg_infinity) moves ;
     ai_ret (best_or_first acc.1 moves)) state.

(** The registry after the three [registerStrategy] calls of the module. *)
Definition STRATEGIES : gmap string Strategy :=
  <["balanced" := balanced]> (<["aggressor" := aggressor]> {["mobility" := mobility]}).

(* ===================================================================== *)
(** * Vocabulary of the properties                                         *)
(* ===================================================================== *)

(** ** Keys and tallies *)

Fixpoint comma_free (s : string) : Prop :=
  match s with
  | EmptyString => True
  | String a s' => a <> ","%char /\ comma_free s'
  end.

(** The entries of [m] whose destination is [d]. *)
Definition sharing (m : gmap Z (Z * Z)) (d : Z * Z) : gmap Z (Z * Z) :=
  filter (fun kv => kv.2 = d) m.

(** ** The resolution loop as a step relation *)

(** [destCount.get(k) > 1] for the key of [d]. *)
Definition contested (destCount : gmap string Z) (d : Z * Z) : Prop :=
  1 < default 0 (destCount !! cellKey d.1 d.2).

Global Instance contested_dec destCount d : Decision (contested destCount d).
Proof. unfold contested. apply _. Defined.

Inductive resolve_step (intended : gmap Z (Z * Z)) (destCount : gmap string Z)
    (s : Resolving) (i : nat) : Resolving -> Prop :=
  | step_absent :
      rs_players s !! i = None ->
      resolve_step intended destCount s i s
  | step_pass p :
      rs_players s !! i = Some p ->
      intended !! pid p = None ->
      resolve_step intended destCount s i s
  | step_collision p d :
      rs_players s !! i = Some p ->
      intended !! pid p = Some d ->
      contested destCount d ->
      resolve_step intended destCount s i
        (mkResolving (rs_players s) (rs_visited s)
                     (rs_events s ++ [EvCollision d]) (rs_moves s))
  | step_blocked p d :
      rs_players s !! i = Some p ->
      intended !! pid p = Some d ->
      ~ contested destCount d ->
      is_Some (js_index (rs_visited s) d.1) ->
      cell (rs_visited s) d.1 d.2 <> Some CELL.EMPTY ->
      resolve_step intended destCount s i
        (mkResolving (rs_players s) (rs_visited s)
                     (rs_events s ++ [EvBlocked (pid p) d]) (rs_moves s))
  | step_move p d g' :
      rs_players s !! i = Some p ->
      intended !! pid p = Some d ->
      ~ contested destCount d ->
      cell (rs_visited s) d.1 d.2 = Some CELL.EMPTY ->
      grid_set (rs_visited s) d.1 d.2 CELL.BLOCKED = Ok g' ->
      resolve_step intended destCount s i
        (mkResolving (<[i := move_player d.1 d.2 p]> (rs_players s)) g'
                     (rs_events s ++ [EvMove (pid p) (row p, col p) d])
                     (rs_moves s ++ [mkMoveRecord (pid p) (row p, col p) d])).

(** The fields of the players that resolution never writes. *)
Definition roster (ps : list PlayerState) : list (Z * Status) :=
  (fun p => (pid p, status p)) <$> ps.

(** ** Intents *)

(** The living players whose pending intent is the cell [d]. *)
Definition colliders (s : GameState) (d : Z * Z) : list PlayerState :=
  filter (fun p => status p = ALIVE ∧ pendingMoves s !! pid p = Some d) (players s).

(** The pending intent of a living player [p] cannot make [resolveTurn]
    read a missing row: its row exists, or another living player targets the
    same cell (the intent is then cancelled before the grid is read). *)
Definition intent_safe (s : GameState) (p : PlayerState) : Prop :=
  status p = ALIVE ->
  forall d, pendingMoves s !! pid p = Some d ->
    is_Some (js_index (visited s) d.1)
    \/ Exists (fun q => status q = ALIVE /\ pid q <> pid p
                        /\ pendingMoves s !! pid q = Some d) (players s).

Definition intents_safe (s : GameState) : Prop :=
  Forall (intent_safe s) (players s).

(** ** Events *)

Definition is_move (e : Event) : bool :=
  match e with EvMove _ _ _ => true | _ => false end.

Definition is_move_of (k : Z) (e : Event) : bool :=
  match e with EvMove k' _ _ => bool_decide (k' = k) | _ => false end.

Definition is_collision_at (d : Z * Z) (e : Event) : bool :=
  match e with EvCollision d' => bool_decide (d' = d) | _ => false end.

(** The player an event names, if any. *)
Definition subject (e : Event) : option Z :=
  match e with
  | EvMove k _ _ | EvBlocked k _ | EvElimination k _ | EvWinner k => Some k
  | EvCollision _ => None
  end.

Definition count_moves (k : Z) (ev : list Event) : nat :=
  length (filter (fun e => is_move_of k e = true) ev).

Definition count_collisions (d : Z * Z) (ev : list Event) : nat :=
  length (filter (fun e => is_collision_at d e = true) ev).

(** ** Grids *)

Definition empties (g : Grid) : nat :=
  length (filter (fun v => v = CELL.EMPTY) (concat g)).

(** A [size] x [size] matrix. *)
Definition square_grid (size : nat) (g : Grid) : Prop :=
  length g = size /\ Forall (fun rw => length rw = size) g.

(** ** Runs *)

Inductive transition : GameState -> GameState -> Prop :=
  | T_submit s playerId r c :
      transition s (submitMove s playerId r c)
  | T_resolve s s' ev :
      resolveTurn s = Ok (s', ev) -> transition s s'
  | T_evaluate s s' ev :
      evaluateState s = Ok (s', ev) -> transition s s'.

(** The states reachable from [initState cfg], with every event emitted on
    the way. *)
Inductive reachable (cfg : Config) : GameState -> list Event -> Prop :=
  | R_init s :
      initState cfg = Ok s -> reachable cfg s []
  | R_submit s log playerId r c :
      reachable cfg s log -> reachable cfg (submitMove s playerId r c) log
  | R_resolve s log s' ev :
      reachable cfg s log -> resolveTurn s = Ok (s', ev) ->
      reachable cfg s' (log ++ ev)
  | R_evaluate s log s' ev :
      reachable cfg s log -> evaluateState s = Ok (s', ev) ->
      reachable cfg s' (log ++ ev).

(** A run of rounds; each round comes with the intents submitted in it and
    yields its events. *)
Fixpoint play (s : GameState) (rounds : list (list (Z * Z * Z)))
    : outcome (GameState * list (list Event)) :=
  match rounds with
  | [] => Ok (s, [])
  | intents :: rest =>
      '(s1, ev) ← play_round s intents;
      '(s2, evs) ← play s1 rest;
      Ok (s2, ev :: evs)
  end.

(** The rounds in which at least one move was executed. *)
Definition moving_rounds (evs : list (list Event)) : nat :=
  length (filter (fun ev => existsb is_move ev = true) evs).

(** ** The pieces of [resolveTurn] *)

Definition intended_of (s : GameState) : gmap Z (Z * Z) :=
  collect_intended (players s) (pendingMoves s) (alive_refs (players s)).

Definition tally_of (s : GameState) : gmap string Z :=
  count_dests (intended_of s).

Definition resolve_start (s : GameState) : Resolving :=
  mkResolving (players s) (visited s) [] [].

Definition resolve_finish (s : GameState) (r : Resolving) : GameState :=
  {| boardSize := boardSize s;
     seed := seed s;
     turn := turn s + 1;
     phase := EVAL;
     players := rs_players r;
     visited := rs_visited r;
     obstacles := obstacles s;
     pendingMoves := ∅;
     ruleset := ruleset s;
     rng := rng s;
     history := history s ++ [mkTurnRecord (turn s) (rs_moves r)] |}.

(** What the resolution loop keeps of the state it started from: the
    roster, the rows of the grid, and every cell that did not read EMPTY. *)
Definition resolve_frame (s : GameState) (r : Resolving) : Prop :=
  roster (rs_players r) = roster (players s)
  /\ (forall rw, is_Some (js_index (rs_visited r) rw) <-> is_Some (js_index (visited s) rw))
  /\ (forall rw c, cell (visited s) rw c <> Some CELL.EMPTY ->
                   cell (rs_visited r) rw c = cell (visited s) rw c).

Global Instance intent_safe_dec s p : Decision (intent_safe s p).
Proof.
  unfold intent_safe.
  destruct (decide (status p = ALIVE)) as [Ha | Hn]; [|left; intros; done].
  destruct (pendingMoves s !! pid p) as [d|].
  - destruct (decide (is_Some (js_index (visited s) d.1)
                      \/ Exists (fun q => status q = ALIVE /\ pid q <> pid p
                                          /\ pendingMoves s !! pid q = Some d)
                                (players s))) as [H | H].
    + left. intros _ d' [= <-]. exact H.
    + right. intros H'. apply H, H'; done.
  - left. intros _ d' [=].
Defined.

Global Instance intents_safe_dec s : Decision (intents_safe s).
Proof. unfold intents_safe. apply _. Defined.

(** ** Scenarios *)

(** Scenario A: an 8 x 8 board, seed 42, two human players, no obstacle. *)
Definition scenario_A : Config := mkConfig 8 42 2 0 no_rules.

Definition player_A0 : PlayerState :=
  mkPlayer 0 true ALIVE 1 1 1 (Some 0) None.
Definition player_A1 : PlayerState :=
  mkPlayer 1 true ALIVE 6 6 1 (Some 1) (Some "mobility").

Definition grid_A : Grid :=
  [ [0; 0; 0; 0; 0; 0; 0; 0];
    [0; 1; 0; 0; 0; 0; 0; 0];
    [0; 0; 0; 0; 0; 0; 0; 0];
    [0; 0; 0; 0; 0; 0; 0; 0];
    [0; 0; 0; 0; 0; 0; 0; 0];
    [0; 0; 0; 0; 0; 0; 0; 0];
    [0; 0; 0; 0; 0; 0; 1; 0];
    [0; 0; 0; 0; 0; 0; 0; 0] ].

(** The state [initState] returns in scenario A. *)
Definition state_A : GameState :=
  mkState 8 42 0 SELECT [player_A0; player_A1] grid_A [] ∅
          (mkRuleset 0 0 false false) 42 [].

(** Scenario B: scenario A after player 1 has moved twice, (6,6) to (4,5)
    to (5,3), while player 0 passed; the cell (3,2) is then a knight move
    away from both players. *)
Definition player_B1 : PlayerState :=
  mkPlayer 1 true ALIVE 5 3 3 (Some 1) (Some "mobility").

Definition grid_B : Grid :=
  [ [0; 0; 0; 0; 0; 0; 0; 0];
    [0; 1; 0; 0; 0; 0; 0; 0];
    [0; 0; 0; 0; 0; 0; 0; 0];
    [0; 0; 0; 0; 0; 0; 0; 0];
    [0; 0; 0; 0; 0; 1; 0; 0];
    [0; 0; 0; 1; 0; 0; 0; 0];
    [0; 0; 0; 0; 0; 0; 1; 0];
    [0; 0; 0; 0; 0; 0; 0; 0] ].

Definition state_B : GameState :=
  mkState 8 42 2 SELECT [player_A0; player_B1] grid_B [] ∅
          (mkRuleset 0 0 false false) 42
          [ mkTurnRecord 0 [mkMoveRecord 1 (6, 6) (4, 5)];
            mkTurnRecord 1 [mkMoveRecord 1 (4, 5) (5, 3)] ].

(** Both players ask for (3,2). *)
Definition state_B_contested : GameState :=
  submitMove (submitMove state_B 0 3 2) 1 3 2.

(** ** Loops that update an array of objects in place *)

(** One iteration of a loop over references into an array: the object at
    [i] is replaced and an event pushed when [f] says so. *)
Definition visit {A E} (f : A -> option (A * E))
    (acc : list A * list E) (i : nat) : list A * list E :=
  match acc.1 !! i with
  | Some x =>
      match f x with
      | Some (x', e) => (<[i := x']> acc.1, acc.2 ++ [e])
      | None => acc
      end
  | None => acc
  end.

Definition touched {A E} (f : A -> option (A * E)) (x : A) : A :=
  match f x with Some (x', _) => x' | None => x end.

Definition emitted {A E} (f : A -> option (A * E)) (x : A) : option E :=
  snd <$> f x.

(** ** Evaluation as the rules word it *)

(** A living player without a legal destination. *)
Definition stuck (s : GameState) (p : PlayerState) : Prop :=
  status p = ALIVE /\ legal_dests (row p) (col p) (boardSize s) (visited s) = [].

Global Instance stuck_dec s p : Decision (stuck s p).
Proof. unfold stuck. apply _. Defined.

Definition eliminate (s : GameState) (p : PlayerState) : PlayerState :=
  if decide (stuck s p) then set_status ELIMINATED p else p.

Definition elimination_events (s : GameState) : list Event :=
  (fun p => EvElimination (pid p) (score p)) <$> filter (stuck s) (players s).

(** The score of [p] is the maximum score among [ps]. *)
Definition top_scorer (ps : list PlayerState) (p : PlayerState) : Prop :=
  Forall (fun q => score q <= score p) ps.

Global Instance top_scorer_dec ps p : Decision (top_scorer ps p).
Proof. unfold top_scorer. apply _. Defined.

Definition crown (W : PlayerState -> Prop) `{!forall p, Decision (W p)}
    (ps : list PlayerState) : list PlayerState :=
  (fun p => if decide (W p) then set_status WINNER p else p) <$> ps.

Definition winner_events (W : PlayerState -> Prop) `{!forall p, Decision (W p)}
    (ps : list PlayerState) : list Event :=
  (fun p => EvWinner (pid p)) <$> filter W ps.

Definition evaluate_spec (s : GameState) : GameState * list Event :=
  let ps1 := eliminate s <$> players s in
  let survivors := filter (fun p => status p = ALIVE) ps1 in
  if decide (length survivors = 1%nat) then
    (set_phase GAMEOVER (set_players (crown (fun p => status p = ALIVE) ps1) s),
     elimination_events s ++ winner_events (fun p => status p = ALIVE) ps1)
  else if decide (length survivors = 0%nat) then
    (set_phase GAMEOVER (set_players (crown (top_scorer ps1) ps1) s),
     elimination_events s ++ winner_events (top_scorer ps1) ps1)
  else
    (set_phase SELECT (set_players ps1 s), elimination_events s).

(** The three in-place updates of [evaluateState], as rules for [visit]. *)
Definition elim_rule (size : Z) (g : Grid) (p : PlayerState)
    : option (PlayerState * Event) :=
  if decide (legal_dests (row p) (col p) size g = [])
  then Some (set_status ELIMINATED p, EvElimination (pid p) (score p))
  else None.

Definition win_rule (p : PlayerState) : option (PlayerState * Event) :=
  Some (set_status WINNER p, EvWinner (pid p)).

Definition crown_rule (maxScore : option Z) (p : PlayerState)
    : option (PlayerState * Event) :=
  if decide (Some (score p) = maxScore) then win_rule p else None.

(** ** Counting cells *)

Definition tick (P : Z -> Prop) `{!forall v, Decision (P v)} (v : Z) : nat :=
  if decide (P v) then 1%nat else 0%nat.

(** The cells that are not EMPTY. *)
Definition marked (g : Grid) : nat :=
  length (filter (fun v => v <> CELL.EMPTY) (concat g)).

(** ** The loops of [initState] *)

(** [visited[r][c] = val] for a cell given as a pair. *)
Definition mark_cell (val : Z) (v : Grid) (o : Z * Z) : outcome Grid :=
  grid_set v o.1 o.2 val.

(** What [placeObstacles] maintains: the obstacles drawn so far are
    pairwise distinct and their keys are in [occupied]. *)
Definition obstacles_ok (obs : list (Z * Z)) (occupied : gset string) : Prop :=
  NoDup obs /\ (forall o, o ∈ obs -> cellKey o.1 o.2 ∈ occupied).

Definition on_board (size : Z) (o : Z * Z) : Prop :=
  0 <= o.1 < size /\ 0 <= o.2 < size.

(** ** More vocabulary for runs *)

(** Two player lists that differ at most in the [status] fields. *)
Definition status_only (ps ps' : list PlayerState) : Prop :=
  set_status ALIVE <$> ps' = set_status ALIVE <$> ps.

(** The moves executed among a list of events. *)
Definition executed (ev : list Event) : nat :=
  length (filter (fun e => is_move e = true) ev).

Global Instance outcome_eq_dec {A} `{EqDecision A} : EqDecision (outcome A).
Proof. solve_decision. Defined.

(** The phase after a run. *)
Definition phase_after (s : GameState) (rounds : list (list (Z * Z * Z)))
    : outcome Phase :=
  '(s', _) ← play s rounds; Ok (phase s').

(** The invariant of the loops of [evaluateState]: only statuses change and
    no move event is emitted. *)
Definition quiet (acc : list PlayerState * list Event) (ps0 : list PlayerState) : Prop :=
  status_only ps0 acc.1 /\ Forall (fun e => is_move e = false) acc.2.

(** The invariant behind the score property: ids are pairwise distinct and
    every score is one more than the moves logged for its player. *)
Definition score_invariant (s : GameState) (log : list Event) : Prop :=
  NoDup (pid <$> players s)
  /\ Forall (fun p => score p = 1 + Z.of_nat (count_moves (pid p) log)) (players s).

(** ** Strategies *)

(** A destination that [getLegalMoves] can return on the board of [s]. *)
Definition legal_move (s : GameState) (m : Z * Z) : Prop :=
  inBounds m.1 m.2 (boardSize s) = true /\ cell (visited s) m.1 m.2 = Some CELL.EMPTY.

(** A computation that returns and leaves the state as it found it, the
    shared generator apart. *)
Definition steady {A} (m : AI A) (s : GameState) : Prop :=
  exists a x, m s = Ok (a, set_rng x s).

Global Instance legal_move_dec s m : Decision (legal_move s m).
Proof. unfold legal_move. apply _. Defined.

(** Scenario C: a 3 x 3 board on which player 1, at (2,2), has no legal
    move left while player 0, at (0,0), still has two. *)
Definition player_C0 : PlayerState :=
  mkPlayer 0 true ALIVE 0 0 3 (Some 0) None.
Definition player_C1 : PlayerState :=
  mkPlayer 1 false ALIVE 2 2 2 (Some 1) (Some "mobility").

Definition grid_C : Grid :=
  [ [1; 1; 0];
    [1; 0; 0];
    [0; 0; 1] ].

Definition state_C : GameState :=
  mkState 3 7 3 EVAL [player_C0; player_C1] grid_C [] ∅
          (mkRuleset 0 0 false false) 7 [].

(** Scenario A with player 1 already eliminated. *)
Definition state_A_eliminated : GameState :=
  set_players [player_A0; set_status ELIMINATED player_A1] state_A.

(** The invariant behind dropped intents: the player object at [i] is still
    [p] and no move event names [p]. *)
Definition kept (i : nat) (p : PlayerState) (r : Resolving) : Prop :=
  rs_players r !! i = Some p /\ count_moves (pid p) (rs_events r) = 0%nat.

(* ===================================================================== *)
(** * More scenarios                                                       *)
(* ===================================================================== *)

(** Scenario D: scenario A with player 1 played by the machine and three
    obstacles asked for; the generator of seed 42 puts them on (0,5), (0,6)
    and (7,2). *)
Definition scenario_D : Config :=
  mkConfig 8 42 2 1 (mkRulesetArg None (Some 3) None None).

Definition player_D1 : PlayerState :=
  mkPlayer 1 false ALIVE 6 6 1 (Some 1) (Some "mobility").

Definition grid_D : Grid :=
  [ [0; 0; 0; 0; 0; 2; 2; 0];
    [0; 1; 0; 0; 0; 0; 0; 0];
    [0; 0; 0; 0; 0; 0; 0; 0];
    [0; 0; 0; 0; 0; 0; 0; 0];
    [0; 0; 0; 0; 0; 0; 0; 0];
    [0; 0; 0; 0; 0; 0; 0; 0];
    [0; 0; 0; 0; 0; 0; 1; 0];
    [0; 0; 2; 0; 0; 0; 0; 0] ].

Definition state_D : GameState :=
  mkState 8 42 0 SELECT [player_A0; player_D1] grid_D [(0, 5); (0, 6); (7, 2)] ∅
          (mkRuleset 0 3 false false) 1441438134 [].

(* ===================================================================== *)
(** * Resolution as a judgment on the state at the start of the turn       *)
(* ===================================================================== *)

(** The event [resolveTurn] owes a player, read off the state the turn
    starts from: none for a player that is not alive or has no pending
    intent; otherwise a collision when the destination is contested, a move
    when it reads EMPTY, a blocked event in every other case. *)
Definition verdict (s : GameState) (p : PlayerState) : option Event :=
  if decide (status p = ALIVE) then
    d ← pendingMoves s !! pid p;
    Some (if decide (contested (tally_of s) d) then EvCollision d
          else if decide (cell (visited s) d.1 d.2 = Some CELL.EMPTY)
               then EvMove (pid p) (row p, col p) d
               else EvBlocked (pid p) d)
  else None.

(** The player after the turn: moved when its verdict is a move. *)
Definition settle (s : GameState) (p : PlayerState) : PlayerState :=
  match verdict s p with
  | Some (EvMove _ _ d) => move_player d.1 d.2 p
  | _ => p
  end.

Definition move_dest (e : Event) : option (Z * Z) :=
  match e with EvMove _ _ d => Some d | _ => None end.

(** The destinations of the moves among a list of events. *)
Definition move_dests (ev : list Event) : list (Z * Z) := omap move_dest ev.

(** The entry of the turn record that a move event stands for. *)
Definition move_record_of (e : Event) : option MoveRecord :=
  match e with
  | EvMove k from to => Some (mkMoveRecord k from to)
  | _ => None
  end.

(** What the resolution loop has established once the references in
    [seen] are done. *)
Definition settled (s : GameState) (seen : list nat) (r : Resolving) : Prop :=
  rs_events r = omap (fun j => players s !! j ≫= verdict s) seen
  /\ (forall j, rs_players r !! j
               = (fun p => if decide (j ∈ seen) then settle s p else p)
                   <$> players s !! j)
  /\ (forall rw c, cell (rs_visited r) rw c
                   = if decide ((rw, c) ∈ move_dests (rs_events r))
                     then Some CELL.BLOCKED else cell (visited s) rw c)
  /\ rs_moves r = omap move_record_of (rs_events r).

Definition is_blocked (e : Event) : bool :=
  match e with EvBlocked _ _ => true | _ => false end.

(** What resolution and evaluation never touch in a player. *)
Definition badge (p : PlayerState) : Z * bool * option Z * option string :=
  (pid p, isHuman p, palette p, aiStrategy p).

(** The pending intent of [p], if it is alive and has one, is one of its
    legal moves. *)
Definition intent_legal (s : GameState) (p : PlayerState) : Prop :=
  status p = ALIVE ->
  forall d, pendingMoves s !! pid p = Some d ->
    d ∈ legal_dests (row p) (col p) (boardSize s) (visited s).

Definition legal_intents (s : GameState) : Prop :=
  Forall (intent_legal s) (players s).

Global Instance intent_legal_dec s p : Decision (intent_legal s p).
Proof.
  unfold intent_legal.
  destruct (decide (status p = ALIVE)) as [Ha | Hn]; [|left; intros; done].
  destruct (pendingMoves s !! pid p) as [d|].
  - destruct (decide (d ∈ legal_dests (row p) (col p) (boardSize s) (visited s)))
      as [H | H].
    + left. intros _ d' [= <-]. exact H.
    + right. intros H'. apply H, H'; done.
  - left. intros _ d' [=].
Defined.

Global Instance legal_intents_dec s : Decision (legal_intents s).
Proof. unfold legal_intents. apply _. Defined.

(** Scenario B with two different intents: player 0 asks for (3,2) and
    player 1 for (3,4), both legal. *)
Definition state_B_apart : GameState :=
  submitMove (submitMove state_B 0 3 2) 1 3 4.

(** Scenario A after its first turn, in which player 1 moved from (6,6)
    to (4,5) and player 0 passed; evaluation is still to come. *)
Definition state_A_moved : GameState :=
  mkState 8 42 1 EVAL [player_A0; move_player 4 5 player_A1]
          (<[4%nat := [0; 0; 0; 0; 0; 1; 0; 0]]> grid_A) [] ∅
          (mkRuleset 0 0 false false) 42
          [mkTurnRecord 0 [mkMoveRecord 1 (6, 6) (4, 5)]].

(* ===================================================================== *)
(** * Vocabulary for the invariants of a game                              *)
(* ===================================================================== *)

(** Every player stands on a marked cell and no two players share one. *)
Definition grounded (ps : list PlayerState) (g : Grid) : Prop :=
  Forall (fun p => exists w, cell g (row p) (col p) = Some w /\ w <> CELL.EMPTY) ps
  /\ NoDup ((fun p => (row p, col p)) <$> ps).

(** The sum of the scores. *)
Definition points (ps : list PlayerState) : Z :=
  foldr (fun p acc => score p + acc) 0 ps.

(** What stays of a player that is out of the game: everything, except
    that an ELIMINATED player may still be made a WINNER. *)
Definition stays_out (p p' : PlayerState) : Prop :=
  status p' <> ALIVE
  /\ (status p = WINNER -> status p' = WINNER)
  /\ set_status ALIVE p' = set_status ALIVE p.

(* ===================================================================== *)
(** * Strategy dispatch (ai.js 34-46)                                      *)
(* ===================================================================== *)

(** [STRATEGIES] is a plain object, so [STRATEGIES[name]] also finds what
    [Object.prototype] holds under these names; what [computeAiMove] then
    calls is no strategy, and such a call is outside this development. *)
Definition Object_prototype_keys : list string :=
  [ "constructor"; "__defineGetter__"; "__defineSetter__"; "hasOwnProperty";
    "__lookupGetter__"; "__lookupSetter__"; "isPrototypeOf";
    "propertyIsEnumerable"; "toString"; "valueOf"; "__proto__";
    "toLocaleString" ].

(** [player.aiStrategy || 'mobility'] *)
Definition strategy_name (player : PlayerState) : string :=
  match aiStrategy player with
  | Some name => if decide (name = "") then "mobility" else name
  | None => "mobility"
  end.

(** [computeAiMove(state, playerId)], with the registry as the module
    leaves it.  [state.players.find] returns the first player with the id. *)
Definition computeAiMove (playerId : Z) : AI (option (Z * Z)) := fun state =>
  match list_find (fun p => pid p = playerId) (players state) with
  | None => Ok (None, state)
  | Some (_, player) =>
      if decide (status player <> ALIVE) then Ok (None, state)
      else
        moves ← getLegalMoves (row player) (col player)
                              (boardSize state) (visited state);
        match moves with
        | [] => Ok (None, state)
        | [m] => Ok (Some m, state)
        | _ =>
            let stratName := strategy_name player in
            if decide (stratName ∈ Object_prototype_keys) then OutOfModel
            else
              (* [STRATEGIES[stratName] || STRATEGIES['mobility']] *)
              let stratFn := default mobility (STRATEGIES !! stratName) in
              stratFn player moves state
        end
  end.

(** ** Vocabulary for the strategies *)

(** A computation that returns a value satisfying [Q] and leaves the state
    as it found it, the shared generator apart. *)
Definition yields {A} (m : AI A) (s : GameState) (Q : A -> Prop) : Prop :=
  exists a x, m s = Ok (a, set_rng x s) /\ Q a.

(** The onward mobility of a candidate: the number of legal destinations
    from it. *)
Definition onward (s : GameState) (m : Z * Z) : Z :=
  Z.of_nat (length (legal_dests m.1 m.2 (boardSize s) (visited s))).

(** The grid with the candidate [m] marked as the strategies mark it. *)
Definition stamped (g : Grid) (m : Z * Z) : Grid :=
  match grid_set g m.1 m.2 1 with
  | Ok g' => g'
  | _ => g
  end.

(** The sum, over the opponents, of the moves each has lost out of eight
    once [m] is marked. *)
Definition reduction_at (s : GameState) (opponents : list PlayerState) (m : Z * Z) : Z :=
  foldl (fun acc opp =>
           acc + (8 - Z.of_nat (length (legal_dests (row opp) (col opp) (boardSize s)
                                          (stamped (visited s) m)))))
        0 opponents.

(** What the aggressor strategy maximises. *)
Definition aggression (s : GameState) (p : PlayerState) (m : Z * Z) : Z :=
  reduction_at s (getOpponents s (pid p)) m * 2 + onward s m.

(** What the mobility loop has established once the candidates in [seen]
    are done. *)
Definition leading {A} (value : Z * Z -> A) (le : A -> A -> Prop) (start : A)
    (seen : list (Z * Z)) (acc : option (Z * Z) * A) : Prop :=
  match seen with
  | [] => acc = (None, start)
  | _ => exists m, acc = (Some m, value m) /\ m ∈ seen
                   /\ forall m', m' ∈ seen -> le (value m') (value m)
  end.

(* ===================================================================== *)
(** * game.js: the intents of the computer players                         *)
(* ===================================================================== *)

(** The body of the loop of [resolveWithAiMoves], for the player [p] of the
    array being walked and the module's current state [GS]:
    [if (!p.isHuman && p.status === ALIVE) { const aiMove = computeAiMove(GS, p.id);
       if (aiMove) GS = submitMove(GS, p.id, aiMove[0], aiMove[1]); }].
    [computeAiMove] works on [GS] itself (it advances the shared generator),
    [submitMove] hands back a copy with the intent recorded. *)
Definition ai_intent (GS : GameState) (p : PlayerState) : outcome GameState :=
  if negb (isHuman p) && bool_decide (status p = ALIVE) then
    '(aiMove, GS1) ← computeAiMove (pid p) GS;
    match aiMove with
    | Some m => Ok (submitMove GS1 (pid p) m.1 m.2)
    | None => Ok GS1
    end
  else Ok GS.

(** [for (const p of GS.players) ...] of [resolveWithAiMoves]: the array
    walked is the one [GS] holds when the loop starts; what follows the loop
    ([executeResolution], which also draws and animates) is not part of
    this definition. *)
Definition resolveWithAiMoves_intents (GS : GameState) : outcome GameState :=
  ofoldl ai_intent GS (players GS).

(** A computer player that is alive and has somewhere to go. *)
Definition cpu_to_move (s : GameState) (p : PlayerState) : Prop :=
  isHuman p = false /\ status p = ALIVE
  /\ legal_dests (row p) (col p) (boardSize s) (visited s) <> [].

(** What the loop of [resolveWithAiMoves], started in [s], has established
    in the current state [a] once the players in [seen] are done. *)
Definition submitted (s : GameState) (seen : list PlayerState) (a : GameState) : Prop :=
  (players a = players s /\ visited a = visited s /\ boardSize a = boardSize s)
  /\ legal_intents a
  /\ (forall p, p ∈ seen -> cpu_to_move s p -> is_Some (pendingMoves a !! pid p))
  /\ (forall p, p ∈ players s -> p ∉ seen \/ ~ cpu_to_move s p ->
        pendingMoves a !! pid p = pendingMoves s !! pid p).

(* ===================================================================== *)
(** * Events and the intents they answer                                   *)
(* ===================================================================== *)

(** The event [e] answers the pending intent of the player [p] of the state
    the turn starts from: a move of [p] from its cell to the destination, a
    collision at the destination, or a blocked event in the name of [p]. *)
Definition answers (s : GameState) (p : PlayerState) (e : Event) : Prop :=
  exists d, pendingMoves s !! pid p = Some d
    /\ (e = EvMove (pid p) (row p, col p) d
        \/ e = EvCollision d
        \/ e = EvBlocked (pid p) d).

(** The player, when an intent is pending under its id. *)
Definition asking (s : GameState) (p : PlayerState) : option PlayerState :=
  if decide (is_Some (pendingMoves s !! pid p)) then Some p else None.

(** What the loop of [resolveTurn] has established once the references in
    [seen] are done: the events answer, in order, the intents of the
    players behind [seen], and the players not yet visited are untouched. *)
Definition answered (s : GameState) (seen : list nat) (r : Resolving) : Prop :=
  Forall2 (answers s) (omap (fun j => players s !! j ≫= asking s) seen) (rs_events r)
  /\ (forall j, j ∉ seen -> rs_players r !! j = players s !! j).

(* ===================================================================== *)
(** * Who is left and who wins                                             *)
(* ===================================================================== *)

(** A living player that still has a legal destination: it remains ALIVE
    when the players without a move are eliminated. *)
Definition remains (s : GameState) (p : PlayerState) : Prop :=
  status p = ALIVE /\ legal_dests (row p) (col p) (boardSize s) (visited s) <> [].

Global Instance remains_dec s p : Decision (remains s p).
Proof. unfold remains. apply _. Defined.

(** The players that the rules make WINNER: the player that remains ALIVE
    when it is the only one; every player whose score is the maximum over
    all players when none remains; nobody when two or more remain. *)
Definition wins (s : GameState) (p : PlayerState) : Prop :=
  match filter (remains s) (players s) with
  | [] => Forall (fun q => score q <= score p) (players s)
  | [_] => remains s p
  | _ => False
  end.

Global Instance wins_dec s p : Decision (wins s p).
Proof. unfold wins. destruct (filter (remains s) (players s)) as [|? [|? ?]]; apply _. Defined.

Module RngFacts.
Import Rng.

Lemma two32_pow : two32 = 2 ^ 32.
Proof. reflexivity. Qed.

Lemma toUint32_range z : 0 <= toUint32 z < two32.
Proof. unfold toUint32. apply Z.mod_pos_bound. reflexivity. Qed.

Lemma toInt32_range z : -2147483648 <= toInt32 z < 2147483648.
Proof.
  unfold toInt32. pose proof (Z.mod_pos_bound (z + 2147483648) two32 eq_refl).
  unfold two32 in *. lia.
Qed.

Lemma toUint32_toInt32 z : toUint32 (toInt32 z) = toUint32 z.
Proof.
  unfold toUint32, toInt32, two32.
  rewrite <- Zminus_mod_idemp_l, Z.mod_mod by lia.
  rewrite Zminus_mod_idemp_l. f_equal. lia.
Qed.

Lemma toUint32_small z : 0 <= z < two32 -> toUint32 z = z.
Proof. intros. unfold toUint32. by apply Z.mod_small. Qed.

Lemma toUint32_lxor a b :
  toUint32 (Z.lxor a b) = Z.lxor (toUint32 a) (toUint32 b).
Proof.
  unfold toUint32. rewrite two32_pow.
  apply Z.bits_inj'. intros n Hn.
  rewrite Z.lxor_spec.
  destruct (Z.lt_ge_cases n 32) as [Hlt | Hge].
  - rewrite !Z.mod_pow2_bits_low by lia. by rewrite Z.lxor_spec.
  - by rewrite !Z.mod_pow2_bits_high by lia.
Qed.

Lemma toUint32_shiftl a n :
  0 <= n -> toUint32 (Z.shiftl a n) = Z.shiftl (toUint32 a) n mod two32.
Proof.
  intros Hn. unfold toUint32.
  rewrite !Z.shiftl_mul_pow2 by done.
  by rewrite Z.mul_mod_idemp_l by done.
Qed.

Lemma toUint32_js_xor a b :
  toUint32 (js_xor a b) = Z.lxor (toUint32 a) (toUint32 b).
Proof. unfold js_xor. by rewrite toUint32_lxor, !toUint32_toInt32. Qed.

Lemma toUint32_js_shl a n :
  0 <= n < 32 -> toUint32 (js_shl a n) = Z.shiftl (toUint32 a) n mod two32.
Proof.
  intros Hn. unfold js_shl. rewrite (Z.mod_small n 32) by done.
  rewrite toUint32_toInt32, toUint32_shiftl by lia.
  by rewrite toUint32_toInt32.
Qed.

Lemma js_ushr_range a n : 0 <= js_ushr a n < two32.
Proof.
  unfold js_ushr. pose proof (toUint32_range a) as Ha.
  pose proof (Z.mod_pos_bound n 32 eq_refl) as Hm.
  rewrite Z.shiftr_div_pow2 by lia.
  assert (0 < 2 ^ (n mod 32)) by (apply Z.pow_pos_nonneg; lia).
  split; [apply Z.div_pos; lia|].
  apply Z.div_lt_upper_bound; [done|]. nia.
Qed.

Lemma js_ushr_0 a : js_ushr a 0 = toUint32 a.
Proof. unfold js_ushr. by rewrite Z.shiftr_0_r. Qed.

Lemma toUint32_xor_shl x n :
  0 <= n < 32 ->
  toUint32 (js_xor x (js_shl x n))
  = Z.lxor (toUint32 x) (Z.shiftl (toUint32 x) n mod two32).
Proof. intros. by rewrite toUint32_js_xor, toUint32_js_shl. Qed.

Lemma toUint32_xor_ushr x n :
  toUint32 (js_xor x (js_ushr x n))
  = Z.lxor (toUint32 x) (Z.shiftr (toUint32 x) (n mod 32)).
Proof.
  rewrite toUint32_js_xor.
  by rewrite (toUint32_small (js_ushr x n)) by apply js_ushr_range.
Qed.

Lemma advance_xorshift32 x : toUint32 (advance x) = xorshift32 (toUint32 x).
Proof.
  unfold advance, xorshift32.
  rewrite toUint32_xor_shl, toUint32_xor_ushr, toUint32_xor_shl by lia.
  reflexivity.
Qed.

Lemma makeRng_unfold seed :
  makeRng seed = if toInt32 seed =? 0 then 1 else toInt32 seed.
Proof.
  unfold makeRng, js_or. change (toInt32 0) with 0. by rewrite Z.lor_0_r.
Qed.

Lemma toInt32_zero_iff z : toInt32 z = 0 <-> z mod two32 = 0.
Proof. unfold toInt32, two32. Z.div_mod_to_equations. lia. Qed.

Lemma makeRng_word seed : toUint32 (makeRng seed) = seed_word seed.
Proof.
  rewrite makeRng_unfold. unfold seed_word.
  destruct (Z.eqb_spec (toInt32 seed) 0) as [E | E].
  - apply toInt32_zero_iff in E. rewrite E. done.
  - destruct (Z.eqb_spec (seed mod two32) 0) as [E' | E'].
    + by apply toInt32_zero_iff in E'.
    + apply toUint32_toInt32.
Qed.

Lemma outputs_words n : forall x,
  outputs n x
  = (fun k => Qmake (word_at k (toUint32 x)) 4294967296) <$> seq 0 n.
Proof.
  induction n as [| n IH]; intros x; [done|].
  cbn [outputs call]. rewrite IH. cbn [seq fmap list_fmap word_at].
  rewrite js_ushr_0, advance_xorshift32. f_equal.
  rewrite <- seq_shift, <- list_fmap_compose. done.
Qed.

Lemma outputs_unit_interval n : forall x,
  Forall (fun q => 0 <= q /\ q < 1)%Q (outputs n x).
Proof.
  induction n as [| n IH]; intros x; cbn [outputs call]; constructor; [|apply IH].
  pose proof (js_ushr_range (advance x) 0) as Hr. unfold two32 in Hr.
  unfold Qle, Qlt. cbn. lia.
Qed.
End RngFacts.

(** C3.  [makeRng] starts from the seed coerced to a signed 32-bit integer,
    zero replaced by one; seen as an unsigned word, each call applies the
    textbook xorshift32 step (left 13, unsigned right 17, left 5) and returns
    the new word over 2^32.  The outputs are therefore a function of the
    seed and the call count alone, and all lie in [0, 1). *)
Theorem makeRng_xorshift32 (seed : Z) (n : nat) :
  Rng.makeRng seed = (if Rng.toInt32 seed =? 0 then 1 else Rng.toInt32 seed)
  /\ Rng.toUint32 (Rng.makeRng seed) = Rng.seed_word seed
  /\ (forall x, Rng.call x
                = (Qmake (Rng.toUint32 (Rng.advance x)) 4294967296, Rng.advance x)
                /\ Rng.toUint32 (Rng.advance x) = Rng.xorshift32 (Rng.toUint32 x))
  /\ Rng.outputs n (Rng.makeRng seed)
     = (fun k => Qmake (Rng.word_at k (Rng.seed_word seed)) 4294967296) <$> seq 0 n
  /\ Forall (fun q => 0 <= q /\ q < 1)%Q (Rng.outputs n (Rng.makeRng seed)).
Proof.
  split; [apply RngFacts.makeRng_unfold|].
  split; [apply RngFacts.makeRng_word|]. split; [|split].
  - intros x. split; [|apply RngFacts.advance_xorshift32].
    unfold Rng.call. by rewrite RngFacts.js_ushr_0.
  - by rewrite RngFacts.outputs_words, RngFacts.makeRng_word.
  - apply RngFacts.outputs_unit_interval.
Qed.

(** The first three numbers drawn with seed 42. *)
Example makeRng_seed_42 :
  Rng.outputs 3 (Rng.makeRng 42)
  = [ Qmake 11355432 4294967296; Qmake 2836018348 4294967296;
      Qmake 476557059 4294967296 ].
Proof. vm_compute. reflexivity. Qed.

(* ===================================================================== *)
(** * Arrays and grids                                                     *)
(* ===================================================================== *)

Section Arrays.
Context {A : Type}.
Implicit Types (l : list A) (i : Z).

Lemma js_index_Some l i x :
  js_index l i = Some x <-> 0 <= i /\ l !! Z.to_nat i = Some x.
Proof.
  unfold js_index. destruct (Z.leb_spec 0 i); split; intros H'; try done.
  - by destruct H'.
  - destruct H'; lia.
Qed.

Lemma js_index_lt l i x : js_index l i = Some x -> 0 <= i < Z.of_nat (length l).
Proof.
  intros [Hi Hl]%js_index_Some. apply lookup_lt_Some in Hl. lia.
Qed.

Lemma js_index_is_Some l i :
  is_Some (js_index l i) <-> 0 <= i < Z.of_nat (length l).
Proof.
  split.
  - intros [x Hx]. by eapply js_index_lt.
  - intros [H0 Hlt]. unfold js_index.
    destruct (Z.leb_spec 0 i); [|lia]. apply lookup_lt_is_Some. lia.
Qed.

Lemma js_index_insert_eq l i x y :
  js_index l i = Some y -> js_index (<[Z.to_nat i := x]> l) i = Some x.
Proof.
  intros [Hi Hl]%js_index_Some. apply js_index_Some. split; [done|].
  apply list_lookup_insert_eq. by eapply lookup_lt_Some.
Qed.

Lemma js_index_insert_ne l i j x :
  0 <= i -> i <> j -> js_index (<[Z.to_nat i := x]> l) j = js_index l j.
Proof.
  intros Hi Hne. unfold js_index. destruct (Z.leb_spec 0 j); [|done].
  apply list_lookup_insert_ne. lia.
Qed.
End Arrays.

Lemma grid_get_Ok g r c v :
  grid_get g r c = Ok v <-> is_Some (js_index g r) /\ v = cell g r c.
Proof.
  unfold grid_get, cell. destruct (js_index g r) as [rw|]; cbn; split.
  - intros [= <-]. eauto.
  - by intros [_ ->].
  - done.
  - by intros [[? [=]] _].
Qed.

Lemma grid_get_cell g r c v : cell g r c = Some v -> grid_get g r c = Ok (Some v).
Proof.
  intros H. apply grid_get_Ok. split; [|done].
  unfold cell in H. by destruct (js_index g r).
Qed.

Lemma grid_get_not_OutOfModel g r c : grid_get g r c <> OutOfModel.
Proof. unfold grid_get. by destruct (js_index g r). Qed.

Lemma cell_Some g r c v :
  cell g r c = Some v <->
  exists rw, js_index g r = Some rw /\ js_index rw c = Some v.
Proof.
  unfold cell. destruct (js_index g r) as [rw|]; cbn.
  - split; [eauto|]. by intros (? & [= <-] & ?).
  - split; [done|]. by intros (? & [=] & _).
Qed.

(** The grid after a successful [visited[r][c] = v]. *)
Lemma grid_set_Ok g r c v g' :
  grid_set g r c v = Ok g' <->
  exists rw, js_index g r = Some rw /\ is_Some (js_index rw c)
             /\ g' = <[Z.to_nat r := <[Z.to_nat c := v]> rw]> g.
Proof.
  unfold grid_set. destruct (js_index g r) as [rw|].
  - destruct (js_index rw c) as [w|] eqn:E.
    + split.
      * intros [= <-]. exists rw. rewrite E. eauto.
      * intros (? & [= <-] & _ & ->). done.
    + split; [done|]. intros (? & [= <-] & [? ?] & _). congruence.
  - split; [done|]. intros (? & [=] & _).
Qed.

Lemma grid_set_cell g r c v w :
  cell g r c = Some w ->
  exists g', grid_set g r c v = Ok g'.
Proof.
  intros (rw & Hr & Hc)%cell_Some. unfold grid_set. rewrite Hr, Hc. eauto.
Qed.

Lemma grid_set_rows g r c v g' r' :
  grid_set g r c v = Ok g' ->
  is_Some (js_index g' r') <-> is_Some (js_index g r').
Proof.
  intros (rw & Hr & Hc & ->)%grid_set_Ok.
  by rewrite !js_index_is_Some, length_insert.
Qed.

Lemma grid_set_length g r c v g' :
  grid_set g r c v = Ok g' -> length g' = length g.
Proof. intros (rw & Hr & Hc & ->)%grid_set_Ok. by rewrite length_insert. Qed.

Lemma grid_set_cell_eq g r c v g' :
  grid_set g r c v = Ok g' -> cell g' r c = Some v.
Proof.
  intros (rw & Hr & [w Hc] & ->)%grid_set_Ok. apply cell_Some.
  exists (<[Z.to_nat c := v]> rw). split; by eapply js_index_insert_eq.
Qed.

Lemma grid_set_cell_ne g r c v g' r' c' :
  grid_set g r c v = Ok g' -> (r', c') <> (r, c) -> cell g' r' c' = cell g r' c'.
Proof.
  intros (rw & Hr & [w Hc] & ->)%grid_set_Ok Hne.
  pose proof (js_index_lt _ _ _ Hr) as Hr0.
  pose proof (js_index_lt _ _ _ Hc) as Hc0.
  unfold cell. destruct (decide (r' = r)) as [-> | Hrr].
  - rewrite (js_index_insert_eq _ _ _ _ Hr), Hr. cbn.
    apply js_index_insert_ne; [lia | congruence].
  - by rewrite js_index_insert_ne by lia.
Qed.

(** A write onto an EMPTY cell keeps every cell that was already marked. *)
Lemma grid_set_keeps_marked g r c v g' r' c' w :
  grid_set g r c v = Ok g' ->
  cell g r c = Some CELL.EMPTY ->
  cell g r' c' = Some w -> w <> CELL.EMPTY ->
  cell g' r' c' = Some w.
Proof.
  intros Hset Hempty Hw Hne.
  rewrite (grid_set_cell_ne _ _ _ _ _ _ _ Hset); [done|].
  intros [= -> ->]. congruence.
Qed.

(* ===================================================================== *)
(** * Loops                                                                *)
(* ===================================================================== *)

Lemma obind_Ok {A B} (a : A) (k : A -> outcome B) : (Ok a ≫= k) = k a.
Proof. done. Qed.

Lemma ofoldl_app {A B} (f : A -> B -> outcome A) a l1 l2 :
  ofoldl f a (l1 ++ l2) = (a' ← ofoldl f a l1; ofoldl f a' l2).
Proof.
  revert a. induction l1 as [|b l1 IH]; intros a; cbn; [done|].
  destruct (f a b); cbn; [apply IH|done..].
Qed.

Lemma ofoldl_cons_Ok {A B} (f : A -> B -> outcome A) a b l a1 :
  f a b = Ok a1 -> ofoldl f a (b :: l) = ofoldl f a1 l.
Proof. intros H. cbn. by rewrite H. Qed.

(** An invariant kept by every iteration that returns is kept by the loop. *)
Lemma ofoldl_invariant {A B} (P : A -> Prop) (f : A -> B -> outcome A) l :
  (forall a b a', b ∈ l -> P a -> f a b = Ok a' -> P a') ->
  forall a a', P a -> ofoldl f a l = Ok a' -> P a'.
Proof.
  induction l as [|b l IH]; intros Hstep a a' Ha; cbn.
  - by intros [= <-].
  - destruct (f a b) as [a1| |] eqn:E; cbn; [|done..].
    apply IH; [|eapply Hstep; eauto; by left].
    intros ???? ; apply Hstep. by right.
Qed.

(** A loop whose iterations all return, returns. *)
Lemma ofoldl_total {A B} (P : A -> Prop) (f : A -> B -> outcome A) l :
  (forall a b, b ∈ l -> P a -> exists a', f a b = Ok a' /\ P a') ->
  forall a, P a -> exists a', ofoldl f a l = Ok a' /\ P a'.
Proof.
  induction l as [|b l IH]; intros Hstep a Ha; cbn; [eauto|].
  destruct (Hstep a b) as (a1 & -> & Ha1); [by left|done|]. cbn.
  apply IH; [|done]. intros ????; apply Hstep; [by right|done].
Qed.

(** A quantity that each iteration increases by a weight of the visited
    element increases over the loop by the sum of the weights. *)
Lemma ofoldl_count {A B} (P : A -> Prop) (m : A -> nat) (w : B -> nat)
    (f : A -> B -> outcome A) l :
  (forall a b a', b ∈ l -> P a -> f a b = Ok a' -> P a' /\ m a' = (m a + w b)%nat) ->
  forall a a', P a -> ofoldl f a l = Ok a' -> m a' = (m a + sum_list_with w l)%nat.
Proof.
  induction l as [|b l IH]; intros Hstep a a' Ha; cbn.
  - intros [= <-]. lia.
  - destruct (f a b) as [a1| |] eqn:E; cbn; [|done..]. intros Hl.
    destruct (Hstep a b a1) as [Ha1 Hm]; [by left|done..|].
    rewrite (IH (fun a b a' Hb => Hstep a b a' (list_elem_of_further _ _ _ Hb)) a1 a' Ha1 Hl).
    lia.
Qed.

Lemma sum_list_with_filter {B} (Q : B -> Prop) `{!forall x, Decision (Q x)} (w : B -> nat) l :
  sum_list_with w (filter Q l)
  = sum_list_with (fun x => if decide (Q x) then w x else 0%nat) l.
Proof.
  induction l as [|x l IH]; [done|]. cbn [sum_list_with]. destruct (decide (Q x)).
  - rewrite filter_cons_True by done. cbn [sum_list_with]. by rewrite IH.
  - by rewrite filter_cons_False by done.
Qed.

Lemma length_filter_sum {B} (Q : B -> Prop) `{!forall x, Decision (Q x)} (l : list B) :
  length (filter Q l) = sum_list_with (fun x => if decide (Q x) then 1%nat else 0%nat) l.
Proof.
  induction l as [|x l IH]; [done|]. cbn [sum_list_with]. destruct (decide (Q x)).
  - rewrite filter_cons_True by done. cbn [length]. by rewrite IH.
  - by rewrite filter_cons_False by done.
Qed.

Lemma sum_list_with_ext_in {B} (w1 w2 : B -> nat) l :
  (forall x, x ∈ l -> w1 x = w2 x) -> sum_list_with w1 l = sum_list_with w2 l.
Proof.
  induction l as [|x l IH]; intros H; [done|]. cbn.
  rewrite (H x) by by left. rewrite IH; [done|]. intros ??; apply H. by right.
Qed.

(** A sum over the indices of an array is a sum over its elements. *)
Lemma sum_list_with_indices {B} (g : option B -> nat) (l : list B) :
  sum_list_with (fun i => g (l !! i)) (seq 0 (length l))
  = sum_list_with (fun x => g (Some x)) l.
Proof.
  induction l as [|x l IH] using rev_ind; [done|].
  rewrite length_app, Nat.add_comm. cbn [length Nat.add].
  rewrite seq_S, !sum_list_with_app. cbn. f_equal.
  - rewrite <- IH. apply sum_list_with_ext_in. intros i [_ Hi]%elem_of_seq.
    by rewrite lookup_app_l by lia.
  - by rewrite list_lookup_middle.
Qed.

(* ===================================================================== *)
(** * Legal moves                                                          *)
(* ===================================================================== *)

Lemma inBounds_spec r c size :
  inBounds r c size = true <-> 0 <= r < size /\ 0 <= c < size.
Proof. unfold inBounds. rewrite !andb_true_iff. lia. Qed.

Lemma legal_step_rows r c size g moves off :
  rows_cover size g ->
  legal_step r c size g moves off
  = Ok (if decide (inBounds (r + off.1) (c + off.2) size = true
                   ∧ cell g (r + off.1) (c + off.2) = Some CELL.EMPTY)
        then moves ++ [(r + off.1, c + off.2)] else moves).
Proof.
  intros Hrows. unfold legal_step.
  destruct (inBounds (r + off.1) (c + off.2) size) eqn:Hb.
  - pose proof Hb as [Hr Hc]%inBounds_spec.
    assert (is_Some (js_index g (r + off.1))) as Hrow.
    { apply js_index_is_Some. unfold rows_cover in Hrows. lia. }
    assert (grid_get g (r + off.1) (c + off.2) = Ok (cell g (r + off.1) (c + off.2))) as ->
      by by apply grid_get_Ok.
    cbn. repeat case_decide; try done; tauto.
  - case_decide as H; [by destruct H|done].
Qed.

Lemma legal_fold r c size g offs : forall acc,
  rows_cover size g ->
  ofoldl (legal_step r c size g) acc offs
  = Ok (acc ++ filter (fun d => inBounds d.1 d.2 size = true
                                ∧ cell g d.1 d.2 = Some CELL.EMPTY)
                      ((fun o => (r + o.1, c + o.2)) <$> offs)).
Proof.
  induction offs as [|off offs IH]; intros acc Hrows.
  - cbn. by rewrite app_nil_r.
  - erewrite ofoldl_cons_Ok by (by apply legal_step_rows).
    rewrite fmap_cons, IH by done. cbn [fst snd]. case_decide as H.
    + rewrite filter_cons_True by done. by rewrite <- app_assoc.
    + by rewrite filter_cons_False by done.
Qed.

(** On a grid with all its rows, [getLegalMoves] returns, and returns the
    legal destinations in offset order. *)
Lemma getLegalMoves_legal_dests r c size g :
  rows_cover size g ->
  getLegalMoves r c size g = Ok (legal_dests r c size g).
Proof. intros Hrows. unfold getLegalMoves. by rewrite legal_fold. Qed.

Lemma legal_dests_spec r c size g d :
  d ∈ legal_dests r c size g <->
  (exists o, o ∈ KNIGHT_MOVES /\ d = (r + o.1, c + o.2))
  /\ inBounds d.1 d.2 size = true /\ cell g d.1 d.2 = Some CELL.EMPTY.
Proof.
  unfold legal_dests. rewrite list_elem_of_filter, list_elem_of_fmap.
  split; intros H; destruct H as [H1 H2].
  - destruct H2 as (o & -> & Ho). split; [eauto|done].
  - destruct H1 as (o & Ho & ->). split; [done|eauto].
Qed.

(* ===================================================================== *)
(** * Cell keys                                                            *)
(* ===================================================================== *)

Lemma pretty_N_go_comma_free x : forall s,
  comma_free s -> comma_free (pretty_N_go x s).
Proof.
  induction (N.lt_wf_0 x) as [x _ IH]; intros s Hs.
  destruct (decide (x = 0)%N) as [-> | Hx]; [done|].
  rewrite pretty_N_go_step by lia.
  apply IH; [apply N.div_lt; lia|].
  split; [|done].
  unfold pretty_N_char. by repeat case_match.
Qed.

Lemma pretty_Z_comma_free (z : Z) : comma_free (pretty z).
Proof.
  assert (forall p : positive, comma_free (pretty p)) as Hpos.
  { intros p. unfold pretty, pretty_positive, pretty, pretty_N.
    case_decide; [done|]. by apply pretty_N_go_comma_free. }
  destruct z as [|p|p]; [done|apply Hpos|].
  split; [done|apply Hpos].
Qed.

Lemma comma_split a : forall a' b b',
  comma_free a -> comma_free a' ->
  a +:+ "," +:+ b = a' +:+ "," +:+ b' -> a = a' /\ b = b'.
Proof.
  induction a as [|x a IH]; intros [|x' a'] b b' Ha Ha';
    cbv [String.append]; fold String.append.
  - by intros [= ->].
  - intros [= <- _]. by destruct Ha'.
  - intros [= -> _]. by destruct Ha.
  - intros [= -> Hrest]. destruct Ha, Ha'.
    destruct (IH a' b b') as [-> ->]; done.
Qed.

Lemma cellKey_inj r c r' c' : cellKey r c = cellKey r' c' -> (r, c) = (r', c').
Proof.
  intros H. apply comma_split in H as [Hr Hc]; [|apply pretty_Z_comma_free..].
  by apply (inj pretty) in Hr as ->; apply (inj pretty) in Hc as ->.
Qed.

Lemma cellKey_eq d d' : cellKey d.1 d.2 = cellKey d'.1 d'.2 <-> d = d'.
Proof.
  split; [|by intros ->]. destruct d, d'. apply cellKey_inj.
Qed.

(* ===================================================================== *)
(** * The maps built by [resolveTurn]                                      *)
(* ===================================================================== *)

Lemma cloneState_id s : cloneState s = s.
Proof. destruct s. unfold cloneState. cbn. by rewrite !list_fmap_id. Qed.

Lemma elem_of_alive_refs ps i :
  i ∈ alive_refs ps <-> exists p, ps !! i = Some p /\ status p = ALIVE.
Proof.
  unfold alive_refs. rewrite list_elem_of_filter, elem_of_seq. split.
  - intros [Hst _]. destruct (ps !! i) as [p|]; [|done].
    exists p. split; [done|]. by injection Hst.
  - intros (p & Hp & Hst). rewrite Hp. split; [cbn; by f_equal|].
    apply lookup_lt_Some in Hp. lia.
Qed.

Lemma NoDup_alive_refs ps : NoDup (alive_refs ps).
Proof. apply NoDup_filter, NoDup_seq. Qed.

(** [intended] is [pendingMoves] restricted to the ids of the players the
    loop has visited. *)
Lemma collect_intended_Some ps pending refs k d :
  collect_intended ps pending refs !! k = Some d <->
  pending !! k = Some d /\ exists i p, i ∈ refs /\ ps !! i = Some p /\ pid p = k.
Proof.
  unfold collect_intended.
  induction refs as [|i refs IH] using rev_ind.
  - cbn. rewrite lookup_empty. split; [done|].
    intros [_ (i & p & Hi & _)]. by apply elem_of_nil in Hi.
  - rewrite foldl_app. cbn.
    set (m := foldl _ ∅ refs) in *.
    assert ((exists j p, j ∈ refs ++ [i] /\ ps !! j = Some p /\ pid p = k) <->
            (exists j p, j ∈ refs /\ ps !! j = Some p /\ pid p = k)
            \/ (exists p, ps !! i = Some p /\ pid p = k)) as ->.
    { split.
      - intros (j & p & [Hj | ->%list_elem_of_singleton]%elem_of_app & Hp & Hk); eauto 6.
      - intros [(j & p & Hj & Hp & Hk) | (p & Hp & Hk)].
        + exists j, p. rewrite elem_of_app. eauto.
        + exists i, p. rewrite elem_of_app, list_elem_of_singleton. eauto. }
    destruct (ps !! i) as [p|] eqn:Hp.
    + destruct (pending !! pid p) as [mv|] eqn:Hmv.
      * destruct (decide (pid p = k)) as [<- | Hne].
        -- rewrite lookup_insert_eq, Hmv. split; [|tauto].
           intros ->. split; [done|]. right. eauto.
        -- rewrite lookup_insert_ne, IH by done. split; [intuition|].
           intros [? [? | (p' & [= <-] & ?)]]; done.
      * rewrite IH. split; [intuition|].
        intros [? [? | (p' & [= <-] & <-)]]; [done|congruence].
    + rewrite IH. split; [intuition|]. intros [? [? | (p' & [=] & _)]]. done.
Qed.

Lemma intended_Some ps pending k d :
  collect_intended ps pending (alive_refs ps) !! k = Some d <->
  pending !! k = Some d /\ exists p, p ∈ ps /\ status p = ALIVE /\ pid p = k.
Proof.
  rewrite collect_intended_Some. split; intros [Hd H]; (split; [done|]).
  - destruct H as (i & p & (p' & Hp' & Hst)%elem_of_alive_refs & Hp & Hk).
    exists p. split; [by eapply list_elem_of_lookup_2|]. naive_solver.
  - destruct H as (p & (i & Hi)%list_elem_of_lookup_1 & Hst & Hk).
    exists i, p. rewrite elem_of_alive_refs. eauto.
Qed.

Lemma intended_alive ps pending p :
  p ∈ ps -> status p = ALIVE ->
  collect_intended ps pending (alive_refs ps) !! pid p = pending !! pid p.
Proof.
  intros Hp Hst. destruct (pending !! pid p) as [d|] eqn:E.
  - apply intended_Some. eauto.
  - destruct (collect_intended _ _ _ !! pid p) as [d|] eqn:E'; [|done].
    apply intended_Some in E' as [? _]. congruence.
Qed.

Lemma bump_dest_lookup d D d' :
  default 0 (bump_dest d D !! cellKey d'.1 d'.2)
  = default 0 (D !! cellKey d'.1 d'.2) + (if decide (d = d') then 1 else 0).
Proof.
  unfold bump_dest. case_decide as E.
  - subst. by rewrite lookup_insert_eq.
  - rewrite lookup_insert_ne; [lia|]. by rewrite cellKey_eq.
Qed.

Lemma count_dests_size m d :
  default 0 (count_dests m !! cellKey d.1 d.2) = Z.of_nat (size (sharing m d)).
Proof.
  unfold count_dests, sharing.
  apply (map_fold_weak_ind
           (fun D m => default 0 (D !! cellKey d.1 d.2)
                       = Z.of_nat (size (filter (fun kv : Z * (Z * Z) => kv.2 = d) m)))).
  - by rewrite map_filter_empty, map_size_empty, lookup_empty.
  - intros i x m' D Hi IH. rewrite bump_dest_lookup, IH.
    rewrite map_filter_insert. cbn. case_decide as E.
    + rewrite map_size_insert_None; [lia|].
      apply map_lookup_filter_None. by left.
    + rewrite delete_id by done. lia.
Qed.

Lemma map_size_two {V} (m : gmap Z V) :
  (2 <= size m)%nat <->
  exists i j x y, i <> j /\ m !! i = Some x /\ m !! j = Some y.
Proof.
  split.
  - intros Hsz. destruct (map_choose m) as (i & x & Hi).
    { intros ->. rewrite map_size_empty in Hsz. lia. }
    destruct (map_choose (delete i m)) as (j & y & Hj).
    { intros E. pose proof (map_size_delete_Some i m (mk_is_Some _ _ Hi)) as Hd.
      rewrite E, map_size_empty in Hd. lia. }
    apply lookup_delete_Some in Hj as [Hne Hj]. eauto 8.
  - intros (i & j & x & y & Hne & Hi & Hj).
    rewrite <- (insert_id m i x), <- (insert_delete_eq m) by done.
    rewrite map_size_insert_None by apply lookup_delete_eq.
    assert (size (delete i m) <> 0)%nat; [|lia].
    apply map_size_non_empty_iff. intros E.
    assert (delete i m !! j = Some y) as Hd by by rewrite lookup_delete_ne.
    by rewrite E, lookup_empty in Hd.
Qed.

(** The collision test [destCount.get(k) > 1] holds exactly when two
    entries of [intended] share the destination. *)
Lemma tally_collision m d :
  1 < default 0 (count_dests m !! cellKey d.1 d.2) <->
  exists i j, i <> j /\ m !! i = Some d /\ m !! j = Some d.
Proof.
  rewrite count_dests_size.
  transitivity (2 <= size (sharing m d))%nat; [lia|].
  rewrite map_size_two. unfold sharing. split.
  - intros (i & j & x & y & Hne & [Hi Hx]%map_lookup_filter_Some
            & [Hj Hy]%map_lookup_filter_Some).
    cbn in *. subst. eauto.
  - intros (i & j & Hne & Hi & Hj). exists i, j, d, d.
    rewrite !map_lookup_filter_Some. eauto.
Qed.

(* ===================================================================== *)
(** * One iteration of the resolution loop                                 *)
(* ===================================================================== *)

Section ResolveStep.
Variables (I : gmap Z (Z * Z)) (D : gmap string Z).

Lemma resolve_player_step s i s' :
  resolve_player I D s i = Ok s' <-> resolve_step I D s i s'.
Proof.
  unfold resolve_player. split.
  - destruct (rs_players s !! i) as [p|] eqn:Hp.
    2: { intros [= <-]. by apply step_absent. }
    destruct (I !! pid p) as [[nr nc]|] eqn:Hi.
    2: { intros [= <-]. by eapply step_pass. }
    case_decide as Hc.
    { intros [= <-]. by eapply (step_collision _ _ _ _ p (nr, nc)). }
    destruct (grid_get (rs_visited s) nr nc) as [v| |] eqn:Hg; cbn; [|done..].
    apply grid_get_Ok in Hg as [Hrow ->].
    case_decide as Hv.
    { intros [= <-]. by eapply (step_blocked _ _ _ _ p (nr, nc)). }
    destruct (grid_set (rs_visited s) nr nc CELL.BLOCKED) as [g'| |] eqn:Hs; cbn; [|done..].
    intros [= <-]. by eapply (step_move _ _ _ _ p (nr, nc)).
  - intros [Hp | p Hp Hi | p [nr nc] Hp Hi Hc | p [nr nc] Hp Hi Hc Hrow Hv
            | p [nr nc] g' Hp Hi Hc Hv Hs]; rewrite Hp; try done;
      rewrite Hi; try done; cbn [fst snd] in *; unfold contested in Hc; cbn in Hc.
    + by rewrite decide_True.
    + rewrite decide_False by done.
      assert (grid_get (rs_visited s) nr nc = Ok (cell (rs_visited s) nr nc)) as ->
        by by apply grid_get_Ok.
      cbn. by rewrite decide_True.
    + rewrite decide_False by done.
      rewrite (grid_get_cell _ _ _ _ Hv). cbn.
      rewrite decide_False by (by intros []). by rewrite Hs.
Qed.

(** An iteration raises only on a missing row. *)
Lemma resolve_player_returns s i :
  (forall p d, rs_players s !! i = Some p -> I !! pid p = Some d ->
               ~ contested D d -> is_Some (js_index (rs_visited s) d.1)) ->
  exists s', resolve_player I D s i = Ok s'.
Proof.
  intros Hrow. unfold resolve_player.
  destruct (rs_players s !! i) as [p|] eqn:Hp; [|eauto].
  destruct (I !! pid p) as [[nr nc]|] eqn:Hi; [|eauto].
  case_decide as Hc; [eauto|].
  specialize (Hrow p (nr, nc) eq_refl Hi Hc). cbn in Hrow.
  assert (grid_get (rs_visited s) nr nc = Ok (cell (rs_visited s) nr nc)) as ->
    by by apply grid_get_Ok.
  cbn. case_decide as Hv; [eauto|].
  destruct (grid_set_cell _ _ _ CELL.BLOCKED _ Hv) as [g' ->]. cbn. eauto.
Qed.

Lemma resolve_player_in_model s i : resolve_player I D s i <> OutOfModel.
Proof.
  unfold resolve_player.
  destruct (rs_players s !! i) as [p|]; [|done].
  destruct (I !! pid p) as [[nr nc]|]; [|done].
  case_decide; [done|].
  destruct (grid_get (rs_visited s) nr nc) as [v| |] eqn:Hg; cbn; [|done|].
  - apply grid_get_Ok in Hg as [_ ->]. case_decide as Hv; [done|].
    by destruct (grid_set_cell _ _ _ CELL.BLOCKED _ Hv) as [g' ->].
  - by apply grid_get_not_OutOfModel in Hg.
Qed.

(** *** What an iteration preserves *)

Lemma resolve_step_roster s i s' :
  resolve_step I D s i s' -> roster (rs_players s') = roster (rs_players s).
Proof.
  intros [| | | |p d g' Hp _ _ _ _]; try done. cbn.
  unfold roster. rewrite list_fmap_insert. cbn.
  apply list_insert_id. by rewrite list_lookup_fmap, Hp.
Qed.

Lemma resolve_step_other s i s' j :
  resolve_step I D s i s' -> j <> i -> rs_players s' !! j = rs_players s !! j.
Proof.
  intros [| | | |p d g' Hp _ _ _ _] Hne; try done. cbn.
  by apply list_lookup_insert_ne.
Qed.

Lemma resolve_step_rows s i s' r :
  resolve_step I D s i s' ->
  is_Some (js_index (rs_visited s') r) <-> is_Some (js_index (rs_visited s) r).
Proof.
  intros [| | | |p d g' _ _ _ _ Hs]; try done. cbn. by eapply grid_set_rows.
Qed.

(** Cells that do not read as EMPTY keep what they read as. *)
Lemma resolve_step_cells s i s' r c :
  resolve_step I D s i s' ->
  cell (rs_visited s) r c <> Some CELL.EMPTY ->
  cell (rs_visited s') r c = cell (rs_visited s) r c.
Proof.
  intros [| | | |p d g' _ _ _ Hv Hs] Hne; try done. cbn.
  eapply grid_set_cell_ne; [done|]. intros [= -> ->]. congruence.
Qed.
End ResolveStep.

Lemma roster_lookup ps ps' i p :
  roster ps' = roster ps -> ps !! i = Some p ->
  exists p', ps' !! i = Some p' /\ pid p' = pid p /\ status p' = status p.
Proof.
  intros Hr Hp.
  assert (roster ps' !! i = Some (pid p, status p)) as H.
  { rewrite Hr. unfold roster. by rewrite list_lookup_fmap, Hp. }
  unfold roster in H. rewrite list_lookup_fmap in H.
  destruct (ps' !! i) as [p'|]; [|done]. injection H as ??. eauto.
Qed.

Lemma roster_length ps ps' : roster ps' = roster ps -> length ps' = length ps.
Proof. intros H. apply (f_equal length) in H. unfold roster in H. by rewrite !length_fmap in H. Qed.

Lemma roster_pids ps ps' : roster ps' = roster ps -> pid <$> ps' = pid <$> ps.
Proof.
  intros H. apply (f_equal (fmap fst)) in H.
  unfold roster in H. rewrite <- !list_fmap_compose in H. exact H.
Qed.

Lemma roster_alive_refs ps ps' : roster ps' = roster ps -> alive_refs ps' = alive_refs ps.
Proof.
  intros H. unfold alive_refs. rewrite (roster_length _ _ H).
  apply list_filter_iff. intros i.
  assert (status <$> ps' !! i = status <$> ps !! i) as ->; [|done].
  apply (f_equal (fmap snd)) in H. unfold roster in H.
  rewrite <- !list_fmap_compose in H.
  assert (status <$> ps' = status <$> ps) as E by exact H.
  by rewrite <- !list_lookup_fmap, E.
Qed.

(* ===================================================================== *)
(** * The resolution loop                                                  *)
(* ===================================================================== *)

Lemma resolveTurn_loop s :
  resolveTurn s
  = (r ← ofoldl (resolve_player (intended_of s) (tally_of s))
                (resolve_start s) (alive_refs (players s));
     Ok (resolve_finish s r, rs_events r)).
Proof. unfold resolveTurn. by rewrite cloneState_id. Qed.

Lemma resolve_frame_start s : resolve_frame s (resolve_start s).
Proof. done. Qed.

Lemma resolve_frame_step s r i r' :
  resolve_frame s r ->
  resolve_step (intended_of s) (tally_of s) r i r' ->
  resolve_frame s r'.
Proof.
  intros (Hro & Hrows & Hcells) Hstep. split; [|split].
  - by rewrite (resolve_step_roster _ _ _ _ _ Hstep).
  - intros rw. by rewrite (resolve_step_rows _ _ _ _ _ rw Hstep).
  - intros rw c Hne. rewrite <- (Hcells rw c Hne).
    eapply resolve_step_cells; [done|]. by rewrite Hcells.
Qed.

(** A loop invariant that holds at the start and is kept by every
    iteration holds of the result of [resolveTurn]. *)
Lemma resolveTurn_invariant (P : Resolving -> Prop) s s' ev :
  P (resolve_start s) ->
  (forall r i r', i ∈ alive_refs (players s) -> resolve_frame s r -> P r ->
                  resolve_step (intended_of s) (tally_of s) r i r' -> P r') ->
  resolveTurn s = Ok (s', ev) ->
  exists r, resolve_frame s r /\ P r /\ s' = resolve_finish s r /\ ev = rs_events r.
Proof.
  intros H0 Hstep. rewrite resolveTurn_loop.
  destruct (ofoldl _ _ _) as [r| |] eqn:Hloop; cbn; [|done..].
  intros [= <- <-].
  assert (resolve_frame s r /\ P r) as [Hf Hp].
  { revert Hloop.
    apply (ofoldl_invariant (fun r => resolve_frame s r /\ P r)); [|by split].
    intros a i a' Hi [Hf Ha] Hok%resolve_player_step.
    split; [by eapply resolve_frame_step|by eapply Hstep]. }
  by exists r.
Qed.

(** The living player behind a reference, in the state the loop started
    from and in the current loop state. *)
Lemma alive_ref_player s r i p' :
  resolve_frame s r -> i ∈ alive_refs (players s) ->
  rs_players r !! i = Some p' ->
  exists p, players s !! i = Some p /\ status p = ALIVE
            /\ pid p' = pid p /\ status p' = ALIVE.
Proof.
  intros (Hro & _) (p & Hp & Hst)%elem_of_alive_refs Hp'.
  destruct (roster_lookup _ _ _ _ Hro Hp) as (q & Hq & Hpid & Hstat).
  assert (q = p') as -> by congruence.
  exists p. repeat split; congruence.
Qed.

Lemma intended_of_alive s p :
  p ∈ players s -> status p = ALIVE ->
  intended_of s !! pid p = pendingMoves s !! pid p.
Proof. apply intended_alive. Qed.

Lemma contested_iff s d :
  contested (tally_of s) d <->
  exists k1 k2, k1 <> k2 /\ intended_of s !! k1 = Some d /\ intended_of s !! k2 = Some d.
Proof. apply tally_collision. Qed.

(** [resolveTurn] returns whenever no intent points the grid read at a
    missing row, and it never leaves the array model. *)
Lemma resolveTurn_returns s :
  intents_safe s -> exists s' ev, resolveTurn s = Ok (s', ev).
Proof.
  intros Hsafe. rewrite resolveTurn_loop.
  destruct (ofoldl_total (resolve_frame s)
              (resolve_player (intended_of s) (tally_of s))
              (alive_refs (players s))) with (a := resolve_start s)
    as (r & -> & _); [|apply resolve_frame_start|cbn; eauto].
  intros r i Hi Hf.
  destruct (resolve_player_returns (intended_of s) (tally_of s) r i) as [r' Hr'].
  - intros p' d Hp' Hd Hnc.
    destruct (alive_ref_player _ _ _ _ Hf Hi Hp') as (p & Hp & Hst & Hpid & _).
    apply list_elem_of_lookup_2 in Hp as Hin.
    unfold intents_safe in Hsafe. rewrite Forall_forall in Hsafe.
    rewrite Hpid, intended_of_alive in Hd by done.
    destruct (Hsafe p Hin Hst d Hd) as [Hrow | Hex].
    + by apply Hf.
    + destruct Hnc. apply contested_iff.
      apply Exists_exists in Hex as (q & Hq & Hqs & Hne & Hqd).
      exists (pid q), (pid p). split; [done|].
      by rewrite !intended_of_alive.
  - exists r'. split; [done|].
    eapply resolve_frame_step; [done|]. by apply resolve_player_step.
Qed.

Lemma resolveTurn_in_model s : resolveTurn s <> OutOfModel.
Proof.
  rewrite resolveTurn_loop.
  generalize (resolve_start s). induction (alive_refs (players s)) as [|i l IH]; intros r; cbn.
  - done.
  - destruct (resolve_player _ _ r i) as [r'| |] eqn:E; cbn; [apply IH|done|].
    by apply resolve_player_in_model in E.
Qed.

(* ===================================================================== *)
(** * In-place loops over references                                       *)
(* ===================================================================== *)

Lemma ofoldl_pure {A B} (f : A -> B -> outcome A) (g : A -> B -> A) l :
  (forall a b, b ∈ l -> f a b = Ok (g a b)) ->
  forall a, ofoldl f a l = Ok (foldl g a l).
Proof.
  induction l as [|b l IH]; intros H a; cbn; [done|].
  rewrite H by by left. cbn. apply IH. intros ???. apply H. by right.
Qed.

Lemma omap_ext_in {A B} (f g : A -> option B) (l : list A) :
  (forall x, x ∈ l -> f x = g x) -> omap f l = omap g l.
Proof.
  induction l as [|x l IH]; intros H; [done|]. cbn.
  rewrite (H x) by by left. rewrite IH; [done|]. intros ??. apply H. by right.
Qed.

Lemma omap_filter {A B} (h : A -> option B) (Q : A -> Prop)
    `{!forall x, Decision (Q x)} (l : list A) :
  omap h (filter Q l) = omap (fun x => if decide (Q x) then h x else None) l.
Proof.
  induction l as [|x l IH]; [done|]. cbn [omap list_omap]. destruct (decide (Q x)).
  - rewrite filter_cons_True by done. cbn [omap list_omap]. by rewrite IH.
  - by rewrite filter_cons_False by done.
Qed.

Lemma omap_indices {A B} (g : option A -> option B) (l : list A) :
  g None = None ->
  omap (fun i => g (l !! i)) (seq 0 (length l)) = omap (fun x => g (Some x)) l.
Proof.
  intros Hnone. induction l as [|x l IH] using rev_ind; [done|].
  rewrite length_app, Nat.add_comm. cbn [length Nat.add].
  rewrite seq_S, !omap_app. cbn. f_equal.
  - rewrite <- IH. apply omap_ext_in. intros i [_ Hi]%elem_of_seq.
    by rewrite lookup_app_l by lia.
  - by rewrite list_lookup_middle.
Qed.

Lemma omap_fmap_filter {A B} (e : A -> B) (Q : A -> Prop)
    `{!forall x, Decision (Q x)} (l : list A) :
  omap (fun x => if decide (Q x) then Some (e x) else None) l = e <$> filter Q l.
Proof.
  induction l as [|x l IH]; [done|]. cbn [omap list_omap]. destruct (decide (Q x)).
  - rewrite filter_cons_True by done. by rewrite fmap_cons, IH.
  - by rewrite filter_cons_False by done.
Qed.

Section InPlace.
Context {A E : Type} (f : A -> option (A * E)).

Lemma visit_length acc i : length (visit f acc i).1 = length acc.1.
Proof.
  unfold visit. destruct (acc.1 !! i) as [x|]; [|done].
  destruct (f x) as [[x' e]|]; [|done]. cbn. by rewrite length_insert.
Qed.

Lemma visit_lookup l ev i j :
  (visit f (l, ev) i).1 !! j
  = if decide (j = i) then touched f <$> l !! j else l !! j.
Proof.
  unfold visit, touched. cbn. case_decide as Eq.
  - subst. destruct (l !! i) as [x|] eqn:Hx; cbn; [|by rewrite Hx].
    destruct (f x) as [[x' e]|]; cbn; [|by rewrite Hx].
    apply list_lookup_insert_eq. by eapply lookup_lt_Some.
  - destruct (l !! i) as [x|]; [|done].
    destruct (f x) as [[x' e]|]; cbn; [|done].
    by apply list_lookup_insert_ne.
Qed.

Lemma foldl_visit_lookup refs : forall l ev j,
  NoDup refs ->
  (foldl (visit f) (l, ev) refs).1 !! j
  = (fun x => if decide (j ∈ refs) then touched f x else x) <$> l !! j.
Proof.
  induction refs as [|i refs IH]; intros l ev j Hnd; cbn [foldl].
  - cbn. destruct (l !! j); cbn; [|done]. by rewrite decide_False by apply not_elem_of_nil.
  - apply NoDup_cons in Hnd as [Hi Hnd].
    pose proof (visit_lookup l ev i j) as Hj.
    destruct (visit f (l, ev) i) as [l' ev']. cbn in Hj.
    rewrite IH, Hj by done. case_decide as Eq.
    + subst. destruct (l !! i) as [x|]; cbn; [|done].
      rewrite decide_False by done. rewrite decide_True; [done|by left].
    + destruct (l !! j); cbn; [|done]. f_equal. apply decide_ext.
      rewrite elem_of_cons. intuition congruence.
Qed.

Lemma foldl_visit_events refs : forall l ev,
  NoDup refs ->
  (foldl (visit f) (l, ev) refs).2
  = ev ++ omap (fun i => l !! i ≫= emitted f) refs.
Proof.
  induction refs as [|i refs IH]; intros l ev Hnd; cbn [foldl omap list_omap].
  - by rewrite app_nil_r.
  - apply NoDup_cons in Hnd as [Hi Hnd].
    pose proof (fun j => visit_lookup l ev i j) as Hl.
    assert ((visit f (l, ev) i).2 = ev ++ from_option (fun e => [e]) [] (l !! i ≫= emitted f))
      as Hev.
    { unfold visit, emitted. cbn. destruct (l !! i) as [x|]; cbn; [|by rewrite app_nil_r].
      destruct (f x) as [[x' e]|]; cbn; [done|by rewrite app_nil_r]. }
    destruct (visit f (l, ev) i) as [l' ev']. cbn in Hl, Hev.
    rewrite IH, Hev, <- app_assoc by done. f_equal.
    rewrite (omap_ext_in (fun k => l' !! k ≫= emitted f) (fun k => l !! k ≫= emitted f)).
    + by destruct (l !! i ≫= emitted f).
    + intros k Hk. rewrite Hl, decide_False; [done|]. by intros ->.
Qed.

(** When the references are the indices selected by a test on the
    objects, the loop is a map over the array, and its events are those of
    the selected objects in array order. *)
Lemma foldl_visit_selected (Q : nat -> Prop) (HQ : forall i, Decision (Q i))
    (q : A -> Prop) (Hq : forall x, Decision (q x)) l ev :
  (forall i x, l !! i = Some x -> Q i <-> q x) ->
  foldl (visit f) (l, ev) (filter Q (seq 0 (length l)))
  = ((fun x => if decide (q x) then touched f x else x) <$> l,
     ev ++ omap (fun x => if decide (q x) then emitted f x else None) l).
Proof.
  intros HQq.
  assert (NoDup (filter Q (seq 0 (length l)))) as Hnd
    by apply NoDup_filter, NoDup_seq.
  pose proof (fun j => foldl_visit_lookup _ l ev j Hnd) as Hlook.
  pose proof (foldl_visit_events _ l ev Hnd) as Hev.
  destruct (foldl _ _ _) as [l' ev']. cbn in Hlook, Hev. f_equal.
  - apply list_eq. intros j. rewrite Hlook, list_lookup_fmap.
    destruct (l !! j) as [x|] eqn:Hx; cbn; [|done]. f_equal.
    apply decide_ext. rewrite list_elem_of_filter, elem_of_seq, (HQq j x Hx).
    apply lookup_lt_Some in Hx. intuition lia.
  - rewrite Hev. f_equal. rewrite omap_filter.
    etrans; [|exact (omap_indices
                       (fun o : option A =>
                          match o with
                          | Some x => if decide (q x) then emitted f x else None
                          | None => None
                          end)
                       l eq_refl)].
    apply omap_ext_in. intros i [_ Hi]%elem_of_seq.
    destruct (l !! i) as [x|] eqn:Hx; cbn.
    + apply decide_ext. by apply HQq.
    + by case_decide.
Qed.

Lemma foldl_visit_all l ev :
  foldl (visit f) (l, ev) (seq 0 (length l))
  = (touched f <$> l, ev ++ omap (emitted f) l).
Proof.
  pose proof (fun j => foldl_visit_lookup _ l ev j (NoDup_seq 0 (length l))) as Hlook.
  pose proof (foldl_visit_events _ l ev (NoDup_seq 0 (length l))) as Hev.
  destruct (foldl _ _ _) as [l' ev']. cbn in Hlook, Hev. f_equal.
  - apply list_eq. intros j. rewrite Hlook, list_lookup_fmap.
    destruct (l !! j) as [x|] eqn:Hx; cbn; [|done]. f_equal.
    rewrite decide_True; [done|]. apply elem_of_seq.
    apply lookup_lt_Some in Hx. lia.
  - rewrite Hev. f_equal.
    exact (omap_indices (fun o => o ≫= emitted f) l eq_refl).
Qed.
End InPlace.

(** A loop over the living players. *)
Lemma foldl_visit_alive {E} (f : PlayerState -> option (PlayerState * E)) ps ev :
  foldl (visit f) (ps, ev) (alive_refs ps)
  = ((fun p => if decide (status p = ALIVE) then touched f p else p) <$> ps,
     ev ++ omap (fun p => if decide (status p = ALIVE) then emitted f p else None) ps).
Proof.
  unfold alive_refs.
  etrans; [apply (foldl_visit_selected f _ _ (fun p => status p = ALIVE) _)|done].
  intros i p Hp. rewrite Hp. split; [by intros [= ?]|intros H; cbn; by rewrite H].
Qed.

Lemma alive_refs_length ps :
  length (alive_refs ps) = length (filter (fun p => status p = ALIVE) ps).
Proof.
  unfold alive_refs. rewrite !length_filter_sum.
  rewrite <- (sum_list_with_indices
                (fun o => match o with
                          | Some p => if decide (status p = ALIVE) then 1 else 0
                          | None => 0
                          end)%nat).
  apply sum_list_with_ext_in. intros i _.
  destruct (ps !! i) as [p|]; cbn; [|done].
  apply decide_ext. split; [by intros [= ?]|intros H; by rewrite H].
Qed.

(* ===================================================================== *)
(** * Evaluation                                                           *)
(* ===================================================================== *)

Section Evaluate.
Variable s : GameState.
Hypothesis Hrows : rows_cover (boardSize s) (visited s).

Lemma eliminate_player_visit acc i :
  eliminate_player (boardSize s) (visited s) acc i
  = Ok (visit (elim_rule (boardSize s) (visited s)) acc i).
Proof.
  unfold eliminate_player, visit, elim_rule.
  destruct (acc.1 !! i) as [p|]; [|done].
  rewrite getLegalMoves_legal_dests, obind_Ok by done.
  generalize (legal_dests (row p) (col p) (boardSize s) (visited s)).
  intros [|m ms]; [done|].
  rewrite decide_False by done. by rewrite decide_False by done.
Qed.

Lemma elimination_loop :
  ofoldl (eliminate_player (boardSize s) (visited s)) (players s, [])
         (alive_refs (players s))
  = Ok (eliminate s <$> players s, elimination_events s).
Proof.
  rewrite (ofoldl_pure _ (visit (elim_rule (boardSize s) (visited s))))
    by (intros; apply eliminate_player_visit).
  f_equal. rewrite foldl_visit_alive. f_equal.
  - apply list_fmap_ext. intros _ p _. unfold eliminate, stuck, touched, elim_rule.
    repeat case_decide; try done; tauto.
  - rewrite app_nil_l. unfold elimination_events. rewrite <- omap_fmap_filter.
    apply omap_ext_in. intros p _. unfold stuck, emitted, elim_rule.
    repeat case_decide; try done; tauto.
Qed.
End Evaluate.

Lemma foldl_ext {A B} (f g : A -> B -> A) (l : list B) :
  (forall a b, f a b = g a b) -> forall a, foldl f a l = foldl g a l.
Proof.
  intros H. induction l as [|b l IH]; intros a; [done|]. cbn. by rewrite H, IH.
Qed.

Lemma crown_player_visit m acc i : crown_player m acc i = visit (crown_rule m) acc i.
Proof.
  unfold crown_player, visit, crown_rule, win_rule.
  destruct (acc.1 !! i) as [p|]; [|done]. by case_decide.
Qed.

Lemma max_score_snoc ps p :
  max_score (ps ++ [p])
  = Some (match max_score ps with
          | None => score p
          | Some a => Z.max a (score p)
          end).
Proof. unfold max_score. by rewrite foldl_app. Qed.

(** [Math.max] of the scores is attained and bounds every score. *)
Lemma max_score_Some ps m :
  max_score ps = Some m ->
  Forall (fun q => score q <= m) ps /\ exists q, q ∈ ps /\ score q = m.
Proof.
  revert m. induction ps as [|p ps IH] using rev_ind; intros m; [done|].
  rewrite max_score_snoc. intros [= <-].
  destruct (max_score ps) as [a|] eqn:Ha.
  - destruct (IH a eq_refl) as [Hall (q & Hq & Hqa)]. split.
    + apply Forall_app. split.
      * eapply Forall_impl; [done|]. cbn. lia.
      * constructor; [lia|done].
    + destruct (Z.max_spec a (score p)) as [[_ ->] | [_ ->]].
      * exists p. split; [|done]. apply elem_of_app. right. by left.
      * exists q. split; [|done]. apply elem_of_app. by left.
  - assert (ps = []) as ->.
    { destruct ps as [|q ps] using rev_ind; [done|]. by rewrite max_score_snoc in Ha. }
    split; [by constructor|]. exists p. split; [by left|done].
Qed.

Lemma max_score_top ps p :
  p ∈ ps -> Some (score p) = max_score ps <-> top_scorer ps p.
Proof.
  intros Hp. unfold top_scorer. split.
  - intros Hm. symmetry in Hm. by apply max_score_Some in Hm as [? _].
  - intros Htop. destruct (max_score ps) as [m|] eqn:Hm.
    + apply max_score_Some in Hm as [Hall (q & Hq & Hqm)]. f_equal.
      rewrite Forall_forall in Htop, Hall.
      specialize (Htop q Hq). specialize (Hall p Hp). lia.
    + destruct ps as [|q ps] using rev_ind; [by apply elem_of_nil in Hp|].
      by rewrite max_score_snoc in Hm.
Qed.

(** On a grid that has all its rows, [evaluateState] returns the state and
    the events of [evaluate_spec]. *)
Lemma evaluateState_spec s :
  rows_cover (boardSize s) (visited s) ->
  evaluateState s = Ok (evaluate_spec s).
Proof.
  intros Hrows. unfold evaluateState, evaluate_spec.
  rewrite cloneState_id, elimination_loop, obind_Ok by done.
  set (ps1 := eliminate s <$> players s).
  set (ev1 := elimination_events s).
  rewrite <- (alive_refs_length ps1).
  pose proof (foldl_visit_alive win_rule ps1 ev1) as Hwin.
  destruct (alive_refs ps1) as [|i [|j rest]]; cbn [length].
  - rewrite decide_True, decide_False, decide_True by lia.
    rewrite (foldl_ext _ (visit (crown_rule (max_score ps1))))
      by (intros; apply crown_player_visit).
    rewrite foldl_visit_all. unfold crown, winner_events.
    rewrite <- omap_fmap_filter.
    assert (forall p, p ∈ ps1 ->
              crown_rule (max_score ps1) p
              = if decide (top_scorer ps1 p) then win_rule p else None) as Hrule.
    { intros p Hp. unfold crown_rule. apply decide_ext. by apply max_score_top. }
    f_equal. f_equal; [do 2 f_equal|f_equal].
    + apply list_fmap_ext. intros k p Hp%list_elem_of_lookup_2.
      unfold touched. rewrite Hrule by done. by case_decide.
    + apply omap_ext_in. intros p Hp. unfold emitted. rewrite Hrule by done.
      by case_decide.
  - rewrite decide_True, decide_True by lia. cbn [foldl] in Hwin.
    unfold visit, win_rule in Hwin. cbn [fst snd] in Hwin.
    unfold crown, winner_events. rewrite <- omap_fmap_filter.
    destruct (ps1 !! i) as [p|]; cbv beta iota zeta.
    + injection Hwin as H1 H2. rewrite H1, H2. reflexivity.
    + injection Hwin as H1 H2. rewrite H1 at 1. rewrite H2 at 1. reflexivity.
  - rewrite decide_False, decide_False, decide_False by lia. done.
Qed.

(** In scenario C player 1 is eliminated with its score and player 0, the
    only survivor, wins. *)
Example evaluate_scenario_C :
  evaluate_spec state_C
  = (set_phase GAMEOVER
       (set_players [set_status WINNER player_C0; set_status ELIMINATED player_C1]
                    state_C),
     [EvElimination 1 2; EvWinner 0]).
Proof. vm_compute. reflexivity. Qed.

(* ===================================================================== *)
(** * The rules of evaluation, field by field                              *)
(* ===================================================================== *)

Lemma filter_fmap {A B} (f : A -> B) (P : B -> Prop) `{!forall y, Decision (P y)}
    (l : list A) :
  filter P (f <$> l) = f <$> filter (fun x => P (f x)) l.
Proof.
  induction l as [|x l IH]; [done|]. rewrite fmap_cons, !filter_cons, IH.
  by destruct (decide (P (f x))).
Qed.

Lemma eliminate_fields s p :
  (pid (eliminate s p), isHuman (eliminate s p), row (eliminate s p),
   col (eliminate s p), score (eliminate s p), palette (eliminate s p),
   aiStrategy (eliminate s p))
  = (pid p, isHuman p, row p, col p, score p, palette p, aiStrategy p)
  /\ status (eliminate s p) = (if decide (stuck s p) then ELIMINATED else status p).
Proof. unfold eliminate. by destruct (decide (stuck s p)). Qed.

Lemma eliminate_remains s p : status (eliminate s p) = ALIVE <-> remains s p.
Proof.
  destruct (eliminate_fields s p) as [_ ->]. unfold remains.
  destruct (decide (stuck s p)) as [[Ha Hm] | Hn].
  - split; [done|]. by intros [_ ?].
  - split; [|by intros [? _]].
    intros Ha. split; [done|]. intros Hm. by apply Hn.
Qed.

Lemma survivors_remain s :
  filter (fun p => status p = ALIVE) (eliminate s <$> players s)
  = eliminate s <$> filter (remains s) (players s).
Proof.
  rewrite filter_fmap. f_equal. apply list_filter_iff. intros p.
  apply eliminate_remains.
Qed.

Lemma top_scorer_eliminate s p :
  top_scorer (eliminate s <$> players s) (eliminate s p)
  <-> Forall (fun q => score q <= score p) (players s).
Proof.
  unfold top_scorer. rewrite Forall_fmap.
  assert (forall q, score (eliminate s q) = score q) as Hsc.
  { intros q. by destruct (eliminate_fields s q) as [[= _ _ _ _ ? _ _] _]. }
  rewrite Hsc. apply Forall_iff. intros q. cbn. by rewrite Hsc.
Qed.

(** C6.  On a grid that has all its rows, [evaluateState] returns, changes
    nothing of a player but its status, and sets the statuses, the phase
    and the events as the rules say.  A living player without a legal move
    is ELIMINATED, with an elimination event carrying its score.  If
    exactly one player remains ALIVE after that, it is made WINNER with a
    winner event; if none remains, every player whose score is the maximum
    over all players is made WINNER, one winner event each; in both cases
    the phase is GAMEOVER.  If two or more remain, the phase is SELECT and
    nobody wins.  Every other player keeps its status. *)
Theorem evaluateState_rules s :
  rows_cover (boardSize s) (visited s) ->
  exists s' ev,
    evaluateState s = Ok (s', ev)
    /\ Forall2 (fun p p' =>
                  (pid p', isHuman p', row p', col p', score p', palette p',
                   aiStrategy p')
                  = (pid p, isHuman p, row p, col p, score p, palette p,
                     aiStrategy p)
                  /\ status p' = (if decide (wins s p) then WINNER
                                  else if decide (stuck s p) then ELIMINATED
                                  else status p))
               (players s) (players s')
    /\ phase s' = (if decide (length (filter (remains s) (players s)) <= 1)%nat
                   then GAMEOVER else SELECT)
    /\ ev = ((fun p => EvElimination (pid p) (score p)) <$> filter (stuck s) (players s))
            ++ ((fun p => EvWinner (pid p)) <$> filter (wins s) (players s))
    /\ (boardSize s', visited s', obstacles s', turn s', pendingMoves s', history s')
       = (boardSize s, visited s, obstacles s, turn s, pendingMoves s, history s).
Proof.
  intros Hrows. pose proof (evaluateState_spec s Hrows) as Hrun.
  unfold evaluate_spec in Hrun. rewrite survivors_remain, length_fmap in Hrun.
  assert (forall p, pid (eliminate s p) = pid p) as Hpid.
  { intros p. by destruct (eliminate_fields s p) as [[= ? _ _ _ _ _ _] _]. }
  destruct (filter (remains s) (players s)) as [|q [|q' R]] eqn:HR;
    cbn [length] in Hrun |- *.
  - (* nobody remains: the top scorers win *)
    assert (forall p, wins s p <-> Forall (fun q => score q <= score p) (players s))
      as Hwins by (intros p; unfold wins; by rewrite HR).
    rewrite decide_False, decide_True in Hrun by lia. rewrite decide_True by lia.
    eexists _, _. split; [exact Hrun|].
    split; [|split; [done|split; [|done]]].
    + cbn [players set_phase set_players]. unfold crown.
      rewrite <- list_fmap_compose. apply Forall2_fmap_r, Forall_Forall2_diag.
      apply Forall_forall. intros p _. cbn.
      destruct (eliminate_fields s p) as [Hf Hst].
      destruct (decide (top_scorer _ (eliminate s p))) as [Ht | Ht];
        rewrite top_scorer_eliminate, <- Hwins in Ht.
      * rewrite (decide_True _ _ Ht). split; [|done].
        exact Hf.
      * by rewrite (decide_False _ _ Ht).
    + unfold elimination_events, winner_events. f_equal.
      rewrite filter_fmap, <- list_fmap_compose.
      rewrite (list_filter_iff _ (wins s))
        by (intros p; by rewrite top_scorer_eliminate, Hwins).
      apply list_fmap_ext. intros ? p _. cbn. by rewrite Hpid.
  - (* one player remains: it wins *)
    assert (forall p, wins s p <-> remains s p)
      as Hwins by (intros p; unfold wins; by rewrite HR).
    rewrite decide_True in Hrun by lia. rewrite decide_True by lia.
    eexists _, _. split; [exact Hrun|].
    split; [|split; [done|split; [|done]]].
    + cbn [players set_phase set_players]. unfold crown.
      rewrite <- list_fmap_compose. apply Forall2_fmap_r, Forall_Forall2_diag.
      apply Forall_forall. intros p _. cbn.
      destruct (eliminate_fields s p) as [Hf Hst].
      destruct (decide (status (eliminate s p) = ALIVE)) as [Ht | Ht];
        rewrite eliminate_remains, <- Hwins in Ht.
      * rewrite (decide_True _ _ Ht). split; [|done].
        exact Hf.
      * by rewrite (decide_False _ _ Ht).
    + unfold elimination_events, winner_events. f_equal.
      rewrite filter_fmap, <- list_fmap_compose.
      rewrite (list_filter_iff _ (wins s))
        by (intros p; by rewrite eliminate_remains, Hwins).
      apply list_fmap_ext. intros ? p _. cbn. by rewrite Hpid.
  - (* two or more remain: the game goes on *)
    assert (forall p, ~ wins s p) as Hwins by (intros p; unfold wins; rewrite HR; tauto).
    rewrite decide_False, decide_False in Hrun by lia. rewrite decide_False by lia.
    eexists _, _. split; [exact Hrun|].
    split; [|split; [done|split; [|done]]].
    + cbn [players set_phase set_players].
      apply Forall2_fmap_r, Forall_Forall2_diag.
      apply Forall_forall. intros p _. cbn.
      destruct (eliminate_fields s p) as [Hf Hst].
      by rewrite (decide_False _ _ (Hwins p)).
    + unfold elimination_events.
      rewrite (list_filter_iff (wins s) (fun _ => False))
        by (intros p; split; [apply Hwins|tauto]).
      assert (forall l : list PlayerState, filter (fun _ => False) l = []) as ->.
      { induction l as [|x l IH]; [done|]. rewrite filter_cons_False; [done|tauto]. }
      by rewrite app_nil_r.
Qed.

(** Witness: scenario C.  Player 1, in the corner (2,2) with score 2, has no
    legal move and is eliminated; player 0 is the only one that remains and
    wins; the game is over.  The last part spells the result out. *)
Lemma evaluateState_rules_witness :
  rows_cover (boardSize state_C) (visited state_C)
  /\ (exists s' ev,
       evaluateState state_C = Ok (s', ev)
       /\ Forall2 (fun p p' =>
                     (pid p', isHuman p', row p', col p', score p', palette p',
                      aiStrategy p')
                     = (pid p, isHuman p, row p, col p, score p, palette p,
                        aiStrategy p)
                     /\ status p' = (if decide (wins state_C p) then WINNER
                                     else if decide (stuck state_C p) then ELIMINATED
                                     else status p))
                  (players state_C) (players s')
       /\ phase s'
          = (if decide (length (filter (remains state_C) (players state_C)) <= 1)%nat
             then GAMEOVER else SELECT)
       /\ ev = ((fun p => EvElimination (pid p) (score p))
                  <$> filter (stuck state_C) (players state_C))
               ++ ((fun p => EvWinner (pid p))
                     <$> filter (wins state_C) (players state_C))
       /\ (boardSize s', visited s', obstacles s', turn s', pendingMoves s',
           history s')
          = (boardSize state_C, visited state_C, obstacles state_C, turn state_C,
             pendingMoves state_C, history state_C))
  /\ exists s',
       evaluateState state_C = Ok (s', [EvElimination 1 2; EvWinner 0])
       /\ status <$> players s' = [WINNER; ELIMINATED]
       /\ phase s' = GAMEOVER
       /\ filter (stuck state_C) (players state_C) = [player_C1]
       /\ filter (wins state_C) (players state_C) = [player_C0].
Proof.
  assert (rows_cover (boardSize state_C) (visited state_C)) as Hrows
    by (unfold rows_cover; cbn; lia).
  split; [exact Hrows|]. split; [exact (evaluateState_rules state_C Hrows)|].
  eexists. split; [vm_compute; reflexivity|]. by vm_compute.
Defined.

(* ===================================================================== *)
(** * Counting cells                                                       *)
(* ===================================================================== *)

Section CountCells.
Variable P : Z -> Prop.
Context `{!forall v, Decision (P v)}.

Lemma count_insert (l : list Z) i x y :
  l !! i = Some y ->
  (length (filter P (<[i := x]> l)) + tick P y
   = length (filter P l) + tick P x)%nat.
Proof.
  intros Hi. rewrite <- (take_drop_middle l i y Hi) at 2.
  rewrite insert_take_drop by by eapply lookup_lt_Some.
  rewrite !filter_app, !length_app, !filter_cons. unfold tick.
  repeat case_decide; cbn; lia.
Qed.

Lemma count_grid_insert (g : Grid) r rw rw' :
  g !! r = Some rw ->
  (length (filter P (concat (<[r := rw']> g))) + length (filter P rw)
   = length (filter P (concat g)) + length (filter P rw'))%nat.
Proof.
  intros Hr. rewrite <- (take_drop_middle g r rw Hr) at 2.
  rewrite insert_take_drop by by eapply lookup_lt_Some.
  rewrite !concat_app, !concat_cons, !filter_app, !length_app. lia.
Qed.

(** The count of the cells satisfying [P] after a write. *)
Lemma count_grid_set g r c v w g' :
  cell g r c = Some w -> grid_set g r c v = Ok g' ->
  (length (filter P (concat g')) + tick P w
   = length (filter P (concat g)) + tick P v)%nat.
Proof.
  intros (rw & Hr & Hc)%cell_Some (rw' & Hr' & _ & ->)%grid_set_Ok.
  assert (rw' = rw) as -> by congruence.
  apply js_index_Some in Hr as [_ Hr]. apply js_index_Some in Hc as [_ Hc].
  pose proof (count_grid_insert g _ rw (<[Z.to_nat c := v]> rw) Hr).
  pose proof (count_insert rw _ v w Hc). lia.
Qed.
End CountCells.

Lemma empties_marked g : (empties g + marked g = length (concat g))%nat.
Proof.
  unfold empties, marked. induction (concat g) as [|v l IH]; [done|].
  rewrite !filter_cons. repeat case_decide; cbn; try done; lia.
Qed.

Lemma concat_length_rows (m : nat) (g : Grid) :
  Forall (fun rw => length rw = m) g -> length (concat g) = (length g * m)%nat.
Proof.
  induction 1 as [|rw g' Hrw _ IH]; [done|].
  rewrite concat_cons, length_app. cbn [length]. lia.
Qed.

Lemma square_cells n g : square_grid n g -> length (concat g) = (n * n)%nat.
Proof. intros [Hlen Hrows]. by rewrite (concat_length_rows n), Hlen. Qed.

Lemma makeGrid_square size : square_grid (Z.to_nat size) (makeGrid size).
Proof.
  unfold makeGrid. split; [by rewrite length_replicate|].
  apply Forall_replicate. by rewrite length_replicate.
Qed.

Lemma marked_zero g : Forall (Forall (fun v => v = CELL.EMPTY)) g -> marked g = 0%nat.
Proof.
  unfold marked. induction 1 as [|rw g' Hrw _ IH]; [done|].
  rewrite concat_cons, filter_app, length_app, IH.
  induction Hrw as [|v rw' Hv _ IHrw]; [done|].
  by rewrite filter_cons_False by (by intros []).
Qed.

Lemma makeGrid_empties size :
  empties (makeGrid size) = (Z.to_nat size * Z.to_nat size)%nat.
Proof.
  pose proof (empties_marked (makeGrid size)) as H.
  rewrite (square_cells _ _ (makeGrid_square size)) in H.
  enough (marked (makeGrid size) = 0%nat) by lia.
  apply marked_zero. unfold makeGrid.
  apply Forall_replicate, Forall_replicate. done.
Qed.

Lemma grid_set_square n g r c v g' :
  square_grid n g -> grid_set g r c v = Ok g' -> square_grid n g'.
Proof.
  intros [Hlen Hrows] (rw & Hr & Hc & ->)%grid_set_Ok.
  split; [by rewrite length_insert|].
  apply js_index_Some in Hr as [_ Hr].
  apply Forall_insert; [done|]. rewrite length_insert.
  by eapply (Forall_lookup_1 _ _ _ _ Hrows).
Qed.

(** A write of a non-EMPTY marker: the EMPTY cells decrease by one when the
    cell was EMPTY and stay as many otherwise. *)
Lemma empties_grid_set g r c v w g' :
  v <> CELL.EMPTY ->
  cell g r c = Some w -> grid_set g r c v = Ok g' ->
  (empties g' + (if decide (w = CELL.EMPTY) then 1 else 0) = empties g)%nat.
Proof.
  intros Hv Hw Hset. unfold empties.
  pose proof (count_grid_set (fun v => v = CELL.EMPTY) g r c v w g' Hw Hset) as H.
  unfold tick in H. rewrite (decide_False (P := v = CELL.EMPTY)) in H by done. lia.
Qed.

Lemma marked_grid_set g r c v w g' :
  cell g r c = Some w -> grid_set g r c v = Ok g' ->
  (marked g' + (if decide (w <> CELL.EMPTY) then 1 else 0)
   = marked g + (if decide (v <> CELL.EMPTY) then 1 else 0))%nat.
Proof.
  intros Hw Hset.
  exact (count_grid_set (fun v => v <> CELL.EMPTY) g r c v w g' Hw Hset).
Qed.

(** Distinct marked positions are counted by [marked]. *)
Lemma marked_positions (L : list (Z * Z)) : forall g,
  NoDup L ->
  (forall o, o ∈ L -> exists w, cell g o.1 o.2 = Some w /\ w <> CELL.EMPTY) ->
  (length L <= marked g)%nat.
Proof.
  induction L as [|o L IH]; intros g Hnd Hall; cbn [length]; [lia|].
  apply NoDup_cons in Hnd as [Ho Hnd].
  destruct (Hall o) as (w & Hw & Hne); [by left|].
  destruct (grid_set_cell g o.1 o.2 CELL.EMPTY w Hw) as [g0 Hg0].
  pose proof (marked_grid_set _ _ _ _ _ _ Hw Hg0) as Hm.
  rewrite decide_True, decide_False in Hm by (try done; by intros []).
  enough (length L <= marked g0)%nat by lia.
  apply IH; [done|]. intros o' Ho'.
  destruct (Hall o') as (w' & Hw' & Hne'); [by right|].
  exists w'. split; [|done].
  rewrite (grid_set_cell_ne _ _ _ _ _ _ _ Hg0); [done|].
  intros Heq. apply Ho. destruct o, o'. cbn in Heq. by injection Heq as <- <-.
Qed.

(* ===================================================================== *)
(** * Marking cells in a loop                                              *)
(* ===================================================================== *)

Lemma ofoldl_fmap {A B C} (f : A -> C -> outcome A) (h : B -> C) (l : list B) a :
  ofoldl (fun a b => f a (h b)) a l = ofoldl f a (h <$> l).
Proof.
  revert a. induction l as [|b l IH]; intros a; [done|]. cbn.
  destruct (f a (h b)); cbn; [apply IH|done..].
Qed.

Section MarkLoop.
Variables (val : Z) (n : nat).
Hypothesis Hval : val <> CELL.EMPTY.

Lemma mark_cell_step g o g1 :
  mark_cell val g o = Ok g1 ->
  cell g1 o.1 o.2 = Some val
  /\ (forall r c, cell g r c = Some val -> cell g1 r c = Some val)
  /\ (forall r c w, cell g r c = Some w -> w <> CELL.EMPTY ->
                    exists w', cell g1 r c = Some w' /\ w' <> CELL.EMPTY)
  /\ (empties g1 <= empties g)%nat.
Proof.
  unfold mark_cell. intros Hset.
  assert (cell g1 o.1 o.2 = Some val) as H1 by by eapply grid_set_cell_eq.
  assert (exists w, cell g o.1 o.2 = Some w) as [w Hw].
  { apply grid_set_Ok in Hset as (rw & Hr & [w Hc] & _).
    exists w. apply cell_Some. eauto. }
  pose proof (empties_grid_set _ _ _ _ _ _ Hval Hw Hset) as Hemp.
  split; [done|]. split; [|split; [|lia]].
  - intros r c Hrc. destruct (decide ((r, c) = (o.1, o.2))) as [[= -> ->] | Hno]; [done|].
    by rewrite (grid_set_cell_ne _ _ _ _ _ _ _ Hset).
  - intros r c w0 Hw0 Hne.
    destruct (decide ((r, c) = (o.1, o.2))) as [[= -> ->] | Hno]; [eauto|].
    exists w0. by rewrite (grid_set_cell_ne _ _ _ _ _ _ _ Hset).
Qed.

Lemma mark_loop cells : forall g g',
  ofoldl (mark_cell val) g cells = Ok g' ->
  square_grid n g ->
  square_grid n g'
  /\ (forall o, o ∈ cells -> cell g' o.1 o.2 = Some val)
  /\ (forall r c, cell g r c = Some val -> cell g' r c = Some val)
  /\ (forall r c w, cell g r c = Some w -> w <> CELL.EMPTY ->
                    exists w', cell g' r c = Some w' /\ w' <> CELL.EMPTY)
  /\ (empties g' <= empties g)%nat.
Proof.
  induction cells as [|o cells IH]; intros g g' Hloop Hsq; cbn in Hloop.
  - injection Hloop as <-. split; [done|]. split; [|split; [done|split; [eauto|lia]]].
    intros o Ho. by apply elem_of_nil in Ho.
  - destruct (mark_cell val g o) as [g1| |] eqn:Hset; cbn in Hloop; [|done..].
    destruct (mark_cell_step _ _ _ Hset) as (H1 & Hsame1 & Hkeep1 & Hle1).
    destruct (IH g1 g' Hloop) as (Hsq' & Hcells & Hsame & Hkeep & Hle);
      [by eapply grid_set_square|].
    split; [done|]. split; [|split; [|split; [|lia]]].
    + intros o' [-> | Ho']%elem_of_cons; [by apply Hsame|by apply Hcells].
    + intros r c Hrc. by apply Hsame, Hsame1.
    + intros r c w0 Hw0 Hne.
      destruct (Hkeep1 r c w0 Hw0 Hne) as (w1 & Hw1 & Hne1). eauto.
Qed.
End MarkLoop.

Lemma ofoldl_ext {A B} (f g : A -> B -> outcome A) (l : list B) :
  (forall a b, f a b = g a b) -> forall a, ofoldl f a l = ofoldl g a l.
Proof.
  intros H. induction l as [|b l IH]; intros a; [done|]. cbn. rewrite H.
  destruct (g a b); cbn; [apply IH|done..].
Qed.

(* ===================================================================== *)
(** * The player list                                                      *)
(* ===================================================================== *)

Section PlayerLoop.
Variables (hc : Z) (starts : list (Z * Z)).

Lemma push_players l : forall acc ps,
  ofoldl (push_player hc starts) acc l = Ok ps ->
  exists sts, ps = acc ++ zip_with (new_player hc) l sts
              /\ length sts = length l
              /\ (forall k i, l !! k = Some i -> js_index starts i = sts !! k).
Proof.
  induction l as [|i l IH]; intros acc ps Hloop; cbn in Hloop.
  - injection Hloop as <-. exists []. by rewrite app_nil_r.
  - destruct (push_player hc starts acc i) as [acc'| |] eqn:Hstep; cbn in Hloop; [|done..].
    unfold push_player in Hstep.
    destruct (js_index starts i) as [st|] eqn:Hst; [|done]. injection Hstep as <-.
    destruct (IH _ _ Hloop) as (sts & -> & Hlen & Hidx).
    exists (st :: sts). rewrite <- app_assoc. cbn. split; [done|]. split; [by f_equal|].
    intros [|k] j; cbn; [by intros [= <-]|apply Hidx].
Qed.

Lemma push_players_total l acc :
  Forall (fun i => is_Some (js_index starts i)) l ->
  exists ps, ofoldl (push_player hc starts) acc l = Ok ps.
Proof.
  intros H. revert acc. induction H as [|i l [st Hst] _ IH]; intros acc; [by eexists|].
  erewrite ofoldl_cons_Ok; [apply IH|]. unfold push_player. by rewrite Hst.
Qed.

(** The players [initState] builds: ids 0..n-1 in order, all alive with
    score 1, standing on the first [n] start positions. *)
Lemma init_players n ps :
  ofoldl (push_player hc starts) [] (upto n) = Ok ps ->
  pid <$> ps = upto n
  /\ Forall (fun p => score p = 1 /\ status p = ALIVE) ps
  /\ (fun p => (row p, col p)) <$> ps = take (Z.to_nat n) starts
  /\ (Z.to_nat n <= length starts)%nat.
Proof.
  intros (sts & -> & Hlen & Hidx)%push_players. rewrite app_nil_l.
  assert (sts = take (Z.to_nat n) starts /\ (Z.to_nat n <= length starts)%nat)
    as [-> Hle].
  { unfold upto in *. rewrite length_fmap, length_seq in Hlen.
    assert (forall k, (k < Z.to_nat n)%nat -> starts !! k = sts !! k) as Hk.
    { intros k Hlt. rewrite <- (Hidx k (Z.of_nat k)).
      - unfold js_index. rewrite Nat2Z.id. by destruct (Z.leb_spec 0 (Z.of_nat k)); [|lia].
      - rewrite list_lookup_fmap, lookup_seq_lt by done. done. }
    assert (Z.to_nat n <= length starts)%nat as Hle.
    { destruct (Z.to_nat n) as [|m] eqn:E; [lia|].
      assert (is_Some (starts !! m)) as Hs.
      { rewrite Hk by lia. apply lookup_lt_is_Some. lia. }
      apply lookup_lt_is_Some in Hs. lia. }
    split; [|done]. apply list_eq. intros k.
    destruct (decide (k < Z.to_nat n)%nat).
    - by rewrite lookup_take_lt, Hk by lia.
    - rewrite lookup_take_ge by lia. apply lookup_ge_None. lia. }
  set (sts := take (Z.to_nat n) starts) in *.
  assert (length (upto n) = length sts) as Hl by done.
  clear Hidx Hlen. revert Hl. generalize (upto n) as l. generalize sts as ss.
  intros ss l Hl. split; [|split; [|split; [|done]]].
  - revert ss Hl. induction l as [|i l IH]; intros [|st ss] Hl; cbn in *; try done.
    f_equal. apply IH. lia.
  - revert ss Hl. induction l as [|i l IH]; intros [|st ss] Hl; cbn in *; try done.
    constructor; [done|]. apply IH. lia.
  - revert ss Hl. induction l as [|i l IH]; intros [|st ss] Hl; cbn in *; try done.
    f_equal; [by destruct st|]. apply IH. lia.
Qed.
End PlayerLoop.

Lemma NoDup_upto n : NoDup (upto n).
Proof. unfold upto. apply NoDup_fmap_2, NoDup_seq. intros ???. lia. Qed.

(* ===================================================================== *)
(** * Obstacle placement                                                   *)
(* ===================================================================== *)

Lemma draw_index_range x size :
  1 <= size -> 0 <= (draw_index x size).1 < size.
Proof.
  intros Hsize. unfold draw_index, Rng.call. cbn [fst].
  pose proof (RngFacts.js_ushr_range (Rng.advance x) 0) as Hu.
  set (u := Rng.js_ushr (Rng.advance x) 0) in *. unfold Rng.two32 in Hu.
  unfold Qfloor, Qmult, inject_Z. cbn [Qnum Qden].
  change (Z.pos (4294967296 * 1)) with 4294967296.
  split.
  - apply Z.div_pos; nia.
  - apply Z.div_lt_upper_bound; nia.
Qed.

Arguments draw_index : simpl never.
Arguments placeObstacles : simpl never.

Lemma place_loop_ok budget size count : forall obs occ x obs' x',
  obstacles_ok obs occ ->
  place_loop budget size count obs occ x = (obs', x') ->
  NoDup obs'
  /\ (forall o, o ∈ obs' -> o ∈ obs \/ cellKey o.1 o.2 ∉ occ)
  /\ (1 <= size -> Forall (on_board size) obs -> Forall (on_board size) obs').
Proof.
  induction budget as [|budget IH]; intros obs occ x obs' x' [Hnd Hkeys] Hloop;
    cbn in Hloop.
  { injection Hloop as <- <-. eauto. }
  destruct (Z.of_nat (length obs) <? count); [|injection Hloop as <- <-; eauto].
  pose proof (draw_index_range x size) as Hr.
  destruct (draw_index x size) as [r x1].
  pose proof (draw_index_range x1 size) as Hc.
  destruct (draw_index x1 size) as [c x2]. cbn [fst] in *.
  case_decide as Hocc.
  - apply (IH obs occ x2 obs' x'); [by split|done].
  - destruct (IH (obs ++ [(r, c)]) (occ ∪ {[cellKey r c]}) x2 obs' x') as (Hnd' & Hnew & Hboard);
      [|done|].
    + split.
      * apply NoDup_app. split; [done|]. split; [|apply NoDup_singleton].
        intros o Ho ->%list_elem_of_singleton. by apply Hocc, (Hkeys (r, c)).
      * intros o [Ho | ->%list_elem_of_singleton]%elem_of_app;
          [|by apply elem_of_union_r, elem_of_singleton].
        apply elem_of_union_l. by apply Hkeys.
    + split; [done|]. split.
      * intros o Ho. destruct (Hnew o Ho) as [[Hin | ->%list_elem_of_singleton]%elem_of_app | Hn].
        -- by left.
        -- by right.
        -- right. intros Hin. apply Hn. by apply elem_of_union_l.
      * intros Hsize Hall. apply Hboard; [done|]. apply Forall_app. split; [done|].
        constructor; [|done]. split; cbn; auto.
Qed.

(** The obstacles are pairwise distinct, avoid every protected key, and lie
    on the board when there is one. *)
Lemma placeObstacles_ok size x starts count obs x' :
  placeObstacles size x starts count = (obs, x') ->
  NoDup obs
  /\ (forall o, o ∈ obs -> cellKey o.1 o.2 ∉ protected_keys starts)
  /\ (1 <= size -> Forall (on_board size) obs).
Proof.
  unfold placeObstacles. intros Hloop.
  destruct (place_loop_ok _ _ _ _ _ _ _ _ (conj (NoDup_nil_2) (fun o Ho => False_ind _ (not_elem_of_nil o Ho))) Hloop)
    as (Hnd & Hnew & Hboard).
  split; [done|]. split.
  - intros o Ho. destruct (Hnew o Ho) as [Hin | Hn]; [by apply elem_of_nil in Hin|done].
  - intros Hsize. by apply Hboard.
Qed.

(* ===================================================================== *)
(** * [initState]                                                          *)
(* ===================================================================== *)

Lemma mark_players_loop v (ps : list PlayerState) :
  ofoldl (fun v p => grid_set v (row p) (col p) CELL.BLOCKED) v ps
  = ofoldl (mark_cell CELL.BLOCKED) v ((fun p => (row p, col p)) <$> ps).
Proof. by rewrite <- ofoldl_fmap. Qed.

Lemma mark_obstacles_loop v (obs : list (Z * Z)) :
  ofoldl (fun v '(r, c) => grid_set v r c CELL.OBSTACLE) v obs
  = ofoldl (mark_cell CELL.OBSTACLE) v obs.
Proof. apply ofoldl_ext. by intros ? [? ?]. Qed.

(** The stages of [initState]. *)
Lemma initState_inv cfg s :
  initState cfg = Ok s ->
  let size := cfg_boardSize cfg in
  let starts := defaultStartPositions (cfg_playerCount cfg) size in
  let rules := merge_rules (cfg_ruleset cfg) in
  exists ps v1 obs x1,
    ofoldl (push_player (Z.max 1 (cfg_playerCount cfg - cfg_cpuCount cfg)) starts)
           [] (upto (cfg_playerCount cfg)) = Ok ps
    /\ ofoldl (mark_cell CELL.BLOCKED) (makeGrid size)
              ((fun p => (row p, col p)) <$> ps) = Ok v1
    /\ placeObstacles size (Rng.makeRng (cfg_seed cfg)) starts (obstacleCount rules)
       = (obs, x1)
    /\ ofoldl (mark_cell CELL.OBSTACLE) v1 obs = Ok (visited s)
    /\ s = mkState size (cfg_seed cfg) 0 SELECT ps (visited s) obs ∅ rules x1 [].
Proof.
  intros H size starts rules. unfold initState in H. fold size starts rules in H.
  destruct (ofoldl (push_player _ _) _ _) as [ps| |] eqn:Hps; [|done..].
  rewrite obind_Ok, mark_players_loop in H.
  destruct (ofoldl (mark_cell CELL.BLOCKED) _ _) as [v1| |] eqn:Hv1; [|done..].
  rewrite obind_Ok in H.
  destruct (placeObstacles _ _ _ _) as [obs x1] eqn:Hobs.
  rewrite mark_obstacles_loop in H.
  destruct (ofoldl (mark_cell CELL.OBSTACLE) _ _) as [v2| |] eqn:Hv2; [|done..].
  rewrite obind_Ok in H. injection H as <-. by exists ps, v1, obs, x1.
Qed.

Lemma initState_total cfg ps v1 v2 :
  let size := cfg_boardSize cfg in
  let starts := defaultStartPositions (cfg_playerCount cfg) size in
  let rules := merge_rules (cfg_ruleset cfg) in
  let placed := placeObstacles size (Rng.makeRng (cfg_seed cfg)) starts
                               (obstacleCount rules) in
  ofoldl (push_player (Z.max 1 (cfg_playerCount cfg - cfg_cpuCount cfg)) starts)
         [] (upto (cfg_playerCount cfg)) = Ok ps ->
  ofoldl (mark_cell CELL.BLOCKED) (makeGrid size)
         ((fun p => (row p, col p)) <$> ps) = Ok v1 ->
  ofoldl (mark_cell CELL.OBSTACLE) v1 placed.1 = Ok v2 ->
  initState cfg
  = Ok (mkState size (cfg_seed cfg) 0 SELECT ps v2 placed.1 ∅ rules placed.2 []).
Proof.
  intros size starts rules placed Hps Hv1 Hv2. unfold initState.
  fold size starts rules. rewrite Hps, obind_Ok, mark_players_loop, Hv1, obind_Ok.
  fold placed. destruct placed as [obs x1]. cbn [fst snd] in *.
  by rewrite mark_obstacles_loop, Hv2.
Qed.

Lemma cell_on_board n g r c :
  square_grid n g -> 0 <= r < Z.of_nat n -> 0 <= c < Z.of_nat n ->
  exists w, cell g r c = Some w.
Proof.
  intros [Hlen Hrows] Hr Hc.
  destruct (proj2 (js_index_is_Some g r)) as [rw Hrw]; [lia|].
  assert (length rw = n) as Hrwl.
  { apply js_index_Some in Hrw as [_ Hrw]. by eapply (Forall_lookup_1 _ _ _ _ Hrows). }
  destruct (proj2 (js_index_is_Some rw c)) as [w Hw]; [lia|].
  exists w. apply cell_Some. eauto.
Qed.

Lemma mark_loop_total val size cells : forall g,
  square_grid (Z.to_nat size) g -> Forall (on_board size) cells ->
  exists g', ofoldl (mark_cell val) g cells = Ok g'.
Proof.
  induction cells as [|o cells IH]; intros g Hsq Hall; [by eexists|].
  apply Forall_cons in Hall as [[Hr Hc] Hall].
  destruct (cell_on_board _ g o.1 o.2 Hsq) as [w Hw]; [lia..|].
  destruct (grid_set_cell g o.1 o.2 val w Hw) as [g1 Hg1].
  erewrite ofoldl_cons_Ok by exact Hg1.
  apply IH; [by eapply grid_set_square|done].
Qed.

Lemma start_corners_on_board size :
  1 <= size -> Forall (on_board size) (start_corners size).
Proof.
  intros Hsize. unfold start_corners, on_board.
  assert (0 <= size / 5 < size) by (split; [apply Z.div_pos; lia|apply Z.div_lt_upper_bound; lia]).
  repeat constructor; cbn; lia.
Qed.

Lemma defaultStartPositions_take n size :
  n <= 4 ->
  take (Z.to_nat n) (defaultStartPositions n size) = take (Z.to_nat n) (start_corners size)
  /\ (0 <= n -> defaultStartPositions n size = take (Z.to_nat n) (start_corners size)).
Proof.
  intros Hn. unfold defaultStartPositions, js_slice0.
  change (length (start_corners size)) with 4%nat.
  destruct (Z.ltb_spec n 0).
  - split; [|lia]. by replace (Z.to_nat n) with 0%nat by lia.
  - rewrite Z.min_l by lia. split; [|done]. by rewrite take_take, Nat.min_id.
Qed.

Lemma defaultStartPositions_on_board n size :
  1 <= size -> Forall (on_board size) (defaultStartPositions n size).
Proof.
  intros Hsize. unfold defaultStartPositions, js_slice0.
  apply Forall_take, start_corners_on_board. done.
Qed.

Lemma initState_players cfg s :
  initState cfg = Ok s ->
  pid <$> players s = upto (cfg_playerCount cfg)
  /\ Forall (fun p => score p = 1 /\ status p = ALIVE) (players s)
  /\ (fun p => (row p, col p)) <$> players s
     = take (Z.to_nat (cfg_playerCount cfg))
            (defaultStartPositions (cfg_playerCount cfg) (cfg_boardSize cfg)).
Proof.
  intros (ps & v1 & obs & x1 & Hps & _ & _ & _ & ->)%initState_inv. cbn.
  apply init_players in Hps as (? & ? & ? & _). done.
Qed.

Lemma initState_grid cfg s :
  initState cfg = Ok s ->
  square_grid (Z.to_nat (cfg_boardSize cfg)) (visited s)
  /\ Forall (fun p => exists w, cell (visited s) (row p) (col p) = Some w
                                /\ w <> CELL.EMPTY) (players s)
  /\ Forall (fun o => cell (visited s) o.1 o.2 = Some CELL.OBSTACLE) (obstacles s)
  /\ NoDup (obstacles s).
Proof.
  intros (ps & v1 & obs & x1 & Hps & Hv1 & Hobs & Hv2 & Hs)%initState_inv.
  rewrite Hs. cbn [players visited obstacles].
  destruct (mark_loop CELL.BLOCKED (Z.to_nat (cfg_boardSize cfg)) ltac:(done) _ _ _ Hv1
              (makeGrid_square _)) as (Hsq1 & Hcells1 & _ & _ & _).
  destruct (mark_loop CELL.OBSTACLE (Z.to_nat (cfg_boardSize cfg)) ltac:(done) _ _ _ Hv2 Hsq1)
    as (Hsq2 & Hcells2 & _ & Hkeep2 & _).
  split; [done|]. split; [|split].
  - apply Forall_forall. intros p Hp.
    apply (Hkeep2 _ _ CELL.BLOCKED); [|done].
    apply (Hcells1 (row p, col p)). apply list_elem_of_fmap. eauto.
  - apply Forall_forall. intros o Ho. by apply Hcells2.
  - by apply placeObstacles_ok in Hobs as [? _].
Qed.

(** The EMPTY cells of a fresh game: at most the area of the board less
    the obstacles actually placed. *)
Lemma initState_empties cfg s :
  initState cfg = Ok s ->
  Z.of_nat (empties (visited s))
  <= cfg_boardSize cfg * cfg_boardSize cfg - Z.of_nat (length (obstacles s)).
Proof.
  intros Hinit. destruct (initState_grid cfg s Hinit) as (Hsq & _ & Hobs & Hnd).
  pose proof (empties_marked (visited s)) as Hsum.
  rewrite (square_cells _ _ Hsq) in Hsum.
  assert (length (obstacles s) <= marked (visited s))%nat as Hle.
  { apply marked_positions; [done|]. intros o Ho.
    rewrite Forall_forall in Hobs. exists CELL.OBSTACLE. split; [by apply Hobs|done]. }
  destruct (Z.le_gt_cases 0 (cfg_boardSize cfg)); nia.
Qed.

Lemma upto_lookup n i : i ∈ upto n -> 0 <= i < n.
Proof.
  unfold upto. intros (k & -> & [_ Hk]%elem_of_seq)%list_elem_of_fmap. lia.
Qed.

(** C7.  On a board of size at least 1 and for at most four players,
    [initState] returns a state whose players stand, in id order, on the
    first [playerCount] of the corners [(pad,pad)],
    [(size-1-pad,size-1-pad)], [(pad,size-1-pad)], [(size-1-pad,pad)] with
    [pad = floor(size/5)]; each is ALIVE with score 1 on a cell marked
    non-EMPTY, and the phase is SELECT. *)
Theorem initState_corner_starts cfg :
  1 <= cfg_boardSize cfg -> cfg_playerCount cfg <= 4 ->
  exists s, initState cfg = Ok s
    /\ (fun p => (row p, col p)) <$> players s
       = take (Z.to_nat (cfg_playerCount cfg)) (start_corners (cfg_boardSize cfg))
    /\ Forall (fun p => score p = 1 /\ status p = ALIVE
                        /\ exists w, cell (visited s) (row p) (col p) = Some w
                                     /\ w <> CELL.EMPTY) (players s)
    /\ phase s = SELECT.
Proof.
  intros Hsize Hn.
  set (size := cfg_boardSize cfg). set (n := cfg_playerCount cfg).
  set (starts := defaultStartPositions n size).
  destruct (defaultStartPositions_take n size Hn) as [Htake Hstarts].
  destruct (push_players_total (Z.max 1 (n - cfg_cpuCount cfg)) starts (upto n) [])
    as [ps Hps].
  { apply Forall_forall. intros i Hi%upto_lookup. apply js_index_is_Some.
    unfold starts. rewrite Hstarts by lia. rewrite length_take.
    change (length (start_corners size)) with 4%nat. lia. }
  pose proof (init_players _ _ _ _ Hps) as (Hpids & Hscores & Hpos & _).
  destruct (mark_loop_total CELL.BLOCKED size ((fun p => (row p, col p)) <$> ps)
              (makeGrid size)) as [v1 Hv1].
  { apply makeGrid_square. }
  { rewrite Hpos. apply Forall_take. by apply defaultStartPositions_on_board. }
  destruct (placeObstacles size (Rng.makeRng (cfg_seed cfg)) starts
              (obstacleCount (merge_rules (cfg_ruleset cfg)))) as [obs x1] eqn:Hobs.
  destruct (mark_loop CELL.BLOCKED (Z.to_nat size) ltac:(done) _ _ _ Hv1
              (makeGrid_square _)) as (Hsq1 & _).
  destruct (mark_loop_total CELL.OBSTACLE size obs v1 Hsq1) as [v2 Hv2].
  { by apply placeObstacles_ok in Hobs as (_ & _ & ?); auto. }
  pose proof (initState_total cfg ps v1 v2 Hps Hv1) as Hinit.
  fold size n starts in Hinit. rewrite Hobs in Hinit. specialize (Hinit Hv2).
  eexists. split; [exact Hinit|].
  destruct (initState_grid _ _ Hinit) as (_ & Hmarked & _).
  cbn [players visited phase] in *. split; [|split; [|done]].
  - by rewrite Hpos.
  - rewrite Forall_forall in Hscores, Hmarked. apply Forall_forall. intros p Hp.
    destruct (Hscores p Hp). auto.
Qed.

(** Witness: scenario A; the start cells are (1,1) and (6,6). *)
Lemma initState_corner_starts_witness :
  1 <= cfg_boardSize scenario_A /\ cfg_playerCount scenario_A <= 4
  /\ exists s, initState scenario_A = Ok s
       /\ (fun p => (row p, col p)) <$> players s = [(1, 1); (6, 6)]
       /\ Forall (fun p => score p = 1 /\ status p = ALIVE
                           /\ exists w, cell (visited s) (row p) (col p) = Some w
                                        /\ w <> CELL.EMPTY) (players s)
       /\ phase s = SELECT.
Proof.
  assert (1 <= cfg_boardSize scenario_A) as H1 by (cbn; lia).
  assert (cfg_playerCount scenario_A <= 4) as H2 by (cbn; lia).
  split; [done|]. split; [done|].
  exact (initState_corner_starts scenario_A H1 H2).
Defined.

(* ===================================================================== *)
(** * Counting events                                                      *)
(* ===================================================================== *)

Lemma count_moves_snoc k ev e :
  count_moves k (ev ++ [e]) = (count_moves k ev + (if is_move_of k e then 1 else 0))%nat.
Proof.
  unfold count_moves. rewrite filter_app, length_app. f_equal.
  destruct (is_move_of k e) eqn:E.
  - by rewrite filter_cons_True.
  - rewrite filter_cons_False; [done|congruence].
Qed.

Lemma count_moves_app k ev1 ev2 :
  count_moves k (ev1 ++ ev2) = (count_moves k ev1 + count_moves k ev2)%nat.
Proof. unfold count_moves. by rewrite filter_app, length_app. Qed.

Lemma count_collisions_snoc d ev e :
  count_collisions d (ev ++ [e])
  = (count_collisions d ev + (if is_collision_at d e then 1 else 0))%nat.
Proof.
  unfold count_collisions. rewrite filter_app, length_app. f_equal.
  destruct (is_collision_at d e) eqn:E.
  - by rewrite filter_cons_True.
  - rewrite filter_cons_False; [done|congruence].
Qed.

(* ===================================================================== *)
(** * Intents that resolution drops                                        *)
(* ===================================================================== *)

(** The intent of a living player, as the loop sees it. *)
Lemma loop_intent s r i p' d :
  resolve_frame s r -> i ∈ alive_refs (players s) ->
  rs_players r !! i = Some p' -> intended_of s !! pid p' = Some d ->
  exists p, players s !! i = Some p /\ status p = ALIVE /\ pid p' = pid p
            /\ pendingMoves s !! pid p = Some d.
Proof.
  intros Hf Hi Hp' Hd.
  destruct (alive_ref_player _ _ _ _ Hf Hi Hp') as (p & Hp & Hst & Hpid & _).
  exists p. repeat split; try done.
  rewrite Hpid in Hd. rewrite <- intended_of_alive; [done| |done].
  by eapply list_elem_of_lookup_2.
Qed.

Section DroppedIntent.
Variables (s : GameState) (i : nat) (p : PlayerState) (d : Z * Z).
Hypothesis Hp : players s !! i = Some p.
Hypothesis Halive : status p = ALIVE.
Hypothesis Hd : pendingMoves s !! pid p = Some d.

Lemma intent_of_subject : intended_of s !! pid p = Some d.
Proof.
  rewrite intended_of_alive; [done| |done]. by eapply list_elem_of_lookup_2.
Qed.

(** While the destination of [p] does not read EMPTY, no iteration moves
    [p] or emits a move event in its name. *)
Lemma occupied_intent_kept r j r' :
  cell (visited s) d.1 d.2 <> Some CELL.EMPTY ->
  resolve_frame s r -> kept i p r ->
  resolve_step (intended_of s) (tally_of s) r j r' -> kept i p r'.
Proof.
  intros Hocc (_ & _ & Hcells) [Hpl Hcnt] Hstep. unfold kept.
  pose proof intent_of_subject as Hint.
  destruct Hstep as [| | q d' Hq Hd' Hc | q d' Hq Hd' Hc Hrow Hv
                     | q d' g' Hq Hd' Hc Hv Hs]; cbn [rs_players rs_events]; try done.
  - by rewrite count_moves_snoc, Hcnt.
  - by rewrite count_moves_snoc, Hcnt.
  - assert (pid q <> pid p) as Hne.
    { intros E. rewrite E, Hint in Hd'. injection Hd' as <-.
      rewrite Hcells in Hv; done. }
    split.
    + rewrite list_lookup_insert_ne; [done|]. intros <-. congruence.
    + rewrite count_moves_snoc, Hcnt. cbn [is_move_of]. by rewrite bool_decide_eq_false_2.
Qed.

(** While the destination of [p] is contested, likewise. *)
Lemma contested_intent_kept r j r' :
  contested (tally_of s) d ->
  kept i p r -> resolve_step (intended_of s) (tally_of s) r j r' -> kept i p r'.
Proof.
  intros Hcon [Hpl Hcnt] Hstep. unfold kept.
  pose proof intent_of_subject as Hint.
  destruct Hstep as [| | q d' Hq Hd' Hc | q d' Hq Hd' Hc Hrow Hv
                     | q d' g' Hq Hd' Hc Hv Hs]; cbn [rs_players rs_events]; try done.
  - by rewrite count_moves_snoc, Hcnt.
  - by rewrite count_moves_snoc, Hcnt.
  - assert (pid q <> pid p) as Hne.
    { intros E. rewrite E, Hint in Hd'. by injection Hd' as <-. }
    split.
    + rewrite list_lookup_insert_ne; [done|]. intros <-. congruence.
    + rewrite count_moves_snoc, Hcnt. cbn [is_move_of]. by rewrite bool_decide_eq_false_2.
Qed.
End DroppedIntent.

(** In a state whose intents cannot send the grid read to a missing row, a
    living player's intent for a cell that does not read EMPTY is dropped:
    the call returns, the player object is unchanged and no move event
    names the player. *)
Lemma occupied_intent_dropped s i p d :
  intents_safe s ->
  players s !! i = Some p -> status p = ALIVE ->
  pendingMoves s !! pid p = Some d ->
  cell (visited s) d.1 d.2 <> Some CELL.EMPTY ->
  forall s' ev, resolveTurn s = Ok (s', ev) ->
    players s' !! i = Some p /\ count_moves (pid p) ev = 0%nat.
Proof.
  intros Hsafe Hp Halive Hd Hocc s' ev Hres.
  destruct (resolveTurn_invariant
              (fun r => rs_players r !! i = Some p
                        /\ count_moves (pid p) (rs_events r) = 0%nat) s s' ev)
    as (r & _ & [Hpl Hcnt] & -> & ->); [done| |done|done].
  intros r j r' _ Hf Hk Hstep.
  by eapply (occupied_intent_kept s i p d).
Qed.

Lemma initState_scenario_A : initState scenario_A = Ok state_A.
Proof. vm_compute. reflexivity. Qed.

(** C1 (as stated) fails.  In scenario A the cell (4,4) is no knight offset
    from the cell (1,1) of player 0, yet [resolveTurn] executes the intent:
    the player lands on (4,4) with score 2 and a move event is emitted.  And
    an intent for row -1 makes [resolveTurn] raise. *)
Lemma resolveTurn_executes_illegal_intent :
  ((4 - 1, 4 - 1) ∉ KNIGHT_MOVES)
  /\ ((4, 4) ∉ legal_dests 1 1 8 (visited state_A))
  /\ (exists s', resolveTurn (submitMove state_A 0 4 4)
                 = Ok (s', [EvMove 0 (1, 1) (4, 4)])
        /\ (fun p => (row p, col p, score p)) <$> players s' !! 0%nat
           = Some (4, 4, 2))
  /\ inBounds (-1) 2 8 = false
  /\ resolveTurn (submitMove state_A 0 (-1) 2) = TypeError.
Proof.
  split; [by apply (bool_decide_unpack _); vm_compute|].
  split; [by apply (bool_decide_unpack _); vm_compute|].
  split; [|split; [done|by vm_compute]].
  eexists. split; [vm_compute; reflexivity|]. reflexivity.
Qed.

(* ===================================================================== *)
(** * Collisions                                                           *)
(* ===================================================================== *)

Lemma resolveTurn_count (m : Resolving -> nat) (w : nat -> nat) s s' ev :
  (forall r i r', i ∈ alive_refs (players s) -> resolve_frame s r ->
                  resolve_step (intended_of s) (tally_of s) r i r' ->
                  m r' = (m r + w i)%nat) ->
  resolveTurn s = Ok (s', ev) ->
  exists r, s' = resolve_finish s r /\ ev = rs_events r
            /\ m r = (m (resolve_start s) + sum_list_with w (alive_refs (players s)))%nat.
Proof.
  intros Hstep. rewrite resolveTurn_loop.
  destruct (ofoldl _ _ _) as [r| |] eqn:Hloop; cbn; [|done..].
  intros [= <- <-]. exists r. split; [done|]. split; [done|].
  revert Hloop. apply (ofoldl_count (resolve_frame s)); [|apply resolve_frame_start].
  intros a i a' Hi Hf Hok%resolve_player_step.
  split; [by eapply resolve_frame_step|by eapply Hstep].
Qed.

(** Two living players with distinct ids and the same pending destination
    make that destination contested. *)
Lemma colliders_contested s d :
  NoDup (pid <$> players s) -> (2 <= length (colliders s d))%nat ->
  contested (tally_of s) d.
Proof.
  intros Hnd Hlen. apply contested_iff.
  assert (NoDup (pid <$> colliders s d)) as Hnd'.
  { eapply sublist_NoDup; [done|]. apply fmap_sublist, sublist_filter. }
  destruct (colliders s d) as [|p [|q rest]] eqn:E; cbn in Hlen; [lia..|].
  assert (p ∈ colliders s d /\ q ∈ colliders s d) as [Hp Hq].
  { rewrite E. split; [by left|right; by left]. }
  unfold colliders in Hp, Hq.
  apply list_elem_of_filter in Hp as [[Hps Hpd] Hpin].
  apply list_elem_of_filter in Hq as [[Hqs Hqd] Hqin].
  exists (pid p), (pid q). split.
  - cbn in Hnd'. apply NoDup_cons in Hnd' as [Hnotin _].
    intros Heq. apply Hnotin. rewrite Heq. by left.
  - by rewrite !intended_of_alive.
Qed.

(** The weight of a reference in the count of collision events at [d]. *)
Lemma collision_weight s d r i r' :
  i ∈ alive_refs (players s) -> resolve_frame s r ->
  resolve_step (intended_of s) (tally_of s) r i r' ->
  count_collisions d (rs_events r')
  = (count_collisions d (rs_events r)
     + match players s !! i with
       | Some p => if decide (intended_of s !! pid p = Some d
                              /\ contested (tally_of s) d) then 1 else 0
       | None => 0
       end)%nat.
Proof.
  intros Hi Hf Hstep.
  assert (forall p', rs_players r !! i = Some p' ->
            exists p, players s !! i = Some p /\ pid p' = pid p) as Hsame.
  { intros p' Hp'. destruct (alive_ref_player _ _ _ _ Hf Hi Hp') as (p & ? & _ & ? & _).
    eauto. }
  destruct Hstep as [Hnone | p' Hp' Hd' | p' d' Hp' Hd' Hc | p' d' Hp' Hd' Hc Hrow Hv
                     | p' d' g' Hp' Hd' Hc Hv Hs]; cbn [rs_events].
  - apply elem_of_alive_refs in Hi as (p & Hp & _).
    destruct Hf as (Hro & _). apply roster_length in Hro.
    apply lookup_lt_Some in Hp. apply lookup_ge_None in Hnone. lia.
  - destruct (Hsame _ Hp') as (p & -> & Hpid). rewrite <- Hpid, Hd'.
    rewrite decide_False by (by intros [? _]). lia.
  - destruct (Hsame _ Hp') as (p & -> & Hpid). rewrite <- Hpid, Hd'.
    rewrite count_collisions_snoc. cbn [is_collision_at]. f_equal.
    case_bool_decide as E.
    + subst. by rewrite decide_True.
    + rewrite decide_False; [done|]. intros [[= ?] _]. done.
  - destruct (Hsame _ Hp') as (p & -> & Hpid). rewrite <- Hpid, Hd'.
    rewrite count_collisions_snoc. cbn [is_collision_at]. f_equal.
    rewrite decide_False; [done|]. intros [[= ->] ?]. done.
  - destruct (Hsame _ Hp') as (p & -> & Hpid). rewrite <- Hpid, Hd'.
    rewrite count_collisions_snoc. cbn [is_collision_at]. f_equal.
    rewrite decide_False; [done|]. intros [[= ->] ?]. done.
Qed.

Lemma collision_weights_sum s d :
  contested (tally_of s) d ->
  sum_list_with
    (fun i => match players s !! i with
              | Some p => if decide (intended_of s !! pid p = Some d
                                     /\ contested (tally_of s) d) then 1 else 0
              | None => 0
              end)%nat
    (alive_refs (players s))
  = length (colliders s d).
Proof.
  intros Hcon. unfold alive_refs, colliders.
  rewrite sum_list_with_filter, length_filter_sum.
  rewrite <- (sum_list_with_indices
                (fun o => match o with
                          | Some p => if decide (status p = ALIVE
                                                 ∧ pendingMoves s !! pid p = Some d)
                                      then 1 else 0
                          | None => 0
                          end)%nat).
  apply sum_list_with_ext_in. intros i _.
  destruct (players s !! i) as [p|] eqn:Hp; cbn.
  - apply list_elem_of_lookup_2 in Hp.
    destruct (decide (status p = ALIVE)) as [Ha | Hn].
    + rewrite decide_True by (by f_equal). rewrite intended_of_alive by done.
      apply decide_ext. tauto.
    + rewrite decide_False by (intros [= ?]; done).
      rewrite decide_False; [done|]. tauto.
  - by rewrite decide_False.
Qed.

(** Two colliders with different ids make their destination contested,
    whatever the other ids are. *)
Lemma two_colliders_contested s d p q :
  p ∈ colliders s d -> q ∈ colliders s d -> pid p <> pid q ->
  contested (tally_of s) d.
Proof.
  unfold colliders.
  intros [[Hps Hpd] Hpin]%list_elem_of_filter [[Hqs Hqd] Hqin]%list_elem_of_filter Hne.
  apply contested_iff. exists (pid p), (pid q). split; [done|].
  by rewrite !intended_of_alive.
Qed.

(** C2 (as amended).  In a state none of whose intents can send the grid
    read to a missing row, when the living players with the pending
    destination [d] include two with different ids, [resolveTurn] returns,
    emits one collision event for [d] per living player with that
    destination, moves none of them and emits no move event in their name,
    and ends in phase EVALUATE. *)
Theorem resolveTurn_collision_events s d p q :
  intents_safe s ->
  p ∈ colliders s d -> q ∈ colliders s d -> pid p <> pid q ->
  exists s' ev, resolveTurn s = Ok (s', ev)
    /\ (2 <= length (colliders s d))%nat
    /\ count_collisions d ev = length (colliders s d)
    /\ (forall i p', players s !! i = Some p' -> p' ∈ colliders s d ->
                     players s' !! i = Some p' /\ count_moves (pid p') ev = 0%nat)
    /\ phase s' = EVAL.
Proof.
  intros Hsafe Hp Hq Hne.
  pose proof (two_colliders_contested s d p q Hp Hq Hne) as Hcon.
  destruct (resolveTurn_returns s Hsafe) as (s' & ev & Hres).
  exists s', ev. split; [done|]. split; [|split; [|split]].
  - destruct (colliders s d) as [|a [|b rest]] eqn:E; cbn [length]; [| |lia].
    + by apply elem_of_nil in Hp.
    + apply list_elem_of_singleton in Hp, Hq. congruence.
  - destruct (resolveTurn_count (fun r => count_collisions d (rs_events r)) _ s s' ev
                (collision_weight s d) Hres) as (r & _ & -> & ->).
    by rewrite collision_weights_sum.
  - intros i p' Hp' [[Halive Hd] _]%list_elem_of_filter.
    destruct (resolveTurn_invariant
                (fun r => rs_players r !! i = Some p'
                          /\ count_moves (pid p') (rs_events r) = 0%nat) s s' ev)
      as (r & _ & [Hpl Hcnt] & -> & ->); [done| |done|done].
    intros r j r' _ _ Hk Hstep.
    by eapply (contested_intent_kept s i p' d).
  - destruct (resolveTurn_invariant (fun _ => True) s s' ev)
      as (r & _ & _ & -> & _); done.
Qed.

Lemma play_scenario_B :
  play state_A [[(1, 4, 5)]; [(1, 5, 3)]]
  = Ok (state_B, [[EvMove 1 (6, 6) (4, 5)]; [EvMove 1 (4, 5) (5, 3)]]).
Proof. vm_compute. reflexivity. Qed.

(** Witness: scenario B with both players asking for (3,2). *)
Lemma resolveTurn_collision_events_witness :
  intents_safe state_B_contested
  /\ player_A0 ∈ colliders state_B_contested (3, 2)
  /\ player_B1 ∈ colliders state_B_contested (3, 2)
  /\ pid player_A0 <> pid player_B1
  /\ exists s' ev, resolveTurn state_B_contested = Ok (s', ev)
       /\ (2 <= length (colliders state_B_contested (3, 2)%Z))%nat
       /\ count_collisions (3, 2) ev = length (colliders state_B_contested (3, 2))
       /\ (forall i p', players state_B_contested !! i = Some p' ->
                        p' ∈ colliders state_B_contested (3, 2) ->
                        players s' !! i = Some p' /\ count_moves (pid p') ev = 0%nat)
       /\ phase s' = EVAL.
Proof.
  assert (intents_safe state_B_contested) as Hsafe
    by (apply (bool_decide_unpack _); vm_compute; exact I).
  assert (player_A0 ∈ colliders state_B_contested (3, 2)) as Hp.
  { apply list_elem_of_filter. split; [split; [reflexivity|vm_compute; reflexivity]|].
    apply list_elem_of_lookup. by exists 0%nat. }
  assert (player_B1 ∈ colliders state_B_contested (3, 2)) as Hq.
  { apply list_elem_of_filter. split; [split; [reflexivity|vm_compute; reflexivity]|].
    apply list_elem_of_lookup. by exists 1%nat. }
  assert (pid player_A0 <> pid player_B1) as Hne by (cbn; lia).
  split; [exact Hsafe|]. split; [exact Hp|]. split; [exact Hq|]. split; [exact Hne|].
  exact (resolveTurn_collision_events state_B_contested (3, 2) player_A0 player_B1
           Hsafe Hp Hq Hne).
Defined.

(** C2 (as stated) fails.  In scenario B the cell (3,2) is a legal move of
    both players; when both ask for it, [resolveTurn] emits two collision
    events for (3,2), not one. *)
Lemma resolveTurn_two_collision_events :
  ((3, 2) ∈ legal_dests 1 1 8 (visited state_B))
  /\ ((3, 2) ∈ legal_dests 5 3 8 (visited state_B))
  /\ exists s', resolveTurn state_B_contested
                = Ok (s', [EvCollision (3, 2); EvCollision (3, 2)])
       /\ count_collisions (3, 2) [EvCollision (3, 2); EvCollision (3, 2)] = 2%nat
       /\ players s' = players state_B /\ phase s' = EVAL.
Proof.
  split; [by apply (bool_decide_unpack _); vm_compute|].
  split; [by apply (bool_decide_unpack _); vm_compute|].
  eexists. split; [vm_compute; reflexivity|]. done.
Qed.

(* ===================================================================== *)
(** * Intents of players that are not alive                                *)
(* ===================================================================== *)

Lemma submitMove_fields s k r c :
  submitMove s k r c
  = mkState (boardSize s) (seed s) (turn s) (phase s) (players s) (visited s)
            (obstacles s) (<[k := (r, c)]> (pendingMoves s))
            (ruleset s) (rng s) (history s).
Proof. unfold submitMove. by rewrite cloneState_id. Qed.

(** An intent filed under an id that no living player bears does not
    reach [intended]. *)
Lemma intended_of_dead_intent s k r c :
  (forall p, p ∈ players s -> pid p = k -> status p <> ALIVE) ->
  intended_of (submitMove s k r c) = intended_of s.
Proof.
  intros Hdead. rewrite submitMove_fields. unfold intended_of.
  cbn [players pendingMoves].
  apply map_eq. intros k'. apply option_eq. intros d.
  rewrite !intended_Some.
  destruct (decide (k' = k)) as [-> | Hne].
  - split; intros [_ (p & Hp & Hst & Hk)]; by destruct (Hdead p Hp Hk).
  - by rewrite lookup_insert_ne.
Qed.

Lemma resolveTurn_dead_intent s k r c :
  (forall p, p ∈ players s -> pid p = k -> status p <> ALIVE) ->
  resolveTurn (submitMove s k r c) = resolveTurn s.
Proof.
  intros Hdead. rewrite !resolveTurn_loop.
  unfold tally_of. rewrite (intended_of_dead_intent s k r c Hdead).
  by rewrite submitMove_fields.
Qed.

(** Every event of a resolution that names a player names a living one,
    and the players that are not alive are left as they were. *)
Lemma resolveTurn_touches_living s s' ev :
  resolveTurn s = Ok (s', ev) ->
  (forall e k, e ∈ ev -> subject e = Some k ->
               exists p, p ∈ players s /\ pid p = k /\ status p = ALIVE)
  /\ (forall i p, players s !! i = Some p -> status p <> ALIVE ->
                  players s' !! i = Some p)
  /\ pendingMoves s' = ∅.
Proof.
  intros Hres.
  destruct (resolveTurn_invariant
              (fun r => (forall e k, e ∈ rs_events r -> subject e = Some k ->
                           exists p, p ∈ players s /\ pid p = k /\ status p = ALIVE)
                        /\ (forall i p, players s !! i = Some p -> status p <> ALIVE ->
                                        rs_players r !! i = Some p)) s s' ev)
    as (r & _ & [Hev Hpl] & -> & ->); [|clear Hres|done|done].
  { split; [|done]. intros e k He. by apply elem_of_nil in He. }
  intros r j r' Hj Hf [Hev Hpl] Hstep.
  assert (forall p' e, rs_players r !! j = Some p' -> subject e = Some (pid p') \/ subject e = None ->
            forall e' k, e' ∈ rs_events r ++ [e] -> subject e' = Some k ->
              exists p, p ∈ players s /\ pid p = k /\ status p = ALIVE) as Hsnoc.
  { intros p' e Hp' Hsub e' k [He' | ->%list_elem_of_singleton]%elem_of_app Hk; [eauto|].
    destruct Hsub as [Hsub | Hsub]; [|congruence].
    destruct (alive_ref_player _ _ _ _ Hf Hj Hp') as (p & Hp & Hst & Hpid & _).
    exists p. split; [by eapply list_elem_of_lookup_2|]. split; congruence. }
  destruct Hstep as [| | p' d' Hp' _ _ | p' d' Hp' _ _ _ _ | p' d' g' Hp' _ _ _ _];
    cbn [rs_events rs_players]; try done.
  - split; [|done]. eapply Hsnoc; [done|by right].
  - split; [|done]. eapply Hsnoc; [done|by left].
  - split; [eapply Hsnoc; [done|by left]|].
    intros i p Hp Hst. rewrite list_lookup_insert_ne; [by apply Hpl|].
    intros <-. apply elem_of_alive_refs in Hj as (p0 & Hp0 & Hst0). congruence.
Qed.

(** C10.  An intent submitted under an id whose player is absent or not
    alive is recorded by [submitMove] and ignored by the next [resolveTurn]:
    the resolution is the one of the state without that intent (same result,
    same collision tallies), no event names the id, the players bearing it
    are unchanged, and the pending intents are cleared. *)
Theorem resolveTurn_ignores_dead_intent s k r c :
  (forall p, p ∈ players s -> pid p = k -> status p <> ALIVE) ->
  pendingMoves (submitMove s k r c) !! k = Some (r, c)
  /\ tally_of (submitMove s k r c) = tally_of s
  /\ resolveTurn (submitMove s k r c) = resolveTurn s
  /\ forall s' ev, resolveTurn (submitMove s k r c) = Ok (s', ev) ->
       (forall e, e ∈ ev -> subject e <> Some k)
       /\ (forall i p, players s !! i = Some p -> pid p = k ->
                       players s' !! i = Some p)
       /\ pendingMoves s' = ∅.
Proof.
  intros Hdead. split; [|split; [|split]].
  - rewrite submitMove_fields. cbn. apply lookup_insert_eq.
  - unfold tally_of. by rewrite intended_of_dead_intent.
  - by apply resolveTurn_dead_intent.
  - intros s' ev. rewrite resolveTurn_dead_intent by done. intros Hres.
    destruct (resolveTurn_touches_living s s' ev Hres) as (Hev & Hpl & Hpend).
    split; [|split; [|done]].
    + intros e He Hsub. destruct (Hev e k He Hsub) as (p & Hp & Hk & Hst).
      by destruct (Hdead p Hp Hk).
    + intros i p Hp Hk. apply Hpl; [done|].
      apply (Hdead p); [by eapply list_elem_of_lookup_2|done].
Qed.

(** Witness: in scenario A with player 1 eliminated, an intent is filed
    under id 1. *)
Lemma resolveTurn_ignores_dead_intent_witness :
  (forall p, p ∈ players state_A_eliminated -> pid p = 1 -> status p <> ALIVE)
  /\ pendingMoves (submitMove state_A_eliminated 1 4 5) !! 1 = Some (4, 5)
  /\ tally_of (submitMove state_A_eliminated 1 4 5) = tally_of state_A_eliminated
  /\ resolveTurn (submitMove state_A_eliminated 1 4 5) = resolveTurn state_A_eliminated
  /\ forall s' ev, resolveTurn (submitMove state_A_eliminated 1 4 5) = Ok (s', ev) ->
       (forall e, e ∈ ev -> subject e <> Some 1)
       /\ (forall i p, players state_A_eliminated !! i = Some p -> pid p = 1 ->
                       players s' !! i = Some p)
       /\ pendingMoves s' = ∅.
Proof.
  assert (forall p, p ∈ players state_A_eliminated -> pid p = 1 -> status p <> ALIVE)
    as Hdead.
  { intros p Hp Hk. cbn in Hp.
    apply elem_of_cons in Hp as [-> | Hp]; [done|].
    apply elem_of_cons in Hp as [-> | Hp]; [done|]. by apply elem_of_nil in Hp. }
  split; [exact Hdead|].
  exact (resolveTurn_ignores_dead_intent state_A_eliminated 1 4 5 Hdead).
Defined.

(* ===================================================================== *)
(** * What evaluation leaves alone                                         *)
(* ===================================================================== *)

Lemma foldl_invariant {A B} (P : A -> Prop) (f : A -> B -> A) l :
  (forall a b, P a -> P (f a b)) -> forall a, P a -> P (foldl f a l).
Proof.
  intros H. induction l as [|b l IH]; intros a Ha; [done|]. cbn. by apply IH, H.
Qed.

Lemma status_only_insert ps0 ps i p st :
  status_only ps0 ps -> ps !! i = Some p ->
  status_only ps0 (<[i := set_status st p]> ps).
Proof.
  unfold status_only. intros <- Hp. rewrite list_fmap_insert.
  apply list_insert_id. by rewrite list_lookup_fmap, Hp.
Qed.

Lemma status_only_lookup ps ps' i p :
  status_only ps ps' -> ps !! i = Some p ->
  exists p', ps' !! i = Some p' /\ pid p' = pid p /\ score p' = score p
             /\ row p' = row p /\ col p' = col p.
Proof.
  unfold status_only. intros H Hp.
  apply (f_equal (fun l => l !! i)) in H. rewrite !list_lookup_fmap, Hp in H.
  destruct (ps' !! i) as [p'|]; [|done]. injection H as ?????. eauto 10.
Qed.

Lemma status_only_pids ps ps' : status_only ps ps' -> pid <$> ps' = pid <$> ps.
Proof.
  unfold status_only. intros H. apply (f_equal (fmap pid)) in H.
  rewrite <- !list_fmap_compose in H. exact H.
Qed.

Lemma quiet_visit ps0 acc i p st e :
  quiet acc ps0 -> acc.1 !! i = Some p -> is_move e = false ->
  quiet (<[i := set_status st p]> acc.1, acc.2 ++ [e]) ps0.
Proof.
  intros [Hst Hev] Hp He. split; cbn.
  - by apply status_only_insert.
  - apply Forall_app. split; [done|by constructor].
Qed.

Lemma evaluateState_frame s s' ev :
  evaluateState s = Ok (s', ev) ->
  visited s' = visited s /\ boardSize s' = boardSize s
  /\ obstacles s' = obstacles s
  /\ status_only (players s) (players s')
  /\ Forall (fun e => is_move e = false) ev.
Proof.
  unfold evaluateState. rewrite cloneState_id.
  destruct (ofoldl _ _ _) as [[ps1 ev1]| |] eqn:Hloop; [|done..]. rewrite obind_Ok.
  assert (quiet (ps1, ev1) (players s)) as Hq1.
  { revert Hloop. apply (ofoldl_invariant (fun acc => quiet acc (players s))); [|by split].
    intros acc i acc' _ Hq. unfold eliminate_player.
    destruct (acc.1 !! i) as [p|] eqn:Hp; [|by intros [= <-]].
    destruct (getLegalMoves _ _ _ _) as [moves| |]; [|done..]. rewrite obind_Ok.
    case_decide; intros [= <-]; [|done]. by apply quiet_visit. }
  assert (forall ps2 ev2 ph,
            quiet (ps2, ev2) (players s) ->
            Ok (set_phase ph (set_players ps2 s), ev2) = Ok (s', ev) ->
            visited s' = visited s /\ boardSize s' = boardSize s
            /\ obstacles s' = obstacles s
            /\ status_only (players s) (players s')
            /\ Forall (fun e => is_move e = false) ev) as Hfin.
  { intros ps2 ev2 ph [Hst Hev] [= <- <-]. done. }
  case_decide; [|by apply Hfin].
  destruct (alive_refs ps1) as [|i [|j rest]].
  - destruct (foldl _ _ _) as [ps2 ev2] eqn:Hcrown. apply Hfin.
    rewrite <- Hcrown. apply (foldl_invariant (fun acc => quiet acc (players s))); [|done].
    intros acc k Hq. unfold crown_player.
    destruct (acc.1 !! k) as [p|] eqn:Hp; [|done].
    case_decide; [|done]. by apply quiet_visit.
  - destruct (ps1 !! i) as [p|] eqn:Hp; apply Hfin; [|done].
    by apply (quiet_visit _ (ps1, ev1)).
  - destruct (foldl _ _ _) as [ps2 ev2] eqn:Hcrown. apply Hfin.
    rewrite <- Hcrown. apply (foldl_invariant (fun acc => quiet acc (players s))); [|done].
    intros acc k Hq. unfold crown_player.
    destruct (acc.1 !! k) as [p|] eqn:Hp; [|done].
    case_decide; [|done]. by apply quiet_visit.
Qed.

Lemma count_moves_quiet k ev :
  Forall (fun e => is_move e = false) ev -> count_moves k ev = 0%nat.
Proof.
  unfold count_moves. induction 1 as [|e ev He _ IH]; [done|].
  rewrite filter_cons_False; [done|]. by destruct e.
Qed.

Lemma executed_quiet ev :
  Forall (fun e => is_move e = false) ev -> executed ev = 0%nat.
Proof.
  unfold executed. induction 1 as [|e ev He _ IH]; [done|].
  rewrite filter_cons_False; [done|]. congruence.
Qed.

(* ===================================================================== *)
(** * Grid monotonicity                                                    *)
(* ===================================================================== *)

Lemma transition_keeps_marked s s' r c w :
  transition s s' ->
  cell (visited s) r c = Some w -> w <> CELL.EMPTY ->
  cell (visited s') r c = Some w.
Proof.
  intros [s0 k r0 c0 | s0 s1 ev Hres | s0 s1 ev Hev] Hw Hne.
  - by rewrite submitMove_fields.
  - destruct (resolveTurn_invariant (fun _ => True) s0 s1 ev)
      as (rs & (_ & _ & Hcells) & _ & -> & _); [done..|].
    cbn. rewrite Hcells; [done|]. rewrite Hw. by intros [= ?].
  - apply evaluateState_frame in Hev as (-> & _). done.
Qed.

(** C5.  Along any sequence of [submitMove], [resolveTurn] and
    [evaluateState] transitions, a cell that is not EMPTY keeps its marker in
    every later state: it never reverts to EMPTY, and, its marker being
    frozen, it is marked only once. *)
Theorem grid_monotone s s' r c w :
  rtc transition s s' ->
  cell (visited s) r c = Some w -> w <> CELL.EMPTY ->
  cell (visited s') r c = Some w.
Proof.
  induction 1 as [|s0 s1 s2 Hstep _ IH]; [done|].
  intros Hw Hne. apply IH; [|done]. by eapply transition_keeps_marked.
Qed.

(** Runs are sequences of transitions. *)
Lemma submit_all_rtc intents : forall s, rtc transition s (submit_all s intents).
Proof.
  induction intents as [|[[k r] c] intents IH]; intros s; [done|].
  eapply rtc_l; [apply (T_submit s k r c)|]. apply IH.
Qed.

Lemma play_round_Ok s intents s2 ev :
  play_round s intents = Ok (s2, ev) <->
  exists s1 ev1 ev2,
    resolveTurn (submit_all s intents) = Ok (s1, ev1)
    /\ evaluateState s1 = Ok (s2, ev2) /\ ev = ev1 ++ ev2.
Proof.
  unfold play_round. split.
  - destruct (resolveTurn _) as [[s1 ev1]| |]; [|done..]. rewrite obind_Ok.
    destruct (evaluateState s1) as [[s2' ev2]| |] eqn:Hev; [|done..]. rewrite obind_Ok.
    intros [= <- <-]. by exists s1, ev1, ev2.
  - intros (s1 & ev1 & ev2 & -> & Hev & ->). rewrite obind_Ok, Hev. done.
Qed.

Lemma play_cons_Ok s intents rest s' evs :
  play s (intents :: rest) = Ok (s', evs) <->
  exists s1 ev evs', play_round s intents = Ok (s1, ev)
                     /\ play s1 rest = Ok (s', evs') /\ evs = ev :: evs'.
Proof.
  cbn [play]. split.
  - destruct (play_round s intents) as [[s1 ev]| |]; [|done..]. rewrite obind_Ok.
    destruct (play s1 rest) as [[s2 evs']| |] eqn:Hrest; [|done..]. rewrite obind_Ok.
    intros [= <- <-]. by exists s1, ev, evs'.
  - intros (s1 & ev & evs' & -> & Hrest & ->). rewrite obind_Ok, Hrest. done.
Qed.

Lemma play_rtc rounds : forall s s' evs,
  play s rounds = Ok (s', evs) -> rtc transition s s'.
Proof.
  induction rounds as [|intents rest IH]; intros s s' evs.
  - by intros [= <- <-].
  - intros (s2 & ev & evs' & (s1 & ev1 & ev2 & Hres & Hev & _)%play_round_Ok
            & Hrest & _)%play_cons_Ok.
    etrans; [apply submit_all_rtc|].
    eapply rtc_l; [by eapply T_resolve|].
    eapply rtc_l; [by eapply T_evaluate|]. by eapply IH.
Qed.

(** Witness: from scenario A to scenario B the start cell (1,1) keeps its
    marker. *)
Lemma grid_monotone_witness :
  rtc transition state_A state_B
  /\ cell (visited state_A) 1 1 = Some CELL.BLOCKED
  /\ CELL.BLOCKED <> CELL.EMPTY
  /\ cell (visited state_B) 1 1 = Some CELL.BLOCKED.
Proof.
  assert (rtc transition state_A state_B) as Hrun
    by exact (play_rtc _ _ _ _ play_scenario_B).
  assert (CELL.BLOCKED <> CELL.EMPTY) as Hne by done.
  split; [exact Hrun|]. split; [reflexivity|]. split; [exact Hne|].
  exact (grid_monotone state_A state_B 1 1 CELL.BLOCKED Hrun eq_refl Hne).
Defined.

(* ===================================================================== *)
(** * The score invariant                                                  *)
(* ===================================================================== *)

(** The score of each player grows by the number of move events that name
    it, provided ids are distinct. *)
Lemma resolveTurn_scores s s' ev :
  NoDup (pid <$> players s) ->
  resolveTurn s = Ok (s', ev) ->
  pid <$> players s' = pid <$> players s
  /\ forall i p p', players s !! i = Some p -> players s' !! i = Some p' ->
        score p' = score p + Z.of_nat (count_moves (pid p) ev).
Proof.
  intros Hnd Hres.
  destruct (resolveTurn_invariant
              (fun r => forall i p p', players s !! i = Some p ->
                          rs_players r !! i = Some p' ->
                          score p' = score p + Z.of_nat (count_moves (pid p) (rs_events r)))
              s s' ev) as (r & (Hro & _) & Hsc & -> & ->); [| |done|].
  - intros i p p' Hp Hp'. cbn in Hp'. assert (p' = p) as -> by congruence.
    unfold count_moves. cbn. lia.
  - intros r j r' Hj Hf Hinv Hstep i p p' Hp Hp'.
    destruct Hstep as [| | q d Hq _ _ | q d Hq _ _ _ _ | q d g' Hq _ _ _ _];
      cbn [rs_players rs_events] in *; try (by eapply Hinv).
    + rewrite count_moves_snoc. cbn [is_move_of]. rewrite Nat.add_0_r. by eapply Hinv.
    + rewrite count_moves_snoc. cbn [is_move_of]. rewrite Nat.add_0_r. by eapply Hinv.
    + rewrite count_moves_snoc. cbn [is_move_of].
      destruct (alive_ref_player _ _ _ _ Hf Hj Hq) as (q0 & Hq0 & _ & Hpid & _).
      destruct (decide (i = j)) as [-> | Hne].
      * rewrite list_lookup_insert_eq in Hp' by by eapply lookup_lt_Some.
        injection Hp' as <-. assert (q0 = p) as -> by congruence.
        rewrite bool_decide_eq_true_2 by done. cbn [score move_player].
        rewrite (Hinv j p q Hp Hq). lia.
      * rewrite list_lookup_insert_ne in Hp' by done.
        rewrite bool_decide_eq_false_2, Nat.add_0_r; [by eapply Hinv|].
        rewrite Hpid. intros Heq. apply Hne.
        eapply NoDup_lookup; [exact Hnd| |].
        -- by rewrite list_lookup_fmap, Hp.
        -- rewrite list_lookup_fmap, Hq0. cbn. by rewrite Heq.
  - split; [by apply roster_pids|]. cbn. apply Hsc.
Qed.

Lemma reachable_score_invariant cfg s log :
  reachable cfg s log -> score_invariant s log.
Proof.
  induction 1 as [s Hinit | s log k r c _ IH | s log s' ev _ IH Hres
                  | s log s' ev _ IH Hev].
  - apply initState_players in Hinit as (Hpids & Hsc & _). split.
    + rewrite Hpids. apply NoDup_upto.
    + eapply Forall_impl; [done|]. cbn. intros p [-> _]. done.
  - by rewrite submitMove_fields.
  - destruct IH as [Hnd Hall].
    destruct (resolveTurn_scores s s' ev Hnd Hres) as [Hpids Hsc]. split.
    + by rewrite Hpids.
    + apply Forall_lookup. intros i p' Hp'.
      assert (exists p, players s !! i = Some p /\ pid p = pid p') as (p & Hp & Hpid).
      { apply (f_equal (fun l => l !! i)) in Hpids.
        rewrite !list_lookup_fmap, Hp' in Hpids.
        destruct (players s !! i) as [p|]; [|done]. injection Hpids as ?. eauto. }
      rewrite (Hsc i p p' Hp Hp'), count_moves_app, <- Hpid.
      rewrite (Forall_lookup_1 _ _ _ _ Hall Hp). cbn. lia.
  - destruct IH as [Hnd Hall].
    apply evaluateState_frame in Hev as (_ & _ & _ & Hst & Hquiet). split.
    + by rewrite (status_only_pids _ _ Hst).
    + apply Forall_lookup. intros i p' Hp'.
      assert (exists p, players s !! i = Some p) as [p Hp].
      { apply lookup_lt_is_Some. apply lookup_lt_Some in Hp'.
        apply (f_equal length) in Hst. rewrite !length_fmap in Hst. lia. }
      destruct (status_only_lookup _ _ _ _ Hst Hp) as (q & Hq & Hpid & Hscore & _).
      assert (q = p') as -> by congruence.
      rewrite count_moves_app, (count_moves_quiet _ ev Hquiet), Hpid, Hscore.
      rewrite (Forall_lookup_1 _ _ _ _ Hall Hp). cbn. lia.
Qed.

(** C4.  In every state reachable from [initState] through [submitMove],
    [resolveTurn] and [evaluateState], the score of every player is 1 plus
    the number of move events emitted so far that name the player. *)
Theorem score_counts_moves cfg s log p :
  reachable cfg s log -> p ∈ players s ->
  score p = 1 + Z.of_nat (count_moves (pid p) log).
Proof.
  intros [_ Hall]%reachable_score_invariant Hp.
  rewrite Forall_forall in Hall. by apply Hall.
Qed.

Lemma submit_all_reachable cfg intents : forall s log,
  reachable cfg s log -> reachable cfg (submit_all s intents) log.
Proof.
  induction intents as [|[[k r] c] intents IH]; intros s log H; [done|].
  apply IH. by apply R_submit.
Qed.

Lemma play_reachable cfg rounds : forall s log s' evs,
  reachable cfg s log -> play s rounds = Ok (s', evs) ->
  reachable cfg s' (log ++ concat evs).
Proof.
  induction rounds as [|intents rest IH]; intros s log s' evs Hreach.
  - intros [= <- <-]. by rewrite app_nil_r.
  - intros (s2 & ev & evs' & (s1 & ev1 & ev2 & Hres & Hev & ->)%play_round_Ok
            & Hrest & ->)%play_cons_Ok.
    rewrite concat_cons, app_assoc, (app_assoc log).
    eapply IH; [|done].
    eapply R_evaluate; [|done]. eapply R_resolve; [|done].
    by apply submit_all_reachable.
Qed.

(** Witness: scenario B is reached from scenario A with two move events of
    player 1, whose score is 3. *)
Lemma score_counts_moves_witness :
  reachable scenario_A state_B [EvMove 1 (6, 6) (4, 5); EvMove 1 (4, 5) (5, 3)]
  /\ player_B1 ∈ players state_B
  /\ score player_B1
     = 1 + Z.of_nat (count_moves (pid player_B1)
                       [EvMove 1 (6, 6) (4, 5); EvMove 1 (4, 5) (5, 3)]).
Proof.
  assert (reachable scenario_A state_B
            [EvMove 1 (6, 6) (4, 5); EvMove 1 (4, 5) (5, 3)]) as Hreach.
  { exact (play_reachable scenario_A _ state_A [] _ _
             (R_init scenario_A state_A initState_scenario_A) play_scenario_B). }
  assert (player_B1 ∈ players state_B) as Hin by (right; left).
  split; [exact Hreach|]. split; [exact Hin|].
  exact (score_counts_moves scenario_A state_B _ player_B1 Hreach Hin).
Defined.

(* ===================================================================== *)
(** * Rounds and EMPTY cells                                               *)
(* ===================================================================== *)

Lemma executed_snoc ev e :
  executed (ev ++ [e]) = (executed ev + (if is_move e then 1 else 0))%nat.
Proof.
  unfold executed. rewrite filter_app, length_app. f_equal.
  destruct (is_move e) eqn:E.
  - by rewrite filter_cons_True.
  - rewrite filter_cons_False; [done|congruence].
Qed.

Lemma executed_app ev1 ev2 : executed (ev1 ++ ev2) = (executed ev1 + executed ev2)%nat.
Proof. unfold executed. by rewrite filter_app, length_app. Qed.

(** Every executed move consumes exactly one EMPTY cell. *)
Lemma resolveTurn_empties s s' ev :
  resolveTurn s = Ok (s', ev) ->
  (empties (visited s') + executed ev = empties (visited s))%nat
  /\ boardSize s' = boardSize s /\ obstacles s' = obstacles s.
Proof.
  intros Hres.
  destruct (resolveTurn_invariant
              (fun r => (empties (rs_visited r) + executed (rs_events r)
                         = empties (visited s))%nat) s s' ev)
    as (r & _ & Hinv & -> & ->); [| |done|done].
  - unfold resolve_start, executed. cbn [rs_visited rs_events].
    rewrite filter_nil. cbn [length]. lia.
  - intros r j r' _ _ Hinv Hstep.
    destruct Hstep as [| | q d _ _ _ | q d _ _ _ _ _ | q d g' _ _ _ Hv Hs];
      cbn [rs_visited rs_events]; try done.
    + rewrite executed_snoc. cbn [is_move]. lia.
    + rewrite executed_snoc. cbn [is_move]. lia.
    + rewrite executed_snoc. cbn [is_move].
      pose proof (empties_grid_set _ _ _ CELL.BLOCKED _ _ ltac:(done) Hv Hs) as He.
      rewrite decide_True in He by done. lia.
Qed.

Lemma submit_all_fields intents : forall s,
  visited (submit_all s intents) = visited s
  /\ boardSize (submit_all s intents) = boardSize s
  /\ obstacles (submit_all s intents) = obstacles s.
Proof.
  induction intents as [|[[k r] c] intents IH]; intros s; [done|].
  change (submit_all s ((k, r, c) :: intents))
    with (submit_all (submitMove s k r c) intents).
  destruct (IH (submitMove s k r c)) as (-> & -> & ->).
  by rewrite submitMove_fields.
Qed.

Lemma play_round_empties s intents s' ev :
  play_round s intents = Ok (s', ev) ->
  (empties (visited s') + executed ev = empties (visited s))%nat.
Proof.
  intros (s1 & ev1 & ev2 & Hres & Hev & ->)%play_round_Ok.
  apply resolveTurn_empties in Hres as [Hres _].
  apply evaluateState_frame in Hev as (-> & _ & _ & _ & Hquiet).
  destruct (submit_all_fields intents s) as (Hv & _). rewrite Hv in Hres.
  rewrite executed_app, (executed_quiet _ Hquiet). lia.
Qed.

Lemma moving_rounds_cons ev evs :
  moving_rounds (ev :: evs)
  = ((if existsb is_move ev then 1 else 0) + moving_rounds evs)%nat.
Proof.
  unfold moving_rounds. destruct (existsb is_move ev) eqn:E.
  - by rewrite filter_cons_True.
  - rewrite filter_cons_False; [done|congruence].
Qed.

Lemma existsb_executed ev : existsb is_move ev = true -> (1 <= executed ev)%nat.
Proof.
  unfold executed. induction ev as [|e ev IH]; cbn [existsb]; [done|].
  destruct (is_move e) eqn:E.
  - intros _. rewrite filter_cons_True by done. cbn. lia.
  - intros H. rewrite filter_cons_False by congruence. by apply IH.
Qed.

(** A run cannot execute moves in more rounds than there were EMPTY cells. *)
Lemma play_empties rounds : forall s s' evs,
  play s rounds = Ok (s', evs) ->
  (empties (visited s') + moving_rounds evs <= empties (visited s))%nat.
Proof.
  induction rounds as [|intents rest IH]; intros s s' evs.
  - intros [= <- <-]. unfold moving_rounds. cbn. lia.
  - intros (s1 & ev & evs' & Hround & Hrest & ->)%play_cons_Ok.
    apply play_round_empties in Hround. apply IH in Hrest.
    rewrite moving_rounds_cons.
    destruct (existsb is_move ev) eqn:E; [apply existsb_executed in E|]; lia.
Qed.

(** In any run of rounds from [initState], the rounds in which at least one
    move is executed are at most [boardSize * boardSize] less the number of
    obstacles actually placed: each such round consumes at least one EMPTY
    cell and no round frees one. *)
Lemma moving_rounds_le_cells cfg s rounds s' evs :
  initState cfg = Ok s ->
  play s rounds = Ok (s', evs) ->
  Z.of_nat (moving_rounds evs)
  <= boardSize s * boardSize s - Z.of_nat (length (obstacles s)).
Proof.
  intros Hinit Hplay.
  pose proof (initState_empties cfg s Hinit) as Hemp.
  apply play_empties in Hplay.
  assert (boardSize s = cfg_boardSize cfg) as ->.
  { by apply initState_inv in Hinit as (? & ? & ? & ? & _ & _ & _ & _ & ->). }
  lia.
Qed.

(** C8 (as stated) fails.  In scenario A the bound is 8 * 8 - 0 = 64 rounds;
    when no player submits an intent, every round passes, and after each of
    the first 64 rounds the phase is SELECT, not GAMEOVER. *)
Lemma passing_rounds_never_end :
  initState scenario_A = Ok state_A
  /\ boardSize state_A * boardSize state_A - obstacleCount (ruleset state_A) = 64
  /\ Forall (fun k => phase_after state_A (replicate k []) = Ok SELECT) (seq 0 65).
Proof.
  split; [exact initState_scenario_A|]. split; [done|].
  apply (bool_decide_unpack _). vm_compute. exact I.
Qed.

(* ===================================================================== *)
(** * Strategies leave the grid as they found it                           *)
(* ===================================================================== *)

Lemma set_rng_id s : set_rng (rng s) s = s.
Proof. by destruct s. Qed.

Lemma set_rng_set_rng x y s : set_rng x (set_rng y s) = set_rng x s.
Proof. done. Qed.

Lemma set_visited_restore g1 x s :
  set_visited (visited s) (set_rng x (set_visited g1 s)) = set_rng x s.
Proof. done. Qed.

Lemma steady_ret {A} (a : A) s : steady (ai_ret a) s.
Proof. exists a, (rng s). unfold ai_ret. by rewrite set_rng_id. Qed.

Lemma ai_bind_Ok {A B} (m : AI A) (k : A -> AI B) s a s1 :
  m s = Ok (a, s1) -> ai_bind m k s = k a s1.
Proof. unfold ai_bind. by intros ->. Qed.

(** Sequencing steady computations, when the continuation is steady on
    every state that differs from [s] in the generator only. *)
Lemma steady_bind {A B} (m : AI A) (k : A -> AI B) s :
  steady m s -> (forall a x, steady (k a) (set_rng x s)) -> steady (ai_bind m k) s.
Proof.
  intros (a & x & Hm) Hk. destruct (Hk a x) as (b & y & Hb).
  exists b, y. by rewrite (ai_bind_Ok _ _ _ _ _ Hm), Hb.
Qed.

Lemma steady_foldl {A B} (f : A -> B -> AI A) (l : list B) s :
  (forall a b x, b ∈ l -> steady (f a b) (set_rng x s)) ->
  forall a x, steady (ai_foldl f a l) (set_rng x s).
Proof.
  induction l as [|b l IH]; intros Hf a x; cbn [ai_foldl].
  - apply steady_ret.
  - apply steady_bind; [apply Hf; by left|].
    intros a' y. rewrite set_rng_set_rng. apply IH.
    intros ????. apply Hf. by right.
Qed.

(** Writing a marker and writing the saved value back restores the grid. *)
Lemma grid_set_restore g r c v w :
  cell g r c = Some w ->
  exists g1, grid_set g r c v = Ok g1 /\ grid_set g1 r c w = Ok g
             /\ length g1 = length g.
Proof.
  intros Hw. destruct (grid_set_cell g r c v w Hw) as [g1 Hg1].
  exists g1. split; [done|]. split; [|by eapply grid_set_length].
  pose proof (grid_set_cell_eq _ _ _ _ _ Hg1) as H1.
  destruct (grid_set_cell g1 r c w v H1) as [g2 Hg2]. rewrite Hg2. f_equal.
  apply grid_set_Ok in Hg1 as (rw & Hr & _ & ->).
  apply grid_set_Ok in Hg2 as (rw' & Hr' & _ & ->).
  apply cell_Some in Hw as (rw0 & Hr0 & Hc0).
  assert (rw0 = rw) as -> by congruence.
  rewrite (js_index_insert_eq _ _ _ _ Hr) in Hr'. injection Hr' as <-.
  apply js_index_Some in Hr as [_ Hr]. apply js_index_Some in Hc0 as [_ Hc0].
  rewrite list_insert_insert_eq, list_insert_insert_eq.
  rewrite (list_insert_id rw) by done. by apply list_insert_id.
Qed.

Section Simulation.
Variable s : GameState.
Hypothesis Hrows : rows_cover (boardSize s) (visited s).

Lemma ai_mobility_steady r c x g :
  length g = length (visited s) ->
  exists n, ai_mobility r c (set_rng x (set_visited g s))
            = Ok (n, set_rng x (set_visited g s)).
Proof.
  intros Hlen. unfold ai_mobility, countMobility. cbn [boardSize visited set_rng set_visited].
  rewrite getLegalMoves_legal_dests by (unfold rows_cover in *; lia).
  rewrite !obind_Ok. eauto.
Qed.

Lemma opponents_steady {A} (f : A -> Z -> A) opponents x g : forall a,
  length g = length (visited s) ->
  exists a',
    ai_foldl (fun acc opp =>
                ai_bind (ai_mobility (row opp) (col opp))
                        (fun before => ai_ret (f acc before)))
             a opponents (set_rng x (set_visited g s))
    = Ok (a', set_rng x (set_visited g s)).
Proof.
  intros a Hlen. revert a. induction opponents as [|opp opps IH]; intros a; cbn [ai_foldl].
  - eexists. reflexivity.
  - destruct (ai_mobility_steady (row opp) (col opp) x g Hlen) as [n Hn].
    rewrite (ai_bind_Ok _ _ _ _ _ (ai_bind_Ok _ _ _ _ _ Hn)).
    unfold ai_ret at 1. apply IH.
Qed.

Lemma ai_read_Ok r c w x g :
  cell g r c = Some w ->
  ai_read r c (set_rng x (set_visited g s)) = Ok (Some w, set_rng x (set_visited g s)).
Proof.
  intros Hw. unfold ai_read. cbn [visited set_rng set_visited].
  by rewrite (grid_get_cell _ _ _ _ Hw).
Qed.

Lemma ai_write_Ok r c v x g g' :
  grid_set g r c v = Ok g' ->
  ai_write r c (Some v) (set_rng x (set_visited g s))
  = Ok (tt, set_rng x (set_visited g' s)).
Proof.
  intros Hset. unfold ai_write. cbn [visited set_rng set_visited]. by rewrite Hset.
Qed.

Lemma ai_rng_Ok x g :
  exists v y, ai_rng (set_rng x (set_visited g s)) = Ok (v, set_rng y (set_visited g s)).
Proof.
  unfold ai_rng. cbn [rng set_rng set_visited].
  destruct (Rng.call x) as [v y]. by exists v, y.
Qed.

Lemma set_visited_id x : set_rng x (set_visited (visited s) s) = set_rng x s.
Proof. by destruct s. Qed.

(** [scoreMobility] on a legal destination. *)
Lemma scoreMobility_steady r c x :
  cell (visited s) r c = Some CELL.EMPTY ->
  steady (scoreMobility r c) (set_rng x s).
Proof.
  intros Hw. destruct (grid_set_restore _ r c 1 _ Hw) as (g1 & Hmark & Hback & Hlen).
  destruct (ai_mobility_steady r c x g1 Hlen) as [n Hn].
  exists n, x. unfold scoreMobility. rewrite <- (set_visited_id x).
  rewrite (ai_bind_Ok _ _ _ _ _ (ai_read_Ok r c _ x _ Hw)).
  rewrite (ai_bind_Ok _ _ _ _ _ (ai_write_Ok r c 1 x _ _ Hmark)).
  rewrite (ai_bind_Ok _ _ _ _ _ Hn).
  rewrite (ai_bind_Ok _ _ _ _ _ (ai_write_Ok r c _ x _ _ Hback)).
  done.
Qed.

Lemma mobility_step_steady acc m x :
  cell (visited s) m.1 m.2 = Some CELL.EMPTY ->
  steady (mobility_step acc m) (set_rng x s).
Proof.
  intros Hw. destruct acc as [best bestScore], m as [r c]. unfold mobility_step.
  apply steady_bind; [by apply scoreMobility_steady|].
  intros mob y. rewrite set_rng_set_rng.
  repeat case_decide; try apply steady_ret.
  apply steady_bind.
  - rewrite <- (set_visited_id y). destruct (ai_rng_Ok y (visited s)) as (v & z & Hv).
    exists v, z. rewrite Hv. by rewrite set_visited_id.
  - intros v z. destruct (over_half v); apply steady_ret.
Qed.

Lemma aggressor_step_steady opponents acc m x :
  cell (visited s) m.1 m.2 = Some CELL.EMPTY ->
  steady (aggressor_step opponents acc m) (set_rng x s).
Proof.
  intros Hw. destruct acc as [best bestScore], m as [r c]. cbn [fst snd] in Hw.
  destruct (grid_set_restore _ r c 1 _ Hw) as (g1 & Hmark & Hback & Hlen).
  destruct (opponents_steady (fun reduction before => reduction + (8 - before))
              opponents x g1 0 Hlen) as [reduction Hred].
  destruct (ai_mobility_steady r c x g1 Hlen) as [ownMob Hown].
  unfold aggressor_step, steady. rewrite <- (set_visited_id x).
  rewrite (ai_bind_Ok _ _ _ _ _ (ai_read_Ok r c _ x _ Hw)).
  rewrite (ai_bind_Ok _ _ _ _ _ (ai_write_Ok r c 1 x _ _ Hmark)).
  unfold opponents_reduction. rewrite (ai_bind_Ok _ _ _ _ _ Hred).
  rewrite (ai_bind_Ok _ _ _ _ _ Hown).
  rewrite (ai_bind_Ok _ _ _ _ _ (ai_write_Ok r c _ x _ _ Hback)).
  rewrite set_visited_id.
  destruct bestScore as [b|]; [|apply steady_ret].
  repeat case_decide; try apply steady_ret.
  apply steady_bind.
  - rewrite <- (set_visited_id x). destruct (ai_rng_Ok x (visited s)) as (v & z & Hv).
    exists v, z. rewrite Hv. by rewrite set_visited_id.
  - intros v z. destruct (over_half v); apply steady_ret.
Qed.

Lemma balanced_step_steady opponents mobWeight aggressWeight acc m x :
  cell (visited s) m.1 m.2 = Some CELL.EMPTY ->
  steady (balanced_step opponents mobWeight aggressWeight acc m) (set_rng x s).
Proof.
  intros Hw. destruct acc as [best bestScore], m as [r c]. cbn [fst snd] in Hw.
  destruct (grid_set_restore _ r c 1 _ Hw) as (g1 & Hmark & Hback & Hlen).
  destruct (ai_mobility_steady r c x g1 Hlen) as [own Hown].
  destruct (opponents_steady
              (fun aggress before =>
                 PrimFloat.add aggress (PrimFloat.mul (Z2f (8 - before)) aggressWeight))
              opponents x g1 (Z2f 0) Hlen) as [aggress Hagg].
  destruct (ai_rng_Ok x g1) as (v & y & Hv).
  unfold balanced_step, steady. rewrite <- (set_visited_id x).
  rewrite (ai_bind_Ok _ _ _ _ _ (ai_read_Ok r c _ x _ Hw)).
  rewrite (ai_bind_Ok _ _ _ _ _ (ai_write_Ok r c 1 x _ _ Hmark)).
  rewrite (ai_bind_Ok _ _ _ _ _ Hown).
  rewrite (ai_bind_Ok _ _ _ _ _ Hagg).
  rewrite (ai_bind_Ok _ _ _ _ _ Hv).
  rewrite (ai_bind_Ok _ _ _ _ _ (ai_write_Ok r c _ y _ _ Hback)).
  rewrite set_visited_id.
  destruct (PrimFloat.ltb _ _); unfold ai_ret; eauto.
Qed.
End Simulation.

Lemma best_or_first_is_Some best moves :
  moves <> [] -> is_Some (best_or_first best moves).
Proof. intros Hne. destruct best; cbn; [eauto|]. destruct moves; [done|eauto]. Qed.

Section Strategies.
Variables (s : GameState) (p : PlayerState) (moves : list (Z * Z)).
Hypothesis Hrows : rows_cover (boardSize s) (visited s).
Hypothesis Hlegal : Forall (legal_move s) moves.
Hypothesis Hmoves : moves <> [].

Lemma moves_empty m : m ∈ moves -> cell (visited s) m.1 m.2 = Some CELL.EMPTY.
Proof. intros Hm. rewrite Forall_forall in Hlegal. by destruct (Hlegal m Hm). Qed.

(** The shape shared by the three strategies: a loop over the candidate
    moves, then [best || moves[0]]. *)
Lemma pick_best {A} (step : option (Z * Z) * A -> Z * Z -> AI (option (Z * Z) * A)) a0 :
  (forall acc m x, m ∈ moves -> steady (step acc m) (set_rng x s)) ->
  exists choice x,
    ai_bind (ai_foldl step (None, a0) moves)
            (fun acc => ai_ret (best_or_first acc.1 moves)) s
    = Ok (choice, set_rng x s)
    /\ is_Some choice.
Proof.
  intros Hstep.
  destruct (steady_foldl step moves s Hstep (None, a0) (rng s)) as (acc & x & Hloop).
  rewrite set_rng_id in Hloop.
  exists (best_or_first acc.1 moves), x.
  rewrite (ai_bind_Ok _ _ _ _ _ Hloop). split; [done|].
  by apply best_or_first_is_Some.
Qed.

Lemma mobility_steady :
  exists choice x, mobility p moves s = Ok (choice, set_rng x s) /\ is_Some choice.
Proof.
  apply pick_best. intros acc m x Hm.
  by apply mobility_step_steady, moves_empty.
Qed.

Lemma aggressor_steady :
  exists choice x, aggressor p moves s = Ok (choice, set_rng x s) /\ is_Some choice.
Proof.
  unfold aggressor. destruct (getOpponents s (pid p)) as [|opp opps] eqn:E.
  - apply mobility_steady.
  - apply pick_best. intros acc m x Hm.
    by apply aggressor_step_steady, moves_empty.
Qed.

Lemma balanced_steady :
  exists choice x, balanced p moves s = Ok (choice, set_rng x s) /\ is_Some choice.
Proof.
  unfold balanced. apply pick_best. intros acc m x Hm.
  by apply balanced_step_steady, moves_empty.
Qed.
End Strategies.

Lemma STRATEGIES_lookup name strat :
  STRATEGIES !! name = Some strat ->
  strat = mobility \/ strat = aggressor \/ strat = balanced.
Proof.
  unfold STRATEGIES. rewrite !lookup_insert_Some, lookup_singleton_Some.
  intuition congruence.
Qed.

(** C9.  Each built-in strategy, called on a state whose grid has all its
    rows and on a non-empty list of legal moves, returns a move and leaves
    [state.visited] identical to its value at call entry; the state differs
    from the entry state in the shared generator only. *)
Theorem strategy_restores_grid name strat s p moves :
  STRATEGIES !! name = Some strat ->
  rows_cover (boardSize s) (visited s) ->
  Forall (legal_move s) moves -> moves <> [] ->
  exists choice s', strat p moves s = Ok (choice, s')
    /\ visited s' = visited s
    /\ s' = set_rng (rng s') s
    /\ is_Some choice.
Proof.
  intros Hstrat Hrows Hlegal Hmoves.
  assert (exists choice x, strat p moves s = Ok (choice, set_rng x s) /\ is_Some choice)
    as (choice & x & Hrun & Hsome).
  { destruct (STRATEGIES_lookup _ _ Hstrat) as [-> | [-> | ->]].
    - by apply mobility_steady.
    - by apply aggressor_steady.
    - by apply balanced_steady. }
  exists choice, (set_rng x s). by destruct s.
Qed.

(** Witness: player 1 of scenario B runs the aggressor strategy on its
    legal moves. *)
Lemma strategy_restores_grid_witness :
  let moves := legal_dests 5 3 8 (visited state_B) in
  STRATEGIES !! "aggressor" = Some aggressor
  /\ rows_cover (boardSize state_B) (visited state_B)
  /\ Forall (legal_move state_B) moves /\ moves <> []
  /\ exists choice s', aggressor player_B1 moves state_B = Ok (choice, s')
       /\ visited s' = visited state_B
       /\ s' = set_rng (rng s') state_B
       /\ is_Some choice.
Proof.
  intros moves.
  assert (STRATEGIES !! "aggressor" = Some aggressor) as H1 by reflexivity.
  assert (rows_cover (boardSize state_B) (visited state_B)) as H2
    by (unfold rows_cover; cbn; lia).
  assert (Forall (legal_move state_B) moves) as H3
    by (apply (bool_decide_unpack _); vm_compute; exact I).
  assert (moves <> []) as H4 by (vm_compute; congruence).
  split; [exact H1|]. split; [exact H2|]. split; [exact H3|]. split; [exact H4|].
  exact (strategy_restores_grid "aggressor" aggressor state_B player_B1 moves H1 H2 H3 H4).
Defined.

(* ===================================================================== *)
(** * The generator never reaches the zero word                            *)
(* ===================================================================== *)

Section XorShift.
Import Rng RngFacts.

(** A power of two that divides [m * u] for an odd [m] divides [u]. *)
Lemma pow2_divide_odd (k : nat) : forall m u,
Z.odd m = true -> (2 ^ Z.of_nat k | m * u) -> (2 ^ Z.of_nat k | u).
Proof.
induction k as [|k IH]; intros m u Hm [q Hq].
- exists u. cbn. lia.
- rewrite Nat2Z.inj_succ, Z.pow_succ_r in * by lia.
  apply Zodd_bool_iff, Zodd_ex in Hm as [m' ->].
  set (P := 2 ^ Z.of_nat k) in *.
  assert (exists u', u = 2 * u') as [u' ->] by (exists (q * P - m' * u); lia).
  destruct (IH (2 * m' + 1) u') as [q' Hq'].
  + by rewrite Z.add_comm, Z.odd_add_mul_2.
  + exists q. lia.
  + exists q'. lia.
Qed.

(** [u ^ (u << n)] on a 32-bit word vanishes only at zero: [u] would be
  congruent to [u * 2^n], and [2^n - 1] is odd. *)
Lemma xor_shl_nonzero u n :
0 < n -> 0 < u < two32 ->
Z.lxor u (Z.shiftl u n mod two32) <> 0.
Proof.
intros Hn Hu Hx. apply Z.lxor_eq in Hx.
rewrite Z.shiftl_mul_pow2 in Hx by lia.
assert (0 < 2 ^ n) as Hp by (apply Z.pow_pos_nonneg; lia).
assert ((2 ^ Z.of_nat 32 | (2 ^ n - 1) * u)) as Hdiv.
{ exists ((u * 2 ^ n) / two32).
  pose proof (Z.div_mod (u * 2 ^ n) two32 ltac:(done)) as Hdm.
  rewrite <- Hx in Hdm. change (2 ^ Z.of_nat 32) with two32. lia. }
apply pow2_divide_odd in Hdiv as [k Hk].
- change (2 ^ Z.of_nat 32) with two32 in Hk. unfold two32 in *. lia.
- replace (2 ^ n) with (2 * 2 ^ (n - 1)).
  + replace (2 * 2 ^ (n - 1) - 1) with (1 + 2 * (2 ^ (n - 1) - 1)) by lia.
    by rewrite Z.odd_add_mul_2.
  + rewrite <- Z.pow_succ_r by lia. f_equal. lia.
Qed.

(** [u ^ (u >>> n)] vanishes only at zero: the shifted word is smaller. *)
Lemma xor_ushr_nonzero u n :
0 < n -> 0 < u -> Z.lxor u (Z.shiftr u n) <> 0.
Proof.
intros Hn Hu Hx. apply Z.lxor_eq in Hx.
rewrite Z.shiftr_div_pow2 in Hx by lia.
assert (1 < 2 ^ n) by (apply Z.pow_gt_1; lia).
pose proof (Z.div_lt u (2 ^ n) Hu ltac:(done)). lia.
Qed.

Lemma advance_nonzero x : toUint32 x <> 0 -> toUint32 (advance x) <> 0.
Proof.
intros Hx. unfold advance.
pose proof (toUint32_range x) as Hr.
set (x1 := js_xor x (js_shl x 13)).
assert (toUint32 x1 <> 0) as H1.
{ unfold x1. rewrite toUint32_xor_shl by lia. apply xor_shl_nonzero; lia. }
pose proof (toUint32_range x1) as Hr1.
set (x2 := js_xor x1 (js_ushr x1 17)).
assert (toUint32 x2 <> 0) as H2.
{ unfold x2. rewrite toUint32_xor_ushr. apply xor_ushr_nonzero; [done|lia]. }
pose proof (toUint32_range x2) as Hr2.
rewrite toUint32_xor_shl by lia. apply xor_shl_nonzero; lia.
Qed.

Lemma makeRng_nonzero seed : toUint32 (makeRng seed) <> 0.
Proof.
rewrite makeRng_word. unfold seed_word.
destruct (seed mod two32 =? 0) eqn:E; [done|]. by apply Z.eqb_neq.
Qed.

Lemma outputs_positive n : forall x,
toUint32 x <> 0 -> Forall (fun q => 0 < q /\ q < 1)%Q (outputs n x).
Proof.
induction n as [|n IH]; intros x Hx; cbn [outputs]; [constructor|].
unfold call. pose proof (advance_nonzero x Hx) as Ha.
pose proof (toUint32_range (advance x)) as Hr.
constructor; [|by apply IH].
rewrite js_ushr_0. unfold Qlt. cbn. unfold two32 in Hr. lia.
Qed.

End XorShift.

(** X1.  The word held by a generator made by [makeRng] is never zero,
    whatever the seed and however often the generator is called; hence
    every number it returns lies strictly between 0 and 1. *)
Theorem makeRng_never_zero (seed : Z) (n : nat) :
  Rng.toUint32 (Nat.iter n Rng.advance (Rng.makeRng seed)) <> 0
  /\ Forall (fun q => 0 < q /\ q < 1)%Q (Rng.outputs n (Rng.makeRng seed)).
Proof.
  split.
  - induction n as [|n IH]; cbn [Nat.iter].
    + apply makeRng_nonzero.
    + by apply advance_nonzero.
  - apply outputs_positive, makeRng_nonzero.
Qed.

(** X2.  Only the low 32 bits of the seed matter: two seeds that differ by
    a multiple of 2^32 make the same generator, and a seed that is a
    multiple of 2^32 makes the generator of seed 1. *)
Theorem makeRng_seed_aliases (seed k : Z) :
  Rng.makeRng (seed + k * Rng.two32) = Rng.makeRng seed
  /\ Rng.makeRng (k * Rng.two32) = Rng.makeRng 1.
Proof.
  assert (forall z, Rng.toInt32 (z + k * Rng.two32) = Rng.toInt32 z) as Hal.
  { intros z. unfold Rng.toInt32.
    replace (z + k * Rng.two32 + 2147483648) with (z + 2147483648 + k * Rng.two32) by lia.
    by rewrite Z.mod_add. }
  split.
  - by rewrite !RngFacts.makeRng_unfold, Hal.
  - rewrite !RngFacts.makeRng_unfold.
    replace (k * Rng.two32) with (0 + k * Rng.two32) by lia.
    by rewrite Hal.
Qed.

(* ===================================================================== *)
(** * Board utilities                                                      *)
(* ===================================================================== *)

(** X3.  [cellKey] tells cells apart: two cells have the same key exactly
    when they have the same row and the same column. *)
Theorem cellKey_distinct r c r' c' :
  cellKey r c = cellKey r' c' <-> r = r' /\ c = c'.
Proof.
  split.
  - intros H. apply cellKey_inj in H. by injection H.
  - by intros [-> ->].
Qed.

Lemma NoDup_KNIGHT_MOVES : NoDup KNIGHT_MOVES.
Proof. apply (bool_decide_unpack _). vm_compute. exact I. Qed.

Lemma KNIGHT_MOVES_nonzero o : o ∈ KNIGHT_MOVES -> o.1 <> 0 /\ o.2 <> 0.
Proof.
  unfold KNIGHT_MOVES. rewrite !elem_of_cons, elem_of_nil.
  intros H; destruct_or!; subst; cbn; try done.
Qed.

Lemma NoDup_legal_dests r c size g : NoDup (legal_dests r c size g).
Proof.
  unfold legal_dests. apply NoDup_filter, NoDup_fmap_2; [|apply NoDup_KNIGHT_MOVES].
  intros [a b] [a' b'] [=]. f_equal; lia.
Qed.

Lemma legal_dests_length r c size g : (length (legal_dests r c size g) <= 8)%nat.
Proof.
  unfold legal_dests. etrans; [apply length_filter|]. by rewrite length_fmap.
Qed.

(** X4.  On a grid that has its [size] rows, [getLegalMoves] returns
    exactly the cells a knight offset away from [(r, c)] that are in bounds
    and EMPTY, each once, in the order of [KNIGHT_MOVES]; there are at most
    eight and [(r, c)] is never one of them. *)
Theorem getLegalMoves_exact r c size g :
  rows_cover size g ->
  exists moves,
    getLegalMoves r c size g = Ok moves
    /\ moves = filter (fun d => inBounds d.1 d.2 size = true
                                ∧ cell g d.1 d.2 = Some CELL.EMPTY)
                      ((fun o => (r + o.1, c + o.2)) <$> KNIGHT_MOVES)
    /\ (forall d, d ∈ moves <->
          (exists o, o ∈ KNIGHT_MOVES /\ d = (r + o.1, c + o.2))
          /\ 0 <= d.1 < size /\ 0 <= d.2 < size
          /\ cell g d.1 d.2 = Some CELL.EMPTY)
    /\ NoDup moves /\ (length moves <= 8)%nat /\ (r, c) ∉ moves.
Proof.
  intros Hrows. exists (legal_dests r c size g).
  split; [by apply getLegalMoves_legal_dests|]. split; [done|].
  split; [|split; [apply NoDup_legal_dests|split; [apply legal_dests_length|]]].
  - intros d. rewrite legal_dests_spec, inBounds_spec. tauto.
  - rewrite legal_dests_spec. intros [(o & Ho & [= Hr Hc]) _].
    apply KNIGHT_MOVES_nonzero in Ho. lia.
Qed.

Lemma getLegalMoves_exact_witness :
  rows_cover 8 grid_B
  /\ exists moves,
       getLegalMoves 1 1 8 grid_B = Ok moves
       /\ moves = [(0, 3); (2, 3); (3, 0); (3, 2)].
Proof.
  assert (rows_cover 8 grid_B) as Hrows by (unfold rows_cover; cbn; lia).
  split; [exact Hrows|].
  destruct (getLegalMoves_exact 1 1 8 grid_B Hrows) as (moves & Hget & Hm & _).
  exists moves. split; [exact Hget|]. rewrite Hm. reflexivity.
Defined.

(** A fold raises exactly when one of its steps does, provided whether a
    step raises does not depend on the accumulator. *)
Lemma ofoldl_TypeError {A B} (f : A -> B -> outcome A) (bad : B -> Prop) l :
  (forall a b, f a b = TypeError <-> bad b) ->
  (forall a b, f a b <> OutOfModel) ->
  forall a, (ofoldl f a l = TypeError <-> Exists bad l)
            /\ ofoldl f a l <> OutOfModel.
Proof.
  intros Hbad Hmodel. induction l as [|b l IH]; intros a; cbn [ofoldl].
  - split; [|done]. split; [done|]. by intros ?%Exists_nil.
  - rewrite Exists_cons. specialize (Hbad a b). specialize (Hmodel a b).
    destruct (f a b) as [a'| |] eqn:Hf; [| |done].
    + rewrite obind_Ok. destruct (IH a') as [IH1 IH2]. split; [|done].
      rewrite IH1. split; [by right|]. intros [Hb | Hl]; [|done].
      by apply Hbad in Hb.
    + split; [|done]. split; [|done]. intros _. left. by apply Hbad.
Qed.

Lemma legal_step_TypeError r c size g moves off :
  legal_step r c size g moves off = TypeError <->
  inBounds (r + off.1) (c + off.2) size = true /\ js_index g (r + off.1) = None.
Proof.
  unfold legal_step, grid_get.
  destruct (inBounds _ _ _); [|by split; [|intros []]].
  destruct (js_index g (r + off.1)) as [rw|]; [|done].
  rewrite obind_Ok. split; [|by intros []]. by case_decide.
Qed.

Lemma legal_step_in_model r c size g moves off :
  legal_step r c size g moves off <> OutOfModel.
Proof.
  unfold legal_step, grid_get.
  destruct (inBounds _ _ _); [|done].
  destruct (js_index g (r + off.1)) as [rw|]; [|done].
  rewrite obind_Ok. by case_decide.
Qed.

(** X5.  [getLegalMoves] raises a TypeError exactly when some knight offset
    from [(r, c)] is in bounds for [size] while the grid has no row at that
    index; it fails in no other way. *)
Theorem getLegalMoves_raises r c size g :
  (getLegalMoves r c size g = TypeError <->
   exists o, o ∈ KNIGHT_MOVES
             /\ inBounds (r + o.1) (c + o.2) size = true
             /\ js_index g (r + o.1) = None)
  /\ getLegalMoves r c size g <> OutOfModel.
Proof.
  unfold getLegalMoves.
  destruct (ofoldl_TypeError (legal_step r c size g)
              (fun o => inBounds (r + o.1) (c + o.2) size = true
                        /\ js_index g (r + o.1) = None) KNIGHT_MOVES
              (fun a b => legal_step_TypeError r c size g a b)
              (fun a b => legal_step_in_model r c size g a b) []) as [H1 H2].
  split; [|done]. rewrite H1, Exists_exists.
  split; intros (o & Ho & Hb); exists o; tauto.
Qed.

Lemma legal_fold_length r c size g offs : forall acc moves,
  ofoldl (legal_step r c size g) acc offs = Ok moves ->
  (length acc <= length moves <= length acc + length offs)%nat.
Proof.
  induction offs as [|o offs IH]; intros acc moves H; cbn [ofoldl] in H.
  - injection H as <-. cbn. lia.
  - destruct (legal_step r c size g acc o) as [acc'| |] eqn:Hs; [|done|done].
    rewrite obind_Ok in H. apply IH in H.
    assert (length acc <= length acc' <= length acc + 1)%nat; [|cbn; lia].
    unfold legal_step in Hs. destruct (inBounds _ _ _).
    + destruct (grid_get g _ _) as [v| |]; [|done|done]. rewrite obind_Ok in Hs.
      case_decide; injection Hs as <-; rewrite ?length_app; cbn; lia.
    + injection Hs as <-. lia.
Qed.

Lemma legal_step_own_cell r c size g v g' moves off :
  grid_set g r c v = Ok g' -> off ∈ KNIGHT_MOVES ->
  legal_step r c size g' moves off = legal_step r c size g moves off.
Proof.
  intros Hset Hoff. unfold legal_step.
  destruct (inBounds _ _ _); [|done].
  apply KNIGHT_MOVES_nonzero in Hoff.
  assert (grid_get g' (r + off.1) (c + off.2) = grid_get g (r + off.1) (c + off.2))
    as ->; [|done].
  pose proof (grid_set_rows g r c v g' (r + off.1) Hset) as Hrows.
  pose proof (grid_set_cell_ne g r c v g' (r + off.1) (c + off.2) Hset) as Hcell.
  unfold grid_get, cell in *.
  destruct (js_index g' (r + off.1)) as [rw'|] eqn:E';
    destruct (js_index g (r + off.1)) as [rw|] eqn:E.
  - cbn in Hcell. rewrite Hcell; [done|]. intros [=]. lia.
  - destruct Hrows as [Hrows _]. by destruct Hrows.
  - destruct Hrows as [_ Hrows]. by destruct Hrows.
  - done.
Qed.

Lemma ofoldl_ext_in {A B} (f g : A -> B -> outcome A) (l : list B) :
  (forall a b, b ∈ l -> f a b = g a b) -> forall a, ofoldl f a l = ofoldl g a l.
Proof.
  induction l as [|b l IH]; intros Hfg a; cbn [ofoldl]; [done|].
  rewrite Hfg by left. destruct (g a b); [|done|done].
  rewrite !obind_Ok. apply IH. intros ???. apply Hfg. by right.
Qed.

Lemma getLegalMoves_own_cell r c size g v g' :
  grid_set g r c v = Ok g' ->
  getLegalMoves r c size g' = getLegalMoves r c size g.
Proof.
  intros Hset. unfold getLegalMoves. apply ofoldl_ext_in.
  intros a b Hb. by eapply legal_step_own_cell.
Qed.

(** X6.  [countMobility] returns a number between 0 and 8, and it does not
    depend on what the cell [(r, c)] itself holds: overwriting that cell
    leaves the count (or the failure) as it was. *)
Theorem countMobility_own_cell r c size g v g' :
  grid_set g r c v = Ok g' ->
  countMobility r c size g' = countMobility r c size g
  /\ forall n, countMobility r c size g = Ok n -> 0 <= n <= 8.
Proof.
  intros Hset. unfold countMobility. split.
  - by rewrite (getLegalMoves_own_cell r c size g v g').
  - intros n. destruct (getLegalMoves r c size g) as [moves| |] eqn:Hget; [|done|done].
    rewrite obind_Ok. intros [= <-].
    apply legal_fold_length in Hget. cbn in Hget. lia.
Qed.

Lemma countMobility_own_cell_witness :
  grid_set grid_B 1 1 0 = Ok (<[1%nat := [0; 0; 0; 0; 0; 0; 0; 0]]> grid_B)
  /\ countMobility 1 1 8 (<[1%nat := [0; 0; 0; 0; 0; 0; 0; 0]]> grid_B)
     = countMobility 1 1 8 grid_B
  /\ countMobility 1 1 8 grid_B = Ok 4.
Proof.
  split; [reflexivity|].
  destruct (countMobility_own_cell 1 1 8 grid_B 0
              (<[1%nat := [0; 0; 0; 0; 0; 0; 0; 0]]> grid_B) eq_refl) as [Heq _].
  split; [exact Heq|reflexivity].
Defined.

Lemma js_index_replicate {A} (n : nat) (x : A) i :
  js_index (replicate n x) i = if decide (0 <= i < Z.of_nat n) then Some x else None.
Proof.
  unfold js_index. destruct (0 <=? i) eqn:E.
  - apply Z.leb_le in E. case_decide.
    + apply lookup_replicate_2. lia.
    + apply lookup_replicate_None. lia.
  - apply Z.leb_gt in E. case_decide; [lia|done].
Qed.

Lemma makeGrid_reads size :
  square_grid (Z.to_nat size) (makeGrid size)
  /\ (forall r c, cell (makeGrid size) r c
                  = if inBounds r c size then Some CELL.EMPTY else None)
  /\ (size <= 0 -> makeGrid size = []).
Proof.
  split; [apply makeGrid_square|]. split.
  - intros r c. unfold cell, makeGrid. rewrite js_index_replicate.
    destruct (inBounds r c size) eqn:Hb.
    + apply inBounds_spec in Hb. rewrite decide_True by lia. cbn.
      rewrite js_index_replicate, decide_True by lia. done.
    + case_decide as Hr; [|done]. cbn. rewrite js_index_replicate.
      case_decide as Hc; [|done].
      assert (inBounds r c size = true) by (apply inBounds_spec; lia). congruence.
  - intros Hs. unfold makeGrid. by replace (Z.to_nat size) with 0%nat by lia.
Qed.

(** X7.  [makeGrid size] is a [size] x [size] grid whose every cell reads
    EMPTY, and nothing can be read outside it; for a size of zero or less
    the grid has no row. *)
Theorem makeGrid_cells size :
  square_grid (Z.to_nat size) (makeGrid size)
  /\ (forall r c, cell (makeGrid size) r c
                  = if inBounds r c size then Some CELL.EMPTY else None)
  /\ (size <= 0 -> makeGrid size = []).
Proof. exact (makeGrid_reads size). Qed.

(* ===================================================================== *)
(** * The initial state                                                    *)
(* ===================================================================== *)

(** The player loop raises exactly when an index has no start position. *)
Lemma push_player_TypeError hc starts ps i :
  push_player hc starts ps i = TypeError <-> js_index starts i = None.
Proof. unfold push_player. by destruct (js_index starts i). Qed.

Lemma push_player_in_model hc starts ps i :
  push_player hc starts ps i <> OutOfModel.
Proof. unfold push_player. by destruct (js_index starts i). Qed.

Lemma js_slice0_length {A} (a : list A) n :
  (length (js_slice0 a n) <= length a)%nat
  /\ (0 <= n -> Z.of_nat (length (js_slice0 a n)) <= n).
Proof.
  unfold js_slice0. rewrite length_take. split; [lia|].
  intros Hn. destruct (n <? 0) eqn:E; [apply Z.ltb_lt in E; lia|]. lia.
Qed.

Lemma elem_of_upto n i : i ∈ upto n <-> 0 <= i < n.
Proof.
  unfold upto. rewrite list_elem_of_fmap. split.
  - intros (k & -> & Hk%elem_of_seq). lia.
  - intros Hi. exists (Z.to_nat i). split; [lia|]. apply elem_of_seq. lia.
Qed.

(** X8.  [initState] raises a TypeError when more than four players are
    asked for (there are four start corners), and when at least one player
    is asked for on a board of size zero or less (the grid has no row to
    mark). *)
Theorem initState_raises cfg :
  4 < cfg_playerCount cfg \/ (cfg_boardSize cfg <= 0 /\ 1 <= cfg_playerCount cfg) ->
  initState cfg = TypeError.
Proof.
  intros Hbad. unfold initState.
  set (hc := Z.max 1 _). set (starts := defaultStartPositions _ _).
  destruct (ofoldl_TypeError (push_player hc starts)
              (fun i => js_index starts i = None) (upto (cfg_playerCount cfg))
              (push_player_TypeError hc starts)
              (push_player_in_model hc starts) []) as [Hraise Hmodel].
  destruct (decide (4 < cfg_playerCount cfg)) as [Hmany | Hfew].
  - assert (ofoldl (push_player hc starts) [] (upto (cfg_playerCount cfg)) = TypeError)
      as ->; [|done].
    apply Hraise, Exists_exists. exists 4. split; [apply elem_of_upto; lia|].
    destruct (js_index starts 4) eqn:E; [|done].
    apply js_index_lt in E.
    pose proof (js_slice0_length (start_corners (cfg_boardSize cfg))
                  (cfg_playerCount cfg)) as [Hlen _].
    unfold starts, defaultStartPositions in E. cbn in Hlen. lia.
  - destruct Hbad as [? | [Hsize Hn]]; [lia|].
    destruct (ofoldl (push_player hc starts) [] _) as [ps| |] eqn:Hps; [|done|done].
    rewrite obind_Ok.
    apply init_players in Hps as (_ & _ & Hpos & Hlen).
    destruct ps as [|p ps].
    { apply (f_equal length) in Hpos. rewrite length_take in Hpos. cbn in Hpos. lia. }
    cbn [ofoldl]. unfold makeGrid.
    replace (Z.to_nat (cfg_boardSize cfg)) with 0%nat by lia.
    unfold grid_set, js_index. cbn. by destruct (0 <=? row p).
Qed.

Lemma initState_raises_witness :
  (4 < cfg_playerCount (mkConfig 8 42 5 1 no_rules)
   \/ (cfg_boardSize (mkConfig 8 42 5 1 no_rules) <= 0
       /\ 1 <= cfg_playerCount (mkConfig 8 42 5 1 no_rules)))
  /\ initState (mkConfig 8 42 5 1 no_rules) = TypeError.
Proof.
  assert (4 < cfg_playerCount (mkConfig 8 42 5 1 no_rules)) as H by (cbn; lia).
  split; [by left|].
  exact (initState_raises (mkConfig 8 42 5 1 no_rules) (or_introl H)).
Defined.

(** ** Start positions *)

Lemma start_pad size : 2 <= size -> 0 <= size / 5 /\ 2 * (size / 5) < size - 1.
Proof.
  intros Hs. pose proof (Z.mul_div_le size 5 ltac:(done)).
  pose proof (Z.div_pos size 5 ltac:(lia) ltac:(done)).
  destruct (decide (size < 5)) as [Hlt | Hge].
  - rewrite Z.div_small by lia. lia.
  - lia.
Qed.

Lemma NoDup_start_corners size : 2 <= size -> NoDup (start_corners size).
Proof.
  intros Hs. pose proof (start_pad size Hs) as [Hp Hq].
  unfold start_corners. set (pad := size / 5) in *.
  repeat (apply NoDup_cons; split;
          [rewrite ?elem_of_cons, elem_of_nil; intros H; destruct_or!;
           try done; injection H; lia|]).
  apply NoDup_nil_2.
Qed.

Lemma defaultStartPositions_sublist n size :
  defaultStartPositions n size `sublist_of` start_corners size.
Proof. unfold defaultStartPositions, js_slice0. apply sublist_take. Qed.

(** The positions of the players of an initial state are the start
    positions handed to [placeObstacles]. *)
Lemma initState_positions cfg s :
  initState cfg = Ok s ->
  (fun p => (row p, col p)) <$> players s
  `sublist_of` defaultStartPositions (cfg_playerCount cfg) (cfg_boardSize cfg).
Proof.
  intros (_ & _ & ->)%initState_players. apply sublist_take.
Qed.

(** X9.  On a board of size two or more the players of the initial state
    stand on pairwise distinct cells of the board, and their ids are
    0, 1, ... in order, hence pairwise distinct. *)
Theorem initState_distinct_starts cfg s :
  initState cfg = Ok s -> 2 <= cfg_boardSize cfg ->
  NoDup ((fun p => (row p, col p)) <$> players s)
  /\ Forall (fun p => on_board (boardSize s) (row p, col p)) (players s)
  /\ pid <$> players s = upto (cfg_playerCount cfg)
  /\ NoDup (pid <$> players s).
Proof.
  intros Hinit Hsize.
  pose proof (initState_positions cfg s Hinit) as Hpre.
  destruct (initState_players cfg s Hinit) as (Hids & _ & _).
  assert (boardSize s = cfg_boardSize cfg) as ->.
  { by apply initState_inv in Hinit as (? & ? & ? & ? & _ & _ & _ & _ & ->). }
  assert ((fun p => (row p, col p)) <$> players s
          `sublist_of` start_corners (cfg_boardSize cfg)) as Hsub.
  { etrans; [exact Hpre|apply defaultStartPositions_sublist]. }
  split; [|split; [|split]].
  - eapply sublist_NoDup; [|exact Hsub]. by apply NoDup_start_corners.
  - apply Forall_forall. intros p Hp.
    pose proof (start_corners_on_board (cfg_boardSize cfg) ltac:(lia)) as Hb.
    rewrite Forall_forall in Hb. apply Hb.
    eapply elem_of_sublist; [|exact Hsub]. apply list_elem_of_fmap. eauto.
  - exact Hids.
  - rewrite Hids. apply NoDup_upto.
Qed.

Lemma initState_distinct_starts_witness :
  initState scenario_A = Ok state_A /\ 2 <= cfg_boardSize scenario_A
  /\ NoDup ((fun p => (row p, col p)) <$> players state_A)
  /\ Forall (fun p => on_board (boardSize state_A) (row p, col p)) (players state_A)
  /\ pid <$> players state_A = upto (cfg_playerCount scenario_A)
  /\ NoDup (pid <$> players state_A).
Proof.
  assert (2 <= cfg_boardSize scenario_A) as Hsize by (cbn; lia).
  split; [exact initState_scenario_A|]. split; [exact Hsize|].
  exact (initState_distinct_starts scenario_A state_A initState_scenario_A Hsize).
Defined.

(** ** The grid and the obstacles of the initial state *)

Lemma initState_scenario_D : initState scenario_D = Ok state_D.
Proof. vm_compute. reflexivity. Qed.

(** A marking loop that returns has written its value at the listed cells
    and nowhere else. *)
Lemma mark_loop_exact val cells : forall g g',
  ofoldl (mark_cell val) g cells = Ok g' ->
  forall r c, cell g' r c = if decide ((r, c) ∈ cells) then Some val else cell g r c.
Proof.
  induction cells as [|o cells IH]; intros g g' H r c; cbn [ofoldl] in H.
  - injection H as <-. rewrite decide_False; [done|]. apply not_elem_of_nil.
  - destruct (mark_cell val g o) as [g1| |] eqn:Hg1; [|done|done].
    rewrite obind_Ok in H. rewrite (IH g1 g' H r c). unfold mark_cell in Hg1.
    destruct (decide ((r, c) ∈ cells)) as [Hin | Hout].
    + rewrite decide_True; [done|]. by right.
    + destruct (decide ((r, c) = o)) as [<- | Hne].
      * rewrite decide_True by left. by eapply grid_set_cell_eq.
      * rewrite decide_False.
        -- eapply grid_set_cell_ne; [exact Hg1|]. by destruct o.
        -- rewrite elem_of_cons. tauto.
Qed.

Lemma cell_in_square n g r c w :
  square_grid n g -> cell g r c = Some w ->
  0 <= r < Z.of_nat n /\ 0 <= c < Z.of_nat n.
Proof.
  intros [Hlen Hrows] (rw & Hr & Hc)%cell_Some.
  pose proof (js_index_lt _ _ _ Hr) as Hr'. pose proof (js_index_lt _ _ _ Hc) as Hc'.
  apply js_index_Some in Hr as [_ Hr]. rewrite Forall_forall in Hrows.
  rewrite (Hrows rw) in Hc' by (by eapply list_elem_of_lookup_2). lia.
Qed.

(** The keys [placeObstacles] protects: those of the start cells and of
    every knight offset from a start cell. *)
Lemma protect_offsets r c offs : forall occ : gset string,
  foldl (fun occ' '(dr, dc) => occ' ∪ {[ cellKey (r + dr) (c + dc) ]}) occ offs
  = occ ∪ list_to_set ((fun k => cellKey (r + k.1) (c + k.2)) <$> offs).
Proof.
  induction offs as [|[dr dc] offs IH]; intros occ; cbn [foldl].
  - cbn. by rewrite (right_id_L ∅ (∪)).
  - rewrite IH, fmap_cons, list_to_set_cons. cbn [fst snd].
    by rewrite (assoc_L (∪)).
Qed.

Lemma protect_starts (starts : list (Z * Z)) : forall occ : gset string,
  foldl (fun occ '(r, c) =>
           foldl (fun occ' '(dr, dc) => occ' ∪ {[ cellKey (r + dr) (c + dc) ]})
                 occ KNIGHT_MOVES) occ starts
  = occ ∪ list_to_set (starts ≫= fun st =>
                         (fun k => cellKey (st.1 + k.1) (st.2 + k.2)) <$> KNIGHT_MOVES).
Proof.
  induction starts as [|[r c] starts IH]; intros occ; cbn [foldl].
  - cbn. by rewrite (right_id_L ∅ (∪)).
  - rewrite IH, protect_offsets, bind_cons, list_to_set_app_L. cbn [fst snd].
    by rewrite (assoc_L (∪)).
Qed.

Lemma elem_of_protected_keys starts o :
  cellKey o.1 o.2 ∈ protected_keys starts <->
  o ∈ starts
  \/ exists st k, st ∈ starts /\ k ∈ KNIGHT_MOVES /\ o = (st.1 + k.1, st.2 + k.2).
Proof.
  unfold protected_keys. rewrite protect_starts, elem_of_union, !elem_of_list_to_set.
  rewrite list_elem_of_fmap, list_elem_of_bind. split.
  - intros [([r c] & Hk & Hin) | (st & Hk & Hst)].
    + left. apply cellKey_inj in Hk. destruct o; cbn in Hk. by rewrite Hk.
    + right. apply list_elem_of_fmap in Hk as (k & Hk & Hin).
      apply cellKey_inj in Hk. exists st, k. destruct o; cbn in Hk. by rewrite Hk.
  - intros [Hin | (st & k & Hst & Hk & ->)].
    + left. exists o. by destruct o.
    + right. exists st. split; [|done]. apply list_elem_of_fmap. by exists k.
Qed.

(** The loop of [placeObstacles] stops at [count] obstacles. *)
Lemma place_loop_length budget size count : forall obs occ x obs' x',
  place_loop budget size count obs occ x = (obs', x') ->
  Z.of_nat (length obs') <= Z.max (Z.of_nat (length obs)) count.
Proof.
  induction budget as [|budget IH]; intros obs occ x obs' x' H; cbn [place_loop] in H.
  { injection H as <- <-. lia. }
  destruct (Z.of_nat (length obs) <? count) eqn:E; [|injection H as <- <-; lia].
  apply Z.ltb_lt in E.
  destruct (draw_index x size) as [r x1]. destruct (draw_index x1 size) as [c x2].
  case_decide.
  - apply IH in H. lia.
  - apply IH in H. rewrite length_app in H. cbn in H. lia.
Qed.

Lemma placeObstacles_length size x starts count obs x' :
  placeObstacles size x starts count = (obs, x') ->
  Z.of_nat (length obs) <= Z.max 0 count.
Proof.
  unfold placeObstacles. intros H.
  apply place_loop_length in H. cbn [length] in H. lia.
Qed.

(** The layout of the initial state: the obstacles and the grid. *)
Lemma initState_layout cfg s :
  initState cfg = Ok s ->
  NoDup (obstacles s)
  /\ Z.of_nat (length (obstacles s)) <= Z.max 0 (obstacleCount (ruleset s))
  /\ (forall o, o ∈ obstacles s ->
        on_board (boardSize s) o
        /\ (forall p, p ∈ players s -> o <> (row p, col p)
              /\ forall k, k ∈ KNIGHT_MOVES -> o <> (row p + k.1, col p + k.2)))
  /\ (forall r c,
        cell (visited s) r c
        = if inBounds r c (boardSize s) then
            Some (if decide ((r, c) ∈ obstacles s) then CELL.OBSTACLE
                  else if decide ((r, c) ∈ (fun p => (row p, col p)) <$> players s)
                       then CELL.BLOCKED else CELL.EMPTY)
          else None).
Proof.
  intros Hinit.
  pose proof (initState_positions cfg s Hinit) as Hpos.
  destruct (initState_grid cfg s Hinit) as (Hsq & Hstarts & Hobs & Hnd).
  destruct (initState_inv cfg s Hinit) as (ps & v1 & obs & x1 & Hps & Hv1 & Hplace & Hv2 & Hs).
  assert (players s = ps /\ obstacles s = obs /\ boardSize s = cfg_boardSize cfg
          /\ ruleset s = merge_rules (cfg_ruleset cfg)) as (Hp & Ho & Hb & Hr)
    by (by rewrite Hs).
  rewrite Hb, Hr, Ho, Hp in *. clear Hp Ho Hb Hr.
  assert (forall o, o ∈ obs -> on_board (cfg_boardSize cfg) o) as Hboard.
  { intros o Hin. rewrite Forall_forall in Hobs.
    destruct (cell_in_square _ _ _ _ _ Hsq (Hobs o Hin)). unfold on_board. lia. }
  split; [done|]. split; [|split].
  - by apply placeObstacles_length in Hplace.
  - intros o Hin. split; [by apply Hboard|]. intros p Hp.
    apply placeObstacles_ok in Hplace as (_ & Hfree & _).
    specialize (Hfree o Hin). rewrite elem_of_protected_keys in Hfree.
    assert ((row p, col p) ∈ defaultStartPositions (cfg_playerCount cfg) (cfg_boardSize cfg))
      as Hst.
    { eapply elem_of_sublist; [|exact Hpos]. apply list_elem_of_fmap. eauto. }
    split.
    + intros ->. apply Hfree. by left.
    + intros k Hk ->. apply Hfree. right. by exists (row p, col p), k.
  - intros r c.
    rewrite (mark_loop_exact _ _ _ _ Hv2 r c), (mark_loop_exact _ _ _ _ Hv1 r c).
    destruct (makeGrid_reads (cfg_boardSize cfg)) as (_ & Hcells & _).
    rewrite Hcells.
    destruct (inBounds r c (cfg_boardSize cfg)) eqn:Hin.
    + repeat case_decide; done.
    + assert (~ on_board (cfg_boardSize cfg) (r, c)) as Hoff.
      { unfold on_board. cbn. intros [? ?].
        assert (inBounds r c (cfg_boardSize cfg) = true) by (apply inBounds_spec; lia).
        congruence. }
      rewrite decide_False by (intros ?; by apply Hoff, Hboard).
      rewrite decide_False; [done|].
      intros (p & [= -> ->] & Hp)%list_elem_of_fmap. apply Hoff.
      rewrite Forall_forall in Hstarts. destruct (Hstarts p Hp) as (w & Hw & _).
      destruct (cell_in_square _ _ _ _ _ Hsq Hw). unfold on_board. cbn. lia.
Qed.

(** X10.  The grid of the initial state is exactly this: an obstacle cell
    reads OBSTACLE, a start cell reads BLOCKED, every other cell of the
    board reads EMPTY, and nothing can be read off the board.  The
    obstacles are pairwise distinct cells of the board, no more than
    [obstacleCount], and none is a start cell or a knight's move away from
    one. *)
Theorem initState_grid_exact cfg s :
  initState cfg = Ok s ->
  NoDup (obstacles s)
  /\ Z.of_nat (length (obstacles s)) <= Z.max 0 (obstacleCount (ruleset s))
  /\ (forall o, o ∈ obstacles s ->
        on_board (boardSize s) o
        /\ (forall p, p ∈ players s -> o <> (row p, col p)
              /\ forall k, k ∈ KNIGHT_MOVES -> o <> (row p + k.1, col p + k.2)))
  /\ (forall r c,
        cell (visited s) r c
        = if inBounds r c (boardSize s) then
            Some (if decide ((r, c) ∈ obstacles s) then CELL.OBSTACLE
                  else if decide ((r, c) ∈ (fun p => (row p, col p)) <$> players s)
                       then CELL.BLOCKED else CELL.EMPTY)
          else None).
Proof. exact (initState_layout cfg s). Qed.

Lemma initState_grid_exact_witness :
  initState scenario_D = Ok state_D
  /\ NoDup (obstacles state_D)
  /\ Z.of_nat (length (obstacles state_D)) <= Z.max 0 (obstacleCount (ruleset state_D))
  /\ (forall o, o ∈ obstacles state_D ->
        on_board (boardSize state_D) o
        /\ (forall p, p ∈ players state_D -> o <> (row p, col p)
              /\ forall k, k ∈ KNIGHT_MOVES -> o <> (row p + k.1, col p + k.2)))
  /\ (forall r c,
        cell (visited state_D) r c
        = if inBounds r c (boardSize state_D) then
            Some (if decide ((r, c) ∈ obstacles state_D) then CELL.OBSTACLE
                  else if decide ((r, c) ∈ (fun p => (row p, col p)) <$> players state_D)
                       then CELL.BLOCKED else CELL.EMPTY)
          else None).
Proof.
  split; [exact initState_scenario_D|].
  exact (initState_grid_exact scenario_D state_D initState_scenario_D).
Defined.

(** ** Every player can move at the start *)

Lemma start_pad3 size : 3 <= size -> 0 <= size / 5 /\ size / 5 + 2 < size.
Proof.
  intros Hs. pose proof (Z.mul_div_le size 5 ltac:(done)).
  pose proof (Z.div_pos size 5 ltac:(lia) ltac:(done)).
  destruct (decide (size < 5)) as [Hlt | Hge].
  - rewrite Z.div_small by lia. lia.
  - lia.
Qed.

(** No knight's move leads from a start corner to a start corner. *)
Lemma corners_apart size a b o :
  2 <= size -> a ∈ start_corners size -> b ∈ start_corners size ->
  o ∈ KNIGHT_MOVES -> (a.1 + o.1, a.2 + o.2) <> b.
Proof.
  intros Hs Ha Hb Ho. pose proof (start_pad size Hs) as [Hp Hq].
  unfold start_corners in *. set (pad := size / 5) in *.
  unfold KNIGHT_MOVES in Ho.
  rewrite !elem_of_cons, elem_of_nil in Ha, Hb.
  rewrite !elem_of_cons, elem_of_nil in Ho.
  intros Heq. destruct_or!; subst; try done; cbn in Heq; injection Heq; lia.
Qed.

(** From every start corner of a board of size three or more, two
    different knight's moves stay on the board. *)
Lemma corner_two_moves size a :
  3 <= size -> a ∈ start_corners size ->
  exists o1 o2, o1 ∈ KNIGHT_MOVES /\ o2 ∈ KNIGHT_MOVES /\ o1 <> o2
    /\ inBounds (a.1 + o1.1) (a.2 + o1.2) size = true
    /\ inBounds (a.1 + o2.1) (a.2 + o2.2) size = true.
Proof.
  intros Hs Ha. pose proof (start_pad3 size Hs) as [Hp Hq].
  unfold start_corners in Ha. set (pad := size / 5) in *.
  rewrite !elem_of_cons, elem_of_nil in Ha.
  destruct_or!; subst; try done; cbn [fst snd].
  - exists (1, 2), (2, 1). rewrite !inBounds_spec. cbn.
    split; [set_solver|]. split; [set_solver|]. split; [done|]. lia.
  - exists (-1, -2), (-2, -1). rewrite !inBounds_spec. cbn.
    split; [set_solver|]. split; [set_solver|]. split; [done|]. lia.
  - exists (1, -2), (2, -1). rewrite !inBounds_spec. cbn.
    split; [set_solver|]. split; [set_solver|]. split; [done|]. lia.
  - exists (-1, 2), (-2, 1). rewrite !inBounds_spec. cbn.
    split; [set_solver|]. split; [set_solver|]. split; [done|]. lia.
Qed.

Lemma filter_ext_in {A} (P Q : A -> Prop) `{!forall x, Decision (P x)}
    `{!forall x, Decision (Q x)} (l : list A) :
  (forall x, x ∈ l -> P x <-> Q x) -> filter P l = filter Q l.
Proof.
  induction l as [|x l IH]; intros Hext; [done|].
  rewrite !filter_cons.
  rewrite IH by (intros y Hy; apply Hext; by right).
  destruct (decide (P x)) as [HP | HP], (decide (Q x)) as [HQ | HQ]; try done.
  - by apply Hext in HP; [|left].
  - by apply Hext in HQ; [|left].
Qed.

Lemma two_elements {A} (l : list A) x y :
  x ∈ l -> y ∈ l -> x <> y -> (2 <= length l)%nat.
Proof.
  intros Hx Hy Hne.
  assert ([x; y] ⊆+ l) as Hsub.
  { apply NoDup_submseteq.
    - apply NoDup_cons. split; [by intros ->%list_elem_of_singleton|apply NoDup_singleton].
    - intros z. rewrite elem_of_cons, list_elem_of_singleton. by intros [-> | ->]. }
  by apply submseteq_length in Hsub.
Qed.

Lemma square_rows_cover size g : square_grid (Z.to_nat size) g -> rows_cover size g.
Proof. intros [Hlen _]. unfold rows_cover. lia. Qed.

(** Nobody starts hemmed in. *)
Lemma initState_open_start cfg s p :
  initState cfg = Ok s -> 3 <= cfg_boardSize cfg -> p ∈ players s ->
  exists moves,
    getLegalMoves (row p) (col p) (boardSize s) (visited s) = Ok moves
    /\ moves = filter (fun d => inBounds d.1 d.2 (boardSize s) = true)
                      ((fun o => (row p + o.1, col p + o.2)) <$> KNIGHT_MOVES)
    /\ (2 <= length moves)%nat.
Proof.
  intros Hinit Hsize Hp.
  destruct (initState_layout cfg s Hinit) as (_ & _ & Hfree & Hcells).
  destruct (initState_grid cfg s Hinit) as (Hsq & _).
  pose proof (initState_positions cfg s Hinit) as Hpos.
  assert (boardSize s = cfg_boardSize cfg) as Hb.
  { by apply initState_inv in Hinit as (? & ? & ? & ? & _ & _ & _ & _ & ->). }
  assert (forall q, q ∈ players s -> (row q, col q) ∈ start_corners (cfg_boardSize cfg))
    as Hcorner.
  { intros q Hq. eapply elem_of_sublist; [|apply defaultStartPositions_sublist].
    eapply elem_of_sublist; [|exact Hpos]. apply list_elem_of_fmap. eauto. }
  exists (legal_dests (row p) (col p) (boardSize s) (visited s)).
  split; [apply getLegalMoves_legal_dests; rewrite Hb; by apply square_rows_cover|].
  assert (legal_dests (row p) (col p) (boardSize s) (visited s)
          = filter (fun d => inBounds d.1 d.2 (boardSize s) = true)
                   ((fun o => (row p + o.1, col p + o.2)) <$> KNIGHT_MOVES)) as Heq.
  { unfold legal_dests. apply filter_ext_in.
    intros d (o & -> & Ho)%list_elem_of_fmap. cbn [fst snd].
    split; [tauto|]. intros Hin. split; [done|].
    rewrite Hcells, Hin. f_equal.
    rewrite decide_False.
    2:{ intros Hobs. destruct (Hfree _ Hobs) as [_ Hfar].
        destruct (Hfar p Hp) as [_ Hfar']. by apply (Hfar' o). }
    rewrite decide_False; [done|].
    intros (q & Heq & Hq)%list_elem_of_fmap.
    eapply (corners_apart (cfg_boardSize cfg) (row p, col p) (row q, col q) o);
      [lia|by apply Hcorner|by apply Hcorner|done|done]. }
  split; [done|]. rewrite Heq, Hb.
  destruct (corner_two_moves (cfg_boardSize cfg) (row p, col p) Hsize (Hcorner p Hp))
    as (o1 & o2 & Ho1 & Ho2 & Hne & Hb1 & Hb2). cbn [fst snd] in *.
  apply (two_elements _ (row p + o1.1, col p + o1.2) (row p + o2.1, col p + o2.2)).
  - apply list_elem_of_filter. split; [done|]. apply list_elem_of_fmap. eauto.
  - apply list_elem_of_filter. split; [done|]. apply list_elem_of_fmap. eauto.
  - intros [=]. apply Hne. destruct o1, o2; cbn in *. f_equal; lia.
Qed.

(** X11.  On a board of size three or more every player of the initial
    state can move, whatever the obstacles: its legal moves are all the
    knight offsets from its start cell that stay on the board, and there
    are at least two of them. *)
Theorem initState_fair_start cfg s p :
  initState cfg = Ok s -> 3 <= cfg_boardSize cfg -> p ∈ players s ->
  exists moves,
    getLegalMoves (row p) (col p) (boardSize s) (visited s) = Ok moves
    /\ moves = filter (fun d => inBounds d.1 d.2 (boardSize s) = true)
                      ((fun o => (row p + o.1, col p + o.2)) <$> KNIGHT_MOVES)
    /\ (2 <= length moves)%nat.
Proof. exact (initState_open_start cfg s p). Qed.

Lemma initState_fair_start_witness :
  initState scenario_D = Ok state_D /\ 3 <= cfg_boardSize scenario_D
  /\ player_D1 ∈ players state_D
  /\ exists moves,
       getLegalMoves (row player_D1) (col player_D1) (boardSize state_D) (visited state_D)
       = Ok moves
       /\ moves = filter (fun d => inBounds d.1 d.2 (boardSize state_D) = true)
                         ((fun o => (row player_D1 + o.1, col player_D1 + o.2))
                            <$> KNIGHT_MOVES)
       /\ (2 <= length moves)%nat.
Proof.
  assert (3 <= cfg_boardSize scenario_D) as Hsize by (cbn; lia).
  assert (player_D1 ∈ players state_D) as Hp by (cbn; set_solver).
  split; [exact initState_scenario_D|]. split; [exact Hsize|]. split; [exact Hp|].
  exact (initState_fair_start scenario_D state_D player_D1 initState_scenario_D Hsize Hp).
Defined.

(** ** The roster of the initial state *)

(** X12.  The players of the initial state are determined by their index:
    player [i] (at most four of them) stands on the [i]-th start corner and
    wears palette [i]; it is human exactly when [i] is below
    [max(1, playerCount - cpuCount)], so player 0 is always human and has no
    strategy; the others get "mobility" for an odd index and "aggressor"
    for an even one. *)
Theorem initState_roster cfg s p :
  initState cfg = Ok s -> p ∈ players s ->
  0 <= pid p < cfg_playerCount cfg /\ pid p < 4
  /\ js_index (start_corners (boardSize s)) (pid p) = Some (row p, col p)
  /\ palette p = Some (pid p)
  /\ isHuman p = (pid p <? Z.max 1 (cfg_playerCount cfg - cfg_cpuCount cfg))
  /\ (pid p = 0 -> isHuman p = true /\ aiStrategy p = None)
  /\ (pid p <> 0 ->
      aiStrategy p = Some (if pid p mod 2 =? 1 then "mobility" else "aggressor")).
Proof.
  intros Hinit Hp.
  destruct (initState_inv cfg s Hinit) as (ps & v1 & obs & x1 & Hps & _ & _ & _ & Hs).
  assert (players s = ps /\ boardSize s = cfg_boardSize cfg) as [Hpl ->] by (by rewrite Hs).
  rewrite Hpl in Hp. clear Hs Hpl.
  apply push_players in Hps as (sts & -> & Hlen & Hst). cbn [app] in Hp.
  apply elem_of_lookup_zip_with in Hp as (k & i & st & -> & Hi & Hk).
  rewrite <- (Hst k i Hi) in Hk.
  assert (0 <= i < cfg_playerCount cfg) as Hrange.
  { apply elem_of_upto. by eapply list_elem_of_lookup_2. }
  pose proof (js_index_lt _ _ _ Hk) as Hlt.
  pose proof (js_slice0_length (start_corners (cfg_boardSize cfg))
                (cfg_playerCount cfg)) as [Hle _].
  unfold defaultStartPositions in Hlt. cbn [start_corners length] in Hle.
  assert (i = 0 \/ i = 1 \/ i = 2 \/ i = 3) as Hcases by lia.
  cbn [pid row col palette isHuman aiStrategy new_player].
  split; [done|]. split; [lia|]. split.
  { apply js_index_Some in Hk as [Hnn Hk]. apply js_index_Some. split; [done|].
    unfold defaultStartPositions, js_slice0 in Hk.
    apply lookup_take_Some in Hk as [Hk _]. by destruct st. }
  split; [destruct_or!; by subst|]. split; [done|]. split.
  - intros ->. split; [|done]. apply Z.ltb_lt. lia.
  - intros Hne. destruct (i =? 0) eqn:E; [apply Z.eqb_eq in E; lia|].
    by destruct (i mod 2 =? 1).
Qed.

Lemma initState_roster_witness :
  initState scenario_D = Ok state_D /\ player_D1 ∈ players state_D
  /\ 0 <= pid player_D1 < cfg_playerCount scenario_D /\ pid player_D1 < 4
  /\ js_index (start_corners (boardSize state_D)) (pid player_D1)
     = Some (row player_D1, col player_D1)
  /\ palette player_D1 = Some (pid player_D1)
  /\ isHuman player_D1
     = (pid player_D1 <? Z.max 1 (cfg_playerCount scenario_D - cfg_cpuCount scenario_D))
  /\ (pid player_D1 = 0 -> isHuman player_D1 = true /\ aiStrategy player_D1 = None)
  /\ (pid player_D1 <> 0 ->
      aiStrategy player_D1
      = Some (if pid player_D1 mod 2 =? 1 then "mobility" else "aggressor")).
Proof.
  assert (player_D1 ∈ players state_D) as Hp by (cbn; set_solver).
  split; [exact initState_scenario_D|]. split; [exact Hp|].
  exact (initState_roster scenario_D state_D player_D1 initState_scenario_D Hp).
Defined.

(* ===================================================================== *)
(** * Submitting intents                                                   *)
(* ===================================================================== *)

(** X13.  [submitMove] validates nothing and touches nothing but the
    pending intent of the given id: the intent is recorded whatever the
    phase, the id and the cell; a later submission for the same id replaces
    it; the order in which two different ids submit makes no difference to
    what [resolveTurn] returns. *)
Theorem submitMove_last_wins s k r c :
  pendingMoves (submitMove s k r c) !! k = Some (r, c)
  /\ (forall k', k' <> k ->
        pendingMoves (submitMove s k r c) !! k' = pendingMoves s !! k')
  /\ (players (submitMove s k r c), visited (submitMove s k r c),
      phase (submitMove s k r c), turn (submitMove s k r c),
      history (submitMove s k r c))
     = (players s, visited s, phase s, turn s, history s)
  /\ (forall r' c', submitMove (submitMove s k r c) k r' c' = submitMove s k r' c')
  /\ (forall k' r' c', k <> k' ->
        resolveTurn (submitMove (submitMove s k r c) k' r' c')
        = resolveTurn (submitMove (submitMove s k' r' c') k r c)).
Proof.
  split; [|split; [|split; [|split]]].
  - rewrite submitMove_fields. cbn. apply lookup_insert_eq.
  - intros k' Hne. rewrite submitMove_fields. cbn. by apply lookup_insert_ne.
  - by rewrite submitMove_fields.
  - intros r' c'. rewrite !submitMove_fields. cbn. by rewrite insert_insert_eq.
  - intros k' r' c' Hne. f_equal. rewrite !submitMove_fields. cbn.
    by rewrite insert_insert_ne.
Qed.

(* ===================================================================== *)
(** * Resolution judges every intent on the grid the turn starts from      *)
(* ===================================================================== *)

(** An invariant that may mention the elements already visited. *)
Lemma ofoldl_prefix {A B} (P : list B -> A -> Prop) (f : A -> B -> outcome A) l :
  (forall seen b rest a a',
     l = seen ++ b :: rest -> P seen a -> f a b = Ok a' -> P (seen ++ [b]) a') ->
  forall a a', P [] a -> ofoldl f a l = Ok a' -> P l a'.
Proof.
  intros Hstep.
  assert (forall rest seen a a',
            l = seen ++ rest -> P seen a -> ofoldl f a rest = Ok a' -> P l a') as Hgen.
  { induction rest as [|b rest IH]; intros seen a a' Hl HP Hfold; cbn [ofoldl] in Hfold.
    - injection Hfold as <-. by rewrite Hl, app_nil_r.
    - destruct (f a b) as [a1| |] eqn:Hf; [|done|done]. rewrite obind_Ok in Hfold.
      apply (IH (seen ++ [b]) a1 a'); [by rewrite <- app_assoc| |done].
      by eapply Hstep. }
  intros a a' HP Hfold. by apply (Hgen l [] a a').
Qed.

Lemma resolveTurn_prefix (P : list nat -> Resolving -> Prop) s s' ev :
  P [] (resolve_start s) ->
  (forall seen i r r',
     i ∈ alive_refs (players s) -> i ∉ seen ->
     (forall j, j ∈ seen -> j ∈ alive_refs (players s)) ->
     resolve_frame s r -> P seen r ->
     resolve_step (intended_of s) (tally_of s) r i r' -> P (seen ++ [i]) r') ->
  resolveTurn s = Ok (s', ev) ->
  exists r, resolve_frame s r /\ P (alive_refs (players s)) r
            /\ s' = resolve_finish s r /\ ev = rs_events r.
Proof.
  intros H0 Hstep. rewrite resolveTurn_loop.
  destruct (ofoldl _ _ _) as [r| |] eqn:Hloop; cbn; [|done..].
  intros [= <- <-].
  assert (resolve_frame s r /\ P (alive_refs (players s)) r) as [Hf Hp]; [|by exists r].
  revert Hloop.
  apply (ofoldl_prefix (fun seen r => resolve_frame s r /\ P seen r)); [|by split].
  intros seen i rest a a' Hl [Hf Ha] Hok%resolve_player_step.
  split; [by eapply resolve_frame_step|].
  pose proof (NoDup_alive_refs (players s)) as Hnd. rewrite Hl in Hnd.
  apply NoDup_app in Hnd as (_ & Hdisj & _).
  apply (Hstep seen i a a'); try done.
  - rewrite Hl. apply elem_of_app. right. by left.
  - intros Hin. apply (Hdisj i Hin). by left.
  - intros j Hj. rewrite Hl. apply elem_of_app. by left.
Qed.

(** The players are told apart by their ids. *)
Lemma NoDup_pids_index ps i j p q :
  NoDup (pid <$> ps) -> ps !! i = Some p -> ps !! j = Some q ->
  pid p = pid q -> i = j.
Proof.
  intros Hnd Hp Hq Heq.
  eapply NoDup_lookup; [exact Hnd| |].
  - by rewrite list_lookup_fmap, Hp.
  - by rewrite list_lookup_fmap, Hq, Heq.
Qed.

Lemma move_dests_snoc ev e :
  move_dests (ev ++ [e]) = move_dests ev ++ from_option (fun d => [d]) [] (move_dest e).
Proof.
  unfold move_dests. rewrite omap_app. cbn. by destruct (move_dest e).
Qed.

Lemma omap_snoc {A B} (f : A -> option B) l x :
  omap f (l ++ [x]) = omap f l ++ from_option (fun y => [y]) [] (f x).
Proof. rewrite omap_app. cbn. by destruct (f x). Qed.

(** A move in the verdicts of the players behind [seen] is the verdict of
    one of them. *)
Lemma verdict_move_source s seen d :
  d ∈ move_dests (omap (fun j => players s !! j ≫= verdict s) seen) ->
  exists j p, j ∈ seen /\ players s !! j = Some p /\ status p = ALIVE
              /\ pendingMoves s !! pid p = Some d.
Proof.
  unfold move_dests. rewrite list_elem_of_omap.
  intros (e & (j & Hj & He)%list_elem_of_omap & Hd).
  destruct (players s !! j) as [p|] eqn:Hp; [|done]. cbn in He.
  exists j, p. split; [done|]. split; [done|].
  unfold verdict in He. case_decide as Ha; [|done]. split; [done|].
  destruct (pendingMoves s !! pid p) as [d'|]; [|done]. cbn in He.
  injection He as <-. repeat case_decide; cbn in Hd; try done; by injection Hd as ->.
Qed.

Section Simultaneous.
Variable s : GameState.
Hypothesis Hnd : NoDup (pid <$> players s).

Lemma settled_start : settled s [] (resolve_start s).
Proof.
split; [done|]. split; [|split; [|done]].
- intros j. cbn. destruct (players s !! j); [|done]. cbn.
  rewrite decide_False; [done|]. apply not_elem_of_nil.
- intros rw c. cbn. rewrite decide_False; [done|]. apply not_elem_of_nil.
Qed.

(** No one before [i] has moved to the uncontested destination of [i]. *)
Lemma destination_untouched seen i p d :
i ∉ seen -> (forall j, j ∈ seen -> j ∈ alive_refs (players s)) ->
players s !! i = Some p -> status p = ALIVE ->
pendingMoves s !! pid p = Some d -> ~ contested (tally_of s) d ->
d ∉ move_dests (omap (fun j => players s !! j ≫= verdict s) seen).
Proof.
intros Hi Hseen Hp Ha Hd Hnc (j & q & Hj & Hq & Hqa & Hqd)%verdict_move_source.
destruct (decide (pid q = pid p)) as [Heq | Hne].
- apply Hi. by rewrite <- (NoDup_pids_index _ _ _ _ _ Hnd Hq Hp Heq).
- apply Hnc, contested_iff. exists (pid q), (pid p). split; [done|].
  rewrite !intended_of_alive; try done; by eapply list_elem_of_lookup_2.
Qed.

Lemma settled_step seen i r r' :
i ∈ alive_refs (players s) -> i ∉ seen ->
(forall j, j ∈ seen -> j ∈ alive_refs (players s)) ->
resolve_frame s r -> settled s seen r ->
resolve_step (intended_of s) (tally_of s) r i r' -> settled s (seen ++ [i]) r'.
Proof.
intros Hi Hnew Hseen Hf (Hev & Hpl & Hgrid & Hmv) Hstep.
apply elem_of_alive_refs in Hi as (p & Hp & Ha).
assert (rs_players r !! i = Some p) as Hcur.
{ rewrite Hpl, Hp. cbn. by rewrite decide_False. }
assert (intended_of s !! pid p = pendingMoves s !! pid p) as Hint.
{ apply intended_of_alive; [by eapply list_elem_of_lookup_2|done]. }
assert (forall e : option Event,
          (forall j, rs_players r' !! j
                     = if decide (j = i)
                       then Some (match e with
                                  | Some (EvMove _ _ d) => move_player d.1 d.2 p
                                  | _ => p
                                  end)
                       else rs_players r !! j) ->
          verdict s p = e ->
          forall j, rs_players r' !! j
                    = (fun p => if decide (j ∈ seen ++ [i]) then settle s p else p)
                        <$> players s !! j) as Hplayers.
{ intros e Hr' He j. rewrite Hr'. case_decide as Hj.
  - subst j. rewrite Hp. cbn. rewrite decide_True by (apply elem_of_app; right; by left).
    unfold settle. by rewrite He.
  - rewrite Hpl. destruct (players s !! j); [|done]. cbn. f_equal.
    apply decide_ext. rewrite elem_of_app, list_elem_of_singleton. tauto. }
assert (forall q, rs_players r !! i = Some q -> q = p) as Hsame by (intros q; congruence).
destruct Hstep as [Hnone | q Hq Hd | q d Hq Hd Hc | q d Hq Hd Hc Hrow Hv
                   | q d g' Hq Hd Hc Hv Hs]; try (apply Hsame in Hq as ->).
- congruence.
- (* pass *)
  rewrite Hint in Hd.
  assert (verdict s p = None) as Hver.
  { unfold verdict. rewrite decide_True, Hd by done. done. }
  split; [|split; [|split]]; try done.
  + rewrite omap_snoc, Hp. cbn. rewrite Hver. cbn. by rewrite app_nil_r.
  + apply (Hplayers None); [|done]. intros j. case_decide; [by subst|done].
- (* collision *)
  rewrite Hint in Hd.
  assert (verdict s p = Some (EvCollision d)) as Hver.
  { unfold verdict. rewrite decide_True, Hd by done. cbn. by rewrite decide_True. }
  unfold settled. cbn [rs_events rs_players rs_visited rs_moves].
  split; [|split; [|split]].
  + rewrite omap_snoc, Hp. cbn. rewrite Hver. cbn. by rewrite Hev.
  + apply (Hplayers (Some (EvCollision d))); [|done].
    intros j. case_decide; [by subst|done].
  + intros rw c. rewrite move_dests_snoc. cbn. rewrite app_nil_r. apply Hgrid.
  + rewrite omap_snoc. cbn. by rewrite app_nil_r.
- (* blocked *)
  rewrite Hint in Hd.
  assert (cell (visited s) d.1 d.2 <> Some CELL.EMPTY) as Hocc.
  { rewrite (Hgrid d.1 d.2) in Hv. rewrite decide_False in Hv; [done|].
    rewrite Hev. destruct d. by eapply destination_untouched. }
  assert (verdict s p = Some (EvBlocked (pid p) d)) as Hver.
  { unfold verdict. rewrite decide_True, Hd by done. cbn.
    by rewrite decide_False, decide_False. }
  unfold settled. cbn [rs_events rs_players rs_visited rs_moves].
  split; [|split; [|split]].
  + rewrite omap_snoc, Hp. cbn. rewrite Hver. cbn. by rewrite Hev.
  + apply (Hplayers (Some (EvBlocked (pid p) d))); [|done].
    intros j. case_decide; [by subst|done].
  + intros rw c. rewrite move_dests_snoc. cbn. rewrite app_nil_r. apply Hgrid.
  + rewrite omap_snoc. cbn. by rewrite app_nil_r.
- (* move *)
  rewrite Hint in Hd.
  assert (d ∉ move_dests (rs_events r)) as Hfree.
  { rewrite Hev. by eapply destination_untouched. }
  assert (cell (visited s) d.1 d.2 = Some CELL.EMPTY) as Hempty.
  { rewrite (Hgrid d.1 d.2) in Hv. rewrite decide_False in Hv; [done|]. by destruct d. }
  assert (verdict s p = Some (EvMove (pid p) (row p, col p) d)) as Hver.
  { unfold verdict. rewrite decide_True, Hd by done. cbn.
    by rewrite decide_False, decide_True. }
  unfold settled. cbn [rs_events rs_players rs_visited rs_moves].
  split; [|split; [|split]].
  + rewrite omap_snoc, Hp. cbn. rewrite Hver. cbn. by rewrite Hev.
  + apply (Hplayers (Some (EvMove (pid p) (row p, col p) d))); [|done].
    intros j. case_decide as Hj.
    * subst j. apply list_lookup_insert_eq. by eapply lookup_lt_Some.
    * by apply list_lookup_insert_ne.
  + intros rw c. rewrite move_dests_snoc. cbn.
    destruct (decide ((rw, c) = d)) as [<- | Hne].
    * rewrite decide_True by (apply elem_of_app; right; by left).
      by eapply grid_set_cell_eq.
    * rewrite (grid_set_cell_ne _ _ _ _ _ rw c Hs) by (by destruct d).
      rewrite Hgrid. apply decide_ext.
      rewrite elem_of_app, list_elem_of_singleton. tauto.
  + rewrite omap_snoc. cbn. by rewrite Hmv.
Qed.

Lemma verdict_dead p : status p <> ALIVE -> verdict s p = None.
Proof. intros Hn. unfold verdict. by rewrite decide_False. Qed.

Lemma verdicts_of_living :
omap (fun j => players s !! j ≫= verdict s) (alive_refs (players s))
= omap (verdict s) (players s).
Proof.
unfold alive_refs. rewrite omap_filter.
trans (omap (fun j => players s !! j ≫= verdict s) (seq 0 (length (players s))));
  [|exact (omap_indices (fun o => o ≫= verdict s) (players s) eq_refl)].
apply omap_ext_in. intros j _.
destruct (players s !! j) as [p|] eqn:Hp; cbn.
- destruct (decide (status p = ALIVE)) as [Ha | Hn].
  + by rewrite decide_True by (by f_equal).
  + rewrite decide_False by (by intros [= ?]). by rewrite verdict_dead.
- by rewrite decide_False.
Qed.

(** With pairwise distinct ids, [resolveTurn] is the simultaneous judgment
  of every living player's intent on the state the turn starts from. *)
Lemma resolveTurn_settles s' ev :
resolveTurn s = Ok (s', ev) ->
ev = omap (verdict s) (players s)
/\ players s' = settle s <$> players s
/\ (forall rw c, cell (visited s') rw c
                 = if decide ((rw, c) ∈ move_dests ev)
                   then Some CELL.BLOCKED else cell (visited s) rw c)
/\ history s' = history s ++ [mkTurnRecord (turn s) (omap move_record_of ev)].
Proof.
intros Hres.
destruct (resolveTurn_prefix (settled s) s s' ev settled_start settled_step Hres)
  as (r & Hf & (Hev & Hpl & Hgrid & Hmv) & -> & ->).
cbn [players visited history resolve_finish].
split; [by rewrite Hev, verdicts_of_living|]. split; [|split; [done|by rewrite Hmv]].
apply list_eq. intros j. rewrite Hpl, list_lookup_fmap.
destruct (players s !! j) as [p|] eqn:Hp; [|done]. cbn. f_equal.
case_decide as Hj; [done|].
unfold settle. rewrite verdict_dead; [done|].
intros Ha. apply Hj, elem_of_alive_refs. eauto.
Qed.

End Simultaneous.

(** X14.  When the ids are pairwise distinct and no intent points at a
    missing row, [resolveTurn] amounts to judging every living player's
    intent on the state the turn starts from, whatever the order of the
    players: the events are the verdicts in player order (collision for a
    contested destination, else move onto a cell that reads EMPTY, else
    blocked), the players with a move verdict are moved and the others left
    alone, the cells moved to read BLOCKED and every other cell is as
    before, and the turn record lists the moves. *)
Theorem resolveTurn_simultaneous s :
  NoDup (pid <$> players s) -> intents_safe s ->
  exists s',
    resolveTurn s = Ok (s', omap (verdict s) (players s))
    /\ players s' = settle s <$> players s
    /\ (forall rw c, cell (visited s') rw c
                     = if decide ((rw, c) ∈ move_dests (omap (verdict s) (players s)))
                       then Some CELL.BLOCKED else cell (visited s) rw c)
    /\ history s'
       = history s
         ++ [mkTurnRecord (turn s) (omap move_record_of (omap (verdict s) (players s)))].
Proof.
  intros Hnd Hsafe. destruct (resolveTurn_returns s Hsafe) as (s' & ev & Hres).
  destruct (resolveTurn_settles s Hnd s' ev Hres) as (-> & Hpl & Hgrid & Hhist).
  by exists s'.
Qed.

Lemma resolveTurn_simultaneous_witness :
  NoDup (pid <$> players state_B_contested) /\ intents_safe state_B_contested
  /\ omap (verdict state_B_contested) (players state_B_contested)
     = [EvCollision (3, 2); EvCollision (3, 2)]
  /\ exists s',
       resolveTurn state_B_contested
       = Ok (s', omap (verdict state_B_contested) (players state_B_contested))
       /\ players s' = settle state_B_contested <$> players state_B_contested
       /\ (forall rw c,
             cell (visited s') rw c
             = if decide ((rw, c) ∈ move_dests (omap (verdict state_B_contested)
                                                  (players state_B_contested)))
               then Some CELL.BLOCKED else cell (visited state_B_contested) rw c)
       /\ history s'
          = history state_B_contested
            ++ [mkTurnRecord (turn state_B_contested)
                  (omap move_record_of (omap (verdict state_B_contested)
                                          (players state_B_contested)))].
Proof.
  assert (NoDup (pid <$> players state_B_contested)) as Hnd
    by (apply (bool_decide_unpack _); vm_compute; exact I).
  assert (intents_safe state_B_contested) as Hsafe
    by (apply (bool_decide_unpack _); vm_compute; exact I).
  split; [exact Hnd|]. split; [exact Hsafe|]. split; [vm_compute; reflexivity|].
  exact (resolveTurn_simultaneous state_B_contested Hnd Hsafe).
Defined.

(** With distinct ids, a destination is contested exactly when two or more
    living players ask for it. *)
Lemma contested_colliders s d :
  NoDup (pid <$> players s) ->
  contested (tally_of s) d <-> (2 <= length (colliders s d))%nat.
Proof.
  intros Hnd. split; [|by apply colliders_contested].
  intros (k1 & k2 & Hne & H1 & H2)%contested_iff.
  unfold intended_of in H1, H2.
  apply intended_Some in H1 as (Hp1 & p1 & Hin1 & Ha1 & <-).
  apply intended_Some in H2 as (Hp2 & p2 & Hin2 & Ha2 & <-).
  apply (two_elements _ p1 p2); [| |congruence];
    unfold colliders; by apply list_elem_of_filter.
Qed.

Lemma legal_intents_safe s : legal_intents s -> intents_safe s.
Proof.
  unfold legal_intents, intents_safe. intros Hall.
  eapply Forall_impl; [exact Hall|].
  intros p Hlegal Ha d Hd. left.
  apply (Hlegal Ha d) in Hd. apply legal_dests_spec in Hd as (_ & _ & Hcell).
  apply cell_Some in Hcell as (rw & Hrw & _). eauto.
Qed.

(** X15.  When the ids are pairwise distinct and every pending intent of a
    living player is one of its legal moves, [resolveTurn] returns and
    blocks nobody: a player whose destination no other living player asks
    for is moved there, a player whose destination is asked for by two or
    more stays where it is. *)
Theorem resolveTurn_legal_intents s :
  NoDup (pid <$> players s) -> legal_intents s ->
  exists s' ev,
    resolveTurn s = Ok (s', ev)
    /\ Forall (fun e => is_blocked e = false) ev
    /\ forall i p d,
         players s !! i = Some p -> status p = ALIVE ->
         pendingMoves s !! pid p = Some d ->
         players s' !! i
         = Some (if decide (2 <= length (colliders s d))%nat then p
                 else move_player d.1 d.2 p).
Proof.
  intros Hnd Hlegal.
  destruct (resolveTurn_returns s (legal_intents_safe s Hlegal)) as (s' & ev & Hres).
  destruct (resolveTurn_settles s Hnd s' ev Hres) as (-> & Hpl & _ & _).
  exists s', (omap (verdict s) (players s)). split; [done|].
  assert (forall p d, p ∈ players s -> status p = ALIVE ->
            pendingMoves s !! pid p = Some d ->
            verdict s p = Some (if decide (2 <= length (colliders s d))%nat
                                then EvCollision d
                                else EvMove (pid p) (row p, col p) d)) as Hver.
  { intros p d Hin Ha Hd. unfold verdict. rewrite decide_True, Hd by done. cbn. f_equal.
    unfold legal_intents in Hlegal. rewrite Forall_forall in Hlegal.
    pose proof (Hlegal p Hin Ha d Hd) as (_ & _ & Hcell)%legal_dests_spec.
    rewrite (decide_True _ _ Hcell).
    apply decide_ext. by apply contested_colliders. }
  split.
  - apply Forall_forall. intros e (p & Hp & He)%list_elem_of_omap.
    destruct (decide (status p = ALIVE)) as [Ha | Hn];
      [|by rewrite verdict_dead in He].
    destruct (pendingMoves s !! pid p) as [d|] eqn:Hd.
    + rewrite (Hver p d Hp Ha Hd) in He. injection He as <-. by case_decide.
    + unfold verdict in He. by rewrite decide_True, Hd in He.
  - intros i p d Hp Ha Hd. rewrite Hpl, list_lookup_fmap, Hp. cbn. f_equal.
    unfold settle. rewrite (Hver p d); [|by eapply list_elem_of_lookup_2|done|done].
    by case_decide.
Qed.

Lemma resolveTurn_legal_intents_witness :
  NoDup (pid <$> players state_B_apart) /\ legal_intents state_B_apart
  /\ exists s' ev,
       resolveTurn state_B_apart = Ok (s', ev)
       /\ Forall (fun e => is_blocked e = false) ev
       /\ forall i p d,
            players state_B_apart !! i = Some p -> status p = ALIVE ->
            pendingMoves state_B_apart !! pid p = Some d ->
            players s' !! i
            = Some (if decide (2 <= length (colliders state_B_apart d))%nat then p
                    else move_player d.1 d.2 p).
Proof.
  assert (NoDup (pid <$> players state_B_apart)) as Hnd
    by (apply (bool_decide_unpack _); vm_compute; exact I).
  assert (legal_intents state_B_apart) as Hlegal
    by (apply (bool_decide_unpack _); vm_compute; exact I).
  split; [exact Hnd|]. split; [exact Hlegal|].
  exact (resolveTurn_legal_intents state_B_apart Hnd Hlegal).
Defined.

(* ===================================================================== *)
(** * The cell decides, not the knight's move                              *)
(* ===================================================================== *)

(** C1 (as amended).  In a state whose intents cannot send the grid read to
    a missing row, [resolveTurn] returns, and what it does with the pending
    intent of a living player depends on the destination cell alone.  If
    the cell does not read EMPTY (already marked, or outside the grid) the
    intent is dropped: the player object is unchanged (row, col and score
    included) and no move event names the player.  If the cell reads EMPTY,
    the ids are pairwise distinct and no other living player intends the
    cell, the intent is executed, whether or not the cell is a knight
    offset away: the player stands on the cell with one more point and a
    move event from its old cell is emitted. *)
Theorem resolveTurn_judges_cell_only s i p d :
  intents_safe s ->
  players s !! i = Some p -> status p = ALIVE ->
  pendingMoves s !! pid p = Some d ->
  exists s' ev, resolveTurn s = Ok (s', ev)
    /\ (cell (visited s) d.1 d.2 <> Some CELL.EMPTY ->
        players s' !! i = Some p /\ count_moves (pid p) ev = 0%nat)
    /\ (NoDup (pid <$> players s) ->
        cell (visited s) d.1 d.2 = Some CELL.EMPTY ->
        colliders s d = [p] ->
        (fun p' => (row p', col p', score p')) <$> players s' !! i
        = Some (d.1, d.2, score p + 1)
        /\ EvMove (pid p) (row p, col p) d ∈ ev).
Proof.
  intros Hsafe Hp Halive Hd.
  destruct (resolveTurn_returns s Hsafe) as (s' & ev & Hres).
  exists s', ev. split; [done|]. split.
  - intros Hocc. by eapply occupied_intent_dropped.
  - intros Hnd Hempty Halone.
    destruct (resolveTurn_settles s Hnd s' ev Hres) as (-> & Hpl & _ & _).
    assert (verdict s p = Some (EvMove (pid p) (row p, col p) d)) as Hver.
    { unfold verdict. rewrite decide_True, Hd by done. cbn. f_equal.
      rewrite decide_False, decide_True; [done..|].
      rewrite (contested_colliders s d Hnd), Halone. cbn. lia. }
    split.
    + rewrite Hpl, list_lookup_fmap, Hp. cbn [fmap option_fmap option_map].
      unfold settle. by rewrite Hver.
    + apply list_elem_of_omap. exists p. split; [|done].
      by eapply list_elem_of_lookup_2.
Qed.

(** Witness: in scenario A player 0 asks for the start cell of player 1. *)
Lemma resolveTurn_judges_cell_only_witness :
  let s := submitMove state_A 0 6 6 in
  intents_safe s
  /\ players s !! 0%nat = Some player_A0 /\ status player_A0 = ALIVE
  /\ pendingMoves s !! pid player_A0 = Some (6, 6)
  /\ exists s' ev, resolveTurn s = Ok (s', ev)
       /\ (cell (visited s) 6 6 <> Some CELL.EMPTY ->
           players s' !! 0%nat = Some player_A0
           /\ count_moves (pid player_A0) ev = 0%nat)
       /\ (NoDup (pid <$> players s) ->
           cell (visited s) 6 6 = Some CELL.EMPTY ->
           colliders s (6, 6) = [player_A0] ->
           (fun p' => (row p', col p', score p')) <$> players s' !! 0%nat
           = Some (6, 6, score player_A0 + 1)
           /\ EvMove (pid player_A0) (row player_A0, col player_A0) (6, 6) ∈ ev).
Proof.
  intros s.
  assert (intents_safe s) as Hsafe by (apply (bool_decide_unpack _); vm_compute; exact I).
  split; [exact Hsafe|]. split; [reflexivity|]. split; [reflexivity|].
  split; [reflexivity|].
  exact (resolveTurn_judges_cell_only s 0 player_A0 (6, 6)
           Hsafe eq_refl eq_refl eq_refl).
Defined.

(* ===================================================================== *)
(** * Passes, event counts and bookkeeping                                 *)
(* ===================================================================== *)

Lemma ofoldl_fixed {A B} (f : A -> B -> outcome A) a l :
  (forall b, b ∈ l -> f a b = Ok a) -> ofoldl f a l = Ok a.
Proof.
  induction l as [|b l IH]; intros Hf; cbn [ofoldl]; [done|].
  rewrite Hf by left. rewrite obind_Ok. apply IH. intros ??. apply Hf. by right.
Qed.

(** A turn without intents. *)
Lemma resolveTurn_passes s :
  (forall p, p ∈ players s -> status p = ALIVE -> pendingMoves s !! pid p = None) ->
  exists s',
    resolveTurn s = Ok (s', [])
    /\ players s' = players s /\ visited s' = visited s
    /\ history s' = history s ++ [mkTurnRecord (turn s) []]
    /\ turn s' = turn s + 1 /\ phase s' = EVAL /\ pendingMoves s' = ∅.
Proof.
  intros Hpass. exists (resolve_finish s (resolve_start s)).
  split; [|done]. rewrite resolveTurn_loop.
  rewrite ofoldl_fixed; [done|].
  intros i (p & Hp & Ha)%elem_of_alive_refs.
  unfold resolve_player. cbn [resolve_start rs_players]. rewrite Hp.
  apply list_elem_of_lookup_2 in Hp.
  by rewrite intended_of_alive, (Hpass p Hp Ha).
Qed.

(** X16.  When no living player has a pending intent, [resolveTurn] is a
    round of passes: no event, every player and every cell as before, an
    empty turn record appended, the turn counter advanced and the phase set
    to EVALUATE.  The intents pending for other ids are cleared unread. *)
Theorem resolveTurn_all_pass s :
  (forall p, p ∈ players s -> status p = ALIVE -> pendingMoves s !! pid p = None) ->
  exists s',
    resolveTurn s = Ok (s', [])
    /\ players s' = players s /\ visited s' = visited s
    /\ history s' = history s ++ [mkTurnRecord (turn s) []]
    /\ turn s' = turn s + 1 /\ phase s' = EVAL /\ pendingMoves s' = ∅.
Proof. exact (resolveTurn_passes s). Qed.

Lemma resolveTurn_all_pass_witness :
  (forall p, p ∈ players state_A_eliminated -> status p = ALIVE ->
             pendingMoves (submitMove state_A_eliminated 1 4 5) !! pid p = None)
  /\ exists s',
       resolveTurn (submitMove state_A_eliminated 1 4 5) = Ok (s', [])
       /\ players s' = players state_A_eliminated
       /\ visited s' = visited state_A_eliminated
       /\ history s' = history state_A_eliminated ++ [mkTurnRecord 0 []]
       /\ turn s' = 1 /\ phase s' = EVAL /\ pendingMoves s' = ∅.
Proof.
  assert (forall p, p ∈ players (submitMove state_A_eliminated 1 4 5) ->
            status p = ALIVE ->
            pendingMoves (submitMove state_A_eliminated 1 4 5) !! pid p = None) as Hpass.
  { intros p Hp Ha. cbn in Hp.
    apply elem_of_cons in Hp as [-> | Hp]; [done|].
    apply list_elem_of_singleton in Hp as ->. done. }
  split; [exact Hpass|].
  exact (resolveTurn_all_pass (submitMove state_A_eliminated 1 4 5) Hpass).
Defined.

(** The weight of a reference in the count of events. *)
Lemma event_weight s r i r' :
  i ∈ alive_refs (players s) -> resolve_frame s r ->
  resolve_step (intended_of s) (tally_of s) r i r' ->
  length (rs_events r')
  = (length (rs_events r)
     + match players s !! i with
       | Some p => if decide (is_Some (pendingMoves s !! pid p)) then 1 else 0
       | None => 0
       end)%nat.
Proof.
  intros Hi Hf Hstep.
  assert (forall p', rs_players r !! i = Some p' ->
            exists p, players s !! i = Some p
                      /\ intended_of s !! pid p' = pendingMoves s !! pid p) as Hsame.
  { intros p' Hp'. destruct (alive_ref_player _ _ _ _ Hf Hi Hp') as (p & Hp & Ha & Hpid & _).
    exists p. split; [done|]. rewrite Hpid.
    apply intended_of_alive; [by eapply list_elem_of_lookup_2|done]. }
  destruct Hstep as [Hnone | p' Hp' Hd' | p' d' Hp' Hd' Hc | p' d' Hp' Hd' Hc Hrow Hv
                     | p' d' g' Hp' Hd' Hc Hv Hs]; cbn [rs_events].
  - apply elem_of_alive_refs in Hi as (p & Hp & _).
    destruct Hf as (Hro & _). apply roster_length in Hro.
    apply lookup_lt_Some in Hp. apply lookup_ge_None in Hnone. lia.
  - destruct (Hsame _ Hp') as (p & -> & Hpend). rewrite <- Hpend, Hd'.
    rewrite decide_False by (by intros [? ?]). lia.
  - destruct (Hsame _ Hp') as (p & -> & Hpend). rewrite <- Hpend, Hd'.
    rewrite decide_True by eauto. rewrite length_app. cbn. lia.
  - destruct (Hsame _ Hp') as (p & -> & Hpend). rewrite <- Hpend, Hd'.
    rewrite decide_True by eauto. rewrite length_app. cbn. lia.
  - destruct (Hsame _ Hp') as (p & -> & Hpend). rewrite <- Hpend, Hd'.
    rewrite decide_True by eauto. rewrite length_app. cbn. lia.
Qed.

(** As many events as living players with a pending intent. *)
Lemma resolveTurn_event_count s s' ev :
  resolveTurn s = Ok (s', ev) ->
  length ev
  = length (filter (fun p => status p = ALIVE ∧ is_Some (pendingMoves s !! pid p))
                   (players s)).
Proof.
  intros Hres.
  destruct (resolveTurn_count (fun r => length (rs_events r))
              (fun i => match players s !! i with
                        | Some p => if decide (is_Some (pendingMoves s !! pid p))
                                    then 1 else 0
                        | None => 0
                        end)%nat s s' ev) as (r & _ & -> & ->); [|done|].
  { intros r i r' Hi Hf Hstep. by apply event_weight. }
  cbn [resolve_start rs_events length]. rewrite Nat.add_0_l.
  unfold alive_refs. rewrite sum_list_with_filter, length_filter_sum.
  rewrite <- (sum_list_with_indices
                (fun o => match o with
                          | Some p => if decide (status p = ALIVE
                                                 ∧ is_Some (pendingMoves s !! pid p))
                                      then 1 else 0
                          | None => 0
                          end)%nat).
  apply sum_list_with_ext_in. intros i _.
  destruct (players s !! i) as [p|] eqn:Hp; cbn.
  - destruct (decide (status p = ALIVE)) as [Ha | Hn].
    + rewrite decide_True by (by f_equal). apply decide_ext. tauto.
    + rewrite decide_False by (intros [= ?]; done).
      rewrite decide_False; [done|]. tauto.
  - by rewrite decide_False.
Qed.

Lemma answered_step s seen i r r' :
  i ∈ alive_refs (players s) -> i ∉ seen ->
  (forall j, j ∈ seen -> j ∈ alive_refs (players s)) ->
  resolve_frame s r -> answered s seen r ->
  resolve_step (intended_of s) (tally_of s) r i r' -> answered s (seen ++ [i]) r'.
Proof.
  intros Hi Hnew _ Hf [Hev Hrest] Hstep.
  pose proof Hi as (p & Hp & Ha)%elem_of_alive_refs.
  assert (rs_players r !! i = Some p) as Hri by (by rewrite Hrest).
  assert (intended_of s !! pid p = pendingMoves s !! pid p) as Hint.
  { apply intended_of_alive; [by eapply list_elem_of_lookup_2|done]. }
  assert (forall j, j ∉ seen ++ [i] -> rs_players r' !! j = players s !! j) as Hrest'.
  { intros j Hj. rewrite <- Hrest by (intros ?; apply Hj, elem_of_app; by left).
    eapply resolve_step_other; [done|].
    intros ->. apply Hj, elem_of_app. right. by left. }
  split; [|done].
  rewrite omap_snoc, Hp. cbn [mbind option_bind]. unfold asking.
  destruct Hstep as [Hnone | p' Hp' Hd' | p' d' Hp' Hd' Hc | p' d' Hp' Hd' Hc Hrow Hv
                     | p' d' g' Hp' Hd' Hc Hv Hs]; cbn [rs_events];
    try (assert (p' = p) as -> by congruence).
  - congruence.
  - rewrite Hint in Hd'. rewrite Hd', decide_False by (by intros [? ?]).
    cbn. by rewrite app_nil_r.
  - rewrite Hint in Hd'. rewrite Hd', decide_True by eauto. cbn.
    apply Forall2_app; [done|]. constructor; [|constructor]. exists d'. auto.
  - rewrite Hint in Hd'. rewrite Hd', decide_True by eauto. cbn.
    apply Forall2_app; [done|]. constructor; [|constructor]. exists d'. auto.
  - rewrite Hint in Hd'. rewrite Hd', decide_True by eauto. cbn.
    apply Forall2_app; [done|]. constructor; [|constructor]. exists d'. auto.
Qed.

Lemma asking_of_living s :
  omap (fun j => players s !! j ≫= asking s) (alive_refs (players s))
  = filter (fun p => status p = ALIVE ∧ is_Some (pendingMoves s !! pid p)) (players s).
Proof.
  unfold alive_refs. rewrite omap_filter.
  trans (omap (fun j => (fun o => o ≫= fun p =>
                           if decide (status p = ALIVE
                                      ∧ is_Some (pendingMoves s !! pid p))
                           then Some p else None) (players s !! j))
              (seq 0 (length (players s)))).
  { apply omap_ext_in. intros j _.
    destruct (players s !! j) as [p|] eqn:Hp; cbn; unfold asking.
    - destruct (decide (status p = ALIVE)) as [Ha | Hn].
      + rewrite decide_True by (by f_equal). apply decide_ext. tauto.
      + rewrite decide_False by (intros [= ?]; done).
        rewrite decide_False; [done|]. tauto.
    - by rewrite decide_False. }
  rewrite (omap_indices (fun o => o ≫= fun p =>
                           if decide (status p = ALIVE
                                      ∧ is_Some (pendingMoves s !! pid p))
                           then Some p else None) (players s) eq_refl).
  cbn [mbind option_bind].
  rewrite (omap_fmap_filter (fun p => p)). apply list_fmap_id.
Qed.

(** X17.  [resolveTurn] emits exactly one event for every living player
    that has a pending intent, and no other event: the events answer, one
    for one and in the order of the players, the intents of the living
    players that have one, each event being a move of that player from its
    cell to its destination, a collision at its destination, or a blocked
    event in its name for its destination. *)
Theorem resolveTurn_one_event_each s s' ev :
  resolveTurn s = Ok (s', ev) ->
  length ev
  = length (filter (fun p => status p = ALIVE ∧ is_Some (pendingMoves s !! pid p))
                   (players s))
  /\ Forall2 (answers s)
             (filter (fun p => status p = ALIVE ∧ is_Some (pendingMoves s !! pid p))
                     (players s))
             ev.
Proof.
  intros Hres. split; [by eapply resolveTurn_event_count|].
  destruct (resolveTurn_prefix (answered s) s s' ev) as (r & _ & [Hev _] & _ & ->);
    [|apply answered_step|done|].
  - split; [by apply Forall2_nil|done].
  - by rewrite <- asking_of_living.
Qed.

Lemma resolveTurn_contested_B :
  resolveTurn state_B_contested
  = Ok (set_phase EVAL
          (mkState 8 42 3 SELECT [player_A0; player_B1] grid_B [] ∅
                   (mkRuleset 0 0 false false) 42
                   (history state_B ++ [mkTurnRecord 2 []])),
        [EvCollision (3, 2); EvCollision (3, 2)]).
Proof. vm_compute. reflexivity. Qed.

Lemma resolveTurn_one_event_each_witness :
  resolveTurn state_B_contested
  = Ok (set_phase EVAL
          (mkState 8 42 3 SELECT [player_A0; player_B1] grid_B [] ∅
                   (mkRuleset 0 0 false false) 42
                   (history state_B ++ [mkTurnRecord 2 []])),
        [EvCollision (3, 2); EvCollision (3, 2)])
  /\ length [EvCollision (3, 2); EvCollision (3, 2)]
     = length (filter (fun p => status p = ALIVE
                                ∧ is_Some (pendingMoves state_B_contested !! pid p))
                      (players state_B_contested))
  /\ Forall2 (answers state_B_contested)
             (filter (fun p => status p = ALIVE
                               ∧ is_Some (pendingMoves state_B_contested !! pid p))
                     (players state_B_contested))
             [EvCollision (3, 2); EvCollision (3, 2)].
Proof.
  split; [exact resolveTurn_contested_B|].
  exact (resolveTurn_one_event_each state_B_contested _ _ resolveTurn_contested_B).
Defined.

Lemma badge_insert (ps : list PlayerState) (i : nat) p p' :
  ps !! i = Some p -> badge p' = badge p ->
  badge <$> <[i := p']> ps = badge <$> ps.
Proof.
  intros Hp Hb. rewrite list_fmap_insert, Hb.
  apply list_insert_id. by rewrite list_lookup_fmap, Hp.
Qed.

(** The ledger of a turn. *)
Lemma resolveTurn_ledger s s' ev :
  resolveTurn s = Ok (s', ev) ->
  turn s' = turn s + 1 /\ phase s' = EVAL /\ pendingMoves s' = ∅
  /\ (boardSize s', seed s', obstacles s', ruleset s', rng s')
     = (boardSize s, seed s, obstacles s, ruleset s, rng s)
  /\ history s' = history s ++ [mkTurnRecord (turn s) (omap move_record_of ev)]
  /\ badge <$> players s' = badge <$> players s
  /\ status <$> players s' = status <$> players s.
Proof.
  intros Hres.
  destruct (resolveTurn_invariant
              (fun r => rs_moves r = omap move_record_of (rs_events r)
                        /\ badge <$> rs_players r = badge <$> players s) s s' ev)
    as (r & (Hro & _) & [Hmv Hbadge] & -> & ->); [done| |done|].
  - intros r i r' _ _ [Hmv Hbadge] Hstep.
    destruct Hstep as [| | p d Hp Hd Hc | p d Hp Hd Hc Hrow Hv | p d g' Hp Hd Hc Hv Hs];
      cbn [rs_events rs_players rs_moves]; try done.
    + split; [|done]. rewrite omap_snoc. cbn. by rewrite app_nil_r.
    + split; [|done]. rewrite omap_snoc. cbn. by rewrite app_nil_r.
    + split; [rewrite omap_snoc; cbn; by rewrite Hmv|].
      by rewrite (badge_insert _ _ p).
  - cbn. rewrite Hmv. repeat split; try done.
    unfold roster in Hro.
    apply (f_equal (fmap snd)) in Hro. by rewrite <- !list_fmap_compose in Hro.
Qed.

(** X18.  The bookkeeping of [resolveTurn]: the turn counter goes up by
    one, the phase becomes EVALUATE, all pending intents are cleared, one
    turn record is appended whose moves are the move events in order, and
    board size, seed, obstacles, ruleset and generator are untouched; no
    player changes id, kind, palette, strategy or status, so nobody is
    eliminated here. *)
Theorem resolveTurn_bookkeeping s s' ev :
  resolveTurn s = Ok (s', ev) ->
  turn s' = turn s + 1 /\ phase s' = EVAL /\ pendingMoves s' = ∅
  /\ (boardSize s', seed s', obstacles s', ruleset s', rng s')
     = (boardSize s, seed s, obstacles s, ruleset s, rng s)
  /\ history s' = history s ++ [mkTurnRecord (turn s) (omap move_record_of ev)]
  /\ badge <$> players s' = badge <$> players s
  /\ status <$> players s' = status <$> players s.
Proof. exact (resolveTurn_ledger s s' ev). Qed.

Lemma resolveTurn_bookkeeping_witness :
  let s := submitMove state_A 1 4 5 in
  let s' := set_phase EVAL
              (mkState 8 42 1 SELECT [player_A0; move_player 4 5 player_A1]
                       (<[4%nat := [0; 0; 0; 0; 0; 1; 0; 0]]> grid_A) [] ∅
                       (mkRuleset 0 0 false false) 42
                       [mkTurnRecord 0 [mkMoveRecord 1 (6, 6) (4, 5)]]) in
  let ev := [EvMove 1 (6, 6) (4, 5)] in
  resolveTurn s = Ok (s', ev)
  /\ turn s' = turn s + 1 /\ phase s' = EVAL /\ pendingMoves s' = ∅
  /\ (boardSize s', seed s', obstacles s', ruleset s', rng s')
     = (boardSize s, seed s, obstacles s, ruleset s, rng s)
  /\ history s' = history s ++ [mkTurnRecord (turn s) (omap move_record_of ev)]
  /\ badge <$> players s' = badge <$> players s
  /\ status <$> players s' = status <$> players s.
Proof.
  intros s s' ev.
  assert (resolveTurn s = Ok (s', ev)) as Hres by (vm_compute; reflexivity).
  split; [exact Hres|]. exact (resolveTurn_bookkeeping s s' ev Hres).
Defined.

(* ===================================================================== *)
(** * What a returning evaluation has done                                 *)
(* ===================================================================== *)

Lemma legal_step_Ok r c size g moves off moves' :
  legal_step r c size g moves off = Ok moves' ->
  moves' = if decide (inBounds (r + off.1) (c + off.2) size = true
                      ∧ cell g (r + off.1) (c + off.2) = Some CELL.EMPTY)
           then moves ++ [(r + off.1, c + off.2)] else moves.
Proof.
  unfold legal_step. destruct (inBounds _ _ _) eqn:Hb.
  - destruct (grid_get g _ _) as [v| |] eqn:Hget; [|done|done].
    apply grid_get_Ok in Hget as [_ ->]. rewrite obind_Ok.
    case_decide as Hv; intros [= <-].
    + by rewrite decide_True.
    + rewrite decide_False; [done|]. tauto.
  - intros [= <-]. rewrite decide_False; [done|]. by intros [? _].
Qed.

Lemma legal_fold_Ok r c size g offs : forall acc moves,
  ofoldl (legal_step r c size g) acc offs = Ok moves ->
  moves = acc ++ filter (fun d => inBounds d.1 d.2 size = true
                                  ∧ cell g d.1 d.2 = Some CELL.EMPTY)
                        ((fun o => (r + o.1, c + o.2)) <$> offs).
Proof.
  induction offs as [|o offs IH]; intros acc moves H; cbn [ofoldl] in H.
  - injection H as <-. by rewrite app_nil_r.
  - destruct (legal_step r c size g acc o) as [acc'| |] eqn:Hs; [|done|done].
    rewrite obind_Ok in H. apply IH in H as ->. apply legal_step_Ok in Hs as ->.
    rewrite fmap_cons, filter_cons. cbn [fst snd].
    case_decide; [by rewrite <- app_assoc|done].
Qed.

(** Whenever [getLegalMoves] returns, it returns the legal destinations. *)
Lemma getLegalMoves_Ok r c size g moves :
  getLegalMoves r c size g = Ok moves -> moves = legal_dests r c size g.
Proof. unfold getLegalMoves. by intros ->%legal_fold_Ok. Qed.

Lemma ofoldl_pure_Ok {A B} (f : A -> B -> outcome A) (g : A -> B -> A) l :
  (forall a b a', f a b = Ok a' -> a' = g a b) ->
  forall a a', ofoldl f a l = Ok a' -> a' = foldl g a l.
Proof.
  intros Hfg. induction l as [|b l IH]; intros a a' H; cbn [ofoldl foldl] in *.
  - by injection H.
  - destruct (f a b) as [a1| |] eqn:Hf; [|done|done].
    rewrite obind_Ok in H. apply Hfg in Hf as ->. by apply IH.
Qed.

Lemma eliminate_player_Ok size g acc i acc' :
  eliminate_player size g acc i = Ok acc' -> acc' = visit (elim_rule size g) acc i.
Proof.
  unfold eliminate_player, visit, elim_rule.
  destruct (acc.1 !! i) as [p|]; [|by intros [= <-]].
  destruct (getLegalMoves _ _ _ _) as [moves| |] eqn:Hget; [|done|done].
  apply getLegalMoves_Ok in Hget as ->. rewrite obind_Ok.
  generalize (legal_dests (row p) (col p) size g).
  intros [|m ms]; [by intros [= <-]|].
  rewrite decide_False by done. rewrite decide_False by done. by intros [= <-].
Qed.

Lemma elimination_visits s :
  foldl (visit (elim_rule (boardSize s) (visited s))) (players s, [])
        (alive_refs (players s))
  = (eliminate s <$> players s, elimination_events s).
Proof.
  rewrite foldl_visit_alive. f_equal.
  - apply list_fmap_ext. intros _ p _. unfold eliminate, stuck, touched, elim_rule.
    repeat case_decide; try done; tauto.
  - rewrite app_nil_l. unfold elimination_events. rewrite <- omap_fmap_filter.
    apply omap_ext_in. intros p _. unfold stuck, emitted, elim_rule.
    repeat case_decide; try done; tauto.
Qed.

(** Once the elimination loop has returned, the rest of [evaluateState]
    cannot fail and follows the rules. *)
Lemma evaluate_after_elimination s :
  ofoldl (eliminate_player (boardSize s) (visited s)) (players s, [])
         (alive_refs (players s))
  = Ok (eliminate s <$> players s, elimination_events s) ->
  evaluateState s = Ok (evaluate_spec s).
Proof.
  intros Hloop. unfold evaluateState, evaluate_spec.
  rewrite cloneState_id, Hloop, obind_Ok.
  set (ps1 := eliminate s <$> players s).
  set (ev1 := elimination_events s).
  rewrite <- (alive_refs_length ps1).
  pose proof (foldl_visit_alive win_rule ps1 ev1) as Hwin.
  destruct (alive_refs ps1) as [|i [|j rest]]; cbn [length].
  - rewrite decide_True, decide_False, decide_True by lia.
    rewrite (foldl_ext _ (visit (crown_rule (max_score ps1))))
      by (intros; apply crown_player_visit).
    rewrite foldl_visit_all. unfold crown, winner_events.
    rewrite <- omap_fmap_filter.
    assert (forall p, p ∈ ps1 ->
              crown_rule (max_score ps1) p
              = if decide (top_scorer ps1 p) then win_rule p else None) as Hrule.
    { intros p Hp. unfold crown_rule. apply decide_ext. by apply max_score_top. }
    f_equal. f_equal; [do 2 f_equal|f_equal].
    + apply list_fmap_ext. intros k p Hp%list_elem_of_lookup_2.
      unfold touched. rewrite Hrule by done. by case_decide.
    + apply omap_ext_in. intros p Hp. unfold emitted. rewrite Hrule by done.
      by case_decide.
  - rewrite decide_True, decide_True by lia. cbn [foldl] in Hwin.
    unfold visit, win_rule in Hwin. cbn [fst snd] in Hwin.
    unfold crown, winner_events. rewrite <- omap_fmap_filter.
    destruct (ps1 !! i) as [p|]; cbv beta iota zeta.
    + injection Hwin as H1 H2. rewrite H1, H2. reflexivity.
    + injection Hwin as H1 H2. rewrite H1 at 1. rewrite H2 at 1. reflexivity.
  - rewrite decide_False, decide_False, decide_False by lia. done.
Qed.

(** Whenever [evaluateState] returns, it has followed the rules. *)
Lemma evaluateState_Ok s res :
  evaluateState s = Ok res -> res = evaluate_spec s.
Proof.
  intros Hres.
  assert (evaluateState s = Ok (evaluate_spec s)) as Hspec; [|congruence].
  apply evaluate_after_elimination.
  unfold evaluateState in Hres. rewrite cloneState_id in Hres.
  destruct (ofoldl _ _ _) as [acc| |] eqn:Hloop; [|done|done].
  f_equal. rewrite <- elimination_visits. revert Hloop.
  apply ofoldl_pure_Ok. intros a b a'. apply eliminate_player_Ok.
Qed.

(* ===================================================================== *)
(** * The two ways an evaluation can end                                   *)
(* ===================================================================== *)

Lemma eliminate_alive s p :
  status (eliminate s p) = ALIVE ->
  eliminate s p = p /\ status p = ALIVE
  /\ legal_dests (row p) (col p) (boardSize s) (visited s) <> [].
Proof.
  unfold eliminate. case_decide as Hstuck; [done|].
  intros Ha. split; [done|]. split; [done|]. intros Hnil. by apply Hstuck.
Qed.

Lemma eliminate_pid s p : pid (eliminate s p) = pid p.
Proof. unfold eliminate. by case_decide. Qed.

Lemma crown_status (W : PlayerState -> Prop) `{!forall p, Decision (W p)} ps p' :
  p' ∈ crown W ps ->
  exists p, p ∈ ps /\ pid p' = pid p
            /\ status p' = if decide (W p) then WINNER else status p.
Proof.
  unfold crown. intros (p & -> & Hp)%list_elem_of_fmap.
  exists p. split; [done|]. by case_decide.
Qed.

(** X19.  When [evaluateState] ends in phase SELECT, the game can go on:
    at least two players are alive, every living player has a legal move
    on the grid as it stands, and the only events are eliminations. *)
Theorem evaluateState_continues s s' ev :
  evaluateState s = Ok (s', ev) -> phase s' = SELECT ->
  (2 <= length (filter (fun p => status p = ALIVE) (players s')))%nat
  /\ Forall (fun p => status p = ALIVE ->
               legal_dests (row p) (col p) (boardSize s') (visited s') <> [])
            (players s')
  /\ Forall (fun e => exists k sc, e = EvElimination k sc) ev.
Proof.
  intros Hres%evaluateState_Ok Hph. unfold evaluate_spec in Hres.
  repeat case_decide; injection Hres as -> ->; cbn in Hph; try done.
  cbn [players set_phase set_players boardSize visited]. split; [lia|]. split.
  - apply Forall_forall. intros p' (p & -> & Hp)%list_elem_of_fmap Ha.
    by apply eliminate_alive in Ha as (-> & _ & Hmoves).
  - apply Forall_forall. unfold elimination_events.
    intros e (p & -> & _)%list_elem_of_fmap. eauto.
Qed.

Lemma evaluateState_continues_witness :
  evaluateState state_A_moved = Ok (set_phase SELECT state_A_moved, [])
  /\ phase (set_phase SELECT state_A_moved) = SELECT
  /\ (2 <= length (filter (fun p => status p = ALIVE)
                          (players (set_phase SELECT state_A_moved))))%nat
  /\ Forall (fun p => status p = ALIVE ->
               legal_dests (row p) (col p)
                 (boardSize (set_phase SELECT state_A_moved))
                 (visited (set_phase SELECT state_A_moved)) <> [])
            (players (set_phase SELECT state_A_moved))
  /\ Forall (fun e => exists k sc, e = EvElimination k sc) (@nil Event).
Proof.
  assert (evaluateState state_A_moved = Ok (set_phase SELECT state_A_moved, []))
    as Hres by (vm_compute; reflexivity).
  split; [exact Hres|]. split; [reflexivity|].
  exact (evaluateState_continues state_A_moved _ _ Hres eq_refl).
Defined.

(** In a non-empty list some player has the top score. *)
Lemma top_scorer_exists ps : ps <> [] -> exists p, p ∈ ps /\ top_scorer ps p.
Proof.
  intros Hne. destruct (max_score ps) as [m|] eqn:Hm.
  - apply max_score_Some in Hm as [Hall (q & Hq & <-)]. by exists q.
  - destruct ps as [|q ps] using rev_ind; [done|]. by rewrite max_score_snoc in Hm.
Qed.

(** X20.  When [evaluateState] ends in phase GAMEOVER, nobody is left
    alive, at least one player is a WINNER (if there are players at all),
    and every winner event names a player that is now a WINNER. *)
Theorem evaluateState_game_over s s' ev :
  evaluateState s = Ok (s', ev) -> phase s' = GAMEOVER ->
  Forall (fun p => status p <> ALIVE) (players s')
  /\ (players s <> [] -> Exists (fun p => status p = WINNER) (players s'))
  /\ (forall k, EvWinner k ∈ ev ->
        exists p, p ∈ players s' /\ pid p = k /\ status p = WINNER).
Proof.
  intros Hres%evaluateState_Ok Hph. unfold evaluate_spec in Hres.
  set (ps1 := eliminate s <$> players s) in *.
  assert (forall (W : PlayerState -> Prop) `{!forall p, Decision (W p)} k,
            EvWinner k ∈ elimination_events s ++ winner_events W ps1 ->
            exists p, p ∈ crown W ps1 /\ pid p = k /\ status p = WINNER) as Hwin.
  { intros W ? k [Hel | Hw]%elem_of_app.
    - unfold elimination_events in Hel. by apply list_elem_of_fmap in Hel as (? & ? & _).
    - unfold winner_events in Hw.
      apply list_elem_of_fmap in Hw as (p & [= ->] & [HW Hp]%list_elem_of_filter).
      exists (set_status WINNER p). split; [|done].
      unfold crown. apply list_elem_of_fmap. exists p. by rewrite decide_True. }
  destruct (decide (length (filter (fun p => status p = ALIVE) ps1) = 1%nat))
    as [Hone | Hnone].
  - injection Hres as -> ->. cbn [players set_phase set_players].
    split; [|split; [|apply Hwin]].
    + apply Forall_forall. intros p' (p & _ & _ & Hst)%crown_status.
      rewrite Hst. by case_decide.
    + intros _. destruct (filter _ ps1) as [|p [|? ?]] eqn:Hf; [done| |done].
      assert (p ∈ filter (fun p => status p = ALIVE) ps1) as Hp by (rewrite Hf; by left).
      apply list_elem_of_filter in Hp as [Ha Hp].
      apply Exists_exists. exists (set_status WINNER p). split; [|done].
      unfold crown. apply list_elem_of_fmap. exists p. by rewrite decide_True.
  - destruct (decide (length (filter (fun p => status p = ALIVE) ps1) = 0%nat))
      as [Hzero | Hmany]; injection Hres as -> ->; [|done].
    cbn [players set_phase set_players].
    assert (forall p, p ∈ ps1 -> status p <> ALIVE) as Hdead.
    { intros p Hp Ha. apply length_zero_iff_nil in Hzero.
      assert (p ∈ filter (fun p => status p = ALIVE) ps1) as Hin
        by (by apply list_elem_of_filter).
      rewrite Hzero in Hin. by apply elem_of_nil in Hin. }
    split; [|split; [|apply Hwin]].
    + apply Forall_forall. intros p' (p & Hp & _ & Hst)%crown_status.
      rewrite Hst. case_decide; [done|by apply Hdead].
    + intros Hne. destruct (top_scorer_exists ps1) as (p & Hp & Htop).
      { unfold ps1. intros Hnil%fmap_nil_inv. done. }
      apply Exists_exists. exists (set_status WINNER p). split; [|done].
      unfold crown. apply list_elem_of_fmap. exists p. by rewrite decide_True.
Qed.

Lemma evaluateState_game_over_witness :
  let s' := set_phase GAMEOVER
              (set_players [set_status WINNER player_C0; set_status ELIMINATED player_C1]
                           state_C) in
  let ev := [EvElimination 1 2; EvWinner 0] in
  evaluateState state_C = Ok (s', ev) /\ phase s' = GAMEOVER
  /\ Forall (fun p => status p <> ALIVE) (players s')
  /\ (players state_C <> [] -> Exists (fun p => status p = WINNER) (players s'))
  /\ (forall k, EvWinner k ∈ ev ->
        exists p, p ∈ players s' /\ pid p = k /\ status p = WINNER).
Proof.
  intros s' ev.
  assert (evaluateState state_C = Ok (s', ev)) as Hres by (vm_compute; reflexivity).
  split; [exact Hres|]. split; [reflexivity|].
  exact (evaluateState_game_over state_C s' ev Hres eq_refl).
Defined.

Lemma filter_none {A} (P : A -> Prop) `{!forall x, Decision (P x)} (l : list A) :
  (forall x, x ∈ l -> ~ P x) -> filter P l = [].
Proof.
  induction l as [|x l IH]; intros Hno; [done|].
  rewrite filter_cons, decide_False by (apply Hno; by left).
  apply IH. intros y Hy. apply Hno. by right.
Qed.

(** X21.  Evaluating again a state that [evaluateState] left in phase
    SELECT changes nothing and emits nothing. *)
Theorem evaluateState_settled s s' ev :
  rows_cover (boardSize s) (visited s) ->
  evaluateState s = Ok (s', ev) -> phase s' = SELECT ->
  evaluateState s' = Ok (s', []).
Proof.
  intros Hrows Hspec%evaluateState_Ok Hph.
  unfold evaluate_spec in Hspec.
  repeat case_decide; injection Hspec as Hs' Hev; try (by rewrite Hs' in Hph).
  set (ps1 := eliminate s <$> players s) in *.
  assert (players s' = ps1 /\ boardSize s' = boardSize s /\ visited s' = visited s)
    as (Hpl & Hb & Hv) by (by rewrite Hs').
  assert (forall p, p ∈ ps1 -> ~ stuck s' p) as Hfree.
  { intros p' (p & -> & Hp)%list_elem_of_fmap [Ha Hnil].
    apply eliminate_alive in Ha as (Heq & _ & Hmoves). rewrite Heq in Hnil.
    apply Hmoves. by rewrite Hb, Hv in Hnil. }
  assert (eliminate s' <$> ps1 = ps1) as Hsame.
  { rewrite <- (list_fmap_id ps1) at 2. apply list_fmap_ext.
    intros i p Hp%list_elem_of_lookup_2. unfold eliminate.
    by rewrite decide_False by (by apply Hfree). }
  assert (elimination_events s' = []) as Hquiet.
  { unfold elimination_events. rewrite Hpl. by rewrite (filter_none _ _ Hfree). }
  assert (evaluate_spec s' = (s', [])) as Hfix.
  { unfold evaluate_spec. rewrite Hquiet, Hpl, Hsame.
    rewrite decide_False, decide_False by done.
    f_equal. rewrite <- Hpl. rewrite Hs'. reflexivity. }
  rewrite <- Hfix. apply evaluate_after_elimination, elimination_loop.
  by rewrite Hb, Hv.
Qed.

Lemma evaluateState_settled_witness :
  rows_cover (boardSize state_A_moved) (visited state_A_moved)
  /\ evaluateState state_A_moved = Ok (set_phase SELECT state_A_moved, [])
  /\ phase (set_phase SELECT state_A_moved) = SELECT
  /\ evaluateState (set_phase SELECT state_A_moved)
     = Ok (set_phase SELECT state_A_moved, []).
Proof.
  assert (rows_cover (boardSize state_A_moved) (visited state_A_moved)) as Hrows
    by (unfold rows_cover; cbn; lia).
  assert (evaluateState state_A_moved = Ok (set_phase SELECT state_A_moved, []))
    as Hres by (vm_compute; reflexivity).
  split; [exact Hrows|]. split; [exact Hres|]. split; [reflexivity|].
  exact (evaluateState_settled state_A_moved _ _ Hrows Hres eq_refl).
Defined.

(* ===================================================================== *)
(** * Invariants of a game                                                 *)
(* ===================================================================== *)

Lemma reachable_state_B :
  reachable scenario_A state_B [EvMove 1 (6, 6) (4, 5); EvMove 1 (4, 5) (5, 3)].
Proof.
  exact (play_reachable scenario_A _ state_A [] _ _
           (R_init scenario_A state_A initState_scenario_A) play_scenario_B).
Qed.

(** ** Players stand on marked cells, one per cell *)

Lemma elem_of_insert_cases {A} (l : list A) i x y :
  y ∈ <[i := x]> l -> y = x \/ y ∈ l.
Proof.
  revert i. induction l as [|z l IH]; intros [|i]; cbn; try (by right).
  - rewrite !elem_of_cons. tauto.
  - rewrite !elem_of_cons. intros [-> | Hy]; [tauto|].
    destruct (IH i Hy); tauto.
Qed.

Lemma NoDup_insert_fresh {A} (l : list A) i x :
  NoDup l -> x ∉ l -> NoDup (<[i := x]> l).
Proof.
  revert i. induction l as [|z l IH]; intros [|i] Hnd Hx; cbn; try done.
  - apply NoDup_cons in Hnd as [_ Hnd]. apply NoDup_cons. split; [|done].
    intros Hin. apply Hx. by right.
  - apply NoDup_cons in Hnd as [Hz Hnd]. apply NoDup_cons. split.
    + intros [-> | Hin]%elem_of_insert_cases; [|done]. apply Hx. by left.
    + apply IH; [done|]. intros Hin. apply Hx. by right.
Qed.

Lemma resolveTurn_grounded s s' ev :
  grounded (players s) (visited s) -> resolveTurn s = Ok (s', ev) ->
  grounded (players s') (visited s').
Proof.
  intros Hg Hres.
  destruct (resolveTurn_invariant
              (fun r => grounded (rs_players r) (rs_visited r)) s s' ev)
    as (r & _ & Hr & -> & _); [done| |done|done].
  intros r i r' _ _ [Hmarked Hdistinct] Hstep.
  destruct Hstep as [| | | | p d g' Hp Hd Hc Hv Hs]; try done.
  cbn [rs_players rs_visited]. split.
  - apply Forall_insert.
    + eapply Forall_impl; [exact Hmarked|]. cbn. intros q (w & Hw & Hne).
      exists w. split; [|done]. by eapply grid_set_keeps_marked.
    + exists CELL.BLOCKED. split; [|done]. by eapply grid_set_cell_eq.
  - rewrite list_fmap_insert. cbn [row col move_player].
    apply NoDup_insert_fresh; [done|].
    intros (q & Hq & Hin)%list_elem_of_fmap.
    rewrite Forall_forall in Hmarked. destruct (Hmarked q Hin) as (w & Hw & Hne).
    destruct d as [dr dc]. injection Hq as -> ->. cbn in Hv. congruence.
Qed.

Lemma status_only_positions ps ps' :
  status_only ps ps' ->
  (fun p => (row p, col p)) <$> ps' = (fun p => (row p, col p)) <$> ps.
Proof.
  unfold status_only. intros H.
  apply (f_equal (fmap (fun p => (row p, col p)))) in H.
  by rewrite <- !list_fmap_compose in H.
Qed.

Lemma grounded_positions ps ps' g :
  (fun p => (row p, col p)) <$> ps' = (fun p => (row p, col p)) <$> ps ->
  grounded ps g -> grounded ps' g.
Proof.
  intros Hpos [Hmarked Hdistinct]. split; [|by rewrite Hpos].
  apply Forall_forall. intros p' Hp'.
  assert ((row p', col p') ∈ (fun p => (row p, col p)) <$> ps) as Hin.
  { rewrite <- Hpos. apply list_elem_of_fmap. eauto. }
  apply list_elem_of_fmap in Hin as (p & [= -> ->] & Hp).
  rewrite Forall_forall in Hmarked. by apply Hmarked.
Qed.

Lemma initState_grounded cfg s :
  initState cfg = Ok s -> 2 <= cfg_boardSize cfg ->
  grounded (players s) (visited s).
Proof.
  intros Hinit Hsize. split.
  - by apply initState_grid in Hinit as (_ & ? & _).
  - pose proof (initState_positions cfg s Hinit) as Hpre.
    eapply sublist_NoDup; [|etrans; [exact Hpre|apply defaultStartPositions_sublist]].
    by apply NoDup_start_corners.
Qed.

Lemma reachable_grounded cfg s log :
  2 <= cfg_boardSize cfg -> reachable cfg s log -> grounded (players s) (visited s).
Proof.
  intros Hsize.
  induction 1 as [s Hinit | s log k r c _ IH | s log s' ev _ IH Hres
                  | s log s' ev _ IH Hev].
  - by eapply initState_grounded.
  - by rewrite submitMove_fields.
  - by eapply resolveTurn_grounded.
  - apply evaluateState_frame in Hev as (-> & _ & _ & Hst & _).
    eapply grounded_positions; [|exact IH]. by apply status_only_positions.
Qed.

(** X22.  In every state reachable from [initState] on a board of size
    two or more, every player, alive or not, stands on a cell that is not
    EMPTY, and no two players stand on the same cell. *)
Theorem players_on_distinct_marked_cells cfg s log :
  2 <= cfg_boardSize cfg -> reachable cfg s log ->
  Forall (fun p => exists w, cell (visited s) (row p) (col p) = Some w
                             /\ w <> CELL.EMPTY) (players s)
  /\ NoDup ((fun p => (row p, col p)) <$> players s).
Proof. intros Hsize Hreach. exact (reachable_grounded cfg s log Hsize Hreach). Qed.

Lemma players_on_distinct_marked_cells_witness :
  2 <= cfg_boardSize scenario_A
  /\ reachable scenario_A state_B [EvMove 1 (6, 6) (4, 5); EvMove 1 (4, 5) (5, 3)]
  /\ Forall (fun p => exists w, cell (visited state_B) (row p) (col p) = Some w
                                /\ w <> CELL.EMPTY) (players state_B)
  /\ NoDup ((fun p => (row p, col p)) <$> players state_B).
Proof.
  assert (2 <= cfg_boardSize scenario_A) as Hsize by (cbn; lia).
  split; [exact Hsize|]. split; [exact reachable_state_B|].
  exact (players_on_distinct_marked_cells scenario_A state_B _ Hsize reachable_state_B).
Defined.

(** ** One point per marked cell *)

Lemma mark_loop_count val cells : forall g g',
  val <> CELL.EMPTY -> NoDup cells ->
  (forall o, o ∈ cells -> cell g o.1 o.2 = Some CELL.EMPTY) ->
  ofoldl (mark_cell val) g cells = Ok g' ->
  marked g' = (marked g + length cells)%nat.
Proof.
  induction cells as [|o cells IH]; intros g g' Hval Hnd Hempty H; cbn [ofoldl] in H.
  - injection H as <-. cbn. lia.
  - destruct (mark_cell val g o) as [g1| |] eqn:Hg1; [|done|done].
    rewrite obind_Ok in H. unfold mark_cell in Hg1.
    apply NoDup_cons in Hnd as [Ho Hnd].
    pose proof (marked_grid_set g o.1 o.2 val CELL.EMPTY g1
                  (Hempty o ltac:(left)) Hg1) as Hcount.
    rewrite decide_False in Hcount by (intros Hne; by apply Hne).
    rewrite decide_True in Hcount by done.
    rewrite (IH g1 g' Hval Hnd); [cbn; lia| |done].
    intros o' Ho'. rewrite (grid_set_cell_ne _ _ _ _ _ o'.1 o'.2 Hg1).
    + apply Hempty. by right.
    + destruct o, o'. cbn. intros [= -> ->]. done.
Qed.

Lemma points_scores ps : points ps = foldr Z.add 0 (score <$> ps).
Proof. induction ps as [|p ps IH]; cbn; [done|]. by rewrite <- IH. Qed.

Lemma points_app ps1 ps2 : points (ps1 ++ ps2) = points ps1 + points ps2.
Proof.
  unfold points. induction ps1 as [|p ps1 IH]; cbn [foldr app]; [done|]. lia.
Qed.

Lemma points_insert ps i p p' :
  ps !! i = Some p -> points (<[i := p']> ps) = points ps - score p + score p'.
Proof.
  intros Hp. pose proof (lookup_lt_Some _ _ _ Hp) as Hlt.
  rewrite insert_take_drop by done.
  rewrite <- (take_drop_middle ps i p Hp) at 3.
  rewrite !points_app. unfold points. cbn [foldr]. lia.
Qed.

Lemma points_start ps : Forall (fun p => score p = 1) ps -> points ps = Z.of_nat (length ps).
Proof.
  induction 1 as [|p ps Hp _ IH]; [done|].
  cbn [points foldr length]. fold (points ps). rewrite IH, Hp. lia.
Qed.

Lemma status_only_points ps ps' : status_only ps ps' -> points ps' = points ps.
Proof.
  unfold status_only. intros H. rewrite !points_scores. f_equal.
  apply (f_equal (fmap score)) in H. by rewrite <- !list_fmap_compose in H.
Qed.

Lemma resolveTurn_territory s s' ev :
  resolveTurn s = Ok (s', ev) ->
  Z.of_nat (marked (visited s')) - points (players s')
  = Z.of_nat (marked (visited s)) - points (players s).
Proof.
  intros Hres.
  destruct (resolveTurn_invariant
              (fun r => Z.of_nat (marked (rs_visited r)) - points (rs_players r)
                        = Z.of_nat (marked (visited s)) - points (players s)) s s' ev)
    as (r & _ & Hr & -> & _); [done| |done|done].
  intros r i r' _ _ Hinv Hstep.
  destruct Hstep as [| | | | p d g' Hp Hd Hc Hv Hs]; try done.
  cbn [rs_players rs_visited].
  pose proof (marked_grid_set _ _ _ _ _ _ Hv Hs) as Hcount.
  rewrite decide_False in Hcount by (intros Hne; by apply Hne).
  rewrite decide_True in Hcount by done.
  rewrite (points_insert _ _ p) by done. cbn [score move_player]. lia.
Qed.

Lemma initState_territory cfg s :
  initState cfg = Ok s -> 2 <= cfg_boardSize cfg ->
  Z.of_nat (marked (visited s))
  = points (players s) + Z.of_nat (length (obstacles s)).
Proof.
  intros Hinit Hsize.
  destruct (initState_grounded cfg s Hinit Hsize) as [_ Hdistinct].
  destruct (initState_layout cfg s Hinit) as (Hnd & _ & Hfree & _).
  destruct (initState_players cfg s Hinit) as (_ & Hscore & _).
  destruct (initState_inv cfg s Hinit) as (ps & v1 & obs & x1 & _ & Hv1 & _ & Hv2 & Hs).
  assert (players s = ps /\ obstacles s = obs /\ boardSize s = cfg_boardSize cfg)
    as (Hp & Ho & Hb) by (by rewrite Hs).
  rewrite Hp, Ho, Hb in *. clear Hs Hp Ho Hb.
  destruct (makeGrid_reads (cfg_boardSize cfg)) as (Hsq & Hcells & _).
  assert (forall o, o ∈ (fun p => (row p, col p)) <$> ps ->
            cell (makeGrid (cfg_boardSize cfg)) o.1 o.2 = Some CELL.EMPTY) as Hfresh1.
  { intros o Ho.
    destruct (mark_loop CELL.BLOCKED _ ltac:(done) _ _ _ Hv1 Hsq) as (Hsq1 & Hdone & _).
    destruct (cell_in_square _ _ _ _ _ Hsq1 (Hdone o Ho)) as [Hr Hc].
    rewrite Hcells.
    assert (inBounds o.1 o.2 (cfg_boardSize cfg) = true) as ->; [|done].
    apply inBounds_spec. lia. }
  assert (forall o, o ∈ obs -> cell v1 o.1 o.2 = Some CELL.EMPTY) as Hfresh2.
  { intros o Ho. destruct (Hfree o Ho) as [[Hr Hc] Hfar].
    rewrite (mark_loop_exact _ _ _ _ Hv1 o.1 o.2), Hcells.
    rewrite decide_False.
    - assert (inBounds o.1 o.2 (cfg_boardSize cfg) = true) as ->; [|done].
      apply inBounds_spec. lia.
    - intros (p & Hpos & Hp)%list_elem_of_fmap.
      destruct (Hfar p Hp) as [Hne _]. apply Hne. destruct o. exact Hpos. }
  rewrite (mark_loop_count CELL.OBSTACLE _ _ _ ltac:(done) Hnd Hfresh2 Hv2).
  rewrite (mark_loop_count CELL.BLOCKED _ _ _ ltac:(done) Hdistinct Hfresh1 Hv1).
  rewrite length_fmap.
  assert (marked (makeGrid (cfg_boardSize cfg)) = 0%nat) as ->.
  { pose proof (empties_marked (makeGrid (cfg_boardSize cfg))) as Hsum.
    rewrite makeGrid_empties, (square_cells _ _ Hsq) in Hsum. lia. }
  rewrite points_start; [lia|].
  eapply Forall_impl; [exact Hscore|]. by intros p [? _].
Qed.

Lemma reachable_territory cfg s log :
  2 <= cfg_boardSize cfg -> reachable cfg s log ->
  Z.of_nat (marked (visited s))
  = points (players s) + Z.of_nat (length (obstacles s)).
Proof.
  intros Hsize.
  induction 1 as [s Hinit | s log k r c _ IH | s log s' ev _ IH Hres
                  | s log s' ev _ IH Hev].
  - by apply (initState_territory cfg).
  - by rewrite submitMove_fields.
  - pose proof (resolveTurn_territory s s' ev Hres) as Hkeep.
    apply resolveTurn_empties in Hres as (_ & _ & ->). lia.
  - apply evaluateState_frame in Hev as (-> & _ & -> & Hst & _).
    by rewrite (status_only_points _ _ Hst).
Qed.

(** X23.  In every state reachable from [initState] on a board of size two
    or more, the scores add up to the territory: the number of cells that
    are not EMPTY is the sum of all scores plus the number of obstacles. *)
Theorem score_is_territory cfg s log :
  2 <= cfg_boardSize cfg -> reachable cfg s log ->
  Z.of_nat (marked (visited s))
  = points (players s) + Z.of_nat (length (obstacles s)).
Proof. intros Hsize Hreach. exact (reachable_territory cfg s log Hsize Hreach). Qed.

Lemma score_is_territory_witness :
  2 <= cfg_boardSize scenario_A
  /\ reachable scenario_A state_B [EvMove 1 (6, 6) (4, 5); EvMove 1 (4, 5) (5, 3)]
  /\ Z.of_nat (marked (visited state_B))
     = points (players state_B) + Z.of_nat (length (obstacles state_B)).
Proof.
  assert (2 <= cfg_boardSize scenario_A) as Hsize by (cbn; lia).
  split; [exact Hsize|]. split; [exact reachable_state_B|].
  exact (score_is_territory scenario_A state_B _ Hsize reachable_state_B).
Defined.

(** ** Out of the game for good *)

Lemma eliminate_out s p : status p <> ALIVE -> eliminate s p = p.
Proof. intros Hn. unfold eliminate. rewrite decide_False; [done|]. by intros [? _]. Qed.

Lemma stays_out_refl p : status p <> ALIVE -> stays_out p p.
Proof. done. Qed.

Lemma stays_out_crowned p : status p <> ALIVE -> stays_out p (set_status WINNER p).
Proof. done. Qed.

Lemma stays_out_trans p p' p'' : stays_out p p' -> stays_out p' p'' -> stays_out p p''.
Proof.
  intros (Ha & Hw & He) (Ha' & Hw' & He'). split; [done|]. split; [auto|congruence].
Qed.

Lemma crown_lookup (W : PlayerState -> Prop) `{!forall p, Decision (W p)} ps i :
  crown W ps !! i = (fun p => if decide (W p) then set_status WINNER p else p) <$> ps !! i.
Proof. unfold crown. apply list_lookup_fmap. Qed.

Lemma transition_stays_out s s' i p :
  transition s s' -> players s !! i = Some p -> status p <> ALIVE ->
  exists p', players s' !! i = Some p' /\ stays_out p p'.
Proof.
  intros Hstep Hp Hout.
  destruct Hstep as [s k r c | s s' ev Hres | s s' ev Hev].
  - exists p. rewrite submitMove_fields. by split; [|apply stays_out_refl].
  - apply resolveTurn_touches_living in Hres as (_ & Hkeep & _).
    exists p. split; [by apply Hkeep|by apply stays_out_refl].
  - apply evaluateState_Ok in Hev. unfold evaluate_spec in Hev.
    repeat case_decide; injection Hev as -> _; cbn [players set_phase set_players].
    + rewrite crown_lookup, list_lookup_fmap, Hp. cbn.
      rewrite (eliminate_out s p Hout). eexists. split; [done|].
      case_decide; [by apply stays_out_crowned|by apply stays_out_refl].
    + rewrite crown_lookup, list_lookup_fmap, Hp. cbn.
      rewrite (eliminate_out s p Hout). eexists. split; [done|].
      case_decide; [by apply stays_out_crowned|by apply stays_out_refl].
    + rewrite list_lookup_fmap, Hp. cbn. rewrite (eliminate_out s p Hout).
      eexists. split; [done|]. by apply stays_out_refl.
Qed.

(** X24.  Being out is for good: along any sequence of [submitMove],
    [resolveTurn] and [evaluateState], a player that is not ALIVE never
    becomes ALIVE again, never moves and never scores; a WINNER stays a
    WINNER, and the only change possible is that an ELIMINATED player is
    made a WINNER. *)
Theorem out_stays_out s s' i p :
  rtc transition s s' -> players s !! i = Some p -> status p <> ALIVE ->
  exists p', players s' !! i = Some p'
    /\ status p' <> ALIVE
    /\ (status p = WINNER -> status p' = WINNER)
    /\ (status p' = status p \/ status p' = WINNER)
    /\ (pid p', row p', col p', score p') = (pid p, row p, col p, score p).
Proof.
  intros Hrun Hp Hout.
  assert (exists p', players s' !! i = Some p' /\ stays_out p p'
                     /\ (status p' = status p \/ status p' = WINNER))
    as (p' & Hp' & (Ha & Hw & He) & Hst).
  { revert p Hp Hout. induction Hrun as [s | s s1 s' Hstep _ IH]; intros p Hp Hout.
    - exists p. split; [done|]. split; [by apply stays_out_refl|by left].
    - destruct (transition_stays_out s s1 i p Hstep Hp Hout) as (p1 & Hp1 & Hso1).
      assert (status p1 = status p \/ status p1 = WINNER) as Hst1.
      { destruct Hso1 as (Ha1 & Hw1 & _).
        destruct (status p) eqn:E, (status p1) eqn:E1; try done; auto;
          by specialize (Hw1 eq_refl). }
      destruct (IH p1 Hp1 (proj1 Hso1)) as (p' & Hp' & Hso' & Hst').
      exists p'. split; [done|]. split; [by eapply stays_out_trans|].
      destruct Hso' as (_ & Hw' & _).
      destruct Hst1 as [E1 | E1], Hst' as [E' | E']; rewrite ?E1 in *; auto. }
  exists p'. split; [done|]. split; [done|]. split; [done|]. split; [done|].
  apply (f_equal (fun q => (pid q, row q, col q, score q))) in He. exact He.
Qed.

Lemma out_stays_out_witness :
  let s := submitMove state_A_eliminated 1 4 5 in
  rtc transition state_A_eliminated s
  /\ players state_A_eliminated !! 1%nat = Some (set_status ELIMINATED player_A1)
  /\ status (set_status ELIMINATED player_A1) <> ALIVE
  /\ exists p', players s !! 1%nat = Some p'
       /\ status p' <> ALIVE
       /\ (status (set_status ELIMINATED player_A1) = WINNER -> status p' = WINNER)
       /\ (status p' = status (set_status ELIMINATED player_A1) \/ status p' = WINNER)
       /\ (pid p', row p', col p', score p')
          = (pid (set_status ELIMINATED player_A1), row (set_status ELIMINATED player_A1),
             col (set_status ELIMINATED player_A1),
             score (set_status ELIMINATED player_A1)).
Proof.
  intros s.
  assert (rtc transition state_A_eliminated s) as Hrun
    by (apply rtc_once, T_submit).
  assert (status (set_status ELIMINATED player_A1) <> ALIVE) as Hout by done.
  split; [exact Hrun|]. split; [reflexivity|]. split; [exact Hout|].
  exact (out_stays_out state_A_eliminated s 1 _ Hrun eq_refl Hout).
Defined.

(** ** The history is a complete log *)

Lemma upto_succ t : 0 <= t -> upto (t + 1) = upto t ++ [t].
Proof.
  intros Ht. unfold upto.
  replace (Z.to_nat (t + 1)) with (S (Z.to_nat t)) by lia.
  rewrite seq_S, fmap_app. cbn. f_equal. f_equal. lia.
Qed.

Lemma quiet_records ev :
  Forall (fun e => is_move e = false) ev -> omap move_record_of ev = [].
Proof.
  induction 1 as [|e ev He _ IH]; [done|]. cbn. rewrite IH. by destruct e.
Qed.

Lemma reachable_history cfg s log :
  reachable cfg s log ->
  0 <= turn s /\ tr_turn <$> history s = upto (turn s)
  /\ concat (tr_moves <$> history s) = omap move_record_of log.
Proof.
  induction 1 as [s Hinit | s log k r c _ IH | s log s' ev _ IH Hres
                  | s log s' ev _ IH Hev].
  - by apply initState_inv in Hinit as (? & ? & ? & ? & _ & _ & _ & _ & ->).
  - by rewrite submitMove_fields.
  - destruct IH as (Ht & Hturns & Hmoves).
    apply resolveTurn_ledger in Hres as (-> & _ & _ & _ & -> & _).
    split; [lia|]. split.
    + by rewrite fmap_app, Hturns, upto_succ.
    + rewrite fmap_app, concat_app, Hmoves, omap_app. cbn. by rewrite app_nil_r.
  - destruct IH as (Ht & Hturns & Hmoves).
    pose proof (evaluateState_frame _ _ _ Hev) as (_ & _ & _ & _ & Hquiet).
    apply evaluateState_Ok in Hev. unfold evaluate_spec in Hev.
    rewrite omap_app, (quiet_records _ Hquiet), app_nil_r.
    repeat case_decide; injection Hev as -> _; done.
Qed.

(** X25.  In every state reachable from [initState] the history is a
    complete log: it holds one record per resolved turn, numbered
    0, 1, ..., [turn - 1] in order, and the moves of the records, put end
    to end, are the move events emitted so far, in the same order. *)
Theorem history_is_complete cfg s log :
  reachable cfg s log ->
  0 <= turn s /\ tr_turn <$> history s = upto (turn s)
  /\ concat (tr_moves <$> history s) = omap move_record_of log.
Proof. exact (reachable_history cfg s log). Qed.

Lemma history_is_complete_witness :
  reachable scenario_A state_B [EvMove 1 (6, 6) (4, 5); EvMove 1 (4, 5) (5, 3)]
  /\ 0 <= turn state_B /\ tr_turn <$> history state_B = upto (turn state_B)
  /\ concat (tr_moves <$> history state_B)
     = omap move_record_of [EvMove 1 (6, 6) (4, 5); EvMove 1 (4, 5) (5, 3)].
Proof.
  split; [exact reachable_state_B|].
  exact (history_is_complete scenario_A state_B _ reachable_state_B).
Defined.

(* ===================================================================== *)
(** * Only moves bring the end nearer                                      *)
(* ===================================================================== *)

(** When every living player can move and two or more are alive,
    [evaluateState] only sets the phase. *)
Lemma evaluateState_goes_on s :
  rows_cover (boardSize s) (visited s) ->
  (forall p, p ∈ players s -> ~ stuck s p) ->
  (2 <= length (filter (fun p => status p = ALIVE) (players s)))%nat ->
  evaluateState s = Ok (set_phase SELECT s, []).
Proof.
  intros Hrows Hfree Hlive. rewrite (evaluateState_spec s Hrows). f_equal.
  unfold evaluate_spec.
  assert (eliminate s <$> players s = players s) as ->.
  { rewrite <- (list_fmap_id (players s)) at 2. apply list_fmap_ext.
    intros i p Hp%list_elem_of_lookup_2. unfold eliminate.
    by rewrite decide_False by (by apply Hfree). }
  assert (elimination_events s = []) as ->.
  { unfold elimination_events. by rewrite (filter_none _ _ Hfree). }
  rewrite decide_False, decide_False by lia. by destruct s.
Qed.

Lemma filter_all {A} (P : A -> Prop) `{!forall x, Decision (P x)} (l : list A) :
  Forall P l -> filter P l = l.
Proof.
  induction 1 as [|x l Hx _ IH]; [done|]. by rewrite filter_cons_True, IH.
Qed.

Section Idle.
Variable s0 : GameState.
Hypothesis Hrows : rows_cover (boardSize s0) (visited s0).
Hypothesis Hfree : forall p, p ∈ players s0 -> ~ stuck s0 p.
Hypothesis Hlive : (2 <= length (filter (fun p => status p = ALIVE) (players s0)))%nat.

(** A round in which nobody submits an intent changes neither a player nor
  a cell and ends in phase SELECT. *)
Lemma idle_round s :
players s = players s0 -> visited s = visited s0 -> boardSize s = boardSize s0 ->
pendingMoves s = ∅ ->
exists s', play_round s [] = Ok (s', [])
  /\ players s' = players s0 /\ visited s' = visited s0
  /\ boardSize s' = boardSize s0 /\ pendingMoves s' = ∅
  /\ phase s' = SELECT /\ turn s' = turn s + 1.
Proof.
intros Hp Hv Hb Hpend.
destruct (resolveTurn_passes s) as (s1 & Hres & Hp1 & Hv1 & _ & Ht1 & _ & Hpend1).
{ intros p _ _. by rewrite Hpend. }
pose proof (resolveTurn_ledger _ _ _ Hres) as (_ & _ & _ & [= Hb1 _ _ _ _] & _).
assert (evaluateState s1 = Ok (set_phase SELECT s1, [])) as Hev.
{ apply evaluateState_goes_on.
  - by rewrite Hb1, Hv1, Hb, Hv.
  - intros p Hin. rewrite Hp1, Hp in Hin. unfold stuck.
    rewrite Hb1, Hv1, Hb, Hv. by apply Hfree.
  - by rewrite Hp1, Hp. }
exists (set_phase SELECT s1). split.
- apply play_round_Ok. exists s1, [], []. done.
- cbn. repeat split; congruence.
Qed.

Lemma idle_rounds k : forall s,
players s = players s0 -> visited s = visited s0 -> boardSize s = boardSize s0 ->
pendingMoves s = ∅ -> phase s = SELECT ->
exists s', play s (replicate k []) = Ok (s', replicate k [])
  /\ phase s' = SELECT /\ players s' = players s0 /\ visited s' = visited s0
  /\ turn s' = turn s + Z.of_nat k.
Proof.
induction k as [|k IH]; intros s Hp Hv Hb Hpend Hph.
- exists s. cbn. repeat split; try done. lia.
- destruct (idle_round s Hp Hv Hb Hpend)
    as (s1 & Hround & Hp1 & Hv1 & Hb1 & Hpend1 & Hph1 & Ht1).
  destruct (IH s1 Hp1 Hv1 Hb1 Hpend1 Hph1) as (s' & Hplay & Hph' & Hp' & Hv' & Ht').
  exists s'. split.
  + change (replicate (S k) []) with (@nil (Z * Z * Z) :: replicate k []) at 1.
    apply play_cons_Ok. exists s1, [], (replicate k []). done.
  + repeat split; try done. lia.
Qed.

End Idle.

(** C8 (as amended).  In any run of rounds from [initState], whatever the
    intents submitted, the rounds in which at least one move is executed
    are at most [boardSize * boardSize] less the number of obstacles
    actually placed.  The rounds themselves are not bounded: on a board of
    size three or more with two or more players, any number [k] of rounds
    in which nobody submits an intent can be played from the initial state;
    they emit no event, leave every player and every cell as [initState]
    made them, and end in phase SELECT with the turn counter at [k]. *)
Theorem rounds_bounded_only_by_moves cfg s :
  initState cfg = Ok s ->
  (forall rounds s' evs,
     play s rounds = Ok (s', evs) ->
     Z.of_nat (moving_rounds evs)
     <= boardSize s * boardSize s - Z.of_nat (length (obstacles s)))
  /\ (3 <= cfg_boardSize cfg -> 2 <= cfg_playerCount cfg ->
      forall k, exists s',
        play s (replicate k []) = Ok (s', replicate k [])
        /\ phase s' = SELECT /\ players s' = players s /\ visited s' = visited s
        /\ turn s' = Z.of_nat k).
Proof.
  intros Hinit. split.
  - intros rounds s' evs. by apply (moving_rounds_le_cells cfg).
  - intros Hsize Hcount k.
    pose proof (initState_grid cfg s Hinit) as (Hsq & _).
    pose proof (initState_players cfg s Hinit) as (Hpids & Hnew & _).
    pose proof (initState_inv cfg s Hinit) as (ps & v1 & obs & x1 & _ & _ & _ & _ & Hs).
    assert (boardSize s = cfg_boardSize cfg /\ pendingMoves s = ∅
            /\ phase s = SELECT /\ turn s = 0) as (Hb & Hpend & Hph & Ht)
      by (by rewrite Hs).
    assert (rows_cover (boardSize s) (visited s)) as Hrows
      by (rewrite Hb; by apply square_rows_cover).
    destruct (idle_rounds s Hrows) with (k := k) (s := s)
      as (s' & Hplay & Hph' & Hp' & Hv' & Ht'); try done.
    + intros p Hin [_ Hnil].
      destruct (initState_open_start cfg s p Hinit Hsize Hin) as (moves & Hm & _ & Hlen).
      rewrite getLegalMoves_legal_dests in Hm by done. injection Hm as <-.
      rewrite Hnil in Hlen. cbn in Hlen. lia.
    + rewrite filter_all by (eapply Forall_impl; [exact Hnew|]; by intros p [_ ?]).
      apply (f_equal length) in Hpids.
      rewrite length_fmap in Hpids. rewrite Hpids.
      unfold upto. rewrite length_fmap, length_seq. lia.
    + exists s'. repeat split; try done. lia.
Qed.

(** Witness: scenario A and the two rounds that lead to scenario B. *)
Lemma rounds_bounded_only_by_moves_witness :
  initState scenario_A = Ok state_A
  /\ (forall rounds s' evs,
        play state_A rounds = Ok (s', evs) ->
        Z.of_nat (moving_rounds evs)
        <= boardSize state_A * boardSize state_A
           - Z.of_nat (length (obstacles state_A)))
  /\ (3 <= cfg_boardSize scenario_A -> 2 <= cfg_playerCount scenario_A ->
      forall k, exists s',
        play state_A (replicate k []) = Ok (s', replicate k [])
        /\ phase s' = SELECT /\ players s' = players state_A
        /\ visited s' = visited state_A /\ turn s' = Z.of_nat k).
Proof.
  split; [exact initState_scenario_A|].
  exact (rounds_bounded_only_by_moves scenario_A state_A initState_scenario_A).
Defined.

(* ===================================================================== *)
(** * What the strategies compute                                          *)
(* ===================================================================== *)

Lemma yields_ret {A} (a : A) s (Q : A -> Prop) : Q a -> yields (ai_ret a) s Q.
Proof. intros Ha. exists a, (rng s). unfold ai_ret. by rewrite set_rng_id. Qed.

Lemma yields_bind {A B} (m : AI A) (k : A -> AI B) s (Q : A -> Prop) (R : B -> Prop) :
  yields m s Q -> (forall a x, Q a -> yields (k a) (set_rng x s) R) ->
  yields (ai_bind m k) s R.
Proof.
  intros (a & x & Hm & Ha) Hk. destruct (Hk a x Ha) as (b & y & Hb & HR).
  exists b, y. by rewrite (ai_bind_Ok _ _ _ _ _ Hm), Hb.
Qed.

Lemma yields_impl {A} (m : AI A) s (Q R : A -> Prop) :
  yields m s Q -> (forall a, Q a -> R a) -> yields m s R.
Proof. intros (a & x & Hm & Ha) HQR. exists a, x. auto. Qed.

Lemma yields_steady {A} (m : AI A) s : steady m s -> yields m s (fun _ => True).
Proof. intros (a & x & Hm). by exists a, x. Qed.

(** A loop whose invariant may mention the candidates already seen. *)
Lemma yields_foldl {A B} (P : list B -> A -> Prop) (f : A -> B -> AI A) (l : list B) s :
  (forall seen b rest a x,
     l = seen ++ b :: rest -> P seen a ->
     yields (f a b) (set_rng x s) (P (seen ++ [b]))) ->
  forall a x, P [] a -> yields (ai_foldl f a l) (set_rng x s) (P l).
Proof.
  intros Hstep.
  assert (forall rest seen a x,
            l = seen ++ rest -> P seen a ->
            yields (ai_foldl f a rest) (set_rng x s) (P l)) as Hgen.
  { induction rest as [|b rest IH]; intros seen a x Hl Ha; cbn [ai_foldl].
    - apply yields_ret. by rewrite Hl, app_nil_r.
    - eapply yields_bind; [by eapply Hstep|].
      intros a' y Ha'. rewrite set_rng_set_rng.
      apply (IH (seen ++ [b])); [by rewrite <- app_assoc|done]. }
  intros a x Ha. by apply (Hgen l []).
Qed.

Lemma set_visited_same s x : set_rng x (set_visited (visited s) s) = set_rng x s.
Proof. by destruct s. Qed.

Section Scoring.
Variable s : GameState.
Hypothesis Hrows : rows_cover (boardSize s) (visited s).

Lemma stamped_set m w :
cell (visited s) m.1 m.2 = Some w ->
grid_set (visited s) m.1 m.2 1 = Ok (stamped (visited s) m)
/\ grid_set (stamped (visited s) m) m.1 m.2 w = Ok (visited s)
/\ length (stamped (visited s) m) = length (visited s).
Proof.
intros Hw. destruct (grid_set_restore _ _ _ 1 _ Hw) as (g1 & Hmark & Hback & Hlen).
unfold stamped. by rewrite Hmark.
Qed.

Lemma ai_mobility_counts r c x g :
length g = length (visited s) ->
ai_mobility r c (set_rng x (set_visited g s))
= Ok (Z.of_nat (length (legal_dests r c (boardSize s) g)),
      set_rng x (set_visited g s)).
Proof.
intros Hlen. unfold ai_mobility, countMobility. cbn [boardSize visited set_rng set_visited].
rewrite getLegalMoves_legal_dests by (unfold rows_cover in *; lia).
by rewrite !obind_Ok.
Qed.

(** Marking the cell a knight stands on does not change where it can go. *)
Lemma legal_dests_own_cell m w :
cell (visited s) m.1 m.2 = Some w ->
legal_dests m.1 m.2 (boardSize s) (stamped (visited s) m)
= legal_dests m.1 m.2 (boardSize s) (visited s).
Proof.
intros Hw. destruct (stamped_set m w Hw) as (Hmark & _ & Hlen).
pose proof (getLegalMoves_own_cell _ _ (boardSize s) _ _ _ Hmark) as Heq.
rewrite !getLegalMoves_legal_dests in Heq by (unfold rows_cover in *; lia).
by injection Heq.
Qed.

Lemma scoreMobility_onward m w x :
cell (visited s) m.1 m.2 = Some w ->
scoreMobility m.1 m.2 (set_rng x s) = Ok (onward s m, set_rng x s).
Proof.
intros Hw. destruct (stamped_set m w Hw) as (Hmark & Hback & Hlen).
unfold scoreMobility. rewrite <- (set_visited_same s x).
rewrite (ai_bind_Ok _ _ _ _ _ (ai_read_Ok s _ _ _ x _ Hw)).
rewrite (ai_bind_Ok _ _ _ _ _ (ai_write_Ok s _ _ 1 x _ _ Hmark)).
rewrite (ai_bind_Ok _ _ _ _ _ (ai_mobility_counts _ _ x _ Hlen)).
rewrite (ai_bind_Ok _ _ _ _ _ (ai_write_Ok s _ _ _ x _ _ Hback)).
unfold ai_ret, onward. by rewrite (legal_dests_own_cell m w Hw).
Qed.

End Scoring.

(** X26.  [scoreMobility] returns the number of legal destinations from
    [(r, c)] on the grid as it stands (the temporary mark on [(r, c)]
    itself changes nothing) and hands the state back exactly as it was,
    whatever the cell held. *)
Theorem scoreMobility_counts s r c w :
  rows_cover (boardSize s) (visited s) -> cell (visited s) r c = Some w ->
  scoreMobility r c s
  = Ok (Z.of_nat (length (legal_dests r c (boardSize s) (visited s))), s).
Proof.
  intros Hrows Hw.
  pose proof (scoreMobility_onward s Hrows (r, c) w (rng s) Hw) as Hrun.
  by rewrite set_rng_id in Hrun.
Qed.

Lemma scoreMobility_counts_witness :
  rows_cover (boardSize state_B) (visited state_B)
  /\ cell (visited state_B) 3 2 = Some 0
  /\ scoreMobility 3 2 state_B
     = Ok (Z.of_nat (length (legal_dests 3 2 (boardSize state_B) (visited state_B))),
           state_B)
  /\ length (legal_dests 3 2 (boardSize state_B) (visited state_B)) = 6%nat.
Proof.
  assert (rows_cover (boardSize state_B) (visited state_B)) as Hrows
    by (unfold rows_cover; cbn; lia).
  split; [exact Hrows|]. split; [reflexivity|].
  split; [exact (scoreMobility_counts state_B 3 2 0 Hrows eq_refl)|].
  vm_compute. reflexivity.
Defined.

(** ** The mobility strategy maximises onward mobility *)

Lemma leading_snoc {A} (value : Z * Z -> A) (le : A -> A -> Prop) start seen b acc :
  (exists m, acc = (Some m, value m) /\ m ∈ seen ++ [b]
             /\ forall m', m' ∈ seen ++ [b] -> le (value m') (value m)) ->
  leading value le start (seen ++ [b]) acc.
Proof. intros H. unfold leading. by destruct seen. Qed.

Lemma leading_choice {A} (value : Z * Z -> A) (le : A -> A -> Prop) start moves acc :
  moves <> [] -> leading value le start moves acc ->
  exists m, best_or_first acc.1 moves = Some m /\ m ∈ moves
            /\ forall m', m' ∈ moves -> le (value m') (value m).
Proof.
  intros Hne Hlead. unfold leading in Hlead. destruct moves as [|m0 moves]; [done|].
  destruct Hlead as (m & -> & Hm & Hmax). by exists m.
Qed.

Section Choosing.
Variables (s : GameState) (p : PlayerState) (moves : list (Z * Z)).
Hypothesis Hrows : rows_cover (boardSize s) (visited s).
Hypothesis Hlegal : Forall (legal_move s) moves.
Hypothesis Hmoves : moves <> [].

Lemma candidate_empty seen b rest :
moves = seen ++ b :: rest -> cell (visited s) b.1 b.2 = Some CELL.EMPTY.
Proof.
intros Hl. rewrite Forall_forall in Hlegal.
apply (Hlegal b). rewrite Hl. apply elem_of_app. right. by left.
Qed.

Lemma ai_rng_yields x : yields ai_rng (set_rng x s) (fun _ => True).
Proof.
unfold ai_rng, yields. cbn [rng set_rng].
destruct (Rng.call x) as [v y]. exists v, y. by rewrite set_rng_set_rng.
Qed.

Lemma onward_nonneg m : 0 <= onward s m.
Proof. unfold onward. lia. Qed.

Lemma mobility_step_leading seen b rest acc x :
moves = seen ++ b :: rest ->
leading (onward s) Z.le (-1) seen acc ->
yields (mobility_step acc b) (set_rng x s)
       (leading (onward s) Z.le (-1) (seen ++ [b])).
Proof.
intros Hl Hlead. pose proof (candidate_empty seen b rest Hl) as Hw.
destruct acc as [best bestScore], b as [r c]. unfold mobility_step.
eapply (yields_bind _ _ _ (fun mob => mob = onward s (r, c))).
{ exists (onward s (r, c)), x.
  pose proof (scoreMobility_onward s Hrows (r, c) _ x Hw) as Hrun.
  cbn [fst snd] in Hrun. by rewrite Hrun, set_rng_set_rng. }
intros mob y ->. pose proof (onward_nonneg (r, c)) as Hnn.
assert (forall m, m ∈ seen ++ [(r, c)] <-> m ∈ seen \/ m = (r, c)) as Hin.
{ intros m. by rewrite elem_of_app, list_elem_of_singleton. }
unfold leading in Hlead. destruct seen as [|m0 seen].
- injection Hlead as -> ->. rewrite decide_True by lia.
  apply yields_ret, (leading_snoc _ _ _ []). exists (r, c).
  split; [done|]. split; [by left|].
  intros m' ->%list_elem_of_singleton. done.
- destruct Hlead as (m & [= -> ->] & Hm & Hmax).
  assert (onward s m <= onward s (r, c) ->
          forall st, yields (ai_ret (Some (r, c), onward s (r, c))) st
            (leading (onward s) Z.le (-1) ((m0 :: seen) ++ [(r, c)]))) as Htake.
  { intros Hle st. apply yields_ret, leading_snoc. exists (r, c).
    split; [done|]. split; [apply Hin; by right|].
    intros m' [Hm' | ->]%Hin; [|done]. specialize (Hmax m' Hm'). lia. }
  assert (onward s (r, c) <= onward s m ->
          forall st, yields (ai_ret (Some m, onward s m)) st
            (leading (onward s) Z.le (-1) ((m0 :: seen) ++ [(r, c)]))) as Hkeep.
  { intros Hle st. apply yields_ret, leading_snoc. exists m.
    split; [done|]. split; [apply Hin; by left|].
    intros m' [Hm' | ->]%Hin; [by apply Hmax|done]. }
  case_decide as Hlt; [apply Htake; lia|].
  case_decide as Heq; [|apply Hkeep; lia].
  eapply (yields_bind _ _ _ (fun _ => True)); [exact (ai_rng_yields y)|].
  intros v z _. destruct (over_half v).
  + rewrite <- Heq. apply Htake. lia.
  + apply Hkeep. lia.
Qed.

Lemma mobility_leads :
exists m x, mobility p moves s = Ok (Some m, set_rng x s) /\ m ∈ moves
            /\ forall m', m' ∈ moves -> onward s m' <= onward s m.
Proof.
destruct (yields_foldl (leading (onward s) Z.le (-1)) mobility_step moves s)
  with (a := (@None (Z * Z), -1)) (x := rng s) as (acc & x & Hloop & Hlead).
{ intros seen b rest a x Hl Ha. by eapply mobility_step_leading. }
{ done. }
rewrite set_rng_id in Hloop.
destruct (leading_choice _ _ _ _ _ Hmoves Hlead) as (m & Hbest & Hm & Hmax).
exists m, x. unfold mobility. rewrite (ai_bind_Ok _ _ _ _ _ Hloop).
unfold ai_ret. by rewrite Hbest.
Qed.

End Choosing.

(** X27.  On a non-empty list of legal moves the mobility strategy
    returns one of the candidates, and none of the candidates has more
    onward moves than the one returned. *)
Theorem mobility_maximises s p moves :
  rows_cover (boardSize s) (visited s) ->
  Forall (legal_move s) moves -> moves <> [] ->
  exists m s', mobility p moves s = Ok (Some m, s') /\ m ∈ moves
    /\ forall m', m' ∈ moves ->
         (length (legal_dests m'.1 m'.2 (boardSize s) (visited s))
          <= length (legal_dests m.1 m.2 (boardSize s) (visited s)))%nat.
Proof.
  intros Hrows Hlegal Hmoves.
  destruct (mobility_leads s p moves Hrows Hlegal Hmoves) as (m & x & Hrun & Hm & Hmax).
  exists m, (set_rng x s). split; [done|]. split; [done|].
  intros m' Hm'. specialize (Hmax m' Hm'). unfold onward in Hmax. lia.
Qed.

Lemma mobility_maximises_witness :
  let moves := legal_dests 5 3 8 (visited state_B) in
  rows_cover (boardSize state_B) (visited state_B)
  /\ Forall (legal_move state_B) moves /\ moves <> []
  /\ exists m s', mobility player_B1 moves state_B = Ok (Some m, s') /\ m ∈ moves
       /\ forall m', m' ∈ moves ->
            (length (legal_dests m'.1 m'.2 (boardSize state_B) (visited state_B))
             <= length (legal_dests m.1 m.2 (boardSize state_B) (visited state_B)))%nat.
Proof.
  intros moves.
  assert (rows_cover (boardSize state_B) (visited state_B)) as H2
    by (unfold rows_cover; cbn; lia).
  assert (Forall (legal_move state_B) moves) as H3
    by (apply (bool_decide_unpack _); vm_compute; exact I).
  assert (moves <> []) as H4 by (vm_compute; congruence).
  split; [exact H2|]. split; [exact H3|]. split; [exact H4|].
  exact (mobility_maximises state_B player_B1 moves H2 H3 H4).
Defined.

(** ** The aggressor strategy maximises its blend *)

Section Aggression.
Variables (s : GameState) (p : PlayerState) (moves : list (Z * Z)).
Hypothesis Hrows : rows_cover (boardSize s) (visited s).
Hypothesis Hlegal : Forall (legal_move s) moves.
Hypothesis Hmoves : moves <> [].

Lemma opponents_fold {A} (f : A -> Z -> A) opponents x g :
length g = length (visited s) -> forall a,
ai_foldl (fun acc opp =>
            ai_bind (ai_mobility (row opp) (col opp))
                    (fun before => ai_ret (f acc before)))
         a opponents (set_rng x (set_visited g s))
= Ok (foldl (fun acc opp =>
               f acc (Z.of_nat (length (legal_dests (row opp) (col opp)
                                          (boardSize s) g))))
            a opponents,
      set_rng x (set_visited g s)).
Proof.
intros Hlen. induction opponents as [|opp opps IH]; intros a; cbn [ai_foldl foldl].
- done.
- rewrite (ai_bind_Ok _ _ _ _ _
             (ai_bind_Ok _ _ _ _ _ (ai_mobility_counts s Hrows _ _ x g Hlen))).
  unfold ai_ret at 1. apply IH.
Qed.

(** The pair the loop of the aggressor holds after a candidate that it
  takes, and the order in which it compares. *)
Lemma aggressor_step_leading opponents seen b rest acc x :
opponents = getOpponents s (pid p) ->
moves = seen ++ b :: rest ->
leading (fun m => Some (aggression s p m))
        (fun a1 a2 => default 0 a1 <= default 0 a2) None seen acc ->
yields (aggressor_step opponents acc b) (set_rng x s)
       (leading (fun m => Some (aggression s p m))
                (fun a1 a2 => default 0 a1 <= default 0 a2) None (seen ++ [b])).
Proof.
intros Hopp Hl Hlead. pose proof (candidate_empty s moves Hlegal seen b rest Hl) as Hw.
destruct acc as [best bestScore], b as [r c].
destruct (stamped_set s (r, c) _ Hw) as (Hmark & Hback & Hlen). cbn [fst snd] in *.
unfold aggressor_step, yields. rewrite <- (set_visited_same s x).
rewrite (ai_bind_Ok _ _ _ _ _ (ai_read_Ok s r c _ x _ Hw)).
rewrite (ai_bind_Ok _ _ _ _ _ (ai_write_Ok s r c 1 x _ _ Hmark)).
unfold opponents_reduction.
rewrite (ai_bind_Ok _ _ _ _ _
           (opponents_fold (fun reduction before => reduction + (8 - before))
              opponents x _ Hlen 0)).
rewrite (ai_bind_Ok _ _ _ _ _ (ai_mobility_counts s Hrows r c x _ Hlen)).
rewrite (ai_bind_Ok _ _ _ _ _ (ai_write_Ok s r c _ x _ _ Hback)).
rewrite set_visited_same.
assert (foldl (fun acc opp =>
                 acc + (8 - Z.of_nat (length (legal_dests (row opp) (col opp)
                                                (boardSize s)
                                                (stamped (visited s) (r, c))))))
              0 opponents * 2
        + Z.of_nat (length (legal_dests r c (boardSize s)
                              (stamped (visited s) (r, c))))
        = aggression s p (r, c)) as ->.
{ unfold aggression, reduction_at, onward. rewrite Hopp.
  pose proof (legal_dests_own_cell s Hrows (r, c) _ Hw) as Hown.
  cbn [fst snd] in *. by rewrite Hown. }
set (v := aggression s p (r, c)).
assert (forall m, m ∈ seen ++ [(r, c)] <-> m ∈ seen \/ m = (r, c)) as Hin.
{ intros m. by rewrite elem_of_app, list_elem_of_singleton. }
assert (forall st,
          (forall m', m' ∈ seen -> aggression s p m' <= v) ->
          exists a y, ai_ret (Some (r, c), Some v) st = Ok (a, set_rng y st)
            /\ leading (fun m => Some (aggression s p m))
                       (fun a1 a2 => default 0 a1 <= default 0 a2) None
                       (seen ++ [(r, c)]) a) as Htake.
{ intros st Hmax. apply (yields_ret _ st), leading_snoc. exists (r, c).
  split; [done|]. split; [apply Hin; by right|].
  intros m' [Hm' | ->]%Hin; cbn; [by apply Hmax|done]. }
unfold leading in Hlead. destruct seen as [|m0 seen].
- injection Hlead as -> ->. apply Htake. intros m' Hm'. by apply elem_of_nil in Hm'.
- destruct Hlead as (m & [= -> ->] & Hm & Hmax). cbn in Hmax.
  assert (forall st,
            v <= aggression s p m ->
            exists a y, ai_ret (Some m, Some (aggression s p m)) st
                        = Ok (a, set_rng y st)
              /\ leading (fun m => Some (aggression s p m))
                         (fun a1 a2 => default 0 a1 <= default 0 a2) None
                         ((m0 :: seen) ++ [(r, c)]) a) as Hkeep.
  { intros st Hle. apply (yields_ret _ st), leading_snoc. exists m.
    split; [done|]. split; [apply Hin; by left|].
    intros m' [Hm' | ->]%Hin; cbn; [by apply Hmax|done]. }
  assert (aggression s p m <= v -> forall m', m' ∈ m0 :: seen -> aggression s p m' <= v)
    as Hup.
  { intros Hle m' Hm'. specialize (Hmax m' Hm'). lia. }
  case_decide as Hlt; [apply Htake, Hup; lia|].
  case_decide as Heq; [|apply Hkeep; lia].
  apply (yields_bind _ _ _ (fun _ => True)); [exact (ai_rng_yields s x)|].
  intros q z _. destruct (over_half q).
  + apply Htake, Hup. lia.
  + apply Hkeep. lia.
Qed.

Lemma aggression_alone m : getOpponents s (pid p) = [] -> aggression s p m = onward s m.
Proof. intros E. unfold aggression, reduction_at. rewrite E. cbn. lia. Qed.

Lemma aggressor_leads :
exists m x, aggressor p moves s = Ok (Some m, set_rng x s) /\ m ∈ moves
            /\ forall m', m' ∈ moves -> aggression s p m' <= aggression s p m.
Proof.
unfold aggressor. destruct (getOpponents s (pid p)) as [|opp opps] eqn:E.
- destruct (mobility_leads s p moves Hrows Hlegal Hmoves) as (m & x & Hrun & Hm & Hmax).
  exists m, x. split; [done|]. split; [done|].
  intros m' Hm'. rewrite !aggression_alone by done. by apply Hmax.
- destruct (yields_foldl
              (leading (fun m => Some (aggression s p m))
                       (fun a1 a2 => default 0 a1 <= default 0 a2) None)
              (aggressor_step (opp :: opps)) moves s)
    with (a := (@None (Z * Z), @None Z)) (x := rng s) as (acc & x & Hloop & Hlead).
  { intros seen b rest a x Hl Ha. by eapply aggressor_step_leading. }
  { done. }
  rewrite set_rng_id in Hloop.
  destruct (leading_choice _ _ _ _ _ Hmoves Hlead) as (m & Hbest & Hm & Hmax).
  exists m, x. rewrite (ai_bind_Ok _ _ _ _ _ Hloop).
  unfold ai_ret. rewrite Hbest. split; [done|]. split; [done|].
  intros m' Hm'. by apply (Hmax m' Hm').
Qed.

End Aggression.

(** X28.  On a non-empty list of legal moves the aggressor strategy
    returns one of the candidates, and none of the candidates has a higher
    blend than the one returned: twice the moves that the living opponents
    have lost out of eight each once the candidate is marked, plus the
    onward moves of the candidate.  Without a living opponent this is the
    choice of the mobility strategy. *)
Theorem aggressor_maximises s p moves :
  rows_cover (boardSize s) (visited s) ->
  Forall (legal_move s) moves -> moves <> [] ->
  exists m s', aggressor p moves s = Ok (Some m, s') /\ m ∈ moves
    /\ forall m', m' ∈ moves -> aggression s p m' <= aggression s p m.
Proof.
  intros Hrows Hlegal Hmoves.
  destruct (aggressor_leads s p moves Hrows Hlegal Hmoves) as (m & x & Hrun & Hm & Hmax).
  by exists m, (set_rng x s).
Qed.

Lemma aggressor_maximises_witness :
  let moves := legal_dests 5 3 8 (visited state_B) in
  rows_cover (boardSize state_B) (visited state_B)
  /\ Forall (legal_move state_B) moves /\ moves <> []
  /\ exists m s', aggressor player_B1 moves state_B = Ok (Some m, s') /\ m ∈ moves
       /\ forall m', m' ∈ moves ->
            aggression state_B player_B1 m' <= aggression state_B player_B1 m.
Proof.
  intros moves.
  assert (rows_cover (boardSize state_B) (visited state_B)) as H2
    by (unfold rows_cover; cbn; lia).
  assert (Forall (legal_move state_B) moves) as H3
    by (apply (bool_decide_unpack _); vm_compute; exact I).
  assert (moves <> []) as H4 by (vm_compute; congruence).
  split; [exact H2|]. split; [exact H3|]. split; [exact H4|].
  exact (aggressor_maximises state_B player_B1 moves H2 H3 H4).
Defined.

(** ** Every strategy picks among the candidates *)

Section Balance.
Variables (s : GameState) (p : PlayerState) (moves : list (Z * Z)).
Hypothesis Hrows : rows_cover (boardSize s) (visited s).
Hypothesis Hlegal : Forall (legal_move s) moves.
Hypothesis Hmoves : moves <> [].

Lemma balanced_step_picks opponents mobWeight aggressWeight acc m x :
cell (visited s) m.1 m.2 = Some CELL.EMPTY ->
yields (balanced_step opponents mobWeight aggressWeight acc m) (set_rng x s)
       (fun acc' => acc' = acc \/ acc'.1 = Some m).
Proof.
intros Hw. destruct acc as [best bestScore], m as [r c]. cbn [fst snd] in Hw.
destruct (stamped_set s (r, c) _ Hw) as (Hmark & Hback & Hlen). cbn [fst snd] in *.
destruct (ai_rng_Ok s x (stamped (visited s) (r, c))) as (v & y & Hv).
unfold balanced_step, yields. rewrite <- (set_visited_same s x).
rewrite (ai_bind_Ok _ _ _ _ _ (ai_read_Ok s r c _ x _ Hw)).
rewrite (ai_bind_Ok _ _ _ _ _ (ai_write_Ok s r c 1 x _ _ Hmark)).
rewrite (ai_bind_Ok _ _ _ _ _ (ai_mobility_counts s Hrows r c x _ Hlen)).
rewrite (ai_bind_Ok _ _ _ _ _
           (opponents_fold s Hrows
              (fun aggress before =>
                 PrimFloat.add aggress (PrimFloat.mul (Z2f (8 - before)) aggressWeight))
              opponents x _ Hlen (Z2f 0))).
rewrite (ai_bind_Ok _ _ _ _ _ Hv).
rewrite (ai_bind_Ok _ _ _ _ _ (ai_write_Ok s r c _ y _ _ Hback)).
rewrite !set_visited_same.
destruct (PrimFloat.ltb _ _); unfold ai_ret; eexists _, y;
  (split; [by rewrite set_rng_set_rng|]); [by right|by left].
Qed.

Lemma balanced_leads :
exists m x, balanced p moves s = Ok (Some m, set_rng x s) /\ m ∈ moves.
Proof.
unfold balanced.
set (mw := PrimFloat.sub _ _). set (aw := PrimFloat.mul _ (Z2f 2)).
destruct (yields_foldl (fun seen acc => forall m, acc.1 = Some m -> m ∈ seen)
            (balanced_step (getOpponents s (pid p)) mw aw) moves s)
  with (a := (@None (Z * Z), PrimFloat.neg_infinity)) (x := rng s)
  as (acc & x & Hloop & Hpick).
{ intros seen b rest a x Hl Ha.
  eapply yields_impl;
    [apply balanced_step_picks; by eapply (candidate_empty s moves Hlegal)|].
  intros a' [-> | Hb] m Hm; apply elem_of_app.
  - left. by apply Ha.
  - right. rewrite Hb in Hm. injection Hm as ->. by left. }
{ done. }
rewrite set_rng_id in Hloop. rewrite (ai_bind_Ok _ _ _ _ _ Hloop). unfold ai_ret.
destruct acc as [[m|] sc]; cbn [fst best_or_first].
- exists m, x. split; [done|]. by apply Hpick.
- destruct moves as [|m0 rest]; [done|]. exists m0, x. split; [done|]. by left.
Qed.

End Balance.

Lemma strategy_leads strat s p moves :
  strat = mobility \/ strat = aggressor \/ strat = balanced ->
  rows_cover (boardSize s) (visited s) ->
  Forall (legal_move s) moves -> moves <> [] ->
  exists m x, strat p moves s = Ok (Some m, set_rng x s) /\ m ∈ moves.
Proof.
  intros [-> | [-> | ->]] Hrows Hlegal Hmoves.
  - destruct (mobility_leads s p moves Hrows Hlegal Hmoves) as (m & x & ? & ? & _). eauto.
  - destruct (aggressor_leads s p moves Hrows Hlegal Hmoves) as (m & x & ? & ? & _). eauto.
  - by apply balanced_leads.
Qed.

Lemma legal_dests_legal s r c :
  Forall (legal_move s) (legal_dests r c (boardSize s) (visited s)).
Proof. apply Forall_forall. intros d (_ & Hb & Hc)%legal_dests_spec. by split. Qed.

Lemma computeAiMove_chooses s k :
  rows_cover (boardSize s) (visited s) ->
  Forall (fun p => strategy_name p ∉ Object_prototype_keys) (players s) ->
  exists choice s',
    computeAiMove k s = Ok (choice, s')
    /\ visited s' = visited s /\ s' = set_rng (rng s') s
    /\ match list_find (fun p => pid p = k) (players s) with
       | Some (_, p) =>
           if decide (status p = ALIVE) then
             match choice with
             | Some m => m ∈ legal_dests (row p) (col p) (boardSize s) (visited s)
             | None => legal_dests (row p) (col p) (boardSize s) (visited s) = []
             end
           else choice = None
       | None => choice = None
       end.
Proof.
  intros Hrows Hnames. unfold computeAiMove.
  assert (s = set_rng (rng s) s) as Hid by (by destruct s).
  destruct (list_find _ (players s)) as [[i p]|] eqn:Hfind;
    [|by exists None, s].
  apply list_find_Some in Hfind as (Hp & _ & _).
  destruct (decide (status p = ALIVE)) as [Ha | Hn].
  2:{ rewrite decide_True by done. by exists None, s. }
  rewrite decide_False by (intros Hne; by apply Hne).
  rewrite getLegalMoves_legal_dests, obind_Ok by done.
  pose proof (legal_dests_legal s (row p) (col p)) as Hlegal.
  destruct (legal_dests (row p) (col p) (boardSize s) (visited s))
    as [|m1 [|m2 rest]] eqn:Hmoves.
  - by exists None, s.
  - exists (Some m1), s. repeat split; try done. by left.
  - rewrite Forall_forall in Hnames.
    rewrite decide_False by (apply Hnames; by eapply list_elem_of_lookup_2).
    destruct (strategy_leads (default mobility (STRATEGIES !! strategy_name p))
                s p (m1 :: m2 :: rest)) as (m & x & Hrun & Hm); try done.
    { destruct (STRATEGIES !! strategy_name p) as [strat|] eqn:E; [|by left].
      by apply STRATEGIES_lookup in E. }
    exists (Some m), (set_rng x s). by destruct s.
Qed.

(** X29.  [computeAiMove] answers null exactly when the first player with
    the given id is missing, not alive or without a legal move; otherwise it
    answers one of the legal moves of that player.  In every case the grid
    is handed back as it was and only the shared generator may have
    advanced.  (The players' strategy names are assumed not to be keys of
    [Object.prototype].) *)
Theorem computeAiMove_legal s k :
  rows_cover (boardSize s) (visited s) ->
  Forall (fun p => strategy_name p ∉ Object_prototype_keys) (players s) ->
  exists choice s',
    computeAiMove k s = Ok (choice, s')
    /\ visited s' = visited s /\ s' = set_rng (rng s') s
    /\ match list_find (fun p => pid p = k) (players s) with
       | Some (_, p) =>
           if decide (status p = ALIVE) then
             match choice with
             | Some m => m ∈ legal_dests (row p) (col p) (boardSize s) (visited s)
             | None => legal_dests (row p) (col p) (boardSize s) (visited s) = []
             end
           else choice = None
       | None => choice = None
       end.
Proof. exact (computeAiMove_chooses s k). Qed.

Lemma computeAiMove_legal_witness :
  rows_cover (boardSize state_D) (visited state_D)
  /\ Forall (fun p => strategy_name p ∉ Object_prototype_keys) (players state_D)
  /\ list_find (fun p => pid p = 1) (players state_D) = Some (1%nat, player_D1)
  /\ exists choice s',
       computeAiMove 1 state_D = Ok (choice, s')
       /\ visited s' = visited state_D /\ s' = set_rng (rng s') state_D
       /\ match list_find (fun p => pid p = 1) (players state_D) with
          | Some (_, p) =>
              if decide (status p = ALIVE) then
                match choice with
                | Some m => m ∈ legal_dests (row p) (col p) (boardSize state_D)
                                            (visited state_D)
                | None => legal_dests (row p) (col p) (boardSize state_D)
                                      (visited state_D) = []
                end
              else choice = None
          | None => choice = None
          end.
Proof.
  assert (rows_cover (boardSize state_D) (visited state_D)) as Hrows
    by (unfold rows_cover; cbn; lia).
  assert (Forall (fun p => strategy_name p ∉ Object_prototype_keys) (players state_D))
    as Hnames by (apply (bool_decide_unpack _); vm_compute; exact I).
  split; [exact Hrows|]. split; [exact Hnames|]. split; [reflexivity|].
  exact (computeAiMove_legal state_D 1 Hrows Hnames).
Defined.

(* ===================================================================== *)
(** * game.js: what the computer players submit                            *)
(* ===================================================================== *)

Lemma ofoldl_yields {A B} (P : list B -> A -> Prop) (f : A -> B -> outcome A) l :
  (forall seen b rest a,
     l = seen ++ b :: rest -> P seen a -> exists a', f a b = Ok a' /\ P (seen ++ [b]) a') ->
  forall a, P [] a -> exists a', ofoldl f a l = Ok a' /\ P l a'.
Proof.
  intros Hstep.
  assert (forall rest seen a,
            l = seen ++ rest -> P seen a ->
            exists a', ofoldl f a rest = Ok a' /\ P l a') as Hgen.
  { induction rest as [|b rest IH]; intros seen a Hl HP; cbn [ofoldl].
    - exists a. split; [done|]. by rewrite Hl, app_nil_r.
    - destruct (Hstep seen b rest a Hl HP) as (a1 & Hf & HP1).
      rewrite Hf, obind_Ok. apply (IH (seen ++ [b]) a1); [by rewrite <- app_assoc|done]. }
  intros a HP. by apply (Hgen l [] a).
Qed.

Lemma find_by_pid ps p :
  NoDup (pid <$> ps) -> p ∈ ps ->
  exists i, list_find (fun q => pid q = pid p) ps = Some (i, p).
Proof.
  intros Hnd Hin.
  destruct (list_find_elem_of (fun q => pid q = pid p) ps p Hin eq_refl) as [[i q] Hfind].
  exists i. rewrite Hfind.
  apply list_find_Some in Hfind as (Hq & Hpid & _).
  apply list_elem_of_lookup in Hin as [j Hj].
  assert (i = j) as -> by by eapply NoDup_pids_index.
  congruence.
Qed.

Lemma same_pid_same_player ps p q :
  NoDup (pid <$> ps) -> p ∈ ps -> q ∈ ps -> pid p = pid q -> p = q.
Proof.
  intros Hnd [i Hi]%list_elem_of_lookup [j Hj]%list_elem_of_lookup Heq.
  assert (i = j) as -> by by eapply NoDup_pids_index.
  congruence.
Qed.

Section Intents.
Variable s : GameState.
Hypothesis Hnd : NoDup (pid <$> players s).
Hypothesis Hrows : rows_cover (boardSize s) (visited s).
Hypothesis Hnames : Forall (fun p => strategy_name p ∉ Object_prototype_keys) (players s).

Lemma submitted_skip seen b rest a x :
players s = seen ++ b :: rest -> ~ cpu_to_move s b ->
submitted s seen a -> submitted s (seen ++ [b]) (set_rng x a).
Proof.
intros Hl Hb ((Hp & Hv & Hb') & Hlegal & Hsome & Hkeep).
split; [done|]. split; [exact Hlegal|]. split.
- intros p [Hin | ->%list_elem_of_singleton]%elem_of_app Hcpu; [by apply Hsome|done].
- intros p Hin [Hout | Hno]; apply Hkeep; try done; [|by right].
  left. intros ?. apply Hout, elem_of_app. by left.
Qed.

Lemma ai_intent_step seen b rest a :
players s = seen ++ b :: rest -> submitted s seen a ->
exists a', ai_intent a b = Ok a' /\ submitted s (seen ++ [b]) a'.
Proof.
intros Hl Hsub.
assert (b ∈ players s) as Hin by (rewrite Hl, elem_of_app; right; by left).
pose proof Hsub as ((Hp & Hv & Hsz) & Hlegal & Hsome & Hkeep).
unfold ai_intent.
destruct (isHuman b) eqn:Hhuman; cbn [negb andb].
{ exists a. split; [done|]. rewrite <- (set_rng_id a).
  apply submitted_skip with rest; try done. intros [? _]; congruence. }
case_bool_decide as Halive; cbn [negb andb].
2:{ exists a. split; [done|]. rewrite <- (set_rng_id a).
    apply submitted_skip with rest; try done. by intros (_ & ? & _). }
assert (rows_cover (boardSize a) (visited a)) as Hrows' by (by rewrite Hv, Hsz).
assert (Forall (fun p => strategy_name p ∉ Object_prototype_keys) (players a))
  as Hnames' by (by rewrite Hp).
destruct (computeAiMove_chooses a (pid b) Hrows' Hnames')
  as (choice & a1 & Hrun & _ & Ha1 & Hchoice).
rewrite Hp in Hchoice. destruct (find_by_pid _ b Hnd Hin) as [i Hfind].
rewrite Hfind, (decide_True _ _ Halive), Hv, Hsz in Hchoice.
rewrite Hrun, obind_Ok. destruct choice as [m|].
2:{ eexists. split; [done|]. rewrite Ha1.
    apply submitted_skip with rest; try done. by intros (_ & _ & ?). }
eexists. split; [done|]. rewrite Ha1.
unfold submitMove. rewrite cloneState_id. cbn.
split; [done|]. split; [|split].
- apply Forall_forall. intros q Hq Hqa d. cbn. rewrite Hp in Hq.
  destruct (decide (pid q = pid b)) as [Heq | Hne].
  + assert (q = b) as -> by by eapply same_pid_same_player.
    rewrite lookup_insert_eq. intros [= <-]. rewrite Hv, Hsz.
    by destruct m.
  + rewrite lookup_insert_ne by done. intros Hd.
    unfold legal_intents in Hlegal. rewrite Forall_forall in Hlegal.
    apply (Hlegal q); by rewrite ?Hp.
- intros p Hpin Hcpu. cbn.
  destruct (decide (pid p = pid b)) as [-> | Hne]; [by rewrite lookup_insert_eq|].
  rewrite lookup_insert_ne by done.
  apply elem_of_app in Hpin as [Hpin | ->%list_elem_of_singleton]; [by apply Hsome|done].
- intros p Hpin Hcase. cbn.
  assert (p <> b) as Hpb.
  { intros ->. destruct Hcase as [Hout | Hno].
    - apply Hout, elem_of_app. right. by left.
    - apply Hno. repeat split; try done. intros E. rewrite E in Hchoice.
      by apply elem_of_nil in Hchoice. }
  rewrite lookup_insert_ne
    by (intros Heq; apply Hpb; symmetry; by eapply same_pid_same_player).
  apply Hkeep; [done|]. destruct Hcase as [Hout | Hno]; [|by right].
  left. intros ?. apply Hout, elem_of_app. by left.
Qed.

Lemma ai_intents_submitted :
legal_intents s ->
exists s1, resolveWithAiMoves_intents s = Ok s1 /\ submitted s (players s) s1.
Proof.
intros Hlegal. unfold resolveWithAiMoves_intents.
apply (ofoldl_yields (submitted s) ai_intent (players s)).
- intros seen b rest a. apply ai_intent_step.
- split; [done|]. split; [done|]. split; [by intros p ?%elem_of_nil|done].
Qed.

End Intents.

(** X30.  The loop of [resolveWithAiMoves] (players with pairwise distinct
    ids, a grid with its rows, intents pending at entry all legal): it
    returns without raising, with the players and the grid as they were;
    every living computer player that has a legal move ends with a pending
    intent, every other player's pending intent is as at entry, and every
    pending intent of a living player is one of that player's legal moves. *)
Theorem ai_players_submit_legal_moves s :
  NoDup (pid <$> players s) ->
  rows_cover (boardSize s) (visited s) ->
  Forall (fun p => strategy_name p ∉ Object_prototype_keys) (players s) ->
  legal_intents s ->
  exists s1,
    resolveWithAiMoves_intents s = Ok s1
    /\ players s1 = players s /\ visited s1 = visited s
    /\ legal_intents s1
    /\ (forall p, p ∈ players s -> cpu_to_move s p ->
          is_Some (pendingMoves s1 !! pid p))
    /\ (forall p, p ∈ players s -> ~ cpu_to_move s p ->
          pendingMoves s1 !! pid p = pendingMoves s !! pid p).
Proof.
  intros Hnd Hrows Hnames Hlegal.
  destruct (ai_intents_submitted s Hnd Hrows Hnames Hlegal)
    as (s1 & Hrun & (Hp & Hv & _) & Hl1 & Hsome & Hkeep).
  exists s1. repeat split; try done.
  intros p Hin Hno. apply Hkeep; [done|by right].
Qed.

Lemma ai_players_submit_legal_moves_witness :
  NoDup (pid <$> players state_D)
  /\ rows_cover (boardSize state_D) (visited state_D)
  /\ Forall (fun p => strategy_name p ∉ Object_prototype_keys) (players state_D)
  /\ legal_intents state_D
  /\ exists s1,
       resolveWithAiMoves_intents state_D = Ok s1
       /\ players s1 = players state_D /\ visited s1 = visited state_D
       /\ legal_intents s1
       /\ (forall p, p ∈ players state_D -> cpu_to_move state_D p ->
             is_Some (pendingMoves s1 !! pid p))
       /\ (forall p, p ∈ players state_D -> ~ cpu_to_move state_D p ->
             pendingMoves s1 !! pid p = pendingMoves state_D !! pid p).
Proof.
  assert (NoDup (pid <$> players state_D)) as Hnd
    by (apply (bool_decide_unpack _); vm_compute; exact I).
  assert (rows_cover (boardSize state_D) (visited state_D)) as Hrows
    by (unfold rows_cover; cbn; lia).
  assert (Forall (fun p => strategy_name p ∉ Object_prototype_keys) (players state_D))
    as Hnames by (apply (bool_decide_unpack _); vm_compute; exact I).
  assert (legal_intents state_D) as Hlegal
    by (apply (bool_decide_unpack _); vm_compute; exact I).
  split; [exact Hnd|]. split; [exact Hrows|]. split; [exact Hnames|].
  split; [exact Hlegal|].
  exact (ai_players_submit_legal_moves state_D Hnd Hrows Hnames Hlegal).
Defined.
